(** * IP-XACT dependency graph tracker: model and properties

    A shallow embedding of the core of the [ipxact_graph] package:

    - [model.py]: the enumerations, the two schema tables, [ArtifactNode]
      and [DependencyEdge];
    - [graph_manager.py]: [GraphManager], on top of a model of the part of
      [networkx.DiGraph] it calls;
    - [mapping_validator.py]: [ValidationReport] and the three validation
      levels of [MappingValidator];
    - [change_detector.py]: [ChangeDetector].

    Python dictionaries keep insertion order and the code iterates over
    them, so they are association lists here.  Exceptions are values of
    [exn]; a method that can raise after it has mutated [self] returns the
    new state next to its outcome.  The records are typed as their
    annotations say; where the code would go on with a value of another
    type, the model stops ([partial]). *)

From Stdlib Require Import String Ascii List ZArith Bool Arith Lia Permutation Sorted.
Import ListNotations.
Open Scope string_scope.
Open Scope list_scope.

Set Implicit Arguments.

(* ====================================================================== *)
(** * Python values, exceptions, dictionaries                               *)
(* ====================================================================== *)

(** The values of a JSON document, as [json.loads] returns them: [None],
    booleans, integers, strings, lists, and dictionaries with string keys.
    One entry of [mapping_details] is a record of such values.  Numbers
    are integers; floating-point numbers are outside the model. *)
#[local] Unset Elimination Schemes.
Inductive pyval : Type :=
| VNone
| VBool (b : bool)
| VInt (z : Z)
| VStr (s : string)
| VList (l : list pyval)
| VDict (d : list (string * pyval)).
#[local] Set Elimination Schemes.

(** Truth value of an object in a condition ([if val:]). *)
Definition truthy (v : pyval) : bool :=
  match v with
  | VNone => false
  | VBool b => b
  | VInt z => negb (z =? 0)%Z
  | VStr s => negb (s =? "")
  | VList l => match l with [] => false | _ => true end
  | VDict d => match d with [] => false | _ => true end
  end.

(** [list] and [dict] objects cannot be members of a [set]. *)
Definition hashable (v : pyval) : bool :=
  match v with
  | VList _ | VDict _ => false
  | _ => true
  end.

(** [v == s] for a string [s]. *)
Definition val_is_str (v : pyval) (s : string) : bool :=
  match v with
  | VStr s' => s' =? s
  | _ => false
  end.

(** [==] between hashable values; [bool] is a subclass of [int]. *)
Definition int_of_bool (b : bool) : Z := if b then 1%Z else 0%Z.

Definition scalar_eqb (a b : pyval) : bool :=
  match a, b with
  | VNone, VNone => true
  | VStr s, VStr s' => s =? s'
  | VInt z, VInt z' => (z =? z')%Z
  | VBool x, VBool y => Bool.eqb x y
  | VBool x, VInt z | VInt z, VBool x => (int_of_bool x =? z)%Z
  | _, _ => false
  end.

(** [type(v).__name__] *)
Definition type_name (v : pyval) : string :=
  match v with
  | VNone => "NoneType"
  | VBool _ => "bool"
  | VInt _ => "int"
  | VStr _ => "str"
  | VList _ => "list"
  | VDict _ => "dict"
  end.

(** The values a [metadata] dictionary can hold in memory: those of a JSON
    document, and tuples.  Dictionary keys are strings; floating-point
    numbers and keys of another type are outside the model. *)
#[local] Unset Elimination Schemes.
Inductive pyobj : Type :=
| ONone
| OBool (b : bool)
| OInt (z : Z)
| OStr (s : string)
| OList (l : list pyobj)
| OTuple (l : list pyobj)
| ODict (d : list (string * pyobj)).
#[local] Set Elimination Schemes.

(** The document that [json.dumps] writes for a value: a tuple is written
    as an array, like a list. *)
Fixpoint json_of (o : pyobj) : pyval :=
  match o with
  | ONone => VNone
  | OBool b => VBool b
  | OInt z => VInt z
  | OStr s => VStr s
  | OList l | OTuple l => VList (map json_of l)
  | ODict d => VDict (map (fun kv : string * pyobj => let (k, v) := kv in (k, json_of v)) d)
  end.

(** The value that [json.loads] builds from a document: an array is read
    as a list. *)
Fixpoint of_json (v : pyval) : pyobj :=
  match v with
  | VNone => ONone
  | VBool b => OBool b
  | VInt z => OInt z
  | VStr s => OStr s
  | VList l => OList (map of_json l)
  | VDict d => ODict (map (fun kv : string * pyval => let (k, v) := kv in (k, of_json v)) d)
  end.


(** Induction on values, through the lists and dictionaries they hold. *)
Section PyvalInduction.
Variable P : pyval -> Prop.
Hypothesis HNone : P VNone.
Hypothesis HBool : forall b, P (VBool b).
Hypothesis HInt : forall z, P (VInt z).
Hypothesis HStr : forall s, P (VStr s).
Hypothesis HList : forall l, Forall P l -> P (VList l).
Hypothesis HDict : forall d, Forall (fun kv => P (snd kv)) d -> P (VDict d).

End PyvalInduction.

Section PyobjInduction.
Variable P : pyobj -> Prop.
Hypothesis HNone : P ONone.
Hypothesis HBool : forall b, P (OBool b).
Hypothesis HInt : forall z, P (OInt z).
Hypothesis HStr : forall s, P (OStr s).
Hypothesis HList : forall l, Forall P l -> P (OList l).
Hypothesis HTuple : forall l, Forall P l -> P (OTuple l).
Hypothesis HDict : forall d, Forall (fun kv => P (snd kv)) d -> P (ODict d).

End PyobjInduction.

Inductive exn : Type :=
| KeyError (msg : string)
| ValueError (msg : string)
| TypeError (msg : string)
| RuntimeError (msg : string)
| NetworkXError (msg : string)
| FileNotFoundError (msg : string).

Inductive result (A : Type) : Type :=
| Ok (a : A)
| Raise (e : exn).
Arguments Ok {A} a.
Arguments Raise {A} e.

Definition bind {A B : Type} (m : result A) (k : A -> result B) : result B :=
  match m with
  | Ok a => k a
  | Raise e => Raise e
  end.

Notation "x <- m ;; k" := (bind m (fun x => k))
  (at level 61, m at next level, right associativity).

(** A [for] loop whose body can raise: the first exception ends it. *)
Fixpoint for_each {A S : Type} (body : S -> A -> result S) (l : list A) (s : S)
  : result S :=
  match l with
  | [] => Ok s
  | a :: l' => s' <- body s a ;; for_each body l' s'
  end.

Definition is_ok {A : Type} (r : result A) : bool :=
  match r with Ok _ => true | Raise _ => false end.

(** A computation that the model follows only so far: [None] where it
    stops following the code (a loop whose fuel is spent, a value that the
    typed records below cannot hold).  [None] is no outcome of the code:
    nothing is stated about the call then. *)
Definition partial (A : Type) : Type := option (result A).

Definition pbind {A B : Type} (m : partial A) (k : A -> partial B) : partial B :=
  match m with
  | None => None
  | Some (Raise e) => Some (Raise e)
  | Some (Ok a) => k a
  end.

Notation "x <~ m ;; k" := (pbind m (fun x => k))
  (at level 61, m at next level, right associativity).

(** A step that the model follows: it returns or raises. *)
Definition known {A : Type} (r : result A) : partial A := Some r.

(** A value read at the type its annotation gives, if it has that type. *)
Definition typed {A : Type} (o : option A) : partial A :=
  match o with
  | Some a => Some (Ok a)
  | None => None
  end.

Fixpoint pfor_each {A S : Type} (body : S -> A -> partial S) (l : list A) (s : S)
  : partial S :=
  match l with
  | [] => Some (Ok s)
  | a :: l' => s' <~ body s a ;; pfor_each body l' s'
  end.

Section Dict.
Variable V : Type.

(** A [dict] with [str] keys, in insertion order. *)
Definition dict := list (string * V).

(** [{}] *)
Definition dict_empty : dict := [].

Fixpoint dict_get (k : string) (d : dict) : option V :=
  match d with
  | [] => None
  | (k', v) :: d' => if k =? k' then Some v else dict_get k d'
  end.

(** [k in d] *)
Definition dict_mem (k : string) (d : dict) : bool :=
  match dict_get k d with Some _ => true | None => false end.

(** [d[k] = v]: a key that is present keeps its place. *)
Fixpoint dict_set (k : string) (v : V) (d : dict) : dict :=
  match d with
  | [] => [(k, v)]
  | (k', v') :: d' =>
      if k =? k' then (k, v) :: d' else (k', v') :: dict_set k v d'
  end.

(** [del d[k]]: the entry of [k] goes.  Every call below is on a key
    known to be present, where Python does not raise. *)
Definition dict_del (k : string) (d : dict) : dict :=
  filter (fun kv => negb (fst kv =? k)) d.

Definition dict_keys (d : dict) : list string := map fst d.
Definition dict_values (d : dict) : list V := map snd d.

(** [d.get(k, default)] *)
Definition dict_get_or (k : string) (default : V) (d : dict) : V :=
  match dict_get k d with Some v => v | None => default end.

(** [d.update(other)] *)
Definition dict_update (d other : dict) : dict :=
  fold_left (fun acc kv => dict_set (fst kv) (snd kv) acc) other d.

(** Keys of a real dictionary are pairwise distinct. *)
Definition dict_wf (d : dict) : Prop := NoDup (dict_keys d).
End Dict.

Arguments dict_empty {V}.
Arguments dict_get {V} k d.
Arguments dict_mem {V} k d.
Arguments dict_set {V} k v d.
Arguments dict_del {V} k d.
Arguments dict_keys {V} d.
Arguments dict_values {V} d.
Arguments dict_get_or {V} k default d.
Arguments dict_update {V} d other.
Arguments dict_wf {V} d.

(* ====================================================================== *)
(** * The text of a string in a message                                     *)
(* ====================================================================== *)

Definition double_quote : ascii := ascii_of_nat 34.
Definition backslash : ascii := ascii_of_nat 92.

(** [c in s], for a character [c]. *)
Fixpoint occurs (c : ascii) (s : string) : bool :=
  match s with
  | EmptyString => false
  | String a s' => Ascii.eqb a c || occurs c s'
  end.

Definition hex_digit (n : nat) : ascii :=
  nth n (list_ascii_of_string "0123456789abcdef") "0"%char.

(** How [repr] writes one character between quotes [quote].  Whether a
    character beyond ASCII is written as it is or escaped depends on
    Unicode tables that are not modelled: [None]. *)
Definition repr_char (quote c : ascii) : option string :=
  let n := nat_of_ascii c in
  if Ascii.eqb c quote || Ascii.eqb c backslash then
    Some (String backslash (String c ""))
  else if (n =? 9)%nat then Some (String backslash "t")
  else if (n =? 10)%nat then Some (String backslash "n")
  else if (n =? 13)%nat then Some (String backslash "r")
  else if (n <? 32)%nat || (n =? 127)%nat then
    Some (String backslash
            (String "x" (String (hex_digit (n / 16)) (String (hex_digit (n mod 16)) ""))))
  else if (n <? 127)%nat then Some (String c "")
  else None.

Fixpoint repr_chars (quote : ascii) (s : string) : option string :=
  match s with
  | EmptyString => Some ""
  | String c s' =>
      match repr_char quote c, repr_chars quote s' with
      | Some a, Some b => Some (a ++ b)%string
      | _, _ => None
      end
  end.

(** [repr(s)]: between single quotes, or between double quotes when [s]
    has a single quote and no double quote. *)
Definition repr (s : string) : option string :=
  let quote :=
    if occurs "'" s && negb (occurs double_quote s) then double_quote else "'"%char in
  match repr_chars quote s with
  | Some body => Some (String quote (body ++ String quote ""))
  | None => None
  end.

(* ====================================================================== *)
(** * model.py: enumerations                                                *)
(* ====================================================================== *)

(** The [ValueError] of an enumeration called on a string that is the
    value of no member: [f"{value!r} is not a valid {cls.__qualname__}"]. *)
Definition not_a_valid {A : Type} (s enum : string) : partial A :=
  match repr s with
  | Some r => Some (Raise (ValueError (r ++ " is not a valid " ++ enum)))
  | None => None
  end.

Inductive NodeType : Type :=
| IPXACT_COMPONENT | IPXACT_DESIGN | IPXACT_DESIGN_CONFIG
| IPXACT_ABSTRACTION_DEF | IPXACT_CATALOG | IPXACT_GENERATOR_CHAIN
| SDC_CONSTRAINT | UPF_POWER | CDC_CONSTRAINT | RESET_SCHEME
| RTL_SOURCE | FPGA_SOURCE | RTL_WRAPPER | RTL_FILELIST
| REGISTER_MAP | UVM_RAL_MODEL | C_HEADER | REGISTER_DOC | MEMORY_MAP
| LINKER_SCRIPT | ADDRESS_DECODE
| BUS_VIP_CONFIG | PROTOCOL_CHECKER | TESTBENCH_TOP
| PIN_MAPPING | FLOORPLAN_CONSTRAINT | IO_PAD_CONFIG | DEF_LEF_CONSTRAINT
| EDA_SCRIPT | VENDOR_EXTENSION
| CONFIG_PARAM | DOCUMENTATION.

Scheme Equality for NodeType.

Definition NodeType_value (t : NodeType) : string :=
  match t with
  | IPXACT_COMPONENT => "ipxact_component"
  | IPXACT_DESIGN => "ipxact_design"
  | IPXACT_DESIGN_CONFIG => "ipxact_design_config"
  | IPXACT_ABSTRACTION_DEF => "ipxact_abstraction_def"
  | IPXACT_CATALOG => "ipxact_catalog"
  | IPXACT_GENERATOR_CHAIN => "ipxact_generator_chain"
  | SDC_CONSTRAINT => "sdc_constraint"
  | UPF_POWER => "upf_power"
  | CDC_CONSTRAINT => "cdc_constraint"
  | RESET_SCHEME => "reset_scheme"
  | RTL_SOURCE => "rtl_source"
  | FPGA_SOURCE => "fpga_source"
  | RTL_WRAPPER => "rtl_wrapper"
  | RTL_FILELIST => "rtl_filelist"
  | REGISTER_MAP => "register_map"
  | UVM_RAL_MODEL => "uvm_ral_model"
  | C_HEADER => "c_header"
  | REGISTER_DOC => "register_doc"
  | MEMORY_MAP => "memory_map"
  | LINKER_SCRIPT => "linker_script"
  | ADDRESS_DECODE => "address_decode"
  | BUS_VIP_CONFIG => "bus_vip_config"
  | PROTOCOL_CHECKER => "protocol_checker"
  | TESTBENCH_TOP => "testbench_top"
  | PIN_MAPPING => "pin_mapping"
  | FLOORPLAN_CONSTRAINT => "floorplan_constraint"
  | IO_PAD_CONFIG => "io_pad_config"
  | DEF_LEF_CONSTRAINT => "def_lef_constraint"
  | EDA_SCRIPT => "eda_script"
  | VENDOR_EXTENSION => "vendor_extension"
  | CONFIG_PARAM => "config_param"
  | DOCUMENTATION => "documentation"
  end.

Definition all_NodeType : list NodeType :=
  [ IPXACT_COMPONENT; IPXACT_DESIGN; IPXACT_DESIGN_CONFIG;
    IPXACT_ABSTRACTION_DEF; IPXACT_CATALOG; IPXACT_GENERATOR_CHAIN;
    SDC_CONSTRAINT; UPF_POWER; CDC_CONSTRAINT; RESET_SCHEME;
    RTL_SOURCE; FPGA_SOURCE; RTL_WRAPPER; RTL_FILELIST;
    REGISTER_MAP; UVM_RAL_MODEL; C_HEADER; REGISTER_DOC; MEMORY_MAP;
    LINKER_SCRIPT; ADDRESS_DECODE;
    BUS_VIP_CONFIG; PROTOCOL_CHECKER; TESTBENCH_TOP;
    PIN_MAPPING; FLOORPLAN_CONSTRAINT; IO_PAD_CONFIG; DEF_LEF_CONSTRAINT;
    EDA_SCRIPT; VENDOR_EXTENSION; CONFIG_PARAM; DOCUMENTATION ].

(** [NodeType(s)]: the member whose value is [s]; [ValueError] if none. *)
Definition NodeType_of_value (s : string) : partial NodeType :=
  match find (fun t => NodeType_value t =? s) all_NodeType with
  | Some t => Some (Ok t)
  | None => not_a_valid s "NodeType"
  end.

Inductive EdgeType : Type :=
| GENERATES | CONSTRAINS | REFERENCES | MAPS_TO | DERIVES_FROM
| CONFIGURES | INSTANTIATES | ABSTRACTS | VALIDATES.

Definition EdgeType_value (t : EdgeType) : string :=
  match t with
  | GENERATES => "generates"
  | CONSTRAINS => "constrains"
  | REFERENCES => "references"
  | MAPS_TO => "maps_to"
  | DERIVES_FROM => "derives_from"
  | CONFIGURES => "configures"
  | INSTANTIATES => "instantiates"
  | ABSTRACTS => "abstracts"
  | VALIDATES => "validates"
  end.

Definition all_EdgeType : list EdgeType :=
  [ GENERATES; CONSTRAINS; REFERENCES; MAPS_TO; DERIVES_FROM;
    CONFIGURES; INSTANTIATES; ABSTRACTS; VALIDATES ].

Definition EdgeType_of_value (s : string) : partial EdgeType :=
  match find (fun t => EdgeType_value t =? s) all_EdgeType with
  | Some t => Some (Ok t)
  | None => not_a_valid s "EdgeType"
  end.

Inductive Domain : Type :=
| FRONTEND | VERIFICATION | DFT | PHYSICAL_DESIGN | SIGNOFF
| FPGA_TRANSLATION | FIRMWARE | GLOBAL.

Definition Domain_value (d : Domain) : string :=
  match d with
  | FRONTEND => "frontend_design"
  | VERIFICATION => "verification"
  | DFT => "dft"
  | PHYSICAL_DESIGN => "physical_design"
  | SIGNOFF => "signoff"
  | FPGA_TRANSLATION => "fpga_translation"
  | FIRMWARE => "firmware"
  | GLOBAL => "global"
  end.

Definition all_Domain : list Domain :=
  [ FRONTEND; VERIFICATION; DFT; PHYSICAL_DESIGN; SIGNOFF;
    FPGA_TRANSLATION; FIRMWARE; GLOBAL ].

Definition Domain_of_value (s : string) : partial Domain :=
  match find (fun t => Domain_value t =? s) all_Domain with
  | Some t => Some (Ok t)
  | None => not_a_valid s "Domain"
  end.

(** The values of [MappingCategory] that the tables and checks use. *)
Module MappingCategory.
Definition PORT_NAMING := "port_naming".
Definition CLOCK_DOMAIN := "clock_domain".
Definition CLOCK_CONSTRAINT := "clock_constraint".
Definition RESET_DOMAIN := "reset_domain".
Definition RESET_CONSTRAINT := "reset_constraint".
Definition IO_TIMING := "io_timing".
Definition FALSE_PATH := "false_path".
Definition MULTICYCLE_PATH := "multicycle_path".
Definition CLOCK_GROUP := "clock_group".
Definition POWER_DOMAIN := "power_domain".
Definition ISOLATION_STRATEGY := "isolation_strategy".
Definition RETENTION_STRATEGY := "retention_strategy".
Definition LEVEL_SHIFTER := "level_shifter".
Definition BUS_INTERFACE := "bus_interface".
Definition MEMORY_MAP := "memory_map_mapping".
Definition REGISTER_BLOCK := "register_block".
Definition ADDRESS_SPACE := "address_space".
Definition CDC_CROSSING := "cdc_crossing".
Definition PIN_ASSIGNMENT := "pin_assignment".
Definition HIERARCHY_MAPPING := "hierarchy_mapping".
Definition FILELIST_ENTRY := "filelist_entry".
End MappingCategory.

(* ====================================================================== *)
(** * model.py: schema tables                                               *)
(* ====================================================================== *)

(** One entry of [EXPECTED_MAPPING_FIELDS]; [conditional] is what
    [schema.get("conditional", False)] reads. *)
Record schema : Type := mk_schema {
  category_of : string;
  required_fields : list string;
  description_of : string;
  conditional : bool
}.

Definition mandatory (c : string) (f : list string) (d : string) : schema :=
  mk_schema c f d false.
Definition optional (c : string) (f : list string) (d : string) : schema :=
  mk_schema c f d true.

(** [EXPECTED_MAPPING_FIELDS.get((src, tgt))] *)
Definition EXPECTED_MAPPING_FIELDS (src tgt : NodeType) : option (list schema) :=
  match src, tgt with
  | IPXACT_COMPONENT, SDC_CONSTRAINT => Some
      [ mandatory MappingCategory.CLOCK_DOMAIN
          ["ipxact_clock_port"; "sdc_clock_name"; "period_ns";
           "uncertainty_setup"; "uncertainty_hold"]
          "Each IP-XACT clock port must map to a create_clock command";
        mandatory MappingCategory.IO_TIMING
          ["ipxact_port"; "sdc_command"; "clock_domain"; "max_delay"; "min_delay"]
          "Each I/O port must have input/output delay constraints";
        mandatory MappingCategory.FALSE_PATH
          ["ipxact_port_or_domain"; "sdc_false_path_spec"]
          "Async signals (resets, async inputs) must have false paths";
        optional MappingCategory.CLOCK_GROUP
          ["group_name"; "clock_list"; "relationship"]
          "Multiple clocks must define clock groups (async/exclusive)";
        optional MappingCategory.MULTICYCLE_PATH
          ["from_signal"; "to_signal"; "multiplier"; "clock_domain"]
          "Multicycle paths between slow/fast domains" ]
  | IPXACT_COMPONENT, UPF_POWER => Some
      [ mandatory MappingCategory.POWER_DOMAIN
          ["ipxact_component"; "upf_power_domain"; "supply_net_vdd"; "supply_net_vss"]
          "Each component must map to a power domain";
        optional MappingCategory.ISOLATION_STRATEGY
          ["power_domain"; "isolation_signal"; "isolation_sense"; "isolation_location"]
          "Isolation cells for domain boundaries";
        optional MappingCategory.RETENTION_STRATEGY
          ["power_domain"; "retention_signal"; "retention_registers"]
          "Retention strategy for power-gated domains";
        optional MappingCategory.LEVEL_SHIFTER
          ["from_domain"; "to_domain"; "shifter_type"]
          "Level shifters between voltage domains" ]
  | IPXACT_COMPONENT, RTL_WRAPPER => Some
      [ mandatory MappingCategory.PORT_NAMING
          ["ipxact_port"; "rtl_port"; "direction"; "width"]
          "Every IP-XACT port must map to an RTL port" ]
  | IPXACT_COMPONENT, CDC_CONSTRAINT => Some
      [ mandatory MappingCategory.CDC_CROSSING
          ["from_clock_domain"; "to_clock_domain"; "crossing_type"; "sync_scheme"]
          "Each clock domain crossing must be documented" ]
  | IPXACT_COMPONENT, RESET_SCHEME => Some
      [ mandatory MappingCategory.RESET_DOMAIN
          ["ipxact_reset_port"; "reset_domain"; "polarity"; "sync_async"]
          "Each reset port maps to a reset domain";
        mandatory MappingCategory.RESET_CONSTRAINT
          ["reset_domain"; "associated_clock"; "deassert_timing"]
          "Reset deassertion timing relative to clock" ]
  | IPXACT_COMPONENT, REGISTER_MAP => Some
      [ mandatory MappingCategory.REGISTER_BLOCK
          ["register_name"; "offset"; "width"; "access_type"; "reset_value"]
          "Each register in IP-XACT memory map must be mapped";
        mandatory MappingCategory.ADDRESS_SPACE
          ["address_space_name"; "base_address"; "range"; "bus_interface"]
          "Address space mapping for each bus interface" ]
  | REGISTER_MAP, UVM_RAL_MODEL => Some
      [ mandatory MappingCategory.REGISTER_BLOCK
          ["register_name"; "ral_class_name"; "access_type"; "field_list"]
          "Each register must produce a RAL register class" ]
  | REGISTER_MAP, C_HEADER => Some
      [ mandatory MappingCategory.REGISTER_BLOCK
          ["register_name"; "c_define_name"; "offset_hex"; "field_masks"]
          "Each register must produce C #defines" ]
  | IPXACT_COMPONENT, PIN_MAPPING => Some
      [ mandatory MappingCategory.PIN_ASSIGNMENT
          ["ipxact_port"; "physical_pin"; "pad_type"; "io_standard"]
          "Each top-level port must map to a physical pin" ]
  | IPXACT_DESIGN, FLOORPLAN_CONSTRAINT => Some
      [ mandatory MappingCategory.HIERARCHY_MAPPING
          ["instance_name"; "component_ref"; "placement_region"; "area_estimate"]
          "Each instance must have placement constraints" ]
  | IPXACT_COMPONENT, RTL_FILELIST => Some
      [ mandatory MappingCategory.FILELIST_ENTRY
          ["file_path"; "file_type"; "compile_order"]
          "All source files listed with correct compile order" ]
  | IPXACT_COMPONENT, BUS_VIP_CONFIG => Some
      [ mandatory MappingCategory.BUS_INTERFACE
          ["bus_interface_name"; "protocol"; "vip_type"; "config_params"]
          "Each bus interface must have VIP configuration" ]
  | FPGA_SOURCE, IPXACT_COMPONENT => Some
      [ mandatory MappingCategory.PORT_NAMING
          ["customer_port"; "ipxact_port"; "direction"; "width"; "rename_reason"]
          "Each customer FPGA port maps to standardised IP-XACT port";
        mandatory MappingCategory.CLOCK_DOMAIN
          ["customer_clock"; "ipxact_clock_domain"; "frequency_mhz"]
          "Customer clock signals map to IP-XACT clock domains";
        mandatory MappingCategory.RESET_DOMAIN
          ["customer_reset"; "ipxact_reset_domain"; "polarity"]
          "Customer reset signals map to IP-XACT reset domains" ]
  | SDC_CONSTRAINT, SDC_CONSTRAINT => Some
      [ mandatory MappingCategory.CLOCK_DOMAIN
          ["source_clock"; "target_clock_reference"; "false_path_defined"]
          "DFT/signoff SDC must reference same clocks as main SDC" ]
  | IPXACT_COMPONENT, MEMORY_MAP => Some
      [ mandatory MappingCategory.MEMORY_MAP
          ["memory_map_name"; "address_block"; "base_address"; "range"]
          "Each IP-XACT memory map must produce decode logic" ]
  | MEMORY_MAP, ADDRESS_DECODE => Some
      [ mandatory MappingCategory.ADDRESS_SPACE
          ["address_block"; "decode_select_signal"; "base_address"; "range"]
          "Each address block needs decode logic" ]
  | MEMORY_MAP, LINKER_SCRIPT => Some
      [ mandatory MappingCategory.ADDRESS_SPACE
          ["memory_region"; "origin_address"; "length"; "access_permissions"]
          "Each memory region maps to linker MEMORY section" ]
  | IPXACT_ABSTRACTION_DEF, BUS_VIP_CONFIG => Some
      [ mandatory MappingCategory.BUS_INTERFACE
          ["abstraction_name"; "protocol_version"; "port_map_list";
           "vip_parameter_overrides"]
          "Abstraction definition drives VIP parameterisation" ]
  | IPXACT_ABSTRACTION_DEF, PROTOCOL_CHECKER => Some
      [ mandatory MappingCategory.BUS_INTERFACE
          ["abstraction_name"; "checker_rules"; "port_connections"]
          "Abstraction drives protocol checker configuration" ]
  | _, _ => None
  end.

Definition IPXACT_ELEMENT_EXPECTED_OUTPUTS : dict (list NodeType) :=
  [ ("clocks", [SDC_CONSTRAINT; CDC_CONSTRAINT]);
    ("resets", [RESET_SCHEME; SDC_CONSTRAINT]);
    ("bus_interfaces", [BUS_VIP_CONFIG; RTL_WRAPPER]);
    ("memory_maps",
      [REGISTER_MAP; UVM_RAL_MODEL; C_HEADER; REGISTER_DOC; ADDRESS_DECODE]);
    ("ports", [RTL_WRAPPER; RTL_FILELIST; DOCUMENTATION]);
    ("power_domains", [UPF_POWER]);
    ("top_level_ports", [PIN_MAPPING]) ].

(* ====================================================================== *)
(** * model.py: data classes                                                *)
(* ====================================================================== *)

(** [ArtifactNode].  The two private cache fields that [compute_hash]
    writes ([_file_hash], [_last_checked]) are read nowhere else and are
    not persisted; they are left out. *)
Record ArtifactNode : Type := mk_node {
  node_id : string;
  name : string;
  node_type : NodeType;
  domain : Domain;
  file_path : option string;
  description : string;
  eda_tool : string;
  version : string;
  tags : list string;
  metadata : dict pyobj;
  defined_elements : dict (list string)
}.

(** [DependencyEdge]; its [domain] and [metadata] fields are
    [edge_domain] and [edge_metadata] here. *)
Record DependencyEdge : Type := mk_edge {
  source_id : string;
  target_id : string;
  edge_type : EdgeType;
  label : string;
  edge_domain : Domain;
  edge_metadata : dict pyobj;
  mapping_details : list (dict pyval)
}.

(** The f-string [{source}--{edge_type.value}-->{target}]. *)
Definition make_edge_id (s : string) (t : EdgeType) (d : string) : string :=
  s ++ "--" ++ EdgeType_value t ++ "-->" ++ d.

Definition edge_id (e : DependencyEdge) : string :=
  make_edge_id (source_id e) (edge_type e) (target_id e).

(* ====================================================================== *)
(** * networkx.DiGraph, as far as the package calls it                      *)
(* ====================================================================== *)

(** A [DiGraph] keeps three dictionaries: node attributes, successors and
    predecessors; it holds at most one edge per ordered pair of nodes.
    Attribute dictionaries hold strings here. *)
Definition attrs := dict string.

Record DiGraph : Type := mk_digraph {
  _node : dict attrs;
  _succ : dict (dict attrs);
  _pred : dict (dict attrs)
}.

Definition nx_empty : DiGraph := mk_digraph dict_empty dict_empty dict_empty.

(** [d[k]] updated in place by [f]; nothing happens on a missing key. *)
Definition dict_adjust {V : Type} (k : string) (f : V -> V) (d : dict V) : dict V :=
  match dict_get k d with
  | Some v => dict_set k (f v) d
  | None => d
  end.

(** [n in G] *)
Definition nx_has_node (G : DiGraph) (n : string) : bool := dict_mem n (_node G).

(** [G.add_node(n, attributes)] *)
Definition nx_add_node (n : string) (a : attrs) (G : DiGraph) : DiGraph :=
  if dict_mem n (_succ G) then
    mk_digraph (dict_adjust n (fun old => dict_update old a) (_node G))
               (_succ G) (_pred G)
  else
    mk_digraph (dict_set n (dict_update dict_empty a) (_node G))
               (dict_set n dict_empty (_succ G))
               (dict_set n dict_empty (_pred G)).

(** [G.nodes[n].update(attributes)]: [KeyError] on a node that is not there. *)
Definition nx_update_node (n : string) (a : attrs) (G : DiGraph) : result DiGraph :=
  match dict_get n (_node G) with
  | Some old =>
      Ok (mk_digraph (dict_set n (dict_update old a) (_node G)) (_succ G) (_pred G))
  | None => Raise (KeyError n)
  end.

(** The implicit node creation at the start of [add_edge]. *)
Definition nx_ensure_node (n : string) (G : DiGraph) : DiGraph :=
  if dict_mem n (_succ G) then G
  else mk_digraph (dict_set n dict_empty (_node G))
                  (dict_set n dict_empty (_succ G))
                  (dict_set n dict_empty (_pred G)).

(** [G.add_edge(u, v, attributes)]: an edge [u -> v] that exists keeps its place
    and has its attributes updated. *)
Definition nx_add_edge (u v : string) (a : attrs) (G : DiGraph) : DiGraph :=
  let G1 := nx_ensure_node u G in
  let G2 := nx_ensure_node v G1 in
  let datadict := dict_update (dict_get_or v dict_empty (dict_get_or u dict_empty (_succ G2))) a in
  mk_digraph (_node G2)
             (dict_adjust u (dict_set v datadict) (_succ G2))
             (dict_adjust v (dict_set u datadict) (_pred G2)).

(** [G.remove_edge(u, v)]: both deletions sit in one [try]; a missing
    key becomes [NetworkXError]. *)
Definition nx_remove_edge (u v : string) (G : DiGraph) : DiGraph * result unit :=
  let not_found :=
    NetworkXError ("The edge " ++ u ++ "-" ++ v ++ " not in graph.") in
  match dict_get u (_succ G) with
  | None => (G, Raise not_found)
  | Some su =>
      if dict_mem v su then
        let G1 := mk_digraph (_node G) (dict_set u (dict_del v su) (_succ G)) (_pred G) in
        match dict_get v (_pred G1) with
        | None => (G1, Raise not_found)
        | Some pv =>
            if dict_mem u pv then
              (mk_digraph (_node G1) (_succ G1) (dict_set v (dict_del u pv) (_pred G1)),
               Ok tt)
            else (G1, Raise not_found)
        end
      else (G, Raise not_found)
  end.

(** [G.remove_node(n)]: the node goes, then every edge into or out of it.
    The library keeps [_pred] the mirror image of [_succ], so the inner
    deletions find their keys. *)
Definition nx_remove_node (n : string) (G : DiGraph) : DiGraph * result unit :=
  match dict_get n (_succ G) with
  | None => (G, Raise (NetworkXError ("The node " ++ n ++ " is not in the digraph.")))
  | Some nbrs =>
      if dict_mem n (_node G) then
        let node1 := dict_del n (_node G) in
        let pred1 :=
          fold_left (fun p u => dict_adjust u (dict_del n) p) (dict_keys nbrs) (_pred G) in
        let succ1 := dict_del n (_succ G) in
        let succ2 :=
          fold_left (fun s u => dict_adjust u (dict_del n) s)
                    (dict_keys (dict_get_or n dict_empty pred1)) succ1 in
        let pred2 := dict_del n pred1 in
        (mk_digraph node1 succ2 pred2, Ok tt)
      else (G, Raise (NetworkXError ("The node " ++ n ++ " is not in the digraph.")))
  end.

(** [list(G.successors(n))] and [list(G.predecessors(n))] *)
Definition nx_successors (G : DiGraph) (n : string) : result (list string) :=
  match dict_get n (_succ G) with
  | Some m => Ok (dict_keys m)
  | None => Raise (NetworkXError ("The node " ++ n ++ " is not in the digraph."))
  end.

Definition nx_predecessors (G : DiGraph) (n : string) : result (list string) :=
  match dict_get n (_pred G) with
  | Some m => Ok (dict_keys m)
  | None => Raise (NetworkXError ("The node " ++ n ++ " is not in the digraph."))
  end.

(** [G.edges[u, v].get("edge_type", "")] *)
Definition nx_edge_type (G : DiGraph) (u v : string) : result string :=
  match dict_get u (_succ G) with
  | Some m =>
      match dict_get v m with
      | Some a => Ok (dict_get_or "edge_type" "" a)
      | None => Raise (KeyError v)
      end
  | None => Raise (KeyError u)
  end.

(* ====================================================================== *)
(** * graph_manager.py                                                      *)
(* ====================================================================== *)

Record GraphManager : Type := mk_gm {
  _graph : DiGraph;
  _nodes : dict ArtifactNode;
  _edges : dict DependencyEdge
}.

(** [GraphManager()] *)
Definition gm_init : GraphManager := mk_gm nx_empty dict_empty dict_empty.

Definition node_attrs (node : ArtifactNode) : attrs :=
  [ ("label", name node);
    ("node_type", NodeType_value (node_type node));
    ("domain", Domain_value (domain node));
    ("eda_tool", eda_tool node) ].

Definition edge_attrs (edge : DependencyEdge) : attrs :=
  [ ("edge_type", EdgeType_value (edge_type edge));
    ("label", label edge);
    ("domain", Domain_value (edge_domain edge)) ].

Definition add_node (node : ArtifactNode) (g : GraphManager)
  : GraphManager * result unit :=
  if dict_mem (node_id node) (_nodes g) then
    (g, Raise (ValueError
                 ("Node '" ++ node_id node ++ "' already exists. Use update_node().")))
  else
    (mk_gm (nx_add_node (node_id node) (node_attrs node) (_graph g))
           (dict_set (node_id node) node (_nodes g))
           (_edges g),
     Ok tt).

Definition update_node (node : ArtifactNode) (g : GraphManager)
  : GraphManager * result unit :=
  if negb (dict_mem (node_id node) (_nodes g)) then
    (g, Raise (KeyError ("Node '" ++ node_id node ++ "' not found.")))
  else
    let nodes' := dict_set (node_id node) node (_nodes g) in
    match nx_update_node (node_id node) (node_attrs node) (_graph g) with
    | Ok G' => (mk_gm G' nodes' (_edges g), Ok tt)
    | Raise e => (mk_gm (_graph g) nodes' (_edges g), Raise e)
    end.

Definition touches (nid : string) (e : DependencyEdge) : bool :=
  (source_id e =? nid) || (target_id e =? nid).

Definition remove_node (nid : string) (g : GraphManager)
  : GraphManager * result unit :=
  if negb (dict_mem nid (_nodes g)) then
    (g, Raise (KeyError ("Node '" ++ nid ++ "' not found.")))
  else
    let edges_to_remove :=
      map fst (filter (fun kv => touches nid (snd kv)) (_edges g)) in
    let edges' := fold_left (fun d eid => dict_del eid d) edges_to_remove (_edges g) in
    match nx_remove_node nid (_graph g) with
    | (G', Ok _) => (mk_gm G' (dict_del nid (_nodes g)) edges', Ok tt)
    | (G', Raise e) => (mk_gm G' (_nodes g) edges', Raise e)
    end.

Definition get_node (nid : string) (g : GraphManager) : result ArtifactNode :=
  match dict_get nid (_nodes g) with
  | Some n => Ok n
  | None => Raise (KeyError ("Node '" ++ nid ++ "' not found."))
  end.

Definition add_edge (edge : DependencyEdge) (g : GraphManager)
  : GraphManager * result unit :=
  if negb (dict_mem (source_id edge) (_nodes g)) then
    (g, Raise (KeyError ("Source node '" ++ source_id edge ++ "' not found.")))
  else if negb (dict_mem (target_id edge) (_nodes g)) then
    (g, Raise (KeyError ("Target node '" ++ target_id edge ++ "' not found.")))
  else
    let eid := edge_id edge in
    if dict_mem eid (_edges g) then
      (g, Raise (ValueError ("Edge '" ++ eid ++ "' already exists.")))
    else
      (mk_gm (nx_add_edge (source_id edge) (target_id edge) (edge_attrs edge) (_graph g))
             (_nodes g)
             (dict_set eid edge (_edges g)),
       Ok tt).

Definition remove_edge (src tgt : string) (et : EdgeType) (g : GraphManager)
  : GraphManager * result unit :=
  let eid := make_edge_id src et tgt in
  if negb (dict_mem eid (_edges g)) then
    (g, Raise (KeyError ("Edge '" ++ eid ++ "' not found.")))
  else
    let edges' := dict_del eid (_edges g) in
    let (G', r) := nx_remove_edge src tgt (_graph g) in
    (mk_gm G' (_nodes g) edges', r).

Definition get_edges_from (g : GraphManager) (nid : string) : list DependencyEdge :=
  filter (fun e => source_id e =? nid) (dict_values (_edges g)).

Definition get_edges_to (g : GraphManager) (nid : string) : list DependencyEdge :=
  filter (fun e => target_id e =? nid) (dict_values (_edges g)).

Definition all_nodes (g : GraphManager) : dict ArtifactNode := _nodes g.
Definition all_edges (g : GraphManager) : dict DependencyEdge := _edges g.

Definition predecessors (g : GraphManager) (nid : string) : result (list string) :=
  nx_predecessors (_graph g) nid.

Definition successors (g : GraphManager) (nid : string) : result (list string) :=
  nx_successors (_graph g) nid.

(** The file system as [save] and [load] use it: at a path, no regular
    file, or a file that holds a JSON document.  [json.dumps] writes a
    value of [pyval] and [json.loads] reads it back as the same value; a
    tuple is written as an array and comes back as a list ([json_of],
    [of_json]).  Files that hold no JSON document are outside the
    model. *)
Definition jsonfs := string -> option pyval.

Definition write_text (path : string) (doc : pyval) (fs : jsonfs) : jsonfs :=
  fun p => if p =? path then Some doc else fs p.

(** [json.dumps] of a [metadata] dictionary. *)
Definition json_of_dict (d : dict pyobj) : pyval :=
  VDict (map (fun kv => (fst kv, json_of (snd kv))) d).

(** [json.loads] of the document of a dictionary. *)
Definition dict_of_json (d : dict pyval) : dict pyobj :=
  map (fun kv => (fst kv, of_json (snd kv))) d.

(** The documents of the two kinds of record of the [data] dictionary
    that [save] hands to [json.dumps]. *)
Definition node_record (n : ArtifactNode) : pyval :=
  VDict [ ("node_id", VStr (node_id n));
          ("name", VStr (name n));
          ("node_type", VStr (NodeType_value (node_type n)));
          ("domain", VStr (Domain_value (domain n)));
          ("file_path", match file_path n with Some p => VStr p | None => VNone end);
          ("description", VStr (description n));
          ("eda_tool", VStr (eda_tool n));
          ("version", VStr (version n));
          ("tags", VList (map VStr (tags n)));
          ("metadata", json_of_dict (metadata n)) ].

Definition edge_record (e : DependencyEdge) : pyval :=
  VDict [ ("source_id", VStr (source_id e));
          ("target_id", VStr (target_id e));
          ("edge_type", VStr (EdgeType_value (edge_type e)));
          ("label", VStr (label e));
          ("domain", VStr (Domain_value (edge_domain e)));
          ("metadata", json_of_dict (edge_metadata e));
          ("mapping_details", VList (map VDict (mapping_details e))) ].

Definition save_data (g : GraphManager) : pyval :=
  VDict [ ("nodes", VList (map node_record (dict_values (_nodes g))));
          ("edges", VList (map edge_record (dict_values (_edges g)))) ].

Definition save (g : GraphManager) (path : string) (fs : jsonfs) : jsonfs :=
  write_text path (save_data g) fs.

(** [d[k]] *)
Definition getitem (k : string) (d : dict pyval) : result pyval :=
  match dict_get k d with
  | Some v => Ok v
  | None => Raise (KeyError k)
  end.

(** The dictionary that [v] is, if [v[k]] with a string [k] is to do
    anything but raise [TypeError]. *)
Definition subscriptable (v : pyval) : result (dict pyval) :=
  match v with
  | VDict d => Ok d
  | VList _ => Raise (TypeError "list indices must be integers or slices, not str")
  | VStr _ => Raise (TypeError "string indices must be integers, not 'str'")
  | _ => Raise (TypeError ("'" ++ type_name v ++ "' object is not subscriptable"))
  end.

(** [v[k]] *)
Definition subscript (v : pyval) (k : string) : result pyval :=
  d <- subscriptable v ;; getitem k d.

(** The elements that [for x in v] meets: those of a list, the keys of a
    dictionary, the characters of a string. *)
Definition iterate (v : pyval) : result (list pyval) :=
  match v with
  | VList l => Ok l
  | VDict d => Ok (map VStr (dict_keys d))
  | VStr s => Ok (map (fun c => VStr (String c "")) (list_ascii_of_string s))
  | _ => Raise (TypeError ("'" ++ type_name v ++ "' object is not iterable"))
  end.

(** A field read at the type that its dataclass annotation gives.  Python
    does not check annotations: on a snapshot whose field has another
    JSON type the code goes on, with an object that the typed records
    [ArtifactNode] and [DependencyEdge] cannot hold.  The model does not
    follow it there. *)
Definition as_str (v : pyval) : option string :=
  match v with VStr s => Some s | _ => None end.

Definition as_opt_str (v : pyval) : option (option string) :=
  match v with
  | VNone => Some None
  | VStr s => Some (Some s)
  | _ => None
  end.

Definition as_dict (v : pyval) : option (dict pyval) :=
  match v with VDict d => Some d | _ => None end.

Fixpoint map_option {A B : Type} (f : A -> option B) (l : list A) : option (list B) :=
  match l with
  | [] => Some []
  | a :: l' =>
      match f a, map_option f l' with
      | Some b, Some bs => Some (b :: bs)
      | _, _ => None
      end
  end.

Definition as_list_of {A : Type} (f : pyval -> option A) (v : pyval) : option (list A) :=
  match v with VList l => map_option f l | _ => None end.

(** An enumeration called on a field of a record. *)
Definition enum_of {A : Type} (lookup : string -> partial A) (v : pyval) : partial A :=
  s <~ typed (as_str v) ;; lookup s.

(** The records of a list, one after the other. *)
Fixpoint map_partial {A B : Type} (f : A -> partial B) (l : list A) : partial (list B) :=
  match l with
  | [] => Some (Ok [])
  | a :: l' => b <~ f a ;; bs <~ map_partial f l' ;; Some (Ok (b :: bs))
  end.

(** [ArtifactNode(node_id=nd["node_id"], ...)]: the arguments are
    evaluated in their order, where a subscript or an enumeration can
    raise; then the node is made. *)
Definition node_of_record (nd : pyval) : partial ArtifactNode :=
  d <~ known (subscriptable nd) ;;
  v_id <~ known (getitem "node_id" d) ;;
  v_name <~ known (getitem "name" d) ;;
  v_type <~ known (getitem "node_type" d) ;;
  ty <~ enum_of NodeType_of_value v_type ;;
  v_domain <~ known (getitem "domain" d) ;;
  dom <~ enum_of Domain_of_value v_domain ;;
  id <~ typed (as_str v_id) ;;
  nm <~ typed (as_str v_name) ;;
  fp <~ typed (as_opt_str (dict_get_or "file_path" VNone d)) ;;
  descr <~ typed (as_str (dict_get_or "description" (VStr "") d)) ;;
  tool <~ typed (as_str (dict_get_or "eda_tool" (VStr "") d)) ;;
  ver <~ typed (as_str (dict_get_or "version" (VStr "1.0") d)) ;;
  tgs <~ typed (as_list_of as_str (dict_get_or "tags" (VList []) d)) ;;
  meta <~ typed (as_dict (dict_get_or "metadata" (VDict []) d)) ;;
  Some (Ok (mk_node id nm ty dom fp descr tool ver tgs (dict_of_json meta) [])).

Definition edge_of_record (ed : pyval) : partial DependencyEdge :=
  d <~ known (subscriptable ed) ;;
  v_src <~ known (getitem "source_id" d) ;;
  v_tgt <~ known (getitem "target_id" d) ;;
  v_type <~ known (getitem "edge_type" d) ;;
  ty <~ enum_of EdgeType_of_value v_type ;;
  dom <~ enum_of Domain_of_value (dict_get_or "domain" (VStr "global") d) ;;
  src <~ typed (as_str v_src) ;;
  tgt <~ typed (as_str v_tgt) ;;
  lbl <~ typed (as_str (dict_get_or "label" (VStr "") d)) ;;
  meta <~ typed (as_dict (dict_get_or "metadata" (VDict []) d)) ;;
  details <~ typed (as_list_of as_dict (dict_get_or "mapping_details" (VList []) d)) ;;
  Some (Ok (mk_edge src tgt ty lbl dom (dict_of_json meta) details)).

(** A call whose exception is not caught: the state is kept only when the
    call returns. *)
Definition returned (r : GraphManager * result unit) : result GraphManager :=
  match r with
  | (g, Ok _) => Ok g
  | (_, Raise e) => Raise e
  end.

(** [GraphManager.load(path)]; [path] is the text of the [Path] object.
    The two loops run over whatever [data["nodes"]] and [data["edges"]]
    are. *)
Definition load (path : string) (fs : jsonfs) : partial GraphManager :=
  match fs path with
  | None => Some (Raise (FileNotFoundError ("Graph file not found: " ++ path)))
  | Some data =>
      v_nodes <~ known (subscript data "nodes") ;;
      nds <~ known (iterate v_nodes) ;;
      gm <~ pfor_each (fun gm nd => node <~ node_of_record nd ;;
                                    known (returned (add_node node gm)))
                      nds gm_init ;;
      v_edges <~ known (subscript data "edges") ;;
      eds <~ known (iterate v_edges) ;;
      pfor_each (fun gm ed => edge <~ edge_of_record ed ;;
                              known (returned (add_edge edge gm)))
                eds gm
  end.

(* ====================================================================== *)
(** * mapping_validator.py: reports                                         *)
(* ====================================================================== *)

Inductive Severity : Type := PASS | WARNING | FAIL | INFO.

Definition Severity_eqb (a b : Severity) : bool :=
  match a, b with
  | PASS, PASS | WARNING, WARNING | FAIL, FAIL | INFO, INFO => true
  | _, _ => false
  end.

(** A percentage as the code computes it, [round(100.0 * num / den, 1)],
    or the literal [100.0] it returns when there is nothing to divide by.
    The binary rounding is not evaluated: the two operands are kept. *)
Inductive percentage : Type :=
| Hundred
| Rounded (num den : nat).

(** [round(100.0 * num / total, 1) if total > 0 else 100.0] *)
Definition percent_of (num total : nat) : percentage :=
  if (total =? 0)%nat then Hundred else Rounded num total.

(** The percentage is exactly [tenths / 10], a value with one decimal that
    the rounding leaves alone. *)
Definition pct_exactly (p : percentage) (tenths : nat) : Prop :=
  match p with
  | Hundred => tenths = 1000
  | Rounded n d => d <> 0 /\ 1000 * n = tenths * d
  end.

(** The pieces an f-string puts together: literal text, [str] of a string,
    an integer, and [repr] of a list. *)
Inductive frag : Type :=
| Lit (s : string)
| FStr (s : string)
| FInt (n : nat)
| FStrs (l : list string)
| FVals (l : list pyval).

(** Values of a [details] dictionary. *)
Inductive detail : Type :=
| DStr (s : string)
| DInt (n : nat)
| DStrs (l : list string)
| DVals (l : list pyval)
| DPct (p : percentage).

(** [ValidationItem]; its [node_id] and [target_id] are [item_node] and
    [item_target] here. *)
Record ValidationItem : Type := mk_item {
  severity : Severity;
  category : string;
  item_node : string;
  item_target : string;
  mapping_category : string;
  message : list frag;
  details : dict detail
}.

(** [timestamp] is the reading of [time.time()] when the report object
    is made. *)
Record ValidationReport : Type := mk_report {
  timestamp : Z;
  items : list ValidationItem
}.

Definition with_severity (s : Severity) (l : list ValidationItem) : list ValidationItem :=
  filter (fun i => Severity_eqb (severity i) s) l.

Definition passes (r : ValidationReport) := with_severity PASS (items r).
Definition warnings (r : ValidationReport) := with_severity WARNING (items r).
Definition failures (r : ValidationReport) := with_severity FAIL (items r).

Definition is_valid (r : ValidationReport) : bool :=
  (length (failures r) =? 0)%nat.

Definition coverage_pct (r : ValidationReport) : percentage :=
  let total := length (passes r) + length (failures r) in
  if (total =? 0)%nat then Hundred else Rounded (length (passes r)) total.

(** [item.mapping_category or item.category] *)
Definition reported_category (i : ValidationItem) : string :=
  if mapping_category i =? "" then category i else mapping_category i.

Definition cat_stats (l : list ValidationItem) : dict (nat * nat) :=
  fold_left
    (fun stats item =>
       match severity item with
       | PASS =>
           let cat := reported_category item in
           let st := dict_get_or cat (0, 0) stats in
           dict_set cat (S (fst st), snd st) stats
       | FAIL =>
           let cat := reported_category item in
           let st := dict_get_or cat (0, 0) stats in
           dict_set cat (fst st, S (snd st)) stats
       | _ => stats
       end)
    l [].

Record category_stats : Type := mk_category_stats {
  cs_pass : nat;
  cs_fail : nat;
  cs_coverage_pct : percentage
}.

Record failure_detail : Type := mk_failure_detail {
  fd_node : string;
  fd_target : string;
  fd_category : string;
  fd_message : list frag
}.

(** The dictionary returned by [summary()], which [save] writes out. *)
Record Summary : Type := mk_summary {
  s_timestamp : Z;
  s_overall_valid : bool;
  s_overall_coverage_pct : percentage;
  s_total_checks : nat;
  s_passes : nat;
  s_warnings : nat;
  s_failures : nat;
  s_category_coverage : dict category_stats;
  s_failure_details : list failure_detail
}.

Definition summary (r : ValidationReport) : Summary :=
  let category_coverage :=
    map (fun kv =>
           let '(cat, (p, f)) := kv in
           (cat, mk_category_stats p f (percent_of p (p + f))))
        (cat_stats (items r)) in
  mk_summary (timestamp r) (is_valid r) (coverage_pct r)
             (length (items r)) (length (passes r)) (length (warnings r))
             (length (failures r))
             category_coverage
             (map (fun f => mk_failure_detail (item_node f) (item_target f)
                                              (reported_category f) (message f))
                  (failures r)).

(* ====================================================================== *)
(** * mapping_validator.py: level 1, structural completeness                *)
(* ====================================================================== *)

(** The arrow of the messages, U+2192 in UTF-8. *)
Definition arrow : string :=
  String (ascii_of_nat 226) (String (ascii_of_nat 134) (String (ascii_of_nat 146) "")).

Definition l1_warning (nid : string) (node : ArtifactNode) : ValidationItem :=
  mk_item WARNING "structural" nid "" ""
    [ Lit "IP-XACT node '"; FStr (name node);
      Lit "' has no defined_elements. Cannot validate structural completeness. Populate defined_elements dict with clocks, resets, bus_interfaces, memory_maps, ports, power_domains." ]
    [].

Definition l1_pass (nid : string) (node : ArtifactNode) (element_key : string)
    (expected_type : NodeType) : ValidationItem :=
  mk_item PASS "structural" nid "" element_key
    [ Lit "Edge exists: "; FStr (name node); Lit (" " ++ arrow ++ " ");
      FStr (NodeType_value expected_type) ]
    [].

Definition l1_fail (nid : string) (node : ArtifactNode) (element_key : string)
    (element_values : list string) (expected_type : NodeType) : ValidationItem :=
  mk_item FAIL "structural" nid "" element_key
    [ Lit "MISSING EDGE: '"; FStr (name node); Lit "' defines "; FStr element_key;
      Lit " ("; FStrs element_values; Lit ") but has NO edge to any ";
      FStr (NodeType_value expected_type);
      Lit " node. This mapping must be established to prevent downstream errors." ]
    [ ("element_key", DStr element_key);
      ("element_values", DStrs element_values);
      ("expected_target_type", DStr (NodeType_value expected_type)) ].

(** The special case at the top of the innermost loop. *)
Definition cdc_not_required (element_key : string) (element_values : list string)
    (expected_type : NodeType) : bool :=
  NodeType_beq expected_type CDC_CONSTRAINT
  && (element_key =? "clocks")
  && (length element_values <=? 1)%nat.

(** Body of [for expected_type in expected_outputs]. *)
Definition l1_expected (nid : string) (node : ArtifactNode)
    (target_types : list NodeType) (element_key : string)
    (element_values : list string)
    (report : list ValidationItem) (expected_type : NodeType) : list ValidationItem :=
  if cdc_not_required element_key element_values expected_type then report
  else if existsb (NodeType_beq expected_type) target_types then
    report ++ [l1_pass nid node element_key expected_type]
  else
    report ++ [l1_fail nid node element_key element_values expected_type].

(** Body of [for element_key, element_values in node.defined_elements.items()]. *)
Definition l1_element (nid : string) (node : ArtifactNode)
    (target_types : list NodeType)
    (report : list ValidationItem) (kv : string * list string) : list ValidationItem :=
  let (element_key, element_values) := kv in
  match element_values with
  | [] => report
  | _ =>
      fold_left (l1_expected nid node target_types element_key element_values)
                (dict_get_or element_key [] IPXACT_ELEMENT_EXPECTED_OUTPUTS)
                report
  end.

(** [{nodes[e.target_id].node_type for e in outgoing if e.target_id in nodes}] *)
Definition target_types_of (nodes : dict ArtifactNode) (outgoing : list DependencyEdge)
  : list NodeType :=
  flat_map (fun e => match dict_get (target_id e) nodes with
                     | Some t => [node_type t]
                     | None => []
                     end)
           outgoing.

(** Body of [for nid, node in nodes.items()]. *)
Definition l1_node (g : GraphManager)
    (report : list ValidationItem) (kv : string * ArtifactNode) : list ValidationItem :=
  let (nid, node) := kv in
  match node_type node with
  | IPXACT_COMPONENT | IPXACT_DESIGN =>
      match defined_elements node with
      | [] => report ++ [l1_warning nid node]
      | elements =>
          let outgoing := get_edges_from g nid in
          let target_types := target_types_of (all_nodes g) outgoing in
          fold_left (l1_element nid node target_types) elements report
      end
  | _ => report
  end.

Definition _level1_structural (g : GraphManager) (report : list ValidationItem)
  : list ValidationItem :=
  fold_left (l1_node g) (all_nodes g) report.

(* ====================================================================== *)
(** * mapping_validator.py: level 2, field-level completeness               *)
(* ====================================================================== *)

(** [s.add(v)] on a set kept in insertion order. *)
Definition set_add (v : pyval) (s : list pyval) : list pyval :=
  if existsb (scalar_eqb v) s then s else s ++ [v].

(** The [TypeError] of [s.add(v)] for a list or a dictionary [v]. *)
Definition unhashable (v : pyval) : exn :=
  TypeError ("unhashable type: '" ++ type_name v ++ "'").

(** The loop that fills [present_categories]; the set is not used
    afterwards, but adding a list or a dictionary to it raises. *)
Definition present_categories (mapping : list (dict pyval)) : result (list pyval) :=
  for_each (fun present md =>
              let cat := dict_get_or "category" (VStr "") md in
              if truthy cat then
                if hashable cat then Ok (set_add cat present)
                else Raise (unhashable cat)
              else Ok present)
           mapping [].

(** [md.get("category") == cat] *)
Definition has_category (cat : string) (md : dict pyval) : bool :=
  match dict_get "category" md with
  | Some v => val_is_str v cat
  | None => false
  end.

(** [f not in entry or entry[f] is None or entry[f] == ""] *)
Definition field_missing (entry : dict pyval) (f : string) : bool :=
  match dict_get f entry with
  | None => true
  | Some VNone => true
  | Some (VStr s) => s =? ""
  | Some _ => false
  end.

Definition l2_info (edge : DependencyEdge) (src tgt : ArtifactNode) : ValidationItem :=
  mk_item INFO "field_level" (source_id edge) (target_id edge) ""
    [ Lit "No mapping schema defined for "; FStr (NodeType_value (node_type src));
      Lit (" " ++ arrow ++ " "); FStr (NodeType_value (node_type tgt));
      Lit ". Consider adding one to EXPECTED_MAPPING_FIELDS." ]
    [].

Definition l2_warning (edge : DependencyEdge) (src tgt : ArtifactNode) (sc : schema)
  : ValidationItem :=
  mk_item WARNING "field_level" (source_id edge) (target_id edge) (category_of sc)
    [ Lit "Conditional mapping '"; FStr (category_of sc); Lit "' not present in ";
      FStr (name src); Lit (" " ++ arrow ++ " "); FStr (name tgt);
      Lit ". Verify this is intentionally omitted. ("; FStr (description_of sc); Lit ")" ]
    [].

Definition l2_fail_category (edge : DependencyEdge) (src tgt : ArtifactNode) (sc : schema)
  : ValidationItem :=
  mk_item FAIL "field_level" (source_id edge) (target_id edge) (category_of sc)
    [ Lit "MISSING MAPPING CATEGORY: '"; FStr (category_of sc);
      Lit "' not found in mapping_details for ";
      FStr (name src); Lit (" " ++ arrow ++ " "); FStr (name tgt);
      Lit ". Required fields: "; FStrs (required_fields sc);
      Lit ". ("; FStr (description_of sc); Lit ")" ]
    [ ("required_fields", DStrs (required_fields sc)) ].

Definition l2_fail_entry (edge : DependencyEdge) (src tgt : ArtifactNode) (sc : schema)
    (idx : nat) (entry : dict pyval) (missing_fields : list string) : ValidationItem :=
  mk_item FAIL "field_level" (source_id edge) (target_id edge) (category_of sc)
    [ Lit "INCOMPLETE MAPPING: '"; FStr (category_of sc); Lit "' entry #"; FInt idx;
      Lit " in "; FStr (name src); Lit (" " ++ arrow ++ " "); FStr (name tgt);
      Lit " is missing fields: "; FStrs missing_fields ]
    [ ("entry_index", DInt idx);
      ("missing_fields", DStrs missing_fields);
      ("present_fields", DStrs (dict_keys entry)) ].

Definition l2_pass (edge : DependencyEdge) (src tgt : ArtifactNode) (sc : schema)
    (idx : nat) : ValidationItem :=
  mk_item PASS "field_level" (source_id edge) (target_id edge) (category_of sc)
    [ Lit "Mapping complete: '"; FStr (category_of sc); Lit "' entry #"; FInt idx;
      Lit " in "; FStr (name src); Lit (" " ++ arrow ++ " "); FStr (name tgt) ]
    [].

(** [enumerate(l)] *)
Definition enumerate {A : Type} (l : list A) : list (nat * A) :=
  combine (seq 0 (length l)) l.

(** Body of [for idx, entry in enumerate(matching_entries)]. *)
Definition l2_entry (edge : DependencyEdge) (src tgt : ArtifactNode) (sc : schema)
    (report : list ValidationItem) (ie : nat * dict pyval) : list ValidationItem :=
  let (idx, entry) := ie in
  match filter (field_missing entry) (required_fields sc) with
  | [] => report ++ [l2_pass edge src tgt sc idx]
  | missing_fields => report ++ [l2_fail_entry edge src tgt sc idx entry missing_fields]
  end.

(** Body of [for schema in schemas]. *)
Definition l2_schema (edge : DependencyEdge) (src tgt : ArtifactNode)
    (report : list ValidationItem) (sc : schema) : list ValidationItem :=
  match filter (has_category (category_of sc)) (mapping_details edge) with
  | [] =>
      if conditional sc then report ++ [l2_warning edge src tgt sc]
      else report ++ [l2_fail_category edge src tgt sc]
  | matching_entries =>
      fold_left (l2_entry edge src tgt sc) (enumerate matching_entries) report
  end.

(** Body of [for eid, edge in edges.items()]. *)
Definition l2_edge (g : GraphManager)
    (report : list ValidationItem) (kv : string * DependencyEdge)
  : result (list ValidationItem) :=
  let edge := snd kv in
  match dict_get (source_id edge) (all_nodes g), dict_get (target_id edge) (all_nodes g) with
  | Some src, Some tgt =>
      match EXPECTED_MAPPING_FIELDS (node_type src) (node_type tgt) with
      | None | Some [] => Ok (report ++ [l2_info edge src tgt])
      | Some schemas =>
          _ <- present_categories (mapping_details edge) ;;
          Ok (fold_left (l2_schema edge src tgt) schemas report)
      end
  | _, _ => Ok report
  end.

Definition _level2_field_completeness (g : GraphManager) (report : list ValidationItem)
  : result (list ValidationItem) :=
  for_each (l2_edge g) (all_edges g) report.

(* ====================================================================== *)
(** * mapping_validator.py: level 3, element coverage                       *)
(* ====================================================================== *)

Record coverage_check : Type := mk_check {
  element_key : string;
  check_category : string;
  element_field_in_mapping : string;
  target_types : list NodeType
}.

Definition COVERAGE_CHECKS : list coverage_check :=
  [ mk_check "ports" MappingCategory.PORT_NAMING "ipxact_port" [RTL_WRAPPER];
    mk_check "clocks" MappingCategory.CLOCK_DOMAIN "ipxact_clock_port" [SDC_CONSTRAINT];
    mk_check "resets" MappingCategory.RESET_DOMAIN "ipxact_reset_port" [RESET_SCHEME];
    mk_check "bus_interfaces" MappingCategory.BUS_INTERFACE "bus_interface_name"
             [BUS_VIP_CONFIG];
    mk_check "memory_maps" MappingCategory.MEMORY_MAP "memory_map_name"
             [MEMORY_MAP; REGISTER_MAP];
    mk_check "power_domains" MappingCategory.POWER_DOMAIN "upf_power_domain" [UPF_POWER] ].

Section Sorting.
Variable A : Type.
Variable leb : A -> A -> bool.

Fixpoint insert_by (x : A) (l : list A) : list A :=
  match l with
  | [] => [x]
  | y :: l' => if leb x y then x :: l else y :: insert_by x l'
  end.

Definition sort_by (l : list A) : list A := fold_right insert_by [] l.
End Sorting.

(** [sorted(s)] for a set of strings. *)
Definition sorted (l : list string) : list string := sort_by String.leb l.

Definition is_str (v : pyval) : bool :=
  match v with VStr _ => true | _ => false end.

Definition is_int (v : pyval) : bool :=
  match v with VInt _ | VBool _ => true | _ => false end.

Definition int_value (v : pyval) : Z :=
  match v with
  | VInt z => z
  | VBool b => int_of_bool b
  | _ => 0%Z
  end.

Definition str_value (v : pyval) : string :=
  match v with VStr s => s | _ => "" end.

(** [sorted(s)] for a set of hashable values: strings compare with
    strings and numbers with numbers; any other comparison raises.  The
    text of the [TypeError] is cut after the operator: it goes on with the
    names of the two types that were compared first. *)
Definition sorted_values (l : list pyval) : result (list pyval) :=
  match l with
  | [] | [_] => Ok l
  | _ =>
      if forallb is_str l then
        Ok (sort_by (fun a b => String.leb (str_value a) (str_value b)) l)
      else if forallb is_int l then
        Ok (sort_by (fun a b => (int_value a <=? int_value b)%Z) l)
      else Raise (TypeError "'<' not supported between instances")
  end.

(** [set(elements)] *)
Definition set_of (l : list string) : list string := nodup string_dec l.

(** The two nested loops that fill [mapped_elements]. *)
Definition collect_mapped (cat id_field : string) (relevant_edges : list DependencyEdge)
  : result (list pyval) :=
  for_each
    (fun mapped edge =>
       for_each
         (fun mapped md =>
            if has_category cat md then
              let val := dict_get_or id_field VNone md in
              if truthy val then
                if hashable val then Ok (set_add val mapped)
                else Raise (unhashable val)
              else Ok mapped
            else Ok mapped)
         (mapping_details edge) mapped)
    relevant_edges [].

Definition is_mapped (mapped : list pyval) (s : string) : bool :=
  existsb (scalar_eqb (VStr s)) mapped.

Definition is_defined (defined_set : list string) (v : pyval) : bool :=
  existsb (fun s => scalar_eqb v (VStr s)) defined_set.

Definition l3_pass (nid : string) (node : ArtifactNode) (check : coverage_check)
    (defined_set covered : list string) : ValidationItem :=
  mk_item PASS "element_coverage" nid "" (check_category check)
    [ Lit "Full coverage: all "; FInt (length defined_set); Lit " ";
      FStr (element_key check); Lit " in '"; FStr (name node); Lit "' have '";
      FStr (check_category check); Lit "' mappings" ]
    [ ("defined", DStrs (sorted defined_set));
      ("covered", DStrs (sorted covered)) ].

Definition l3_fail (nid : string) (node : ArtifactNode) (check : coverage_check)
    (defined_set covered missing : list string) : ValidationItem :=
  mk_item FAIL "element_coverage" nid "" (check_category check)
    [ Lit "INCOMPLETE COVERAGE: "; FInt (length missing); Lit "/";
      FInt (length defined_set); Lit " "; FStr (element_key check); Lit " in '";
      FStr (name node); Lit "' have NO '"; FStr (check_category check);
      Lit "' mapping. Missing: "; FStrs (sorted missing) ]
    [ ("defined", DStrs (sorted defined_set));
      ("covered", DStrs (sorted covered));
      ("missing", DStrs (sorted missing));
      ("coverage_pct", DPct (percent_of (length covered) (length defined_set))) ].

Definition l3_warning (nid : string) (check : coverage_check)
    (sorted_extra : list pyval) : ValidationItem :=
  mk_item WARNING "element_coverage" nid "" (check_category check)
    [ Lit "Extra mappings found for "; FStr (element_key check);
      Lit " not in defined_elements: "; FVals sorted_extra;
      Lit ". Check if defined_elements needs updating." ]
    [ ("extra", DVals sorted_extra) ].

(** [e.target_id in nodes and nodes[e.target_id].node_type in target_types] *)
Definition is_relevant (nodes : dict ArtifactNode) (types : list NodeType)
    (e : DependencyEdge) : bool :=
  match dict_get (target_id e) nodes with
  | Some t => existsb (NodeType_beq (node_type t)) types
  | None => false
  end.

(** Body of [for check in COVERAGE_CHECKS]. *)
Definition l3_check (g : GraphManager) (nid : string) (node : ArtifactNode)
    (outgoing : list DependencyEdge)
    (report : list ValidationItem) (check : coverage_check)
  : result (list ValidationItem) :=
  match dict_get_or (element_key check) [] (defined_elements node) with
  | [] => Ok report
  | elements =>
      match filter (is_relevant (all_nodes g) (target_types check)) outgoing with
      | [] => Ok report
      | relevant_edges =>
          mapped_elements <-
            collect_mapped (check_category check) (element_field_in_mapping check)
                           relevant_edges ;;
          let defined_set := set_of elements in
          let covered := filter (is_mapped mapped_elements) defined_set in
          let missing := filter (fun s => negb (is_mapped mapped_elements s)) defined_set in
          let extra := filter (fun v => negb (is_defined defined_set v)) mapped_elements in
          let report1 :=
            match missing with
            | [] => report ++ [l3_pass nid node check defined_set covered]
            | _ => report ++ [l3_fail nid node check defined_set covered missing]
            end in
          match extra with
          | [] => Ok report1
          | _ =>
              sorted_extra <- sorted_values extra ;;
              Ok (report1 ++ [l3_warning nid check sorted_extra])
          end
      end
  end.

(** Body of [for nid, node in nodes.items()]. *)
Definition l3_node (g : GraphManager)
    (report : list ValidationItem) (kv : string * ArtifactNode)
  : result (list ValidationItem) :=
  let (nid, node) := kv in
  match defined_elements node with
  | [] => Ok report
  | _ => for_each (l3_check g nid node (get_edges_from g nid)) COVERAGE_CHECKS report
  end.

Definition _level3_element_coverage (g : GraphManager) (report : list ValidationItem)
  : result (list ValidationItem) :=
  for_each (l3_node g) (all_nodes g) report.

(** [MappingValidator(graph).validate()], with the clock reading [now]
    taken when the report object is made.  The report is local to the
    call: when a level raises, the caller gets the exception only. *)
Definition validate (g : GraphManager) (now : Z) : result ValidationReport :=
  let report1 := _level1_structural g [] in
  report2 <- _level2_field_completeness g report1 ;;
  report3 <- _level3_element_coverage g report2 ;;
  Ok (mk_report now report3).

(* ====================================================================== *)
(** * model.py and change_detector.py: hashing and change detection         *)
(* ====================================================================== *)

(** What hashing can meet at a path: no regular file; a file, whose
    SHA-256 digest is then returned; a file whose reading fails with
    [OSError]. *)
Inductive file_state : Type :=
| Absent
| Readable (digest : string)
| Unreadable (oserror : string).

Definition hashfs := string -> file_state.

(** [ArtifactNode.compute_hash] *)
Definition compute_hash (fs : hashfs) (node : ArtifactNode) : result (option string) :=
  match file_path node with
  | None => Ok None
  | Some p =>
      if p =? "" then Ok None
      else
        match fs p with
        | Absent => Ok None
        | Readable h => Ok (Some h)
        | Unreadable e => Raise (RuntimeError ("Cannot hash file " ++ p ++ ": " ++ e))
        end
  end.

(** [not node.file_path] *)
Definition no_file_path (node : ArtifactNode) : bool :=
  match file_path node with
  | None => true
  | Some p => p =? ""
  end.

Record ChangedFile : Type := mk_changed {
  cf_node_id : string;
  cf_name : string;
  cf_file_path : string;
  old_hash : option string;
  new_hash : option string;
  status : string
}.

Record ImpactChain : Type := mk_chain {
  source_node_id : string;
  affected_node_id : string;
  path : list string;
  edge_types : list string;
  depth : nat
}.

Record ChangeReport : Type := mk_change_report {
  cr_timestamp : Z;
  changed_files : list ChangedFile;
  impact_chains : list ImpactChain;
  affected_node_ids : list string
}.

Definition option_string_eqb (a b : option string) : bool :=
  match a, b with
  | None, None => true
  | Some x, Some y => x =? y
  | _, _ => false
  end.

(** [ChangeDetector.build_baseline] *)
Definition build_baseline (g : GraphManager) (fs : hashfs) : result (dict string) :=
  for_each (fun baseline kv =>
              let '(nid, node) := kv in
              if no_file_path node then Ok baseline
              else
                h <- compute_hash fs node ;;
                match h with
                | Some d => if d =? "" then Ok baseline else Ok (dict_set nid d baseline)
                | None => Ok baseline
                end)
           (all_nodes g) [].

(** Body of the loop of [detect_changes]; [current_hashes] is written and
    never read, and is left out. *)
Definition detect_node (baseline : dict string) (fs : hashfs)
    (changes : list ChangedFile) (kv : string * ArtifactNode)
  : result (list ChangedFile) :=
  let (nid, node) := kv in
  if no_file_path node then Ok changes
  else
    new <- compute_hash fs node ;;
    let old := dict_get nid baseline in
    let fp := match file_path node with Some p => p | None => "" end in
    match old, new with
    | None, Some _ => Ok (changes ++ [mk_changed nid (name node) fp None new "added"])
    | Some _, None => Ok (changes ++ [mk_changed nid (name node) fp old None "missing"])
    | _, _ =>
        if option_string_eqb old new then Ok changes
        else Ok (changes ++ [mk_changed nid (name node) fp old new "modified"])
    end.

Definition detect_changes (g : GraphManager) (baseline : dict string) (fs : hashfs)
  : result (list ChangedFile) :=
  for_each (detect_node baseline fs) (all_nodes g) [].

(* ====================================================================== *)
(** * change_detector.py: impact propagation                                *)
(* ====================================================================== *)

(** The two [while] loops of [propagate_impact] differ only in the side
    they walk to. *)
Inductive direction : Type := Downstream | Upstream.

Definition adjacency (G : DiGraph) (dir : direction) : dict (dict attrs) :=
  match dir with
  | Downstream => _succ G
  | Upstream => _pred G
  end.

Definition neighbours (G : DiGraph) (dir : direction) (n : string) : result (list string) :=
  match dir with
  | Downstream => nx_successors G n
  | Upstream => nx_predecessors G n
  end.

(** [g.edges[current, succ]] downstream, [g.edges[pred, current]] upstream. *)
Definition hop_edge_type (G : DiGraph) (dir : direction) (current next : string)
  : result string :=
  match dir with
  | Downstream => nx_edge_type G current next
  | Upstream => nx_edge_type G next current
  end.

Definition queue_entry : Type := string * list string * list string.

(** The [for] loop that appends the neighbours of [current] not yet
    visited to the queue. *)
Definition enqueue (G : DiGraph) (dir : direction) (visited : list string)
    (current : string) (path : list string) (etypes : list string)
    (nbrs : list string) (queue : list queue_entry) : result (list queue_entry) :=
  for_each (fun q next =>
              if existsb (String.eqb next) visited then Ok q
              else
                et <- hop_edge_type G dir current next ;;
                Ok (q ++ [(next, path ++ [next], etypes ++ [et])]))
           nbrs queue.

(** [while queue:], one iteration per unit of fuel. *)
Fixpoint bfs (fuel : nat) (G : DiGraph) (dir : direction) (start_id : string)
    (max_depth : nat) (queue : list queue_entry) (visited : list string)
    (all_chains : list ImpactChain) : partial (list ImpactChain) :=
  match fuel with
  | 0 => None
  | S fuel' =>
      match queue with
      | [] => Some (Ok all_chains)
      | (current, path, etypes) :: queue' =>
          if existsb (String.eqb current) visited || (max_depth <? length path)%nat then
            bfs fuel' G dir start_id max_depth queue' visited all_chains
          else
            let visited' := current :: visited in
            let chains' :=
              all_chains ++ [mk_chain start_id current path etypes (length path - 1)] in
            match nbrs <- neighbours G dir current ;;
                  enqueue G dir visited' current path etypes nbrs queue' with
            | Raise e => Some (Raise e)
            | Ok queue'' => bfs fuel' G dir start_id max_depth queue'' visited' chains'
            end
      end
  end.

(** Iterations that always suffice: every entry of the queue is popped
    once, and a node is expanded at most once. *)
Definition bfs_fuel (G : DiGraph) (dir : direction) (queue : list queue_entry) : nat :=
  S (length queue
     + list_sum (map (fun kv => S (length (snd kv))) (adjacency G dir))).

(** One traversal from [start_id]: the queue is seeded with all its
    neighbours. *)
Definition traverse (G : DiGraph) (dir : direction) (start_id : string)
    (max_depth : nat) (all_chains : list ImpactChain) : partial (list ImpactChain) :=
  match nbrs <- neighbours G dir start_id ;;
        for_each (fun q next =>
                    et <- hop_edge_type G dir start_id next ;;
                    Ok (q ++ [(next, [start_id; next], [et])]))
                 nbrs [] with
  | Raise e => Some (Raise e)
  | Ok queue => bfs (bfs_fuel G dir queue) G dir start_id max_depth queue [start_id] all_chains
  end.

Fixpoint propagate_from (G : DiGraph) (max_depth : nat) (include_upstream : bool)
    (changed_node_ids : list string) (all_chains : list ImpactChain)
  : partial (list ImpactChain) :=
  match changed_node_ids with
  | [] => Some (Ok all_chains)
  | start_id :: rest =>
      if negb (nx_has_node G start_id) then
        propagate_from G max_depth include_upstream rest all_chains
      else
        pbind (traverse G Downstream start_id max_depth all_chains) (fun chains1 =>
        pbind (if include_upstream then traverse G Upstream start_id max_depth chains1
               else Some (Ok chains1)) (fun chains2 =>
        propagate_from G max_depth include_upstream rest chains2))
  end.

Definition propagate_impact (g : GraphManager) (changed_node_ids : list string)
    (max_depth : nat) (include_upstream : bool) : partial (list ImpactChain) :=
  propagate_from (_graph g) max_depth include_upstream changed_node_ids [].

(** [full_scan]; [max_depth] keeps its default, 50.  The set of affected
    ids is a list without repetition (a set has no order of its own). *)
Definition full_scan (g : GraphManager) (baseline : dict string) (fs : hashfs)
    (include_upstream : bool) (now : Z) : partial ChangeReport :=
  match detect_changes g baseline fs with
  | Raise e => Some (Raise e)
  | Ok changes =>
      pbind (propagate_impact g (map cf_node_id changes) 50 include_upstream)
            (fun chains =>
               Some (Ok (mk_change_report now changes chains
                           (nodup string_dec (map affected_node_id chains)))))
  end.

(* ====================================================================== *)
(** * Invariants of the graph store                                         *)
(* ====================================================================== *)

(** [v] is a key of the inner dictionary that [d] holds for [u]. *)
Definition arc (d : dict (dict attrs)) (u v : string) : bool :=
  match dict_get u d with
  | Some m => dict_mem v m
  | None => false
  end.

(** What networkx maintains: predecessors mirror successors, and the
    three dictionaries have the same keys. *)
Record nx_wf (G : DiGraph) : Prop := mk_nx_wf {
  nx_mirror : forall u v, arc (_succ G) u v = arc (_pred G) v u;
  nx_succ_keys : forall n, dict_mem n (_succ G) = dict_mem n (_node G);
  nx_pred_keys : forall n, dict_mem n (_pred G) = dict_mem n (_node G)
}.

(** What [GraphManager] maintains on top of it. *)
Record gm_wf (g : GraphManager) : Prop := mk_gm_wf {
  wf_graph : nx_wf (_graph g);
  wf_graph_nodes : forall n, dict_mem n (_node (_graph g)) = dict_mem n (_nodes g);
  wf_nodes : dict_wf (_nodes g);
  wf_edges : dict_wf (_edges g);
  wf_node_keys : forall k n, In (k, n) (_nodes g) -> node_id n = k;
  wf_edge_keys : forall k e, In (k, e) (_edges g) -> edge_id e = k;
  wf_endpoints : forall k e, In (k, e) (_edges g) ->
      dict_mem (source_id e) (_nodes g) = true /\ dict_mem (target_id e) (_nodes g) = true
}.

(** The public mutators. *)
Inductive operation : Type :=
| AddNode (node : ArtifactNode)
| UpdateNode (node : ArtifactNode)
| RemoveNode (nid : string)
| AddEdge (edge : DependencyEdge)
| RemoveEdge (src tgt : string) (et : EdgeType).

Definition apply_op (op : operation) (g : GraphManager) : GraphManager * result unit :=
  match op with
  | AddNode n => add_node n g
  | UpdateNode n => update_node n g
  | RemoveNode nid => remove_node nid g
  | AddEdge e => add_edge e g
  | RemoveEdge s t et => remove_edge s t et g
  end.

(** The stores a program can build: from [GraphManager()], by calls of
    the mutators, whether they return or raise. *)
Inductive reachable : GraphManager -> Prop :=
| reach_init : reachable gm_init
| reach_step op g : reachable g -> reachable (fst (apply_op op g)).





(** A summary with its [timestamp] entry replaced. *)
Definition summary_at (t : Z) (s : Summary) : Summary :=
  mk_summary t (s_overall_valid s) (s_overall_coverage_pct s) (s_total_checks s)
             (s_passes s) (s_warnings s) (s_failures s)
             (s_category_coverage s) (s_failure_details s).

(** The node [nid] has an outgoing edge whose target is a node of kind [t]. *)
Definition has_edge_to_kind (g : GraphManager) (nid : string) (t : NodeType) : Prop :=
  exists e tn,
    In e (dict_values (_edges g))
    /\ source_id e = nid
    /\ dict_get (target_id e) (_nodes g) = Some tn
    /\ node_type tn = t.

(** [not element_values] *)
Definition is_empty {A : Type} (l : list A) : bool :=
  match l with [] => true | _ => false end.

(** A mapping record that is a complete entry of the schema [sc]: it is
    tagged with its category and none of its required fields is absent,
    [None] or the empty string. *)
Definition complete_for (sc : schema) (md : dict pyval) : Prop :=
  has_category (category_of sc) md = true
  /\ forall f, In f (required_fields sc) -> field_missing md f = false.

(** Work left for a traversal: one unit per node not yet visited, and one
    per entry it can still put on the queue. *)
Definition unvisited_weight (adj : dict (dict attrs)) (visited : list string) : nat :=
  list_sum
    (map (fun kv => S (length (snd kv)))
         (filter (fun kv => negb (existsb (String.eqb (fst kv)) visited)) adj)).

(** Every neighbour listed in the adjacency dictionary is itself a key of
    it, and the edge to it has attributes to read. *)
Definition closed_adjacency (G : DiGraph) (dir : direction) : Prop :=
  forall u m v,
    dict_get u (adjacency G dir) = Some m ->
    In v (dict_keys m) ->
    dict_mem v (adjacency G dir) = true
    /\ exists et, hop_edge_type G dir u v = Ok et.

Definition queue_in_graph (G : DiGraph) (dir : direction) (queue : list queue_entry) : Prop :=
  forall entry, In entry queue -> dict_mem (fst (fst entry)) (adjacency G dir) = true.

(** Some edge of the collection goes from [s] to [t]. *)
Definition joins (s t : string) (e : DependencyEdge) : bool :=
  (source_id e =? s) && (target_id e =? t).

(** The adjacency structure and the edge collection agree: [t] is a
    successor of [s] exactly when some edge, of any kind, goes from [s]
    to [t]. *)
Definition in_step (g : GraphManager) : Prop :=
  forall s t,
    arc (_succ (_graph g)) s t = existsb (joins s t) (dict_values (_edges g)).

(* ====================================================================== *)
(** * graph_manager.py: queries and summary                                 *)
(* ====================================================================== *)

Scheme Equality for Domain.

Definition get_nodes_by_type (g : GraphManager) (ntype : NodeType) : list ArtifactNode :=
  filter (fun n => NodeType_beq (node_type n) ntype) (dict_values (_nodes g)).

Definition get_nodes_by_domain (g : GraphManager) (d : Domain) : list ArtifactNode :=
  filter (fun n => Domain_beq (domain n) d) (dict_values (_nodes g)).

(** The counting loop of [summary]:
    [counts[key] = counts.get(key, 0) + 1] for every node. *)
Definition count_step (key : ArtifactNode -> string) (counts : dict nat)
    (n : ArtifactNode) : dict nat :=
  dict_set (key n) (dict_get_or (key n) 0 counts + 1) counts.

Definition count_by (key : ArtifactNode -> string) (l : list ArtifactNode) : dict nat :=
  fold_left (count_step key) l dict_empty.

Record GraphSummary : Type := mk_graph_summary {
  total_nodes : nat;
  total_edges : nat;
  has_cycles : bool;
  node_types : dict nat;
  domains : dict nat
}.

(** [GraphManager.summary]; [cyclic] is the answer of
    [not nx.is_directed_acyclic_graph(self._graph)]. *)
Definition graph_summary (cyclic : bool) (g : GraphManager) : GraphSummary :=
  mk_graph_summary
    (length (_nodes g)) (length (_edges g)) cyclic
    (count_by (fun n => NodeType_value (node_type n)) (dict_values (_nodes g)))
    (count_by (fun n => Domain_value (domain n)) (dict_values (_nodes g))).

(** The body of the loop that fills [cat_stats] in
    [ValidationReport.summary]. *)
Definition cat_step (stats : dict (nat * nat)) (item : ValidationItem) : dict (nat * nat) :=
  match severity item with
  | PASS =>
      let cat := reported_category item in
      let st := dict_get_or cat (0, 0) stats in
      dict_set cat (S (fst st), snd st) stats
  | FAIL =>
      let cat := reported_category item in
      let st := dict_get_or cat (0, 0) stats in
      dict_set cat (fst st, S (snd st)) stats
  | _ => stats
  end.

(** Items of severity [s] that the summary files under [cat]. *)
Definition in_category (s : Severity) (cat : string) (l : list ValidationItem)
  : list ValidationItem :=
  filter (fun i => Severity_eqb (severity i) s && (reported_category i =? cat)) l.

(** A report to which the items of a pass are appended, unless the pass
    raises. *)
Definition extend (report : list ValidationItem) (r : result (list ValidationItem))
  : result (list ValidationItem) :=
  match r with
  | Ok items => Ok (report ++ items)
  | Raise e => Raise e
  end.

(** A mapping record whose category cannot be put in a set: a list or a
    dictionary that is not empty. *)
Definition unhashable_category (md : dict pyval) : bool :=
  let cat := dict_get_or "category" (VStr "") md in
  truthy cat && negb (hashable cat).

(** An edge that Level 2 checks against a schema: both ends are nodes of
    the store, and the table has schemas for their kinds. *)
Definition has_schema (g : GraphManager) (edge : DependencyEdge) : bool :=
  match dict_get (source_id edge) (all_nodes g), dict_get (target_id edge) (all_nodes g) with
  | Some src, Some tgt =>
      match EXPECTED_MAPPING_FIELDS (node_type src) (node_type tgt) with
      | None | Some [] => false
      | Some _ => true
      end
  | _, _ => false
  end.

(** The status under which [detect_changes] records a file, from its
    entry in the baseline and its hash now; [None] when it records
    nothing. *)
Definition status_of (old new : option string) : option string :=
  match old, new with
  | None, None => None
  | None, Some _ => Some "added"
  | Some _, None => Some "missing"
  | Some a, Some b => if a =? b then None else Some "modified"
  end.

(** What [build_baseline] keeps of a node: the digest of its file. *)
Definition stored_hash (fs : hashfs) (node : ArtifactNode) : option string :=
  match compute_hash fs node with
  | Ok (Some d) => if d =? "" then None else Some d
  | _ => None
  end.

(** [path] follows arcs of the adjacency dictionary [adj]. *)
Fixpoint walk (adj : dict (dict attrs)) (path : list string) : bool :=
  match path with
  | a :: (b :: _) as rest => arc adj a b && walk adj rest
  | _ => true
  end.

(** What reading the edge type gives at each hop of [path]. *)
Fixpoint types_along (G : DiGraph) (dir : direction) (path : list string)
  : list (result string) :=
  match path with
  | a :: (b :: _) as rest => hop_edge_type G dir a b :: types_along G dir rest
  | _ => []
  end.

(** [v] can be reached from [u] by one arc of [adj] or more. *)
Inductive reaches (adj : dict (dict attrs)) (u : string) : string -> Prop :=
| reaches_arc v : arc adj u v = true -> reaches adj u v
| reaches_step v w : reaches adj u v -> arc adj v w = true -> reaches adj u w.

(** A chain as a traversal from [start] records it: a path without
    repetition from [start] to the affected node, along arcs, of at most
    [max_depth] nodes, with the edge type read at each hop. *)
Definition chain_from (G : DiGraph) (dir : direction) (start : string)
    (max_depth : nat) (c : ImpactChain) : Prop :=
  source_node_id c = start
  /\ affected_node_id c <> start
  /\ (exists mid, path c = (start :: mid) ++ [affected_node_id c])
  /\ NoDup (path c)
  /\ walk (adjacency G dir) (path c) = true
  /\ types_along G dir (path c) = map (@Ok string) (edge_types c)
  /\ S (depth c) = length (path c)
  /\ depth c = length (edge_types c)
  /\ length (path c) <= max_depth.

(** What holds of an entry of the queue of a traversal from [start]:
    its path leads from [start] to its node through visited nodes. *)
Definition entry_ok (G : DiGraph) (dir : direction) (start : string)
    (visited : list string) (entry : queue_entry) : Prop :=
  exists mid,
    snd (fst entry) = (start :: mid) ++ [fst (fst entry)]
    /\ NoDup (start :: mid)
    /\ incl (start :: mid) visited
    /\ walk (adjacency G dir) (snd (fst entry)) = true
    /\ types_along G dir (snd (fst entry)) = map (@Ok string) (snd entry).

(** Every arc out of a visited node leads to a visited node or to a node
    that waits in the queue. *)
Definition frontier (adj : dict (dict attrs)) (queue : list queue_entry)
    (visited : list string) : Prop :=
  forall u v,
    In u visited -> arc adj u v = true ->
    In v visited \/ exists entry, In entry queue /\ fst (fst entry) = v.

(* ====================================================================== *)
(** * visualize_mermaid.py: labels                                          *)
(* ====================================================================== *)

(** [text.replace(old, new)], for characters [old] and [new]. *)
Fixpoint replace_char (old new : ascii) (text : string) : string :=
  match text with
  | EmptyString => EmptyString
  | String a text' =>
      String (if Ascii.eqb a old then new else a) (replace_char old new text')
  end.

Definition newline : ascii := ascii_of_nat 10.
Definition hyphen : ascii := ascii_of_nat 45.

(** [_sanitise]: double quotes become apostrophes, then line feeds become
    spaces.  A text is the sequence of its UTF-8 bytes; both characters
    are single bytes that occur in no longer sequence, so that replacing
    bytes is replacing characters. *)
Definition _sanitise (text : string) : string :=
  replace_char newline " " (replace_char double_quote "'" text).

(** [MERMAID_SHAPES.get(node_type, ("[", "]"))]; the table has an entry
    for every kind. *)
Definition MERMAID_SHAPES (t : NodeType) : string * string :=
  match t with
  | IPXACT_COMPONENT | IPXACT_DESIGN | IPXACT_DESIGN_CONFIG
  | IPXACT_ABSTRACTION_DEF | IPXACT_CATALOG | IPXACT_GENERATOR_CHAIN => ("[[", "]]")
  | SDC_CONSTRAINT | UPF_POWER | CDC_CONSTRAINT | RESET_SCHEME => ("{{", "}}")
  | RTL_SOURCE | RTL_WRAPPER | RTL_FILELIST => ("[", "]")
  | FPGA_SOURCE | CONFIG_PARAM => ("([", "])")
  | REGISTER_MAP | UVM_RAL_MODEL | C_HEADER | REGISTER_DOC | MEMORY_MAP
  | LINKER_SCRIPT | ADDRESS_DECODE => ("[(", ")]")
  | BUS_VIP_CONFIG | PROTOCOL_CHECKER | TESTBENCH_TOP | DOCUMENTATION => ("(", ")")
  | PIN_MAPPING | FLOORPLAN_CONSTRAINT | IO_PAD_CONFIG | DEF_LEF_CONSTRAINT
  | EDA_SCRIPT | VENDOR_EXTENSION => (">", "]")
  end.

(** The variable [label] of [_node_def]. *)
Definition node_label (node : ArtifactNode) : string :=
  let label := _sanitise (name node) in
  if eda_tool node =? "" then label
  else label ++ " (" ++ eda_tool node ++ ")".

(** [MermaidGenerator._node_def] *)
Definition _node_def (node : ArtifactNode) : string :=
  let (left, right) := MERMAID_SHAPES (node_type node) in
  node_id node ++ left ++ String double_quote (node_label node)
  ++ String double_quote right.

(** A mapping record whose category and element names, where it has
    them, are strings. *)
Definition names_are_strings (md : dict pyval) : bool :=
  forallb (fun k => match dict_get k md with
                    | Some v => is_str v
                    | None => true
                    end)
          ("category" :: map element_field_in_mapping COVERAGE_CHECKS).

(** A store all of whose mapping records are so. *)
Definition records_named_by_strings (g : GraphManager) : bool :=
  forallb (fun e => forallb names_are_strings (mapping_details e))
          (dict_values (_edges g)).

(** A walk from [s] along the arcs of [adj], with the number of its
    nodes. *)
Inductive walk_len (adj : dict (dict attrs)) (s : string) : string -> nat -> Prop :=
| walk_one : walk_len adj s s 1
| walk_more u v n :
    walk_len adj s u n -> arc adj u v = true -> walk_len adj s v (S n).

(** The paths of the queue get longer from front to back, from [n] on. *)
Fixpoint ascending (n : nat) (queue : list queue_entry) : Prop :=
  match queue with
  | [] => True
  | entry :: queue' =>
      n <= length (snd (fst entry))
      /\ ascending (length (snd (fst entry))) queue'
  end.

(** Every arc out of a visited node, reached by a path of [len] nodes,
    leads to a visited node or to a node that waits in the queue with a
    path of at most [len + 1] nodes, unless such a path is too long. *)
Definition frontier_len (adj : dict (dict attrs)) (max_depth : nat)
    (queue : list queue_entry) (lens : list (string * nat)) : Prop :=
  forall u len v,
    In (u, len) lens -> arc adj u v = true ->
    In v (map fst lens)
    \/ (exists entry,
          In entry queue /\ fst (fst entry) = v
          /\ length (snd (fst entry)) <= S len)
    \/ max_depth <= len.

(** No walk to a visited node has fewer nodes than the path it was
    reached by. *)
Definition shortest_so_far (adj : dict (dict attrs)) (start : string)
    (lens : list (string * nat)) : Prop :=
  forall u len n, In (u, len) lens -> walk_len adj start u n -> len <= n.

(** The three levels, as the [category] field of the items names them. *)
Definition LEVEL_NAMES : list string :=
  ["structural"; "field_level"; "element_coverage"].

(** A name that is none of the levels', and not empty. *)
Definition proper_category (c : string) : bool :=
  negb (existsb (String.eqb c) ("" :: LEVEL_NAMES)).

(* ====================================================================== *)
(** * Snapshots: values that JSON keeps                                     *)
(* ====================================================================== *)


(* ====================================================================== *)
(** * mapping_validator.py, with sets iterated in any order                 *)
(* ====================================================================== *)

(** Python does not fix the order in which a [set] is iterated; for a set
    of strings it changes from one process to the next.  The validator
    above keeps a set as a list in insertion order.  Here a set is a list
    in the order in which it is iterated: every set that the code makes
    ([target_types], [mapped_elements] once it is filled, [defined_set],
    [covered], [missing], [extra]) is [order] of its members.
    [present_categories] is filled and never read.  The text of the
    [TypeError] that [sorted] raises on members of unlike types names the
    two types that were compared first: it is [complaint] of the members
    as they are iterated. *)
Section SetOrder.
Variable order : forall A : Type, list A -> list A.
Variable complaint : list pyval -> string.

(** [sorted(s)], for a set [s] iterated as [l]. *)
Definition sorted_values_ord (l : list pyval) : result (list pyval) :=
  match sorted_values l with
  | Ok sorted_l => Ok sorted_l
  | Raise _ => Raise (TypeError (complaint l))
  end.

Definition l1_node_ord (g : GraphManager)
    (report : list ValidationItem) (kv : string * ArtifactNode) : list ValidationItem :=
  let (nid, node) := kv in
  match node_type node with
  | IPXACT_COMPONENT | IPXACT_DESIGN =>
      match defined_elements node with
      | [] => report ++ [l1_warning nid node]
      | elements =>
          let outgoing := get_edges_from g nid in
          let target_types := order (target_types_of (all_nodes g) outgoing) in
          fold_left (l1_element nid node target_types) elements report
      end
  | _ => report
  end.

Definition _level1_structural_ord (g : GraphManager) (report : list ValidationItem)
  : list ValidationItem :=
  fold_left (l1_node_ord g) (all_nodes g) report.

Definition l3_check_ord (g : GraphManager) (nid : string) (node : ArtifactNode)
    (outgoing : list DependencyEdge)
    (report : list ValidationItem) (check : coverage_check)
  : result (list ValidationItem) :=
  match dict_get_or (element_key check) [] (defined_elements node) with
  | [] => Ok report
  | elements =>
      match filter (is_relevant (all_nodes g) (target_types check)) outgoing with
      | [] => Ok report
      | relevant_edges =>
          collected <-
            collect_mapped (check_category check) (element_field_in_mapping check)
                           relevant_edges ;;
          let mapped_elements := order collected in
          let defined_set := order (set_of elements) in
          let covered := order (filter (is_mapped mapped_elements) defined_set) in
          let missing :=
            order (filter (fun s => negb (is_mapped mapped_elements s)) defined_set) in
          let extra :=
            order (filter (fun v => negb (is_defined defined_set v)) mapped_elements) in
          let report1 :=
            match missing with
            | [] => report ++ [l3_pass nid node check defined_set covered]
            | _ => report ++ [l3_fail nid node check defined_set covered missing]
            end in
          match extra with
          | [] => Ok report1
          | _ =>
              sorted_extra <- sorted_values_ord extra ;;
              Ok (report1 ++ [l3_warning nid check sorted_extra])
          end
      end
  end.

Definition l3_node_ord (g : GraphManager)
    (report : list ValidationItem) (kv : string * ArtifactNode)
  : result (list ValidationItem) :=
  let (nid, node) := kv in
  match defined_elements node with
  | [] => Ok report
  | _ => for_each (l3_check_ord g nid node (get_edges_from g nid)) COVERAGE_CHECKS report
  end.

Definition _level3_element_coverage_ord (g : GraphManager)
    (report : list ValidationItem) : result (list ValidationItem) :=
  for_each (l3_node_ord g) (all_nodes g) report.

Definition validate_ord (g : GraphManager) (now : Z) : result ValidationReport :=
  let report1 := _level1_structural_ord g [] in
  report2 <- _level2_field_completeness g report1 ;;
  report3 <- _level3_element_coverage_ord g report2 ;;
  Ok (mk_report now report3).
End SetOrder.

(** An iteration order: the members of the set, each once. *)
Definition iteration_order (order : forall A : Type, list A -> list A) : Prop :=
  forall (A : Type) (l : list A), Permutation (order A l) l.

(** Two outcomes of a pass that are the same report, or two [TypeError]s. *)
Definition same_outcome {A : Type} (r1 r2 : result A) : Prop :=
  match r1, r2 with
  | Ok a1, Ok a2 => a1 = a2
  | Raise (TypeError _), Raise (TypeError _) => True
  | _, _ => False
  end.

(** The members of a set are pairwise unequal. *)
Definition distinct (l : list pyval) : Prop :=
  forall a b, In a l -> In b l -> scalar_eqb a b = true -> a = b.

(* ====================================================================== *)
(** * Sample graphs                                                         *)
(* ====================================================================== *)

Definition sample_node (id : string) (ty : NodeType)
    (elements : dict (list string)) : ArtifactNode :=
  mk_node id id ty GLOBAL None "" "" "1.0" [] [] elements.

Definition sample_edge (s : string) (ty : EdgeType) (t : string)
    (mapping : list (dict pyval)) : DependencyEdge :=
  mk_edge s t ty "" GLOBAL [] mapping.

(** Calls in sequence; the state is kept across a raising call as well. *)
Definition run (ops : list operation) (g : GraphManager) : GraphManager :=
  fold_left (fun g op => fst (apply_op op g)) ops g.

(** Two nodes joined by two edges of different kinds. *)
Definition two_kinds : GraphManager :=
  run [ AddNode (sample_node "a" IPXACT_COMPONENT []);
        AddNode (sample_node "b" SDC_CONSTRAINT []);
        AddEdge (sample_edge "a" GENERATES "b" []);
        AddEdge (sample_edge "a" CONSTRAINS "b" []) ]
      gm_init.

(** Scenario A: a component with two clocks, and one edge to an SDC file
    whose records are complete [clock_domain], [io_timing] and
    [false_path] entries. *)
Definition clock_domain_record (port sdc_name : string) : dict pyval :=
  [ ("category", VStr "clock_domain"); ("ipxact_clock_port", VStr port);
    ("sdc_clock_name", VStr sdc_name); ("period_ns", VInt 10);
    ("uncertainty_setup", VInt 1); ("uncertainty_hold", VInt 1) ].

Definition io_timing_record (port clock : string) : dict pyval :=
  [ ("category", VStr "io_timing"); ("ipxact_port", VStr port);
    ("sdc_command", VStr "set_input_delay"); ("clock_domain", VStr clock);
    ("max_delay", VInt 3); ("min_delay", VInt 0) ].

Definition false_path_record (port : string) : dict pyval :=
  [ ("category", VStr "false_path"); ("ipxact_port_or_domain", VStr port);
    ("sdc_false_path_spec", VStr "set_false_path -from [get_ports i_rst_n]") ].

Definition component_a : ArtifactNode :=
  sample_node "comp" IPXACT_COMPONENT [("clocks", ["i_clk"; "i_clk_aux"])].

Definition edge_a : DependencyEdge :=
  sample_edge "comp" GENERATES "sdc"
    [ clock_domain_record "i_clk" "clk_main";
      clock_domain_record "i_clk_aux" "clk_aux";
      io_timing_record "i_data" "clk_main";
      io_timing_record "o_data" "clk_aux";
      false_path_record "i_rst_n" ].

Definition scenario_a : GraphManager :=
  run [ AddNode component_a;
        AddNode (sample_node "sdc" SDC_CONSTRAINT []);
        AddEdge edge_a ]
      gm_init.

(** Scenario B: a component with ten ports, and one edge to an RTL
    wrapper with a single [port_naming] record. *)
Definition ten_ports : list string :=
  [ "i_clk"; "i_rst_n"; "i_plaintext"; "i_key"; "i_iv"; "i_start";
    "o_ciphertext"; "o_auth_tag"; "o_done"; "o_busy" ].

Definition component_b : ArtifactNode :=
  sample_node "comp" IPXACT_COMPONENT [("ports", ten_ports)].

Definition port_record : dict pyval :=
  [ ("category", VStr "port_naming"); ("ipxact_port", VStr "i_key");
    ("rtl_port", VStr "i_key"); ("direction", VStr "in"); ("width", VInt 128) ].

Definition edge_b : DependencyEdge :=
  sample_edge "comp" GENERATES "wrapper" [port_record].

Definition scenario_b : GraphManager :=
  run [ AddNode component_b;
        AddNode (sample_node "wrapper" RTL_WRAPPER []);
        AddEdge edge_b ]
      gm_init.

(** A store with two files on disk, one of which cannot be read. *)
Definition file_node (id : string) (ty : NodeType) (p : string) : ArtifactNode :=
  mk_node id id ty GLOBAL (Some p) "" "" "1.0" [] [] [].

Definition scanned : GraphManager :=
  run [ AddNode (file_node "sdc_main" SDC_CONSTRAINT "constraints/main.sdc");
        AddNode (file_node "script" EDA_SCRIPT "scripts/synth.tcl");
        AddNode (file_node "doc" DOCUMENTATION "doc/readme.md");
        AddEdge (sample_edge "sdc_main" CONFIGURES "script" []);
        AddEdge (sample_edge "script" REFERENCES "doc" []) ]
      gm_init.

Definition scanned_baseline : dict string :=
  [ ("sdc_main", "1f3a"); ("script", "77c0"); ("doc", "e2b9") ].

(** [main.sdc] is there and cannot be read; the script has changed. *)
Definition disk_unreadable : hashfs :=
  fun p =>
    if p =? "constraints/main.sdc" then Unreadable "[Errno 13] Permission denied"
    else if p =? "scripts/synth.tcl" then Readable "9d41"
    else if p =? "doc/readme.md" then Readable "e2b9"
    else Absent.

(** [main.sdc] is gone; the script has changed. *)
Definition disk_absent : hashfs :=
  fun p =>
    if p =? "scripts/synth.tcl" then Readable "9d41"
    else if p =? "doc/readme.md" then Readable "e2b9"
    else Absent.

(* ====================================================================== *)
(** * More sample graphs                                                    *)
(* ====================================================================== *)

(** The FAIL of Level 1 in scenario A: two clocks, no CDC file. *)
Definition missing_cdc : ValidationItem :=
  l1_fail "comp" component_a "clocks" ["i_clk"; "i_clk_aux"] CDC_CONSTRAINT.

(** The component of scenario A, alone in its store. *)
Definition lonely : GraphManager := run [AddNode component_a] gm_init.

Definition clocks_check : coverage_check :=
  mk_check "clocks" MappingCategory.CLOCK_DOMAIN "ipxact_clock_port" [SDC_CONSTRAINT].

(** Two [port_naming] records after a record of another category; the
    second of the two has no [rtl_port]. *)
Definition unnamed_port_record : dict pyval :=
  [ ("category", VStr "port_naming"); ("ipxact_port", VStr "i_iv");
    ("rtl_port", VStr ""); ("direction", VStr "in"); ("width", VInt 96) ].

Definition edge_c : DependencyEdge :=
  sample_edge "comp" GENERATES "wrapper"
    [ clock_domain_record "i_clk" "clk_main"; port_record; unnamed_port_record ].

Definition port_naming_schema : schema :=
  mandatory MappingCategory.PORT_NAMING
    ["ipxact_port"; "rtl_port"; "direction"; "width"]
    "Every IP-XACT port must map to an RTL port".

(** Scenario A with one more record, whose category is a list. *)
Definition malformed_store : GraphManager :=
  run [ AddNode component_a;
        AddNode (sample_node "sdc" SDC_CONSTRAINT []);
        AddEdge (sample_edge "comp" GENERATES "sdc"
                   [ clock_domain_record "i_clk" "clk_main";
                     [("category", VList [VStr "clock_domain"])] ]) ]
      gm_init.

(** A snapshot with one node and no edge, at every path. *)
Definition one_node_file : jsonfs :=
  fun _ => Some (VDict [ ("nodes", VList [node_record (sample_node "a" RTL_SOURCE [])]);
                         ("edges", VList []) ]).


(** A component with two ports and a wrapper whose records name one of
    them and two ports that the component does not define. *)
Definition port_named (p : string) : dict pyval :=
  [ ("category", VStr "port_naming"); ("ipxact_port", VStr p);
    ("rtl_port", VStr p); ("direction", VStr "in"); ("width", VInt 1) ].

Definition stray_ports : GraphManager :=
  run [ AddNode (sample_node "comp" IPXACT_COMPONENT [("ports", ["i_b"; "i_a"])]);
        AddNode (sample_node "wrapper" RTL_WRAPPER []);
        AddEdge (sample_edge "comp" GENERATES "wrapper"
                   [ port_named "i_z"; port_named "i_a"; port_named "i_y" ]) ]
      gm_init.

(** Two iteration orders: insertion order, and its reverse. *)
Definition insertion_order : forall A : Type, list A -> list A := fun _ l => l.
Definition reverse_order : forall A : Type, list A -> list A := fun _ l => rev l.

(** The text of the [TypeError] of [sorted], cut after the operator. *)
Definition unlike_types (l : list pyval) : string :=
  "'<' not supported between instances".

(** Snapshots that [save] does not write: a file that holds the document
    [doc], at every path. *)
Definition snapshot (doc : pyval) : jsonfs := fun _ => Some doc.

Definition record_a : dict pyval :=
  [ ("node_id", VStr "a"); ("name", VStr "a");
    ("node_type", VStr "rtl_source"); ("domain", VStr "global") ].

Definition nodes_only (v_nodes : pyval) : pyval :=
  VDict [("nodes", v_nodes); ("edges", VList [])].

Unset Implicit Arguments.

(* ====================================================================== *)
(** * Dictionaries                                                          *)
(* ====================================================================== *)

Section DictFacts.
Variable V : Type.
Implicit Types (d : dict V) (k : string) (v : V).

Lemma dict_get_set k k' v d :
  dict_get k (dict_set k' v d) = if k =? k' then Some v else dict_get k d.
Proof.
  induction d as [|[k0 v0] d IH]; simpl.
  - destruct (String.eqb_spec k k'); reflexivity.
  - destruct (String.eqb_spec k' k0) as [->|Hne]; simpl.
    + destruct (String.eqb_spec k k0); reflexivity.
    + rewrite IH. destruct (String.eqb_spec k k0) as [->|]; [|reflexivity].
      destruct (String.eqb_spec k0 k'); congruence.
Qed.

Lemma dict_get_del k k' d :
  dict_get k (dict_del k' d) = if k =? k' then None else dict_get k d.
Proof.
  unfold dict_del. induction d as [|[k0 v0] d IH]; simpl.
  - destruct (k =? k'); reflexivity.
  - destruct (String.eqb_spec k0 k') as [->|Hne]; simpl.
    + rewrite IH. destruct (String.eqb_spec k k'); reflexivity.
    + rewrite IH. destruct (String.eqb_spec k k0) as [->|]; [|reflexivity].
      destruct (String.eqb_spec k0 k'); congruence.
Qed.

Lemma dict_mem_set k k' v d :
  dict_mem k (dict_set k' v d) = (k =? k') || dict_mem k d.
Proof.
  unfold dict_mem. rewrite dict_get_set. destruct (k =? k'); reflexivity.
Qed.

Lemma dict_mem_del k k' d :
  dict_mem k (dict_del k' d) = negb (k =? k') && dict_mem k d.
Proof.
  unfold dict_mem. rewrite dict_get_del. destruct (k =? k'); reflexivity.
Qed.

Lemma dict_get_adjust k k' (f : V -> V) d :
  dict_get k (dict_adjust k' f d)
  = if k =? k' then option_map f (dict_get k d) else dict_get k d.
Proof.
  unfold dict_adjust. destruct (dict_get k' d) eqn:E.
  - rewrite dict_get_set. destruct (String.eqb_spec k k') as [->|]; [|reflexivity].
    rewrite E. reflexivity.
  - destruct (String.eqb_spec k k') as [->|]; [|reflexivity].
    rewrite E. reflexivity.
Qed.

Lemma dict_mem_adjust k k' (f : V -> V) d :
  dict_mem k (dict_adjust k' f d) = dict_mem k d.
Proof.
  unfold dict_mem. rewrite dict_get_adjust.
  destruct (k =? k'); [|reflexivity]. destruct (dict_get k d); reflexivity.
Qed.

Lemma dict_mem_In k d : dict_mem k d = true <-> In k (dict_keys d).
Proof.
  unfold dict_mem. induction d as [|[k0 v0] d IH]; simpl.
  - split; [discriminate | tauto].
  - destruct (String.eqb_spec k k0) as [->|Hne].
    + split; auto.
    + rewrite IH. split; [auto | intros [E|H]; [congruence | exact H]].
Qed.

Lemma dict_mem_false k d : dict_mem k d = false <-> ~ In k (dict_keys d).
Proof.
  rewrite <- dict_mem_In. destruct (dict_mem k d); split; congruence.
Qed.

Lemma dict_get_In k v d : dict_get k d = Some v -> In (k, v) d.
Proof.
  induction d as [|[k0 v0] d IH]; simpl; [discriminate|].
  destruct (String.eqb_spec k k0) as [->|]; intros H.
  - left. congruence.
  - right. auto.
Qed.

Lemma dict_In_get k v d : dict_wf d -> In (k, v) d -> dict_get k d = Some v.
Proof.
  unfold dict_wf. induction d as [|[k0 v0] d IH]; simpl; [tauto|].
  intros Hnd [E|H]; inversion Hnd; subst.
  - inversion E; subst. rewrite String.eqb_refl. reflexivity.
  - destruct (String.eqb_spec k k0) as [->|]; [|auto].
    exfalso. apply H2. change (In (fst (k0, v)) (map fst d)). now apply in_map.
Qed.

(** Assigning to a new key appends. *)
Lemma dict_set_new k v d : dict_mem k d = false -> dict_set k v d = d ++ [(k, v)].
Proof.
  unfold dict_mem. induction d as [|[k0 v0] d IH]; simpl; [reflexivity|].
  destruct (String.eqb_spec k k0); [discriminate|]. intros H. now rewrite IH.
Qed.

Lemma dict_keys_set k v d :
  dict_keys (dict_set k v d) = if dict_mem k d then dict_keys d else dict_keys d ++ [k].
Proof.
  unfold dict_mem, dict_keys. induction d as [|[k0 v0] d IH]; simpl; [reflexivity|].
  destruct (String.eqb_spec k k0) as [->|]; simpl; [reflexivity|].
  rewrite IH. destruct (dict_get k d); reflexivity.
Qed.

Lemma dict_wf_set k v d : dict_wf d -> dict_wf (dict_set k v d).
Proof.
  unfold dict_wf. rewrite dict_keys_set. destruct (dict_mem k d) eqn:E; [auto|].
  intros H. apply NoDup_app; [exact H | repeat constructor; simpl; tauto |].
  intros x Hx [<-|[]]. apply dict_mem_false in E. contradiction.
Qed.

Lemma dict_wf_del k d : dict_wf d -> dict_wf (dict_del k d).
Proof.
  unfold dict_wf, dict_del, dict_keys. induction d as [|[k0 v0] d IH]; simpl; [auto|].
  intros H. inversion H; subst. destruct (negb (k0 =? k)); simpl; [|auto].
  constructor; [|auto]. intros Hin. apply H2.
  apply in_map_iff in Hin. destruct Hin as [[k1 v1] [E Hin]]. simpl in E. subst.
  apply filter_In in Hin. change (In (fst (k0, v1)) (map fst d)).
  apply in_map. tauto.
Qed.

Lemma dict_In_set k v k' v' d :
  In (k, v) (dict_set k' v' d) -> (k = k' /\ v = v') \/ In (k, v) d.
Proof.
  induction d as [|[k0 v0] d IH]; simpl.
  - intros [E|[]]. inversion E. auto.
  - destruct (String.eqb_spec k' k0) as [->|]; simpl.
    + intros [E|H]; [inversion E; auto | auto].
    + intros [E|H]; [auto|]. destruct (IH H); auto.
Qed.

Lemma dict_In_del k v k' d : In (k, v) (dict_del k' d) <-> In (k, v) d /\ k <> k'.
Proof.
  unfold dict_del. rewrite filter_In. simpl.
  destruct (String.eqb_spec k k'); simpl; intuition congruence.
Qed.
End DictFacts.

(* ====================================================================== *)
(** * The adjacency dictionaries                                            *)
(* ====================================================================== *)

Lemma arc_set_empty (d : dict (dict attrs)) n u v :
  arc (dict_set n dict_empty d) u v = negb (u =? n) && arc d u v.
Proof.
  unfold arc. rewrite dict_get_set. destruct (u =? n); reflexivity.
Qed.

Lemma arc_del (d : dict (dict attrs)) n u v :
  arc (dict_del n d) u v = negb (u =? n) && arc d u v.
Proof.
  unfold arc. rewrite dict_get_del. destruct (u =? n); reflexivity.
Qed.

Lemma arc_adjust_set (d : dict (dict attrs)) a b (x : attrs) u v :
  dict_mem a d = true ->
  arc (dict_adjust a (dict_set b x) d) u v = ((u =? a) && (v =? b)) || arc d u v.
Proof.
  unfold arc, dict_mem. intros Ha. rewrite dict_get_adjust.
  destruct (String.eqb_spec u a) as [->|]; simpl; [|reflexivity].
  destruct (dict_get a d); [|discriminate]. simpl.
  apply dict_mem_set.
Qed.

Lemma arc_adjust_del (d : dict (dict attrs)) a b u v :
  arc (dict_adjust a (dict_del b) d) u v = negb ((u =? a) && (v =? b)) && arc d u v.
Proof.
  unfold arc. rewrite dict_get_adjust.
  destruct (String.eqb_spec u a) as [->|]; simpl; [|reflexivity].
  destruct (dict_get a d); simpl.
  - rewrite dict_mem_del. reflexivity.
  - now rewrite andb_false_r.
Qed.

Lemma arc_set_del (d : dict (dict attrs)) a b m u v :
  dict_get a d = Some m ->
  arc (dict_set a (dict_del b m) d) u v = negb ((u =? a) && (v =? b)) && arc d u v.
Proof.
  intros H. rewrite <- arc_adjust_del. unfold dict_adjust. now rewrite H.
Qed.

(** Deleting [n] under each key of [us]. *)
Lemma arc_fold_del (us : list string) n (d : dict (dict attrs)) u v :
  arc (fold_left (fun p x => dict_adjust x (dict_del n) p) us d) u v
  = negb (existsb (String.eqb u) us && (v =? n)) && arc d u v.
Proof.
  revert d. induction us as [|x us IH]; intros d; simpl; [reflexivity|].
  rewrite IH, arc_adjust_del.
  destruct (u =? x), (existsb (String.eqb u) us), (v =? n), (arc d u v); reflexivity.
Qed.

Lemma dict_mem_fold_adjust (us : list string) (f : dict attrs -> dict attrs)
    (d : dict (dict attrs)) k :
  dict_mem k (fold_left (fun p x => dict_adjust x f p) us d) = dict_mem k d.
Proof.
  revert d. induction us as [|x us IH]; intros d; simpl; [reflexivity|].
  now rewrite IH, dict_mem_adjust.
Qed.

Lemma existsb_eqb_keys (m : dict attrs) x :
  existsb (String.eqb x) (dict_keys m) = dict_mem x m.
Proof.
  unfold dict_mem, dict_keys. induction m as [|[k a] m IH]; simpl; [reflexivity|].
  rewrite IH. destruct (x =? k); reflexivity.
Qed.

(** Membership among the keys of [d[n]], as [arc]. *)
Lemma existsb_keys_arc (d : dict (dict attrs)) n x :
  existsb (String.eqb x) (dict_keys (dict_get_or n dict_empty d)) = arc d n x.
Proof.
  unfold arc, dict_get_or.
  destruct (dict_get n d); [apply existsb_eqb_keys | reflexivity].
Qed.

(* ====================================================================== *)
(** * networkx keeps its invariant                                          *)
(* ====================================================================== *)

Lemma nx_empty_wf : nx_wf nx_empty.
Proof. split; reflexivity. Qed.

Lemma nx_ensure_node_wf n G : nx_wf G -> nx_wf (nx_ensure_node n G).
Proof.
  intros [Hm Hs Hp]. unfold nx_ensure_node.
  destruct (dict_mem n (_succ G)) eqn:E; [now split|].
  split; simpl.
  - intros u v. rewrite !arc_set_empty.
    destruct (String.eqb_spec u n) as [->|], (String.eqb_spec v n) as [->|]; simpl;
      try apply Hm.
    + reflexivity.
    + rewrite <- Hm. unfold arc. unfold dict_mem in E.
      destruct (dict_get n (_succ G)); [discriminate | reflexivity].
    + rewrite Hm. unfold arc. rewrite Hs, <- Hp in E. unfold dict_mem in E.
      destruct (dict_get n (_pred G)); [discriminate | reflexivity].
  - intros k. rewrite !dict_mem_set, Hs. reflexivity.
  - intros k. rewrite !dict_mem_set, Hp. reflexivity.
Qed.

Lemma nx_ensure_node_mem n G k :
  dict_mem k (_node (nx_ensure_node n G))
  = (if dict_mem n (_succ G) then false else k =? n) || dict_mem k (_node G).
Proof.
  unfold nx_ensure_node. destruct (dict_mem n (_succ G)); simpl; [reflexivity|].
  apply dict_mem_set.
Qed.

Lemma nx_add_node_wf n a G : nx_wf G -> nx_wf (nx_add_node n a G).
Proof.
  intros [Hm Hs Hp]. unfold nx_add_node.
  destruct (dict_mem n (_succ G)) eqn:E; split; simpl; auto.
  - intros k. now rewrite dict_mem_adjust.
  - intros k. now rewrite dict_mem_adjust.
  - intros u v. rewrite !arc_set_empty.
    destruct (String.eqb_spec u n) as [->|], (String.eqb_spec v n) as [->|]; simpl;
      try apply Hm.
    + reflexivity.
    + rewrite <- Hm. unfold arc. unfold dict_mem in E.
      destruct (dict_get n (_succ G)); [discriminate | reflexivity].
    + rewrite Hm. unfold arc. rewrite Hs, <- Hp in E. unfold dict_mem in E.
      destruct (dict_get n (_pred G)); [discriminate | reflexivity].
  - intros k. rewrite !dict_mem_set, Hs. reflexivity.
  - intros k. rewrite !dict_mem_set, Hp. reflexivity.
Qed.

Lemma nx_add_node_mem n a G k :
  nx_wf G ->
  dict_mem k (_node (nx_add_node n a G)) = (k =? n) || dict_mem k (_node G).
Proof.
  intros [Hm Hs Hp]. unfold nx_add_node.
  destruct (dict_mem n (_succ G)) eqn:E; simpl.
  - rewrite dict_mem_adjust. destruct (String.eqb_spec k n) as [->|]; [|reflexivity].
    now rewrite <- Hs, E.
  - apply dict_mem_set.
Qed.

Lemma nx_ensure_node_has n G : dict_mem n (_succ (nx_ensure_node n G)) = true.
Proof.
  unfold nx_ensure_node. destruct (dict_mem n (_succ G)) eqn:E; [exact E|].
  simpl. rewrite dict_mem_set, String.eqb_refl. reflexivity.
Qed.

Lemma nx_ensure_node_keeps n G k :
  dict_mem k (_succ G) = true -> dict_mem k (_succ (nx_ensure_node n G)) = true.
Proof.
  unfold nx_ensure_node. destruct (dict_mem n (_succ G)); [auto|].
  simpl. rewrite dict_mem_set. intros ->. apply orb_true_r.
Qed.

Lemma nx_add_edge_wf u v a G : nx_wf G -> nx_wf (nx_add_edge u v a G).
Proof.
  intros H. unfold nx_add_edge.
  pose proof (nx_ensure_node_wf v _ (nx_ensure_node_wf u _ H)) as [Hm Hs Hp].
  assert (Hu : dict_mem u (_succ (nx_ensure_node v (nx_ensure_node u G))) = true)
    by apply nx_ensure_node_keeps, nx_ensure_node_has.
  assert (Hv : dict_mem v (_pred (nx_ensure_node v (nx_ensure_node u G))) = true)
    by (rewrite Hp, <- Hs; apply nx_ensure_node_has).
  set (G2 := nx_ensure_node v (nx_ensure_node u G)) in *.
  split; simpl.
  - intros x y. rewrite !arc_adjust_set by assumption. rewrite Hm.
    now rewrite (andb_comm (x =? u)).
  - intros k. now rewrite dict_mem_adjust.
  - intros k. now rewrite dict_mem_adjust.
Qed.

Lemma nx_add_edge_mem u v a G k :
  nx_wf G ->
  dict_mem u (_node G) = true -> dict_mem v (_node G) = true ->
  dict_mem k (_node (nx_add_edge u v a G)) = dict_mem k (_node G).
Proof.
  intros [Hm Hs Hp] Hu Hv. unfold nx_add_edge. simpl.
  unfold nx_ensure_node at 1 2.
  rewrite <- Hs in Hu, Hv. rewrite Hu. rewrite Hv. reflexivity.
Qed.

Lemma nx_remove_edge_wf u v G : nx_wf G -> nx_wf (fst (nx_remove_edge u v G)).
Proof.
  intros H. pose proof H as [Hm Hs Hp]. unfold nx_remove_edge.
  destruct (dict_get u (_succ G)) as [su|] eqn:Eu; [|exact H].
  destruct (dict_mem v su) eqn:Ev; [|exact H].
  assert (Harc : arc (_pred G) v u = true)
    by (rewrite <- Hm; unfold arc; now rewrite Eu).
  simpl. unfold arc in Harc.
  destruct (dict_get v (_pred G)) as [pv|] eqn:Epv; [|discriminate].
  rewrite Harc. simpl. split; simpl.
  - intros x y. rewrite (arc_set_del _ _ _ _ _ _ Eu), (arc_set_del _ _ _ _ _ _ Epv), Hm.
    now rewrite (andb_comm (x =? u)).
  - intros k. rewrite dict_mem_set, <- Hs.
    destruct (String.eqb_spec k u) as [->|]; [|reflexivity].
    unfold dict_mem. now rewrite Eu.
  - intros k. rewrite dict_mem_set, <- Hp.
    destruct (String.eqb_spec k v) as [->|]; [|reflexivity].
    unfold dict_mem. now rewrite Epv.
Qed.

Lemma nx_remove_edge_mem u v G k :
  nx_wf G ->
  dict_mem k (_node (fst (nx_remove_edge u v G))) = dict_mem k (_node G).
Proof.
  intros _. unfold nx_remove_edge.
  destruct (dict_get u (_succ G)) as [su|]; [|reflexivity].
  destruct (dict_mem v su); [|reflexivity]. simpl.
  destruct (dict_get v (_pred G)) as [pv|]; [|reflexivity].
  destruct (dict_mem u pv); reflexivity.
Qed.

(** After [remove_node], the arcs left are those that avoid [n]. *)
Lemma nx_remove_node_arcs n G :
  nx_wf G -> dict_mem n (_node G) = true ->
  exists G',
    nx_remove_node n G = (G', Ok tt)
    /\ (forall u v, arc (_succ G') u v = negb (u =? n) && negb (v =? n) && arc (_succ G) u v)
    /\ (forall u v, arc (_pred G') u v = negb (u =? n) && negb (v =? n) && arc (_pred G) u v)
    /\ (forall k, dict_mem k (_node G') = negb (k =? n) && dict_mem k (_node G))
    /\ (forall k, dict_mem k (_succ G') = negb (k =? n) && dict_mem k (_succ G))
    /\ (forall k, dict_mem k (_pred G') = negb (k =? n) && dict_mem k (_pred G)).
Proof.
  intros [Hm Hs Hp] Hn. unfold nx_remove_node.
  assert (Hsn : dict_mem n (_succ G) = true) by now rewrite Hs.
  unfold dict_mem in Hsn. destruct (dict_get n (_succ G)) as [nbrs|] eqn:En; [|discriminate].
  rewrite Hn. eexists. split; [reflexivity|]. simpl.
  assert (Hnb : forall x, existsb (String.eqb x) (dict_keys nbrs) = arc (_succ G) n x).
  { intros x. rewrite existsb_eqb_keys. unfold arc. now rewrite En. }
  repeat split.
  - intros u v. rewrite arc_fold_del, arc_del, existsb_keys_arc, arc_fold_del, Hnb.
    rewrite <- !Hm.
    destruct (String.eqb_spec u n) as [->|Hu]; simpl.
    + now rewrite andb_false_r.
    + destruct (v =? n) eqn:Ev; simpl.
      * apply String.eqb_eq in Ev. subst v.
        rewrite andb_true_r. replace (u =? n) with false by (symmetry; now apply String.eqb_neq).
        rewrite andb_false_r. simpl. destruct (arc (_succ G) u n); reflexivity.
      * rewrite !andb_false_r. reflexivity.
  - intros u v. rewrite arc_del, arc_fold_del, Hnb, <- !Hm.
    destruct (String.eqb_spec u n) as [->|Hu]; simpl; [reflexivity|].
    destruct (v =? n) eqn:Ev; simpl.
    + apply String.eqb_eq in Ev. subst v. rewrite andb_true_r.
      destruct (arc (_succ G) n u); reflexivity.
    + rewrite andb_false_r. reflexivity.
  - intros k. apply dict_mem_del.
  - intros k. rewrite dict_mem_fold_adjust. apply dict_mem_del.
  - intros k. rewrite dict_mem_del, dict_mem_fold_adjust. reflexivity.
Qed.

Lemma nx_remove_node_wf n G : nx_wf G -> nx_wf (fst (nx_remove_node n G)).
Proof.
  intros H. destruct (dict_mem n (_node G)) eqn:Hn.
  - destruct (nx_remove_node_arcs n G H Hn) as (G' & -> & Hsucc & Hpred & Hnode & Hsk & Hpk).
    destruct H as [Hm Hs Hp]. simpl. split.
    + intros u v. rewrite Hsucc, Hpred, Hm.
      destruct (u =? n), (v =? n); reflexivity.
    + intros k. now rewrite Hsk, Hnode, Hs.
    + intros k. now rewrite Hpk, Hnode, Hp.
  - unfold nx_remove_node. rewrite Hn.
    destruct (dict_get n (_succ G)); exact H.
Qed.

(* ====================================================================== *)
(** * GraphManager keeps its invariant                                      *)
(* ====================================================================== *)

Lemma fold_del_In {V : Type} (ks : list string) (d : dict V) k v :
  In (k, v) (fold_left (fun d eid => dict_del eid d) ks d) <-> In (k, v) d /\ ~ In k ks.
Proof.
  revert d. induction ks as [|x ks IH]; intros d; simpl; [tauto|].
  rewrite IH, dict_In_del. intuition congruence.
Qed.

Lemma fold_del_wf {V : Type} (ks : list string) (d : dict V) :
  dict_wf d -> dict_wf (fold_left (fun d eid => dict_del eid d) ks d).
Proof.
  revert d. induction ks as [|x ks IH]; intros d H; simpl; [exact H|].
  apply IH, dict_wf_del, H.
Qed.

(** The edges that [remove_node] leaves do not touch the node. *)
Lemma remaining_edges nid (edges : dict DependencyEdge) k e :
  In (k, e)
     (fold_left (fun d eid => dict_del eid d)
                (map fst (filter (fun kv => touches nid (snd kv)) edges)) edges) ->
  In (k, e) edges /\ touches nid e = false.
Proof.
  rewrite fold_del_In. intros [Hin Hk]. split; [exact Hin|].
  destruct (touches nid e) eqn:E; [|reflexivity].
  exfalso. apply Hk. change k with (fst (k, e)). apply in_map.
  apply filter_In. split; [exact Hin | exact E].
Qed.

Lemma gm_init_wf : gm_wf gm_init.
Proof.
  split; simpl; try (intros; contradiction); try constructor; try reflexivity.
Qed.

Lemma add_node_wf node g : gm_wf g -> gm_wf (fst (add_node node g)).
Proof.
  intros H. pose proof H as [Hg Hgn Hn He Hnk Hek Hep]. unfold add_node.
  destruct (dict_mem (node_id node) (_nodes g)) eqn:E; [exact H|]. simpl.
  split; simpl; auto.
  - now apply nx_add_node_wf.
  - intros k. rewrite nx_add_node_mem by assumption. now rewrite dict_mem_set, Hgn.
  - now apply dict_wf_set.
  - intros k n Hin. apply dict_In_set in Hin. destruct Hin as [[-> ->]|Hin]; auto.
  - intros k e Hin. rewrite !dict_mem_set. destruct (Hep k e Hin) as [-> ->].
    now rewrite !orb_true_r.
Qed.

Lemma update_node_wf node g : gm_wf g -> gm_wf (fst (update_node node g)).
Proof.
  intros H. pose proof H as [Hg Hgn Hn He Hnk Hek Hep]. unfold update_node.
  destruct (dict_mem (node_id node) (_nodes g)) eqn:E; [|exact H]. simpl.
  assert (Hmem : forall k, dict_mem k (dict_set (node_id node) node (_nodes g))
                           = dict_mem k (_nodes g)).
  { intros k. rewrite dict_mem_set.
    destruct (String.eqb_spec k (node_id node)) as [->|]; [now rewrite E | reflexivity]. }
  assert (Hrest :
    forall G', nx_wf G' ->
      (forall k, dict_mem k (_node G') = dict_mem k (_node (_graph g))) ->
      gm_wf (mk_gm G' (dict_set (node_id node) node (_nodes g)) (_edges g))).
  { intros G' HG' Hk. split; simpl; auto.
    - intros k. now rewrite Hk, Hmem.
    - now apply dict_wf_set.
    - intros k n Hin. apply dict_In_set in Hin. destruct Hin as [[-> ->]|Hin]; auto.
    - intros k e Hin. rewrite !Hmem. now apply (Hep k). }
  unfold nx_update_node. destruct (dict_get (node_id node) (_node (_graph g))) eqn:Eg; simpl.
  - apply Hrest.
    + destruct Hg as [Hm Hs Hp]. split; simpl; auto.
      * intros k. rewrite Hs, dict_mem_set.
        destruct (String.eqb_spec k (node_id node)) as [->|]; [|reflexivity].
        unfold dict_mem. now rewrite Eg.
      * intros k. rewrite Hp, dict_mem_set.
        destruct (String.eqb_spec k (node_id node)) as [->|]; [|reflexivity].
        unfold dict_mem. now rewrite Eg.
    + intros k. simpl. rewrite dict_mem_set.
      destruct (String.eqb_spec k (node_id node)) as [->|]; [|reflexivity].
      unfold dict_mem. now rewrite Eg.
  - apply Hrest; auto.
Qed.

Lemma touches_false nid e :
  touches nid e = false -> source_id e <> nid /\ target_id e <> nid.
Proof.
  unfold touches. intros H. apply orb_false_iff in H. destruct H as [H1 H2].
  split; now apply String.eqb_neq.
Qed.

Lemma remove_node_wf nid g : gm_wf g -> gm_wf (fst (remove_node nid g)).
Proof.
  intros H. pose proof H as [Hg Hgn Hn He Hnk Hek Hep]. unfold remove_node.
  destruct (dict_mem nid (_nodes g)) eqn:E; [|exact H]. simpl.
  assert (Hnx : dict_mem nid (_node (_graph g)) = true) by now rewrite Hgn.
  destruct (nx_remove_node_arcs nid _ Hg Hnx) as (G' & HG' & Hsucc & Hpred & Hnode & Hsk & Hpk).
  pose proof (nx_remove_node_wf nid _ Hg) as Hwf'. rewrite HG' in *. simpl in *.
  split; simpl; auto.
  - intros k. now rewrite Hnode, dict_mem_del, Hgn.
  - now apply dict_wf_del.
  - now apply fold_del_wf.
  - intros k n Hin. apply dict_In_del in Hin. now apply Hnk.
  - intros k e Hin. apply remaining_edges in Hin. now apply Hek.
  - intros k e Hin. apply remaining_edges in Hin. destruct Hin as [Hin Ht].
    apply touches_false in Ht. destruct Ht as [Hs Ht].
    rewrite !dict_mem_del. destruct (Hep k e Hin) as [-> ->].
    apply String.eqb_neq in Hs, Ht. now rewrite Hs, Ht.
Qed.

Lemma add_edge_wf edge g : gm_wf g -> gm_wf (fst (add_edge edge g)).
Proof.
  intros H. pose proof H as [Hg Hgn Hn He Hnk Hek Hep]. unfold add_edge.
  destruct (dict_mem (source_id edge) (_nodes g)) eqn:Es; [|exact H].
  destruct (dict_mem (target_id edge) (_nodes g)) eqn:Et; [|exact H]. cbn [negb].
  destruct (dict_mem (edge_id edge) (_edges g)) eqn:Ee; [exact H|]. cbn [fst].
  split; cbn [_graph _nodes _edges]; auto.
  - now apply nx_add_edge_wf.
  - intros k. rewrite nx_add_edge_mem; auto; now rewrite Hgn.
  - now apply dict_wf_set.
  - intros k e Hin. apply dict_In_set in Hin. destruct Hin as [[-> ->]|Hin]; auto.
  - intros k e Hin. apply dict_In_set in Hin. destruct Hin as [[-> ->]|Hin]; eauto.
Qed.

Lemma remove_edge_wf src tgt et g : gm_wf g -> gm_wf (fst (remove_edge src tgt et g)).
Proof.
  intros H. pose proof H as [Hg Hgn Hn He Hnk Hek Hep]. unfold remove_edge.
  destruct (dict_mem (make_edge_id src et tgt) (_edges g)) eqn:E; [|exact H]. simpl.
  pose proof (nx_remove_edge_wf src tgt _ Hg) as Hwf.
  pose proof (nx_remove_edge_mem src tgt (_graph g)) as Hmem.
  destruct (nx_remove_edge src tgt (_graph g)) as [G' r]. simpl in *.
  split; simpl; auto.
  - intros k. now rewrite Hmem, Hgn.
  - now apply dict_wf_del.
  - intros k e Hin. apply dict_In_del in Hin. now apply Hek.
  - intros k e Hin. apply dict_In_del in Hin. now apply (Hep k).
Qed.

(** Every store a program can build satisfies the invariant. *)
Lemma reachable_wf g : reachable g -> gm_wf g.
Proof.
  induction 1 as [|op g _ IH]; [exact gm_init_wf|].
  destruct op; simpl.
  - now apply add_node_wf.
  - now apply update_node_wf.
  - now apply remove_node_wf.
  - now apply add_edge_wf.
  - now apply remove_edge_wf.
Qed.

Lemma reachable_run ops g : reachable g -> reachable (run ops g).
Proof.
  revert g. induction ops as [|op ops IH]; intros g H; simpl; [exact H|].
  apply IH. now constructor.
Qed.

(* ====================================================================== *)
(** * Graph store: structural integrity                                     *)
(* ====================================================================== *)

(** C5: adding an edge whose source id or target id is not a node of the
    graph raises [KeyError], and the store (nodes, edges and adjacency
    structure) is exactly what it was before the call. *)
Theorem add_edge_dangling_atomic (g : GraphManager) (edge : DependencyEdge) :
  dict_mem (source_id edge) (_nodes g) = false
  \/ dict_mem (target_id edge) (_nodes g) = false ->
  exists msg, add_edge edge g = (g, Raise (KeyError msg)).
Proof.
  intros H. unfold add_edge.
  destruct (dict_mem (source_id edge) (_nodes g)) eqn:Es; simpl.
  - destruct H as [H|H]; [discriminate|]. rewrite H. simpl. eauto.
  - eauto.
Qed.

Lemma add_edge_dangling_atomic_witness :
  exists msg,
    add_edge (sample_edge "a" GENERATES "zz" []) two_kinds = (two_kinds, Raise (KeyError msg)).
Proof.
  apply (add_edge_dangling_atomic two_kinds (sample_edge "a" GENERATES "zz" [])).
  right. reflexivity.
Defined.

Lemma not_arc_not_In (d : dict (dict attrs)) u n m :
  arc d u n = false -> dict_get u d = Some m -> ~ In n (dict_keys m).
Proof.
  unfold arc. intros H E. rewrite E in H. now apply dict_mem_false.
Qed.

(** C6: after [remove_node(id)] on a node of the store, which returns
    normally, no edge of the edge collection has [id] as source or target,
    and no successor or predecessor list of the adjacency structure
    mentions [id]; [id] itself is no longer a node. *)
Theorem remove_node_cascade (g : GraphManager) (nid : string) :
  reachable g ->
  dict_mem nid (_nodes g) = true ->
  exists g',
    remove_node nid g = (g', Ok tt)
    /\ (forall e, In e (dict_values (_edges g')) ->
          source_id e <> nid /\ target_id e <> nid)
    /\ (forall u l, successors g' u = Ok l -> ~ In nid l)
    /\ (forall u l, predecessors g' u = Ok l -> ~ In nid l)
    /\ dict_mem nid (_nodes g') = false
    /\ nx_has_node (_graph g') nid = false.
Proof.
  intros Hr Hin. apply reachable_wf in Hr. pose proof Hr as [Hg Hgn Hn He Hnk Hek Hep].
  assert (Hnx : dict_mem nid (_node (_graph g)) = true) by now rewrite Hgn.
  destruct (nx_remove_node_arcs nid _ Hg Hnx) as (G' & HG' & Hsucc & Hpred & Hnode & Hsk & Hpk).
  unfold remove_node. rewrite Hin, HG'. cbn [negb]. eexists. split; [reflexivity|].
  cbn [_graph _nodes _edges]. repeat split.
  - apply in_map_iff in H. destruct H as [[k e'] [<- H]].
    apply remaining_edges in H. now apply touches_false.
  - apply in_map_iff in H. destruct H as [[k e'] [<- H]].
    apply remaining_edges in H. now apply touches_false.
  - intros u l. unfold successors, nx_successors. cbn [_graph].
    destruct (dict_get u (_succ G')) as [m|] eqn:E; [|discriminate].
    intros [= <-]. apply (not_arc_not_In (_succ G') u); [|exact E].
    rewrite Hsucc, String.eqb_refl. now rewrite andb_false_r.
  - intros u l. unfold predecessors, nx_predecessors. cbn [_graph].
    destruct (dict_get u (_pred G')) as [m|] eqn:E; [|discriminate].
    intros [= <-]. apply (not_arc_not_In (_pred G') u); [|exact E].
    rewrite Hpred, String.eqb_refl. now rewrite andb_false_r.
  - rewrite dict_mem_del, String.eqb_refl. reflexivity.
  - unfold nx_has_node. rewrite Hnode, String.eqb_refl. reflexivity.
Qed.

Lemma two_kinds_reachable : reachable two_kinds.
Proof. apply reachable_run, reach_init. Qed.

Lemma remove_node_cascade_witness :
  exists g',
    remove_node "b" two_kinds = (g', Ok tt)
    /\ (forall e, In e (dict_values (_edges g')) ->
          source_id e <> "b" /\ target_id e <> "b")
    /\ (forall u l, successors g' u = Ok l -> ~ In "b" l)
    /\ (forall u l, predecessors g' u = Ok l -> ~ In "b" l)
    /\ dict_mem "b" (_nodes g') = false
    /\ nx_has_node (_graph g') "b" = false.
Proof.
  apply (remove_node_cascade two_kinds "b" two_kinds_reachable). reflexivity.
Defined.

Lemma filter_twice {A : Type} (p q : A -> bool) (l : list A) :
  filter p (filter q l) = filter (fun a => q a && p a) l.
Proof.
  induction l as [|a l IH]; simpl; [reflexivity|].
  destruct (q a); simpl; [destruct (p a)|]; now rewrite IH.
Qed.

(** Deleting the keys of the entries that satisfy [p] leaves the other
    entries, when keys are distinct. *)
Lemma fold_del_filter {V : Type} (p : V -> bool) (d : dict V) :
  dict_wf d ->
  fold_left (fun d k => dict_del k d) (map fst (filter (fun kv => p (snd kv)) d)) d
  = filter (fun kv => negb (p (snd kv))) d.
Proof.
  intros Hwf.
  assert (H : forall ks (d' : dict V),
            fold_left (fun d k => dict_del k d) ks d'
            = filter (fun kv => negb (existsb (String.eqb (fst kv)) ks)) d').
  { induction ks as [|k ks IH]; intros d'; simpl.
    - symmetry. now apply filter_true.
    - rewrite IH. unfold dict_del. rewrite filter_twice. apply filter_ext.
      intros [k' v]. simpl. destruct (k' =? k), (existsb (String.eqb k') ks); reflexivity. }
  rewrite H. apply filter_ext_in. intros [k v] Hin. simpl. f_equal.
  destruct (p v) eqn:Hp.
  - apply existsb_exists. exists k. split; [|apply String.eqb_refl].
    change k with (fst (k, v)). apply in_map. apply filter_In. auto.
  - destruct (existsb (String.eqb k) _) eqn:E; [|reflexivity].
    apply existsb_exists in E. destruct E as (k' & Hk' & Heq).
    apply String.eqb_eq in Heq. subst k'.
    apply in_map_iff in Hk'. destruct Hk' as ([k'' v'] & Hfst & Hin').
    simpl in Hfst. subst k''. apply filter_In in Hin'. destruct Hin' as [Hin' Hp'].
    simpl in Hp'. pose proof (dict_In_get _ _ _ _ Hwf Hin') as Hget.
    rewrite (dict_In_get _ _ _ _ Hwf Hin) in Hget. congruence.
Qed.

Lemma existsb_values_filter {V : Type} (p q : V -> bool) (d : dict V) :
  existsb p (dict_values (filter (fun kv => q (snd kv)) d))
  = existsb (fun v => q v && p v) (dict_values d).
Proof.
  unfold dict_values. induction d as [|[k v] d IH]; simpl; [reflexivity|].
  destruct (q v); simpl; now rewrite IH.
Qed.

(** Apart from [remove_edge], the mutators keep the adjacency structure
    in step with the edge collection. *)
Lemma in_step_kept op g :
  gm_wf g -> in_step g ->
  (forall s t et, op <> RemoveEdge s t et) ->
  in_step (fst (apply_op op g)).
Proof.
  intros Hwf Hstep Hop. pose proof Hwf as [Hg Hgn Hn He Hnk Hek Hep].
  pose proof Hg as [Hm Hs Hp]. unfold in_step in *.
  destruct op as [node|node|nid|edge|s0 t0 et0]; simpl.
  - unfold add_node. destruct (dict_mem (node_id node) (_nodes g)) eqn:E; [exact Hstep|].
    cbn [fst _graph _edges]. intros s t. rewrite <- Hstep.
    unfold nx_add_node. rewrite Hs, Hgn, E. cbn [_succ]. rewrite arc_set_empty.
    destruct (String.eqb_spec s (node_id node)) as [->|]; [|reflexivity].
    simpl. unfold arc. rewrite <- Hgn, <- Hs in E. unfold dict_mem in E.
    destruct (dict_get (node_id node) (_succ (_graph g))); [discriminate | reflexivity].
  - unfold update_node. destruct (dict_mem (node_id node) (_nodes g)); [|exact Hstep].
    cbn [negb]. unfold nx_update_node.
    destruct (dict_get (node_id node) (_node (_graph g))); exact Hstep.
  - unfold remove_node. destruct (dict_mem nid (_nodes g)) eqn:E; [|exact Hstep].
    cbn [negb]. assert (Hnx : dict_mem nid (_node (_graph g)) = true) by now rewrite Hgn.
    destruct (nx_remove_node_arcs nid _ Hg Hnx) as (G' & -> & Hsucc & _).
    cbn [fst _graph _edges]. intros s t.
    rewrite Hsucc, Hstep, (fold_del_filter (touches nid) _ He).
    rewrite (existsb_values_filter (joins s t) (fun e => negb (touches nid e))).
    unfold dict_values. induction (map snd (_edges g)) as [|e l IH]; simpl.
    + now rewrite andb_false_r.
    + rewrite <- IH. unfold joins, touches.
      destruct (String.eqb_spec (source_id e) s) as [->|], (String.eqb_spec (target_id e) t) as [->|];
        simpl; rewrite ?andb_false_r, ?orb_false_r;
        destruct (s =? nid), (t =? nid), (existsb (joins s t) l);
        simpl; rewrite ?andb_false_r, ?orb_false_r, ?orb_true_r; try reflexivity;
        destruct (source_id e =? nid), (target_id e =? nid); reflexivity.
  - unfold add_edge.
    destruct (dict_mem (source_id edge) (_nodes g)) eqn:Es; [|exact Hstep].
    destruct (dict_mem (target_id edge) (_nodes g)) eqn:Et; [|exact Hstep]. cbn [negb].
    destruct (dict_mem (edge_id edge) (_edges g)) eqn:Ee; [exact Hstep|].
    cbn [fst _graph _edges]. intros s t.
    rewrite dict_set_new by exact Ee. unfold dict_values.
    rewrite map_app, existsb_app. fold (dict_values (_edges g)). rewrite <- Hstep.
    unfold nx_add_edge, nx_ensure_node. rewrite <- Hgn, <- Hs in Es, Et.
    rewrite Es, Et. cbn [_succ]. rewrite arc_adjust_set by exact Es.
    simpl. unfold joins. rewrite orb_false_r, orb_comm.
    now rewrite (String.eqb_sym s), (String.eqb_sym t).
  - exfalso. now apply (Hop s0 t0 et0).
Qed.

Lemma gm_init_in_step : in_step gm_init.
Proof. intros s t. reflexivity. Qed.

Lemma two_kinds_in_step : in_step two_kinds.
Proof.
  unfold two_kinds, run. cbn [fold_left].
  repeat (apply in_step_kept;
          [ apply reachable_wf; repeat (apply reach_step); apply reach_init
          | | discriminate ]).
  exact gm_init_in_step.
Qed.

(** C9, at the input where it fails: two edges of different kinds join
    ["a"] to ["b"], and the adjacency structure agrees with the edge
    collection.  Removing one of the two edges returns normally and leaves
    the other in the edge collection, yet ["b"] is no longer a successor
    of ["a"], nor ["a"] a predecessor of ["b"]: the two structures have
    parted. *)
Theorem remove_edge_forgets_parallel_edge :
  let r := remove_edge "a" "b" GENERATES two_kinds in
  in_step two_kinds
  /\ snd r = Ok tt
  /\ (exists e, dict_get "a--constrains-->b" (_edges (fst r)) = Some e
                /\ source_id e = "a" /\ target_id e = "b"
                /\ get_edges_from (fst r) "a" = [e])
  /\ successors (fst r) "a" = Ok []
  /\ predecessors (fst r) "b" = Ok []
  /\ ~ in_step (fst r).
Proof.
  cbv zeta. split; [exact two_kinds_in_step|]. split; [reflexivity|].
  split; [|split; [reflexivity|split; [reflexivity|]]].
  - eexists. split; [reflexivity|]. repeat split.
  - intros H. specialize (H "a" "b"). discriminate H.
Qed.

(* ====================================================================== *)
(** * Snapshots: save, then load                                            *)
(* ====================================================================== *)

Lemma NodeType_roundtrip t : NodeType_of_value (NodeType_value t) = Some (Ok t).
Proof. destruct t; reflexivity. Qed.

Lemma EdgeType_roundtrip t : EdgeType_of_value (EdgeType_value t) = Some (Ok t).
Proof. destruct t; reflexivity. Qed.










Lemma not_in_mem_false {V : Type} (d : dict V) k :
  ~ In k (dict_keys d) -> dict_mem k d = false.
Proof. apply dict_mem_false. Qed.

Lemma dict_mem_app {V : Type} (d d' : dict V) k :
  dict_mem k (d ++ d') = dict_mem k d || dict_mem k d'.
Proof.
  unfold dict_mem. induction d as [|[k0 v0] d IH]; simpl; [reflexivity|].
  destruct (k =? k0); [reflexivity | exact IH].
Qed.


Lemma add_node_new node g :
  dict_mem (node_id node) (_nodes g) = false ->
  add_node node g
  = (mk_gm (nx_add_node (node_id node) (node_attrs node) (_graph g))
           (dict_set (node_id node) node (_nodes g)) (_edges g),
     Ok tt).
Proof. intros H. unfold add_node. now rewrite H. Qed.

Lemma add_edge_new edge g :
  dict_mem (source_id edge) (_nodes g) = true ->
  dict_mem (target_id edge) (_nodes g) = true ->
  dict_mem (edge_id edge) (_edges g) = false ->
  add_edge edge g
  = (mk_gm (nx_add_edge (source_id edge) (target_id edge) (edge_attrs edge) (_graph g))
           (_nodes g) (dict_set (edge_id edge) edge (_edges g)),
     Ok tt).
Proof. intros Hs Ht He. unfold add_edge. now rewrite Hs, Ht, He. Qed.









(* ====================================================================== *)
(** * Validation reports                                                    *)
(* ====================================================================== *)

Lemma with_severity_nil_iff s l :
  with_severity s l = [] <-> forall i, In i l -> severity i <> s.
Proof.
  unfold with_severity. induction l as [|i l IH]; simpl.
  - split; [intros _ ? [] | reflexivity].
  - destruct (Severity_eqb (severity i) s) eqn:E.
    + split; [discriminate|]. intros H. exfalso. apply (H i); [now left|].
      destruct (severity i), s; (reflexivity || discriminate).
    + rewrite IH. split.
      * intros H j [<-|Hj]; [|auto]. intros Heq. rewrite Heq in E.
        destruct s; discriminate.
      * intros H j Hj. apply H. now right.
Qed.

(** C10: a report without PASS and without FAIL items has coverage
    [100.0] and is valid, and so has the report of an empty graph; any
    report is valid exactly when none of its items is a FAIL, whatever
    its warnings and info items. *)
Theorem report_validity_and_empty_coverage :
  (forall r, passes r = [] -> failures r = [] ->
     coverage_pct r = Hundred /\ is_valid r = true)
  /\ (forall now, exists r,
        validate gm_init now = Ok r
        /\ items r = [] /\ coverage_pct r = Hundred /\ is_valid r = true)
  /\ (forall r, is_valid r = true <-> (forall i, In i (items r) -> severity i <> FAIL)).
Proof.
  split; [|split].
  - intros r Hp Hf. unfold coverage_pct, is_valid. rewrite Hp, Hf. split; reflexivity.
  - intros now. eexists. split; [reflexivity|]. repeat split.
  - intros r. unfold is_valid, failures. rewrite <- with_severity_nil_iff.
    destruct (with_severity FAIL (items r)); simpl; split; (reflexivity || discriminate).
Qed.

Lemma report_validity_and_empty_coverage_witness :
  coverage_pct (mk_report 7 [l1_warning "n" (sample_node "n" IPXACT_COMPONENT [])]) = Hundred
  /\ is_valid (mk_report 7 [l1_warning "n" (sample_node "n" IPXACT_COMPONENT [])]) = true.
Proof.
  apply (proj1 report_validity_and_empty_coverage); reflexivity.
Defined.

(** The claim of C2 fails: two runs on the same store, at two readings of
    the clock, give summaries that differ. *)
Lemma validate_twice_summaries_differ :
  exists r1 r2,
    validate two_kinds 1000 = Ok r1
    /\ validate two_kinds 1001 = Ok r2
    /\ summary r1 <> summary r2.
Proof.
  do 2 eexists. split; [reflexivity|]. split; [reflexivity|].
  intros H. apply (f_equal s_timestamp) in H. discriminate H.
Qed.

(* ====================================================================== *)
(** * Level 1: structural completeness                                      *)
(* ====================================================================== *)

Lemma NodeType_beq_true a b : NodeType_beq a b = true <-> a = b.
Proof.
  split; [apply internal_NodeType_dec_bl | apply internal_NodeType_dec_lb].
Qed.

(** A loop that only appends. *)
Lemma fold_left_appending {A B : Type} (f : list B -> A -> list B) (l : list A) :
  (forall r a, f r a = r ++ f [] a) ->
  forall r, fold_left f l r = r ++ flat_map (f []) l.
Proof.
  intros Hf. induction l as [|a l IH]; intros r; simpl.
  - now rewrite app_nil_r.
  - rewrite IH, Hf. now rewrite <- app_assoc.
Qed.

Lemma l1_expected_appends nid node tts key values r t :
  l1_expected nid node tts key values r t = r ++ l1_expected nid node tts key values [] t.
Proof.
  unfold l1_expected. destruct (cdc_not_required key values t); [now rewrite app_nil_r|].
  destruct (existsb (NodeType_beq t) tts); reflexivity.
Qed.

Lemma l1_element_appends nid node tts r kv :
  l1_element nid node tts r kv = r ++ l1_element nid node tts [] kv.
Proof.
  unfold l1_element. destruct kv as [key [|v values]]; [now rewrite app_nil_r|].
  rewrite (fold_left_appending _ _ (l1_expected_appends nid node tts key (v :: values))).
  rewrite (fold_left_appending _ _ (l1_expected_appends nid node tts key (v :: values)) []).
  reflexivity.
Qed.

Lemma l1_node_appends g r kv : l1_node g r kv = r ++ l1_node g [] kv.
Proof.
  unfold l1_node. destruct kv as [nid node].
  assert (H : forall l,
    fold_left (l1_element nid node
                 (target_types_of (all_nodes g) (get_edges_from g nid))) l r
    = r ++ fold_left (l1_element nid node
                 (target_types_of (all_nodes g) (get_edges_from g nid))) l []).
  { intros l. rewrite (fold_left_appending _ _ (l1_element_appends nid node _)).
    now rewrite (fold_left_appending _ _ (l1_element_appends nid node _) []). }
  destruct (node_type node); try (now rewrite app_nil_r);
    (destruct (defined_elements node); [reflexivity | apply H]).
Qed.

(** The set [target_types] holds the kinds of the targets of the
    outgoing edges. *)
Lemma target_types_has_edge g nid t :
  existsb (NodeType_beq t) (target_types_of (all_nodes g) (get_edges_from g nid)) = true
  <-> has_edge_to_kind g nid t.
Proof.
  unfold has_edge_to_kind, target_types_of, get_edges_from, all_nodes.
  rewrite existsb_exists. split.
  - intros (t' & Hin & Ht). apply NodeType_beq_true in Ht. subst t'.
    apply in_flat_map in Hin. destruct Hin as (e & He & Hin).
    apply filter_In in He. destruct He as [He Hs]. apply String.eqb_eq in Hs.
    destruct (dict_get (target_id e) (_nodes g)) as [tn|] eqn:E; [|contradiction].
    destruct Hin as [<-|[]]. exists e, tn. auto.
  - intros (e & tn & He & Hs & Ht & <-). exists (node_type tn).
    split; [|now apply NodeType_beq_true].
    apply in_flat_map. exists e. split.
    + apply filter_In. split; [exact He | now apply String.eqb_eq].
    + rewrite Ht. now left.
Qed.

Lemma cdc_not_required_iff key values t :
  cdc_not_required key values t = true
  <-> key = "clocks" /\ t = CDC_CONSTRAINT /\ length values <= 1.
Proof.
  unfold cdc_not_required. rewrite !andb_true_iff, NodeType_beq_true, String.eqb_eq,
    Nat.leb_le. tauto.
Qed.

(** C7: the Level-1 pass is the concatenation, node by node, of the items
    of each node.  For a validated node with a non-empty inventory these
    are, for every non-empty category in turn and every kind expected for
    it in turn, the items of that (category, kind) pair: none when the
    category is ["clocks"], the kind is the CDC-constraint kind and at
    most one clock is declared; otherwise exactly one, a PASS if the node
    has an outgoing edge to a node of that kind, else a FAIL whose message
    and details name the kind and the declared element values. *)
Theorem level1_one_item_per_pair
    (g : GraphManager) (nid : string) (node : ArtifactNode)
    (report : list ValidationItem) :
  let pair_items key values t :=
    l1_expected nid node (target_types_of (all_nodes g) (get_edges_from g nid))
                key values [] t in
  node_type node = IPXACT_COMPONENT \/ node_type node = IPXACT_DESIGN ->
  defined_elements node <> [] ->
  _level1_structural g report = report ++ flat_map (l1_node g []) (all_nodes g)
  /\ l1_node g report (nid, node)
     = report
       ++ flat_map
            (fun kv =>
               flat_map (pair_items (fst kv) (snd kv))
                        (dict_get_or (fst kv) [] IPXACT_ELEMENT_EXPECTED_OUTPUTS))
            (filter (fun kv => negb (is_empty (snd kv))) (defined_elements node))
  /\ forall key values t,
       (key = "clocks" /\ t = CDC_CONSTRAINT /\ length values <= 1 ->
          pair_items key values t = [])
       /\ (~ (key = "clocks" /\ t = CDC_CONSTRAINT /\ length values <= 1) ->
           exists item,
             pair_items key values t = [item]
             /\ category item = "structural"
             /\ item_node item = nid
             /\ mapping_category item = key
             /\ (has_edge_to_kind g nid t -> severity item = PASS)
             /\ (~ has_edge_to_kind g nid t ->
                   severity item = FAIL
                   /\ In (FStr (NodeType_value t)) (message item)
                   /\ In (FStrs values) (message item)
                   /\ dict_get "expected_target_type" (details item)
                      = Some (DStr (NodeType_value t))
                   /\ dict_get "element_values" (details item) = Some (DStrs values))).
Proof.
  intros pair_items Hty Hne. split; [|split].
  - unfold _level1_structural. apply fold_left_appending. apply l1_node_appends.
  - rewrite l1_node_appends. f_equal. unfold l1_node.
    assert (H : forall l,
      fold_left (l1_element nid node
                   (target_types_of (all_nodes g) (get_edges_from g nid))) l []
      = flat_map
          (fun kv =>
             flat_map (pair_items (fst kv) (snd kv))
                      (dict_get_or (fst kv) [] IPXACT_ELEMENT_EXPECTED_OUTPUTS))
          (filter (fun kv => negb (is_empty (snd kv))) l)).
    { intros l. rewrite (fold_left_appending _ _ (l1_element_appends nid node _)).
      simpl. induction l as [|[key values] l IH]; [reflexivity|]. simpl.
      destruct values as [|v values]; simpl; [exact IH|].
      rewrite IH. f_equal.
      now rewrite (fold_left_appending _ _ (l1_expected_appends nid node _ key (v :: values))). }
    destruct (defined_elements node) as [|kv l] eqn:E; [contradiction|].
    destruct Hty as [-> | ->]; apply H.
  - intros key values t. unfold pair_items, l1_expected. split.
    + intros H. apply cdc_not_required_iff in H. now rewrite H.
    + intros H. destruct (cdc_not_required key values t) eqn:E;
        [apply cdc_not_required_iff in E; contradiction|].
      destruct (existsb (NodeType_beq t) _) eqn:Ex.
      * eexists. split; [reflexivity|]. split; [reflexivity|].
        split; [reflexivity|]. split; [reflexivity|]. split; [reflexivity|].
        intros Hno. apply target_types_has_edge in Ex. contradiction.
      * eexists. split; [reflexivity|]. split; [reflexivity|].
        split; [reflexivity|]. split; [reflexivity|]. split.
        -- intros Hyes. apply target_types_has_edge in Hyes. congruence.
        -- intros _. simpl. repeat split; auto 10.
Qed.

Lemma level1_one_item_per_pair_witness :
  l1_node scenario_a [] ("comp", component_a)
  = [ l1_pass "comp" component_a "clocks" SDC_CONSTRAINT;
      l1_fail "comp" component_a "clocks" ["i_clk"; "i_clk_aux"] CDC_CONSTRAINT ].
Proof.
  refine (eq_trans
            (proj1 (proj2 (level1_one_item_per_pair scenario_a "comp" component_a []
                             (or_introl eq_refl) _)))
            eq_refl).
  discriminate.
Defined.

(* ====================================================================== *)
(** * Level 2: field-level completeness                                     *)
(* ====================================================================== *)

Lemma with_severity_app s l l' :
  with_severity s (l ++ l') = with_severity s l ++ with_severity s l'.
Proof. apply filter_app. Qed.

Lemma with_severity_map {A : Type} s (f : A -> ValidationItem) (l : list A) :
  with_severity s (map f l)
  = map f (filter (fun a => Severity_eqb (severity (f a)) s) l).
Proof.
  unfold with_severity. induction l as [|a l IH]; simpl; [reflexivity|].
  destruct (Severity_eqb (severity (f a)) s); simpl; now rewrite IH.
Qed.

Lemma filter_true {A : Type} (p : A -> bool) (l : list A) :
  (forall a, In a l -> p a = true) -> filter p l = l.
Proof.
  induction l as [|a l IH]; intros H; simpl; [reflexivity|].
  rewrite (H a) by now left. rewrite IH; [reflexivity|]. intros b Hb. apply H. now right.
Qed.

Lemma filter_false {A : Type} (p : A -> bool) (l : list A) :
  (forall a, In a l -> p a = false) -> filter p l = [].
Proof.
  induction l as [|a l IH]; intros H; simpl; [reflexivity|].
  rewrite (H a) by now left. apply IH. intros b Hb. apply H. now right.
Qed.

(** A record carries one category. *)
Lemma has_category_unique c c' md :
  has_category c md = true -> has_category c' md = true -> c = c'.
Proof.
  unfold has_category. destruct (dict_get "category" md) as [[| | |s| |]|]; try discriminate.
  simpl. intros H H'. apply String.eqb_eq in H, H'. congruence.
Qed.

Lemma present_categories_of_strings (mapping : list (dict pyval)) :
  (forall md, In md mapping -> exists c, has_category c md = true) ->
  exists present, present_categories mapping = Ok present.
Proof.
  unfold present_categories. generalize (@nil pyval) as acc.
  induction mapping as [|md mapping IH]; intros acc H; simpl; [eauto|].
  destruct (H md) as [c Hc]; [now left|].
  unfold has_category in Hc. unfold dict_get_or.
  destruct (dict_get "category" md) as [[| | |s| |]|]; try discriminate. simpl.
  destruct (negb (s =? "")); simpl; apply IH; intros md' Hmd'; apply H; now right.
Qed.

(** Entries that lack no field give one PASS each, numbered from [start]. *)
Lemma l2_entries_complete edge src tgt sc (entries : list (dict pyval)) :
  (forall md, In md entries -> filter (field_missing md) (required_fields sc) = []) ->
  forall start report,
    fold_left (l2_entry edge src tgt sc)
              (combine (seq start (length entries)) entries) report
    = report ++ map (l2_pass edge src tgt sc) (seq start (length entries)).
Proof.
  induction entries as [|md entries IH]; intros H start report; simpl.
  - now rewrite app_nil_r.
  - rewrite (H md) by now left. rewrite IH by (intros md' Hmd'; apply H; now right).
    now rewrite <- app_assoc.
Qed.

Lemma l2_schema_complete edge src tgt sc report :
  filter (has_category (category_of sc)) (mapping_details edge) <> [] ->
  (forall md, In md (mapping_details edge) ->
     has_category (category_of sc) md = true ->
     forall f, In f (required_fields sc) -> field_missing md f = false) ->
  l2_schema edge src tgt report sc
  = report
    ++ map (l2_pass edge src tgt sc)
           (seq 0 (length (filter (has_category (category_of sc)) (mapping_details edge)))).
Proof.
  intros Hne Hall. unfold l2_schema.
  destruct (filter (has_category (category_of sc)) (mapping_details edge))
    as [|md matching] eqn:E; [contradiction|].
  apply (l2_entries_complete edge src tgt sc (md :: matching)).
  intros md' Hin. rewrite <- E in Hin. apply filter_In in Hin. destruct Hin as [Hin Hc].
  apply filter_false. intros f Hf. now apply (Hall md').
Qed.

Lemma l2_schema_absent edge src tgt sc report :
  filter (has_category (category_of sc)) (mapping_details edge) = [] ->
  l2_schema edge src tgt report sc
  = report ++ [if conditional sc then l2_warning edge src tgt sc
               else l2_fail_category edge src tgt sc].
Proof.
  intros H. unfold l2_schema. rewrite H. destruct (conditional sc); reflexivity.
Qed.

(** Records that each fall under one of three tests. *)
Lemma length_three_way {A : Type} (p q r : A -> bool) (l : list A) :
  (forall a, In a l ->
     (p a = true /\ q a = false /\ r a = false)
     \/ (p a = false /\ q a = true /\ r a = false)
     \/ (p a = false /\ q a = false /\ r a = true)) ->
  length (filter p l) + length (filter q l) + length (filter r l) = length l.
Proof.
  induction l as [|a l IH]; intros H; simpl; [reflexivity|].
  assert (IH' := IH (fun b Hb => H b (or_intror Hb))).
  destruct (H a (or_introl eq_refl)) as [(-> & -> & ->)|[(-> & -> & ->)|(-> & -> & ->)]];
    simpl; lia.
Qed.

Lemma filter_nonempty {A : Type} (p : A -> bool) (l : list A) a :
  In a l -> p a = true -> filter p l <> [].
Proof.
  intros Hin Hp Hnil. assert (H : In a (filter p l)) by (apply filter_In; auto).
  rewrite Hnil in H. contradiction.
Qed.

(** Three mandatory categories, all present and complete, followed by two
    conditional categories without records. *)
Lemma l2_three_passed_two_absent edge src tgt (a b c d e : schema) report :
  let count sc := length (filter (has_category (category_of sc)) (mapping_details edge)) in
  category_of a <> category_of b -> category_of a <> category_of c ->
  category_of b <> category_of c ->
  (forall x, In x [a; b; c] -> category_of x <> category_of d /\ category_of x <> category_of e) ->
  conditional d = true -> conditional e = true ->
  (forall md, In md (mapping_details edge) ->
     complete_for a md \/ complete_for b md \/ complete_for c md) ->
  (forall x, In x [a; b; c] ->
     exists md, In md (mapping_details edge) /\ has_category (category_of x) md = true) ->
  fold_left (l2_schema edge src tgt) [a; b; c; d; e] report
  = report
    ++ (map (l2_pass edge src tgt a) (seq 0 (count a))
        ++ map (l2_pass edge src tgt b) (seq 0 (count b))
        ++ map (l2_pass edge src tgt c) (seq 0 (count c))
        ++ [l2_warning edge src tgt d; l2_warning edge src tgt e])
  /\ count a + count b + count c = length (mapping_details edge)
  /\ 0 < count a /\ 0 < count b /\ 0 < count c.
Proof.
  intros count Hab Hac Hbc Hde Hd He Hall Hsome.
  assert (Hfields : forall x, In x [a; b; c] ->
            forall md, In md (mapping_details edge) ->
              has_category (category_of x) md = true ->
              forall f, In f (required_fields x) -> field_missing md f = false).
  { intros x Hx md Hmd Hcat.
    destruct (Hall md Hmd) as [[Hc Hf]|[[Hc Hf]|[Hc Hf]]];
      pose proof (has_category_unique _ _ _ Hcat Hc) as Heq;
      simpl in Hx; destruct Hx as [<-|[<-|[<-|[]]]]; congruence || exact Hf. }
  assert (Habsent : forall x, (x = d \/ x = e) ->
            filter (has_category (category_of x)) (mapping_details edge) = []).
  { intros x Hx. apply filter_false. intros md Hmd.
    destruct (has_category (category_of x) md) eqn:Hcat; [|reflexivity]. exfalso.
    destruct (Hall md Hmd) as [[Hc _]|[[Hc _]|[Hc _]]];
      pose proof (has_category_unique _ _ _ Hcat Hc) as Heq.
    - destruct (Hde a) as [H1 H2]; [simpl; auto|]. destruct Hx; subst x; congruence.
    - destruct (Hde b) as [H1 H2]; [simpl; auto|]. destruct Hx; subst x; congruence.
    - destruct (Hde c) as [H1 H2]; [simpl; auto|]. destruct Hx; subst x; congruence. }
  assert (Hne : forall x, In x [a; b; c] ->
            filter (has_category (category_of x)) (mapping_details edge) <> []).
  { intros x Hx. destruct (Hsome x Hx) as (md & Hmd & Hcat).
    now apply (filter_nonempty _ _ md). }
  split; [|split].
  - cbn [fold_left].
    rewrite (l2_schema_complete edge src tgt a) by (try apply Hne; try apply Hfields; simpl; auto).
    rewrite (l2_schema_complete edge src tgt b) by (try apply Hne; try apply Hfields; simpl; auto).
    rewrite (l2_schema_complete edge src tgt c) by (try apply Hne; try apply Hfields; simpl; auto).
    rewrite (l2_schema_absent edge src tgt d) by (apply Habsent; auto).
    rewrite (l2_schema_absent edge src tgt e) by (apply Habsent; auto).
    rewrite Hd, He. unfold count. rewrite <- !app_assoc. reflexivity.
  - unfold count. apply length_three_way. intros md Hmd.
    assert (Hx : forall x y, category_of x <> category_of y ->
              has_category (category_of x) md = true ->
              has_category (category_of y) md = false).
    { intros x y Hxy Hc. destruct (has_category (category_of y) md) eqn:E; [|reflexivity].
      exfalso. apply Hxy. now apply (has_category_unique _ _ md). }
    destruct (Hall md Hmd) as [[Hc _]|[[Hc _]|[Hc _]]]; [left|right; left|right; right];
      rewrite Hc; repeat split;
      match goal with
      | |- has_category (category_of ?y) md = false =>
          eapply Hx; [|exact Hc]; auto
      end.
  - assert (Hpos : forall x, In x [a; b; c] -> 0 < count x).
    { intros x Hx. specialize (Hne x Hx). unfold count.
      destruct (filter (has_category (category_of x)) (mapping_details edge));
        [contradiction | simpl; lia]. }
    repeat split; apply Hpos; simpl; auto.
Qed.

Lemma with_severity_l2_pass s edge src tgt sc (l : list nat) :
  with_severity s (map (l2_pass edge src tgt sc) l)
  = if Severity_eqb PASS s then map (l2_pass edge src tgt sc) l else [].
Proof.
  rewrite with_severity_map. cbn [severity l2_pass].
  destruct (Severity_eqb PASS s).
  - f_equal. now apply filter_true.
  - now rewrite filter_false.
Qed.

(** The claim of C3 fails in scenario A: the component declares two
    clocks, the edge to the SDC file carries complete [clock_domain],
    [io_timing] and [false_path] records and no [clock_group] record, and
    Level 2 emits two warnings, not one. *)
Lemma scenario_a_two_warnings :
  exists report,
    _level2_field_completeness scenario_a [] = Ok report
    /\ map mapping_category (with_severity WARNING report)
       = ["clock_group"; "multicycle_path"]
    /\ length (with_severity WARNING report) <> 1
    /\ with_severity FAIL report = [].
Proof.
  eexists. split; [reflexivity|]. split; [reflexivity|]. split; [discriminate | reflexivity].
Qed.

(** C3, amended: on an edge from an IP-XACT component to an SDC
    constraint file whose records are all complete entries of the three
    mandatory categories ([clock_domain], [io_timing], [false_path]), each
    of them present, Level 2 emits, after one PASS per record, exactly two
    WARNINGs: one for each conditional category of the schema,
    [clock_group] and [multicycle_path], neither of which has a record.
    There is no FAIL and no INFO for the edge.  The number of clocks the
    component declares plays no part. *)
Theorem level2_complete_sdc_edge
    (g : GraphManager) (k : string) (edge : DependencyEdge) (src tgt : ArtifactNode)
    (schemas : list schema) (report : list ValidationItem) :
  dict_get (source_id edge) (_nodes g) = Some src ->
  dict_get (target_id edge) (_nodes g) = Some tgt ->
  node_type src = IPXACT_COMPONENT ->
  node_type tgt = SDC_CONSTRAINT ->
  EXPECTED_MAPPING_FIELDS IPXACT_COMPONENT SDC_CONSTRAINT = Some schemas ->
  (forall md, In md (mapping_details edge) ->
     exists sc, In sc schemas /\ conditional sc = false /\ complete_for sc md) ->
  (forall sc, In sc schemas -> conditional sc = false ->
     exists md, In md (mapping_details edge) /\ has_category (category_of sc) md = true) ->
  map category_of (filter (fun sc => negb (conditional sc)) schemas)
  = ["clock_domain"; "io_timing"; "false_path"]
  /\ exists items,
       l2_edge g report (k, edge) = Ok (report ++ items)
       /\ with_severity WARNING items
          = map (l2_warning edge src tgt) (filter conditional schemas)
       /\ map mapping_category (with_severity WARNING items)
          = ["clock_group"; "multicycle_path"]
       /\ with_severity FAIL items = []
       /\ with_severity INFO items = []
       /\ length (with_severity PASS items) = length (mapping_details edge)
       /\ (forall c, In c ["clock_domain"; "io_timing"; "false_path"] ->
             exists i, In i items /\ severity i = PASS /\ mapping_category i = c).
Proof.
  intros Hsrc Htgt Hts Htt Htable Hall Hsome.
  injection Htable as <-. split; [reflexivity|].
  match type of Hall with
  | context [In _ [?a; ?b; ?c; ?d; ?e]] =>
      destruct (l2_three_passed_two_absent edge src tgt a b c d e report)
        as (Hfold & Hcount & Ha & Hb & Hc)
  end; try discriminate; try reflexivity.
  - intros x Hx. simpl in Hx. destruct Hx as [<-|[<-|[<-|[]]]]; split; discriminate.
  - intros md Hmd. destruct (Hall md Hmd) as (sc & Hin & Hcond & Hcomplete).
    simpl in Hin. destruct Hin as [<-|[<-|[<-|[<-|[<-|[]]]]]]; auto; discriminate.
  - intros x Hx. apply Hsome; [|simpl in Hx; destruct Hx as [<-|[<-|[<-|[]]]]; reflexivity].
    simpl in *. tauto.
  - destruct (present_categories_of_strings (mapping_details edge)) as [present Hpresent].
    { intros md Hmd. destruct (Hall md Hmd) as (sc & _ & _ & Hc' & _). eauto. }
    eexists. split.
    { unfold l2_edge, all_nodes. cbn [snd]. rewrite Hsrc, Htgt, Hts, Htt.
      cbn [EXPECTED_MAPPING_FIELDS]. rewrite Hpresent. cbn [bind].
      rewrite Hfold. reflexivity. }
    cbv zeta in *.
    rewrite !with_severity_app, !with_severity_l2_pass. cbn [Severity_eqb app].
    rewrite ?app_nil_r, ?app_nil_l.
    split; [reflexivity|]. split; [reflexivity|]. split; [reflexivity|].
    split; [reflexivity|]. split.
    + rewrite !length_app, !length_map, !length_seq. lia.
    + intros c0 Hc0. simpl in Hc0.
      destruct Hc0 as [<-|[<-|[<-|[]]]];
        match goal with
        | |- context [map (l2_pass edge src tgt ?sc) (seq 0 ?n)] =>
            match goal with
            | |- exists i, _ /\ _ /\ mapping_category i = ?c =>
                unify (category_of sc) c;
                exists (l2_pass edge src tgt sc 0);
                split; [|split; reflexivity];
                destruct n; [lia|]; rewrite ?in_app_iff; simpl; auto 10
            end
        end.
Qed.

Lemma level2_complete_sdc_edge_witness :
  exists items,
    l2_edge scenario_a [] ("comp--generates-->sdc", edge_a) = Ok items
    /\ map mapping_category (with_severity WARNING items)
       = ["clock_group"; "multicycle_path"]
    /\ with_severity FAIL items = [].
Proof.
  destruct (level2_complete_sdc_edge scenario_a "comp--generates-->sdc" edge_a
              component_a (sample_node "sdc" SDC_CONSTRAINT []) _ []
              eq_refl eq_refl eq_refl eq_refl eq_refl)
    as [_ (items & H1 & _ & H3 & H4 & _)].
  - intros md Hmd. simpl in Hmd.
    destruct Hmd as [<-|[<-|[<-|[<-|[<-|[]]]]]];
      [ eexists; split; [left; reflexivity|]
      | eexists; split; [left; reflexivity|]
      | eexists; split; [right; left; reflexivity|]
      | eexists; split; [right; left; reflexivity|]
      | eexists; split; [right; right; left; reflexivity|] ];
      (split; [reflexivity|]); (split; [reflexivity|]);
      intros f Hf; simpl in Hf; repeat (destruct Hf as [<-|Hf]; [reflexivity|]);
      contradiction.
  - intros sc Hsc Hcond. simpl in Hsc.
    destruct Hsc as [<-|[<-|[<-|[<-|[<-|[]]]]]]; try discriminate Hcond.
    + exists (clock_domain_record "i_clk" "clk_main"). split; [simpl; auto | reflexivity].
    + exists (io_timing_record "i_data" "clk_main"). split; [simpl; auto | reflexivity].
    + exists (false_path_record "i_rst_n"). split; [simpl; auto 10 | reflexivity].
  - exists ([] ++ items). auto.
Defined.

(* ====================================================================== *)
(** * Level 3: element coverage                                             *)
(* ====================================================================== *)

Lemma insert_by_perm {A : Type} (leb : A -> A -> bool) x l :
  Permutation (insert_by leb x l) (x :: l).
Proof.
  induction l as [|y l IH]; simpl; [reflexivity|].
  destruct (leb x y); [reflexivity|].
  rewrite IH. apply perm_swap.
Qed.

Lemma sort_by_perm {A : Type} (leb : A -> A -> bool) l :
  Permutation (sort_by leb l) l.
Proof.
  induction l as [|x l IH]; simpl; [reflexivity|].
  rewrite insert_by_perm. now constructor.
Qed.

Lemma sorted_In l s : In s (sorted l) <-> In s l.
Proof.
  split; apply Permutation_in; [|symmetry]; apply sort_by_perm.
Qed.

Lemma sorted_length l : length (sorted l) = length l.
Proof. apply Permutation_length, sort_by_perm. Qed.

Lemma sorted_NoDup l : NoDup l -> NoDup (sorted l).
Proof. apply Permutation_NoDup. symmetry. apply sort_by_perm. Qed.

Lemma is_mapped_In mapped s : is_mapped mapped s = true <-> In (VStr s) mapped.
Proof.
  unfold is_mapped. rewrite existsb_exists. split.
  - intros (v & Hin & Heq). destruct v; simpl in Heq; try discriminate.
    apply String.eqb_eq in Heq. now subst.
  - intros H. exists (VStr s). split; [exact H|]. simpl. apply String.eqb_refl.
Qed.

Lemma filter_split_length {A : Type} (p : A -> bool) (l : list A) :
  length (filter p l) + length (filter (fun a => negb (p a)) l) = length l.
Proof.
  induction l as [|a l IH]; simpl; [reflexivity|].
  destruct (p a); simpl; lia.
Qed.

(** The inner loop over the records of an edge looks at those of the
    category only. *)
Lemma collect_inner_matching cat id_field (records : list (dict pyval)) :
  forall mapped,
    for_each
      (fun mapped md =>
         if has_category cat md then
           let val := dict_get_or id_field VNone md in
           if truthy val then
             if hashable val then Ok (set_add val mapped) else Raise (unhashable val)
           else Ok mapped
         else Ok mapped)
      records mapped
    = for_each
        (fun mapped md =>
           let val := dict_get_or id_field VNone md in
           if truthy val then
             if hashable val then Ok (set_add val mapped) else Raise (unhashable val)
           else Ok mapped)
        (filter (has_category cat) records) mapped.
Proof.
  induction records as [|md records IH]; intros mapped; simpl; [reflexivity|].
  destruct (has_category cat md); simpl; [|apply IH].
  destruct (truthy _); simpl; [|apply IH].
  destruct (hashable _); simpl; [apply IH | reflexivity].
Qed.

(** One relevant edge with one record of the category, naming [p]. *)
Lemma collect_mapped_single cat id_field e md p :
  filter (has_category cat) (mapping_details e) = [md] ->
  dict_get id_field md = Some (VStr p) ->
  p <> "" ->
  collect_mapped cat id_field [e] = Ok [VStr p].
Proof.
  intros Hmd Hp Hne. unfold collect_mapped. cbn [for_each].
  rewrite collect_inner_matching, Hmd. cbn [for_each bind].
  unfold dict_get_or. rewrite Hp. cbn [truthy hashable].
  apply String.eqb_neq in Hne. rewrite Hne. reflexivity.
Qed.

Lemma filter_eqb_NoDup (l : list string) p :
  NoDup l -> In p l -> filter (fun s => s =? p) l = [p].
Proof.
  induction l as [|x l IH]; intros Hnd Hin; [contradiction|].
  inversion Hnd as [|? ? Hx Hl]; subst. simpl.
  destruct (String.eqb_spec x p) as [->|Hne].
  - f_equal. apply filter_false. intros s Hs.
    apply String.eqb_neq. intros ->. contradiction.
  - destruct Hin as [->|Hin]; [contradiction | now apply IH].
Qed.

(** The uncovered elements, one by one. *)
Lemma missing_spec mapped elements s :
  In s (sorted (filter (fun s => negb (is_mapped mapped s)) (set_of elements)))
  <-> In s elements /\ ~ In (VStr s) mapped.
Proof.
  rewrite sorted_In, filter_In. unfold set_of. rewrite nodup_In.
  rewrite negb_true_iff, <- is_mapped_In.
  destruct (is_mapped mapped s); intuition congruence.
Qed.

Lemma level3_fail_general
    (g : GraphManager) (nid : string) (node : ArtifactNode)
    (outgoing : list DependencyEdge) (report : list ValidationItem)
    (check : coverage_check) (mapped sorted_extra : list pyval) :
  let elements := dict_get_or (element_key check) [] (defined_elements node) in
  let relevant_edges := filter (is_relevant (all_nodes g) (target_types check)) outgoing in
  let defined_set := set_of elements in
  let covered := filter (is_mapped mapped) defined_set in
  let missing := filter (fun s => negb (is_mapped mapped s)) defined_set in
  let extra := filter (fun v => negb (is_defined defined_set v)) mapped in
  relevant_edges <> [] ->
  collect_mapped (check_category check) (element_field_in_mapping check) relevant_edges
  = Ok mapped ->
  missing <> [] ->
  sorted_values extra = Ok sorted_extra ->
  l3_check g nid node outgoing report check
  = Ok (report
        ++ l3_fail nid node check defined_set covered missing
           :: (if is_empty extra then [] else [l3_warning nid check sorted_extra]))
  /\ length defined_set <> 0.
Proof.
  intros elements relevant_edges defined_set covered missing extra Hrel Hmapped Hmiss Hsort.
  assert (Hdef : length defined_set <> 0).
  { intros H. apply Hmiss. unfold missing.
    destruct defined_set; [reflexivity | discriminate]. }
  split; [|exact Hdef].
  unfold l3_check. fold elements.
  destruct elements as [|x xs] eqn:Eel.
  { exfalso. apply Hdef. reflexivity. }
  fold relevant_edges. destruct relevant_edges as [|e es] eqn:Erel; [contradiction|].
  rewrite Hmapped. cbn [bind]. fold defined_set. fold covered. fold missing. fold extra.
  destruct missing as [|m ms] eqn:Em; [contradiction|].
  destruct extra as [|v vs] eqn:Ex.
  - reflexivity.
  - rewrite Hsort. cbn [bind is_empty]. now rewrite <- app_assoc.
Qed.

(** C8: in the Level-3 pass, when the check of an element category of a
    node reaches the comparison (some edge goes to an expected kind and
    the covered-set [mapped] has been collected) and some declared element
    is absent from the covered-set, the check appends exactly one FAIL,
    whose message and details list exactly the declared elements that the
    covered-set lacks and whose details give the fraction covered/declared
    as a percentage; a WARNING follows when the covered-set has members
    that are not declared.  In scenario B (ten distinct ports, one edge to
    an RTL wrapper, one [port_naming] record naming a declared port) the
    ports check appends one FAIL and nothing else: nine ports missing,
    coverage 10.0. *)
Theorem level3_uncovered_elements_fail :
  (forall (g : GraphManager) (nid : string) (node : ArtifactNode)
          (outgoing : list DependencyEdge) (report : list ValidationItem)
          (check : coverage_check) (mapped sorted_extra : list pyval),
     let elements := dict_get_or (element_key check) [] (defined_elements node) in
     let relevant_edges :=
       filter (is_relevant (all_nodes g) (target_types check)) outgoing in
     let defined_set := set_of elements in
     let covered := filter (is_mapped mapped) defined_set in
     let extra := filter (fun v => negb (is_defined defined_set v)) mapped in
     relevant_edges <> [] ->
     collect_mapped (check_category check) (element_field_in_mapping check) relevant_edges
     = Ok mapped ->
     (exists s, In s elements /\ ~ In (VStr s) mapped) ->
     sorted_values extra = Ok sorted_extra ->
     exists fail uncovered,
       l3_check g nid node outgoing report check
       = Ok (report
             ++ fail :: (if is_empty extra then [] else [l3_warning nid check sorted_extra]))
       /\ severity fail = FAIL
       /\ category fail = "element_coverage"
       /\ item_node fail = nid
       /\ mapping_category fail = check_category check
       /\ In (FStrs uncovered) (message fail)
       /\ dict_get "missing" (details fail) = Some (DStrs uncovered)
       /\ NoDup uncovered
       /\ (forall s, In s uncovered <-> In s elements /\ ~ In (VStr s) mapped)
       /\ dict_get "coverage_pct" (details fail)
          = Some (DPct (Rounded (length covered) (length defined_set)))
       /\ length covered + length uncovered = length defined_set
       /\ severity (l3_warning nid check sorted_extra) = WARNING)
  /\ (forall (g : GraphManager) (nid : string) (node : ArtifactNode)
             (outgoing : list DependencyEdge) (report : list ValidationItem)
             (check : coverage_check) (ports : list string)
             (e : DependencyEdge) (md : dict pyval) (p : string),
        In check COVERAGE_CHECKS -> element_key check = "ports" ->
        dict_get "ports" (defined_elements node) = Some ports ->
        NoDup ports -> length ports = 10 ->
        filter (is_relevant (all_nodes g) [RTL_WRAPPER]) outgoing = [e] ->
        filter (has_category "port_naming") (mapping_details e) = [md] ->
        dict_get "ipxact_port" md = Some (VStr p) ->
        In p ports -> p <> "" ->
        exists fail uncovered,
          l3_check g nid node outgoing report check = Ok (report ++ [fail])
          /\ severity fail = FAIL
          /\ item_node fail = nid
          /\ mapping_category fail = "port_naming"
          /\ In (FStrs uncovered) (message fail)
          /\ dict_get "missing" (details fail) = Some (DStrs uncovered)
          /\ length uncovered = 9
          /\ (forall s, In s uncovered <-> In s ports /\ s <> p)
          /\ dict_get "coverage_pct" (details fail) = Some (DPct (Rounded 1 10))
          /\ pct_exactly (Rounded 1 10) 100)
  /\ (exists fail,
        _level3_element_coverage scenario_b [] = Ok [fail]
        /\ severity fail = FAIL
        /\ item_node fail = "comp"
        /\ dict_get "coverage_pct" (details fail) = Some (DPct (Rounded 1 10))).
Proof.
  assert (General :
    forall g nid node outgoing report check mapped sorted_extra,
     let elements := dict_get_or (element_key check) [] (defined_elements node) in
     let relevant_edges :=
       filter (is_relevant (all_nodes g) (target_types check)) outgoing in
     let defined_set := set_of elements in
     let covered := filter (is_mapped mapped) defined_set in
     let extra := filter (fun v => negb (is_defined defined_set v)) mapped in
     relevant_edges <> [] ->
     collect_mapped (check_category check) (element_field_in_mapping check) relevant_edges
     = Ok mapped ->
     (exists s, In s elements /\ ~ In (VStr s) mapped) ->
     sorted_values extra = Ok sorted_extra ->
     let missing := filter (fun s => negb (is_mapped mapped s)) defined_set in
     l3_check g nid node outgoing report check
     = Ok (report
           ++ l3_fail nid node check defined_set covered missing
              :: (if is_empty extra then [] else [l3_warning nid check sorted_extra]))
     /\ length defined_set <> 0).
  { intros g nid node outgoing report check mapped sorted_extra
           elements relevant_edges defined_set covered extra Hrel Hmapped [s Hs] Hsort missing.
    apply level3_fail_general; auto.
    intros Hnil. apply (proj2 (missing_spec mapped elements s)) in Hs.
    apply (proj1 (sorted_In _ _)) in Hs.
    assert (Hin : In s (@nil string)) by (rewrite <- Hnil; exact Hs).
    contradiction. }
  split; [|split].
  - intros g nid node outgoing report check mapped sorted_extra
           elements relevant_edges defined_set covered extra Hrel Hmapped Hs Hsort.
    destruct (General g nid node outgoing report check mapped sorted_extra
                Hrel Hmapped Hs Hsort) as [Hcheck Hlen].
    fold elements in Hcheck, Hlen. fold defined_set in Hcheck, Hlen.
    fold covered in Hcheck. fold extra in Hcheck.
    eexists. exists (sorted (filter (fun s => negb (is_mapped mapped s)) defined_set)).
    split; [exact Hcheck|].
    split; [reflexivity|]. split; [reflexivity|]. split; [reflexivity|].
    split; [reflexivity|]. split; [simpl; auto 20|]. split; [reflexivity|].
    split; [apply sorted_NoDup, NoDup_filter, NoDup_nodup|].
    split; [intros s; apply missing_spec|].
    split.
    { simpl. unfold percent_of. apply Nat.eqb_neq in Hlen. now rewrite Hlen. }
    split; [|reflexivity].
    rewrite sorted_length. apply filter_split_length.
  - intros g nid node outgoing report check ports e md p
           Hin Hkey Hports Hnd Hlen Hrel Hmd Hp Hpin Hne.
    simpl in Hin.
    destruct Hin as [<-|[<-|[<-|[<-|[<-|[<-|[]]]]]]]; try discriminate Hkey.
    assert (Hel : dict_get_or "ports" [] (defined_elements node) = ports)
      by (unfold dict_get_or; now rewrite Hports).
    assert (Hset : set_of ports = ports) by now apply nodup_fixed_point.
    assert (Hmapped : forall s, is_mapped [VStr p] s = (s =? p)).
    { intros s. unfold is_mapped. simpl. now rewrite orb_false_r. }
    assert (Hcov : filter (is_mapped [VStr p]) ports = [p]).
    { rewrite (filter_ext _ _ Hmapped). now apply filter_eqb_NoDup. }
    destruct (General g nid node outgoing report
                (mk_check "ports" MappingCategory.PORT_NAMING "ipxact_port" [RTL_WRAPPER])
                [VStr p] []) as [Hcheck _].
    + cbn [target_types]. rewrite Hrel. discriminate.
    + cbn [target_types check_category element_field_in_mapping]. rewrite Hrel.
      now apply (collect_mapped_single _ _ e md p).
    + cbn [element_key]. rewrite Hel.
      assert (Hother : exists s, In s ports /\ s <> p).
      { destruct ports as [|a [|b l]]; simpl in Hlen; try discriminate.
        inversion Hnd as [|? ? Ha _]; subst.
        destruct (String.eqb_spec a p) as [->|Hap].
        - exists b. split; [simpl; auto|]. intros ->. apply Ha. now left.
        - exists a. split; [simpl; auto | exact Hap]. }
      destruct Hother as (s & Hs & Hsp). exists s. split; [exact Hs|].
      intros [H|[]]. congruence.
    + cbn [element_key]. rewrite Hel, Hset.
      replace (filter (fun v => negb (is_defined ports v)) [VStr p]) with (@nil pyval);
        [reflexivity|].
      simpl. unfold is_defined.
      replace (existsb (fun s => scalar_eqb (VStr p) (VStr s)) ports) with true;
        [reflexivity|].
      symmetry. apply existsb_exists. exists p. split; [exact Hpin|].
      simpl. apply String.eqb_refl.
    + cbn [element_key] in Hcheck. rewrite Hel, Hset, Hcov in Hcheck.
      replace (filter (fun v => negb (is_defined ports v)) [VStr p]) with (@nil pyval)
        in Hcheck.
      2:{ simpl. unfold is_defined.
          replace (existsb (fun s => scalar_eqb (VStr p) (VStr s)) ports) with true;
            [reflexivity|].
          symmetry. apply existsb_exists. exists p. split; [exact Hpin|].
          simpl. apply String.eqb_refl. }
      cbn [is_empty] in Hcheck.
      eexists. exists (sorted (filter (fun s => negb (is_mapped [VStr p] s)) ports)).
      split; [exact Hcheck|].
      split; [reflexivity|]. split; [reflexivity|]. split; [reflexivity|].
      split; [simpl; auto 20|]. split; [reflexivity|].
      assert (Hnine : length (filter (fun s => negb (is_mapped [VStr p] s)) ports) = 9).
      { pose proof (filter_split_length (is_mapped [VStr p]) ports) as H.
        rewrite Hcov, Hlen in H. cbn [length] in H. lia. }
      split; [now rewrite sorted_length|].
      split.
      { intros s. rewrite sorted_In, filter_In, Hmapped, negb_true_iff, String.eqb_neq.
        reflexivity. }
      split.
      { cbn [details l3_fail dict_get String.eqb Ascii.eqb Bool.eqb].
        rewrite Hlen. reflexivity. }
      simpl. split; [discriminate | reflexivity].
  - eexists. split; [reflexivity|]. repeat split.
Qed.

Lemma ten_ports_NoDup : NoDup ten_ports.
Proof.
  change ten_ports with (nodup string_dec ten_ports). apply NoDup_nodup.
Qed.

Lemma level3_uncovered_elements_fail_witness :
  exists fail,
    l3_check scenario_b "comp" component_b (get_edges_from scenario_b "comp") []
             (mk_check "ports" MappingCategory.PORT_NAMING "ipxact_port" [RTL_WRAPPER])
    = Ok [fail]
    /\ severity fail = FAIL
    /\ dict_get "coverage_pct" (details fail) = Some (DPct (Rounded 1 10)).
Proof.
  destruct (proj1 (proj2 level3_uncovered_elements_fail)
              scenario_b "comp" component_b (get_edges_from scenario_b "comp") []
              (mk_check "ports" MappingCategory.PORT_NAMING "ipxact_port" [RTL_WRAPPER])
              ten_ports edge_b port_record "i_key")
    as (fail & uncovered & H1 & H2 & _ & _ & _ & _ & _ & _ & H9 & _);
    try reflexivity.
  - left. reflexivity.
  - exact ten_ports_NoDup.
  - simpl. auto.
  - discriminate.
  - exists fail. auto.
Defined.

(* ====================================================================== *)
(** * Impact propagation ends                                               *)
(* ====================================================================== *)

Lemma unvisited_weight_cons k (m : dict attrs) adj visited :
  unvisited_weight ((k, m) :: adj) visited
  = (if existsb (String.eqb k) visited then 0 else S (length m))
    + unvisited_weight adj visited.
Proof.
  unfold unvisited_weight. simpl. destruct (existsb (String.eqb k) visited); reflexivity.
Qed.

Lemma unvisited_weight_visit_le adj visited x :
  unvisited_weight adj (x :: visited) <= unvisited_weight adj visited.
Proof.
  induction adj as [|[k m] adj IH]; [reflexivity|].
  rewrite !unvisited_weight_cons. simpl.
  destruct (k =? x); simpl; destruct (existsb (String.eqb k) visited); lia.
Qed.

(** Visiting a node uses up its own unit and those of its neighbours. *)
Lemma unvisited_weight_visit adj visited x m :
  dict_get x adj = Some m ->
  existsb (String.eqb x) visited = false ->
  unvisited_weight adj (x :: visited) + S (length m) <= unvisited_weight adj visited.
Proof.
  intros Hget Hnew. induction adj as [|[k mk] adj IH]; [discriminate|].
  rewrite !unvisited_weight_cons. simpl in Hget |- *.
  destruct (String.eqb_spec x k) as [->|Hne].
  - injection Hget as ->.
    pose proof (unvisited_weight_visit_le adj visited k) as Hle.
    rewrite String.eqb_refl, Hnew. simpl. lia.
  - specialize (IH Hget).
    replace (k =? x) with false by (symmetry; apply String.eqb_neq; congruence).
    simpl. lia.
Qed.

Lemma neighbours_adjacency G dir n :
  neighbours G dir n
  = match dict_get n (adjacency G dir) with
    | Some m => Ok (dict_keys m)
    | None => Raise (NetworkXError ("The node " ++ n ++ " is not in the digraph."))
    end.
Proof. destruct dir; reflexivity. Qed.

(** The loop that extends the queue, in a closed adjacency: it returns,
    adds at most one entry per neighbour, and adds nodes of the graph. *)
Lemma enqueue_closed G dir visited current path etypes m :
  closed_adjacency G dir ->
  dict_get current (adjacency G dir) = Some m ->
  forall nbrs queue,
    incl nbrs (dict_keys m) ->
    queue_in_graph G dir queue ->
    exists queue',
      enqueue G dir visited current path etypes nbrs queue = Ok queue'
      /\ length queue' <= length queue + length nbrs
      /\ queue_in_graph G dir queue'.
Proof.
  intros Hclosed Hget. unfold enqueue.
  induction nbrs as [|next nbrs IH]; intros queue Hincl Hq; cbn [for_each].
  - exists queue. split; [reflexivity|]. split; [simpl; lia | exact Hq].
  - assert (Hnext : In next (dict_keys m)) by (apply Hincl; now left).
    assert (Hrest : incl nbrs (dict_keys m)) by (intros x Hx; apply Hincl; now right).
    destruct (existsb (String.eqb next) visited).
    + cbn [bind]. destruct (IH queue Hrest Hq) as (q' & Heq & Hlen & Hq').
      exists q'. split; [exact Heq|]. split; [simpl; lia | exact Hq'].
    + destruct (Hclosed current m next Hget Hnext) as [Hmem [et Het]].
      rewrite Het. cbn [bind].
      destruct (IH (queue ++ [(next, path ++ [next], etypes ++ [et])]) Hrest)
        as (q' & Heq & Hlen & Hq').
      * intros entry Hin. apply in_app_iff in Hin. destruct Hin as [Hin|[<-|[]]]; auto.
      * exists q'. split; [exact Heq|]. split; [|exact Hq'].
        rewrite length_app in Hlen. cbn [length] in Hlen |- *. lia.
Qed.

(** With fuel above the work left, the [while] loop ends, and returns. *)
Lemma bfs_returns G dir start_id max_depth :
  closed_adjacency G dir ->
  forall fuel queue visited all_chains,
    queue_in_graph G dir queue ->
    length queue + unvisited_weight (adjacency G dir) visited < fuel ->
    exists chains, bfs fuel G dir start_id max_depth queue visited all_chains = Some (Ok chains).
Proof.
  intros Hclosed. induction fuel as [|fuel IH]; intros queue visited chains Hq Hfuel; [lia|].
  destruct queue as [|[[current path] etypes] queue]; simpl; [eauto|].
  assert (Hq' : queue_in_graph G dir queue) by (intros x Hx; apply Hq; now right).
  destruct (existsb (String.eqb current) visited || (max_depth <? length path)%nat) eqn:Eskip.
  - apply IH; [exact Hq' | simpl in Hfuel; lia].
  - apply orb_false_iff in Eskip. destruct Eskip as [Hnew _].
    assert (Hmem : dict_mem current (adjacency G dir) = true) by (apply (Hq _ (or_introl eq_refl))).
    unfold dict_mem in Hmem.
    destruct (dict_get current (adjacency G dir)) as [m|] eqn:Hget; [|discriminate].
    rewrite neighbours_adjacency, Hget. cbn [bind].
    destruct (enqueue_closed G dir (current :: visited) current path etypes m Hclosed Hget
                (dict_keys m) queue (incl_refl _) Hq') as (q'' & Heq & Hlen & Hq'').
    rewrite Heq. apply IH; [exact Hq''|].
    pose proof (unvisited_weight_visit _ _ _ _ Hget Hnew) as Hw.
    unfold dict_keys in Hlen. rewrite length_map in Hlen. simpl in Hfuel. lia.
Qed.

Lemma arc_true_get d u v :
  arc d u v = true <-> exists m, dict_get u d = Some m /\ dict_mem v m = true.
Proof.
  unfold arc. destruct (dict_get u d) as [m|].
  - split; [eauto | intros (m' & [= <-] & H); exact H].
  - split; [discriminate | intros (m' & [=] & _)].
Qed.

Lemma arc_source_mem d u v : arc d u v = true -> dict_mem u d = true.
Proof.
  unfold arc, dict_mem. destruct (dict_get u d); [reflexivity | discriminate].
Qed.

Lemma dict_mem_get {V : Type} (d : dict V) k :
  dict_mem k d = true -> exists v, dict_get k d = Some v.
Proof.
  unfold dict_mem. destruct (dict_get k d); [eauto | discriminate].
Qed.

Lemma nx_edge_type_arc G u v :
  arc (_succ G) u v = true -> exists et, nx_edge_type G u v = Ok et.
Proof.
  intros H. apply arc_true_get in H. destruct H as (m & Hm & Hv).
  unfold nx_edge_type. rewrite Hm.
  destruct (dict_mem_get _ _ Hv) as [a ->]. eauto.
Qed.

(** The graphs networkx builds are closed in both directions. *)
Lemma nx_wf_closed G dir : nx_wf G -> closed_adjacency G dir.
Proof.
  intros [Hm Hs Hp] u m v Hget Hin.
  apply dict_mem_In in Hin.
  destruct dir; simpl in *.
  - assert (Harc : arc (_succ G) u v = true) by (apply arc_true_get; eauto).
    split; [|now apply nx_edge_type_arc].
    rewrite Hs, <- Hp. apply (arc_source_mem _ v u). now rewrite <- Hm.
  - assert (Harc : arc (_pred G) u v = true) by (apply arc_true_get; eauto).
    rewrite <- Hm in Harc. split; [|now apply nx_edge_type_arc].
    rewrite Hp, <- Hs. now apply (arc_source_mem _ v u).
Qed.

Lemma unvisited_weight_nil adj :
  unvisited_weight adj [] = list_sum (map (fun kv => S (length (snd kv))) adj).
Proof.
  unfold unvisited_weight. simpl. now rewrite filter_true.
Qed.

Lemma traverse_returns G dir start_id max_depth all_chains :
  nx_wf G -> nx_has_node G start_id = true ->
  exists chains, traverse G dir start_id max_depth all_chains = Some (Ok chains).
Proof.
  intros Hwf Hnode. pose proof (nx_wf_closed G dir Hwf) as Hclosed.
  assert (Hmem : dict_mem start_id (adjacency G dir) = true).
  { destruct Hwf as [Hm Hs Hp]. unfold nx_has_node in Hnode.
    destruct dir; simpl; [now rewrite Hs | now rewrite Hp]. }
  destruct (dict_mem_get _ _ Hmem) as [m Hget].
  unfold traverse. rewrite neighbours_adjacency, Hget. cbn [bind].
  destruct (enqueue_closed G dir [] start_id [start_id] [] m Hclosed Hget
              (dict_keys m) [] (incl_refl _)) as (queue & Heq & _ & Hq).
  { intros entry []. }
  match goal with
  | |- context [for_each ?f ?l ?s] =>
      replace (for_each f l s) with (@Ok (list queue_entry) queue)
        by (symmetry; exact Heq)
  end.
  apply bfs_returns; [exact Hclosed | exact Hq |].
  unfold bfs_fuel. rewrite <- unvisited_weight_nil.
  pose proof (unvisited_weight_visit_le (adjacency G dir) [] start_id). lia.
Qed.

Lemma propagate_from_returns G max_depth include_upstream :
  nx_wf G ->
  forall changed_node_ids all_chains,
    exists chains,
      propagate_from G max_depth include_upstream changed_node_ids all_chains
      = Some (Ok chains).
Proof.
  intros Hwf. induction changed_node_ids as [|start_id rest IH]; intros chains; simpl;
    [eauto|].
  destruct (nx_has_node G start_id) eqn:Hnode; simpl; [|apply IH].
  destruct (traverse_returns G Downstream start_id max_depth chains Hwf Hnode) as [c1 ->].
  cbn [pbind]. destruct include_upstream.
  - destruct (traverse_returns G Upstream start_id max_depth c1 Hwf Hnode) as [c2 ->].
    cbn [pbind]. apply IH.
  - cbn [pbind]. apply IH.
Qed.

(* ====================================================================== *)
(** * Change detection and the full scan                                    *)
(* ====================================================================== *)

Lemma compute_hash_cases fs node :
  (no_file_path node = true /\ compute_hash fs node = Ok None)
  \/ (exists p, file_path node = Some p /\ p <> "" /\ no_file_path node = false
        /\ match fs p with
           | Absent => compute_hash fs node = Ok None
           | Readable h => compute_hash fs node = Ok (Some h)
           | Unreadable e =>
               compute_hash fs node
               = Raise (RuntimeError ("Cannot hash file " ++ p ++ ": " ++ e))
           end).
Proof.
  unfold no_file_path, compute_hash. destruct (file_path node) as [p|]; [|now left].
  destruct (String.eqb_spec p "") as [->|Hne]; [now left|].
  right. exists p. repeat split; auto. destruct (fs p); reflexivity.
Qed.

(** One iteration of the detection loop either raises the error of the
    hash or appends to the change list. *)
Lemma detect_node_cases baseline fs changes nid node :
  match compute_hash fs node with
  | Raise e =>
      no_file_path node = false -> detect_node baseline fs changes (nid, node) = Raise e
  | Ok new =>
      exists added,
        detect_node baseline fs changes (nid, node) = Ok (changes ++ added)
        /\ (forall p h, file_path node = Some p -> no_file_path node = false ->
              new = None -> dict_get nid baseline = Some h ->
              added = [mk_changed nid (name node) p (Some h) None "missing"])
  end.
Proof.
  unfold detect_node. destruct (compute_hash fs node) as [new|e] eqn:E.
  - destruct (no_file_path node) eqn:Hnf.
    + exists []. split; [now rewrite app_nil_r | discriminate].
    + cbn [bind]. destruct (dict_get nid baseline) as [h|], new as [d|]; cbn [option_string_eqb].
      * destruct (h =? d); eexists; (split; [try reflexivity; now rewrite app_nil_r | discriminate]).
      * eexists. split; [reflexivity|]. intros p h' Hp _ _ [= <-]. now rewrite Hp.
      * eexists. split; [reflexivity | discriminate].
      * exists []. split; [now rewrite app_nil_r | discriminate].
  - intros ->. reflexivity.
Qed.

Lemma detect_changes_raises baseline fs (nodes : dict ArtifactNode) :
  (exists nid node p err,
      In (nid, node) nodes /\ file_path node = Some p /\ p <> "" /\ fs p = Unreadable err) ->
  forall changes,
    exists msg, for_each (detect_node baseline fs) nodes changes = Raise (RuntimeError msg).
Proof.
  induction nodes as [|[k n] nodes IH]; intros (nid & node & p & err & Hin & Hp & Hne & Hfs) changes;
    [contradiction|].
  cbn [for_each].
  pose proof (detect_node_cases baseline fs changes k n) as Hcase.
  destruct (compute_hash_cases fs n) as [[Hnf Hh]|(q & Hq & Hqne & Hnf & Hh)].
  - rewrite Hh in Hcase. destruct Hcase as (added & -> & _). cbn [bind].
    apply IH. destruct Hin as [[= -> ->]|Hin].
    + unfold no_file_path in Hnf. rewrite Hp in Hnf. apply String.eqb_eq in Hnf. contradiction.
    + exists nid, node, p, err. auto.
  - destruct (fs q) eqn:Hfq; rewrite Hh in Hcase.
    + destruct Hcase as (added & -> & _). cbn [bind]. apply IH.
      destruct Hin as [[= -> ->]|Hin]; [congruence|]. exists nid, node, p, err. auto.
    + destruct Hcase as (added & -> & _). cbn [bind]. apply IH.
      destruct Hin as [[= -> ->]|Hin]; [congruence|]. exists nid, node, p, err. auto.
    + rewrite (Hcase Hnf). cbn [bind]. eauto.
Qed.

Lemma detect_changes_returns baseline fs (nodes : dict ArtifactNode) :
  (forall nid node p, In (nid, node) nodes -> file_path node = Some p ->
     forall err, fs p <> Unreadable err) ->
  forall changes,
    exists found,
      for_each (detect_node baseline fs) nodes changes = Ok (changes ++ found)
      /\ forall nid node p h,
           In (nid, node) nodes -> file_path node = Some p -> p <> "" ->
           fs p = Absent -> dict_get nid baseline = Some h ->
           In (mk_changed nid (name node) p (Some h) None "missing") found.
Proof.
  induction nodes as [|[k n] nodes IH]; intros Hfs changes.
  - exists []. split; [simpl; now rewrite app_nil_r | intros ? ? ? ? []].
  - cbn [for_each].
    pose proof (detect_node_cases baseline fs changes k n) as Hcase.
    assert (Hok : exists new, compute_hash fs n = Ok new
                    /\ (forall p, file_path n = Some p -> p <> "" -> fs p = Absent ->
                          new = None /\ no_file_path n = false)).
    { destruct (compute_hash_cases fs n) as [[Hnf Hh]|(q & Hq & Hqne & Hnf & Hh)].
      - exists None. split; [exact Hh|]. intros p Hp Hne _.
        unfold no_file_path in Hnf. rewrite Hp in Hnf. apply String.eqb_eq in Hnf.
        contradiction.
      - destruct (fs q) eqn:Hfq.
        + exists None. split; [exact Hh|]. auto.
        + eexists. split; [exact Hh|]. intros p Hp _ Habs. congruence.
        + exfalso. apply (Hfs k n q (or_introl eq_refl) Hq oserror Hfq). }
    destruct Hok as (new & Hnew & Habsent). rewrite Hnew in Hcase.
    destruct Hcase as (added & -> & Hadded). cbn [bind].
    destruct (IH (fun nid node p Hin => Hfs nid node p (or_intror Hin)) (changes ++ added))
      as (found & -> & Hfound).
    exists (added ++ found). split; [now rewrite app_assoc|].
    intros nid node p h [[= -> ->]|Hin] Hp Hne Habs Hb; apply in_app_iff.
    + left. destruct (Habsent p Hp Hne Habs) as [-> Hnf].
      rewrite (Hadded p h Hp Hnf eq_refl Hb). now left.
    + right. now apply (Hfound nid node p h).
Qed.

(** The claim of C1 fails: the file of ["sdc_main"] is there and cannot be
    read; the scan ends with the error of the hash, there is no report
    and no change list, although two other files could be compared. *)
Lemma unreadable_file_aborts_scan :
  disk_unreadable "constraints/main.sdc" = Unreadable "[Errno 13] Permission denied"
  /\ detect_changes scanned scanned_baseline disk_unreadable
     = Raise (RuntimeError
                "Cannot hash file constraints/main.sdc: [Errno 13] Permission denied")
  /\ full_scan scanned scanned_baseline disk_unreadable false 0
     = Some (Raise (RuntimeError
                      "Cannot hash file constraints/main.sdc: [Errno 13] Permission denied"))
  /\ ~ (exists report,
          full_scan scanned scanned_baseline disk_unreadable false 0 = Some (Ok report)).
Proof.
  split; [reflexivity|]. split; [reflexivity|]. split; [reflexivity|].
  intros [report H]. discriminate H.
Qed.

(** C1, amended: when the file of some node is present but cannot be
    read, hashing raises [RuntimeError], which ends [detect_changes] and
    [full_scan]: the caller gets that error and no ChangeReport.  When no
    file is unreadable the full scan returns a complete report, whose
    change list is that of [detect_changes]; in it, every node whose file
    is simply absent and whose id is in the baseline is recorded with
    status ["missing"]. *)
Theorem hashing_error_aborts_scan
    (g : GraphManager) (baseline : dict string) (fs : hashfs)
    (include_upstream : bool) (now : Z) :
  reachable g ->
  ((exists nid node p err,
       In (nid, node) (all_nodes g) /\ file_path node = Some p /\ p <> ""
       /\ fs p = Unreadable err) ->
     exists msg,
       detect_changes g baseline fs = Raise (RuntimeError msg)
       /\ full_scan g baseline fs include_upstream now = Some (Raise (RuntimeError msg)))
  /\ ((forall nid node p, In (nid, node) (all_nodes g) -> file_path node = Some p ->
         forall err, fs p <> Unreadable err) ->
      exists report,
        full_scan g baseline fs include_upstream now = Some (Ok report)
        /\ detect_changes g baseline fs = Ok (changed_files report)
        /\ forall nid node p h,
             In (nid, node) (all_nodes g) -> file_path node = Some p -> p <> "" ->
             fs p = Absent -> dict_get nid baseline = Some h ->
             In (mk_changed nid (name node) p (Some h) None "missing")
                (changed_files report)).
Proof.
  intros Hr. apply reachable_wf in Hr. split.
  - intros Hbad. destruct (detect_changes_raises baseline fs (all_nodes g) Hbad []) as [msg Hmsg].
    exists msg. unfold full_scan, detect_changes. rewrite Hmsg. split; reflexivity.
  - intros Hgood.
    destruct (detect_changes_returns baseline fs (all_nodes g) Hgood []) as (found & Hfound & Hmissing).
    destruct (propagate_from_returns (_graph g) 50 include_upstream (wf_graph Hr)
                (map cf_node_id found) []) as [chains Hchains].
    eexists. unfold full_scan, detect_changes, propagate_impact.
    rewrite Hfound. cbn [app]. rewrite Hchains. cbn [pbind].
    split; [reflexivity|]. split; [reflexivity|]. exact Hmissing.
Qed.

Lemma scanned_reachable : reachable scanned.
Proof. apply reachable_run, reach_init. Qed.

Lemma hashing_error_aborts_scan_witness :
  (exists msg,
     detect_changes scanned scanned_baseline disk_unreadable = Raise (RuntimeError msg)
     /\ full_scan scanned scanned_baseline disk_unreadable true 0
        = Some (Raise (RuntimeError msg)))
  /\ (exists report,
        full_scan scanned scanned_baseline disk_absent true 0 = Some (Ok report)
        /\ In (mk_changed "sdc_main" "sdc_main" "constraints/main.sdc"
                          (Some "1f3a") None "missing")
              (changed_files report)).
Proof.
  split.
  - apply (proj1 (hashing_error_aborts_scan scanned scanned_baseline disk_unreadable true 0
                    scanned_reachable)).
    exists "sdc_main", (file_node "sdc_main" SDC_CONSTRAINT "constraints/main.sdc"),
           "constraints/main.sdc", "[Errno 13] Permission denied".
    split; [left; reflexivity|]. split; [reflexivity|]. split; [discriminate | reflexivity].
  - destruct (proj2 (hashing_error_aborts_scan scanned scanned_baseline disk_absent true 0
                       scanned_reachable)) as (report & Hscan & _ & Hmissing).
    + intros nid node p Hin Hp err. simpl in Hin.
      destruct Hin as [[= <- <-]|[[= <- <-]|[[= <- <-]|[]]]];
        injection Hp as <-; discriminate.
    + exists report. split; [exact Hscan|].
      apply (Hmissing "sdc_main" (file_node "sdc_main" SDC_CONSTRAINT "constraints/main.sdc"));
        try reflexivity.
      * left. reflexivity.
      * discriminate.
Defined.

(* ====================================================================== *)
(** * Graph store: the contract of each mutator                             *)
(* ====================================================================== *)

Lemma dict_set_same {V : Type} (d : dict V) k v :
  dict_get k d = Some v -> dict_set k v d = d.
Proof.
  induction d as [|[k0 v0] d IH]; simpl; [discriminate|].
  destruct (String.eqb_spec k k0) as [->|]; intros H.
  - injection H as ->. reflexivity.
  - now rewrite IH.
Qed.

Lemma dict_del_absent {V : Type} (d : dict V) k :
  dict_mem k d = false -> dict_del k d = d.
Proof.
  intros H. apply filter_true. intros [k0 v0] Hin. simpl.
  apply negb_true_iff, String.eqb_neq. intros ->.
  apply dict_mem_false in H. apply H.
  change k with (fst (k, v0)). now apply in_map.
Qed.

Lemma dict_del_set_new {V : Type} (d : dict V) k v :
  dict_mem k d = false -> dict_del k (dict_set k v d) = d.
Proof.
  intros H. rewrite dict_set_new by exact H. unfold dict_del.
  rewrite filter_app. simpl. rewrite String.eqb_refl. simpl. rewrite app_nil_r.
  now apply dict_del_absent.
Qed.

Lemma get_node_lookup g nid :
  get_node nid g
  = match dict_get nid (_nodes g) with
    | Some n => Ok n
    | None => Raise (KeyError ("Node '" ++ nid ++ "' not found."))
    end.
Proof. reflexivity. Qed.

(** X1 (add_node, get_node): [add_node] raises [ValueError] and changes
    nothing when the id is taken.  Otherwise it returns; the node is then
    what [get_node] gives for its id, every other id looks up as before,
    the node comes last in the iteration order, the edge collection is
    untouched, and in a store built by the mutators the new node has no
    successor and no predecessor. *)
Theorem add_node_contract (g : GraphManager) (node : ArtifactNode) :
  (dict_mem (node_id node) (_nodes g) = true ->
     exists msg, add_node node g = (g, Raise (ValueError msg)))
  /\ (dict_mem (node_id node) (_nodes g) = false ->
      exists g',
        add_node node g = (g', Ok tt)
        /\ get_node (node_id node) g' = Ok node
        /\ (forall nid, nid <> node_id node -> get_node nid g' = get_node nid g)
        /\ dict_keys (_nodes g') = dict_keys (_nodes g) ++ [node_id node]
        /\ _edges g' = _edges g
        /\ (reachable g ->
              successors g' (node_id node) = Ok []
              /\ predecessors g' (node_id node) = Ok [])).
Proof.
  split; intros H; unfold add_node; rewrite H; [eauto|].
  eexists. split; [reflexivity|]. rewrite !get_node_lookup. cbn [_nodes _edges _graph].
  split; [now rewrite dict_get_set, String.eqb_refl|].
  split.
  { intros nid Hne. rewrite !get_node_lookup. cbn [_nodes]. rewrite dict_get_set.
    apply String.eqb_neq in Hne. now rewrite Hne. }
  split; [now rewrite dict_keys_set, H|]. split; [reflexivity|].
  intros Hr. apply reachable_wf in Hr. destruct Hr as [[Hm Hs Hp] Hgn _ _ _ _ _].
  unfold successors, predecessors, nx_successors, nx_predecessors, nx_add_node.
  cbn [_graph]. rewrite Hs, Hgn, H. cbn [_succ _pred].
  rewrite !dict_get_set, String.eqb_refl. split; reflexivity.
Qed.

Lemma add_node_contract_witness :
  exists g',
    add_node (sample_node "c" RTL_WRAPPER []) two_kinds = (g', Ok tt)
    /\ get_node "c" g' = Ok (sample_node "c" RTL_WRAPPER [])
    /\ dict_keys (_nodes g') = ["a"; "b"; "c"].
Proof.
  destruct (proj2 (add_node_contract two_kinds (sample_node "c" RTL_WRAPPER [])) eq_refl)
    as (g' & H1 & H2 & _ & H4 & _).
  exists g'. auto.
Defined.

(** X2 (update_node): on an id that is absent [update_node] raises
    [KeyError] and changes nothing.  On a node of a store built by the
    mutators it returns: [get_node] then gives the new node, the other
    nodes, the iteration order, the edge collection and both adjacency
    dictionaries are as before. *)
Theorem update_node_contract (g : GraphManager) (node : ArtifactNode) :
  (dict_mem (node_id node) (_nodes g) = false ->
     exists msg, update_node node g = (g, Raise (KeyError msg)))
  /\ (reachable g -> dict_mem (node_id node) (_nodes g) = true ->
      exists g',
        update_node node g = (g', Ok tt)
        /\ get_node (node_id node) g' = Ok node
        /\ (forall nid, nid <> node_id node -> get_node nid g' = get_node nid g)
        /\ dict_keys (_nodes g') = dict_keys (_nodes g)
        /\ _edges g' = _edges g
        /\ _succ (_graph g') = _succ (_graph g)
        /\ _pred (_graph g') = _pred (_graph g)).
Proof.
  split.
  - intros H. unfold update_node. rewrite H. cbn [negb]. eauto.
  - intros Hr H. apply reachable_wf in Hr. destruct Hr as [_ Hgn _ _ _ _ _].
    unfold update_node, nx_update_node. rewrite H. cbn [negb].
    assert (Hnx : dict_mem (node_id node) (_node (_graph g)) = true) by now rewrite Hgn.
    destruct (dict_mem_get _ _ Hnx) as [old ->].
    eexists. split; [reflexivity|]. rewrite get_node_lookup. cbn [_nodes _edges _graph _succ _pred].
    split; [now rewrite dict_get_set, String.eqb_refl|].
    split.
    { intros nid Hne. rewrite !get_node_lookup. cbn [_nodes]. rewrite dict_get_set.
      apply String.eqb_neq in Hne. now rewrite Hne. }
    split; [now rewrite dict_keys_set, H|]. auto.
Qed.

Lemma update_node_contract_witness :
  exists g',
    update_node (sample_node "b" UPF_POWER []) two_kinds = (g', Ok tt)
    /\ get_node "b" g' = Ok (sample_node "b" UPF_POWER [])
    /\ _edges g' = _edges two_kinds.
Proof.
  destruct (proj2 (update_node_contract two_kinds (sample_node "b" UPF_POWER []))
              two_kinds_reachable eq_refl)
    as (g' & H1 & H2 & _ & _ & H5 & _).
  exists g'. auto.
Defined.

Lemma dict_keys_del {V : Type} (d : dict V) k :
  dict_keys (dict_del k d) = filter (fun x => negb (x =? k)) (dict_keys d).
Proof.
  unfold dict_keys, dict_del. induction d as [|[k0 v0] d IH]; simpl; [reflexivity|].
  destruct (k0 =? k); simpl; now rewrite IH.
Qed.

Lemma dict_del_idem {V : Type} (d : dict V) k : dict_del k (dict_del k d) = dict_del k d.
Proof.
  unfold dict_del. rewrite filter_twice. apply filter_ext. intros a.
  now destruct (negb (fst a =? k)).
Qed.

(** What a key holds after the inner dictionaries of [us] went through an
    idempotent update. *)
Lemma dict_get_fold_adjust {V : Type} (f : V -> V) (us : list string) :
  (forall m, f (f m) = f m) ->
  forall (d : dict V) u,
    dict_get u (fold_left (fun p x => dict_adjust x f p) us d)
    = option_map (fun m => if existsb (String.eqb u) us then f m else m) (dict_get u d).
Proof.
  intros Hf. induction us as [|x us IH]; intros d u; simpl.
  - now destruct (dict_get u d).
  - rewrite IH, dict_get_adjust.
    destruct (String.eqb_spec u x) as [->|]; simpl; [|reflexivity].
    destruct (dict_get x d); simpl; [|reflexivity].
    destruct (existsb (String.eqb x) us); [now rewrite Hf | reflexivity].
Qed.

(** X3 (remove_node): on an id that is absent [remove_node] raises
    [KeyError] and changes nothing.  On a node of a store built by the
    mutators it returns and removes exactly what concerns the node: the
    other nodes stay, in order; the edges that do not touch the node stay,
    in order; the successor and predecessor lists of the other nodes lose
    the node and keep their order. *)
Theorem remove_node_exact (g : GraphManager) (nid : string) :
  (dict_mem nid (_nodes g) = false ->
     exists msg, remove_node nid g = (g, Raise (KeyError msg)))
  /\ (reachable g -> dict_mem nid (_nodes g) = true ->
      exists g',
        remove_node nid g = (g', Ok tt)
        /\ _nodes g' = dict_del nid (_nodes g)
        /\ _edges g' = filter (fun kv => negb (touches nid (snd kv))) (_edges g)
        /\ (forall u l, u <> nid -> successors g u = Ok l ->
              successors g' u = Ok (filter (fun v => negb (v =? nid)) l))
        /\ (forall u l, u <> nid -> predecessors g u = Ok l ->
              predecessors g' u = Ok (filter (fun v => negb (v =? nid)) l))).
Proof.
  split.
  - intros H. unfold remove_node. rewrite H. cbn [negb]. eauto.
  - intros Hr H. apply reachable_wf in Hr. pose proof Hr as [Hg Hgn _ He _ _ _].
    pose proof Hg as [Hm Hs Hp].
    assert (Hnx : dict_mem nid (_node (_graph g)) = true) by now rewrite Hgn.
    assert (Hsn : dict_mem nid (_succ (_graph g)) = true) by now rewrite Hs.
    destruct (dict_mem_get _ _ Hsn) as [nbrs Hnbrs].
    unfold remove_node, nx_remove_node. rewrite H, Hnbrs, Hnx. cbn [negb].
    eexists. split; [reflexivity|]. cbn [_nodes _edges _graph].
    split; [reflexivity|]. split; [now apply fold_del_filter|].
    assert (Hkeys : forall x, existsb (String.eqb x) (dict_keys nbrs)
                              = arc (_succ (_graph g)) nid x).
    { intros x. rewrite existsb_eqb_keys. unfold arc. now rewrite Hnbrs. }
    split.
    + intros u l Hu. unfold successors, nx_successors. cbn [_graph _succ].
      destruct (dict_get u (_succ (_graph g))) as [m|] eqn:Em; [|discriminate].
      intros [= <-].
      rewrite (dict_get_fold_adjust (dict_del nid) _ (fun m => dict_del_idem m nid)).
      rewrite dict_get_del. apply String.eqb_neq in Hu. rewrite Hu, Em. cbn [option_map].
      f_equal. rewrite existsb_keys_arc, arc_fold_del, Hkeys, Hu, andb_false_r.
      cbn [negb andb]. rewrite <- Hm.
      destruct (arc (_succ (_graph g)) u nid) eqn:Ea; [apply dict_keys_del|].
      unfold arc in Ea. rewrite Em in Ea.
      rewrite <- dict_keys_del, dict_del_absent by exact Ea. reflexivity.
    + intros u l Hu. unfold predecessors, nx_predecessors. cbn [_graph _pred].
      destruct (dict_get u (_pred (_graph g))) as [m|] eqn:Em; [|discriminate].
      intros [= <-]. rewrite dict_get_del. apply String.eqb_neq in Hu. rewrite Hu.
      rewrite (dict_get_fold_adjust (dict_del nid) _ (fun m => dict_del_idem m nid)).
      rewrite Em. cbn [option_map]. f_equal. rewrite Hkeys, Hm.
      destruct (arc (_pred (_graph g)) u nid) eqn:Ea; [apply dict_keys_del|].
      unfold arc in Ea. rewrite Em in Ea.
      rewrite <- dict_keys_del, dict_del_absent by exact Ea. reflexivity.
Qed.

Lemma remove_node_exact_witness :
  exists g',
    remove_node "doc" scanned = (g', Ok tt)
    /\ dict_keys (_nodes g') = ["sdc_main"; "script"]
    /\ dict_keys (_edges g') = ["sdc_main--configures-->script"]
    /\ successors g' "script" = Ok [].
Proof.
  destruct (proj2 (remove_node_exact scanned "doc") scanned_reachable eq_refl)
    as (g' & H1 & H2 & H3 & H4 & _).
  exists g'. split; [exact H1|]. rewrite H2, H3.
  split; [reflexivity|]. split; [reflexivity|].
  apply (H4 "script" ["doc"]); [discriminate | reflexivity].
Defined.

Lemma dict_set_set {V : Type} (d : dict V) k v v' :
  dict_set k v (dict_set k v' d) = dict_set k v d.
Proof.
  induction d as [|[k0 v0] d IH]; simpl.
  - now rewrite String.eqb_refl.
  - destruct (String.eqb_spec k k0) as [->|Hne]; simpl.
    + now rewrite String.eqb_refl.
    + apply String.eqb_neq in Hne. rewrite Hne. now rewrite IH.
Qed.

Lemma In_keys_set {V : Type} (d : dict V) k v : In k (dict_keys (dict_set k v d)).
Proof. apply dict_mem_In. rewrite dict_mem_set, String.eqb_refl. reflexivity. Qed.

(** In a well-formed graph, [add_edge] between two nodes creates none. *)
Lemma nx_add_edge_between_nodes u v a G :
  nx_wf G -> dict_mem u (_node G) = true -> dict_mem v (_node G) = true ->
  nx_add_edge u v a G
  = mk_digraph
      (_node G)
      (dict_adjust u
         (dict_set v (dict_update (dict_get_or v dict_empty (dict_get_or u dict_empty (_succ G))) a))
         (_succ G))
      (dict_adjust v
         (dict_set u (dict_update (dict_get_or v dict_empty (dict_get_or u dict_empty (_succ G))) a))
         (_pred G)).
Proof.
  intros [Hm Hs Hp] Hu Hv. unfold nx_add_edge, nx_ensure_node.
  rewrite <- Hs in Hu, Hv. rewrite Hu. rewrite Hv. reflexivity.
Qed.

(** X4 (add_edge, get_edges_from, get_edges_to, successors,
    predecessors): between two nodes of the store, [add_edge] raises
    [ValueError] and changes nothing when the (source, kind, target) id is
    taken.  Otherwise, in a store built by the mutators, it returns: the
    nodes are as before, the edge is stored under its id, it comes last
    among the edges leaving its source and among those entering its
    target, the target is a successor of the source and the source a
    predecessor of the target. *)
Theorem add_edge_contract (g : GraphManager) (edge : DependencyEdge) :
  dict_mem (source_id edge) (_nodes g) = true ->
  dict_mem (target_id edge) (_nodes g) = true ->
  (dict_mem (edge_id edge) (_edges g) = true ->
     exists msg, add_edge edge g = (g, Raise (ValueError msg)))
  /\ (reachable g -> dict_mem (edge_id edge) (_edges g) = false ->
      exists g',
        add_edge edge g = (g', Ok tt)
        /\ _nodes g' = _nodes g
        /\ dict_get (edge_id edge) (_edges g') = Some edge
        /\ get_edges_from g' (source_id edge) = get_edges_from g (source_id edge) ++ [edge]
        /\ get_edges_to g' (target_id edge) = get_edges_to g (target_id edge) ++ [edge]
        /\ (exists l, successors g' (source_id edge) = Ok l /\ In (target_id edge) l)
        /\ (exists l, predecessors g' (target_id edge) = Ok l /\ In (source_id edge) l)).
Proof.
  intros Hsrc Htgt. split.
  - intros H. unfold add_edge. rewrite Hsrc, Htgt, H. cbn [negb]. eauto.
  - intros Hr H. apply reachable_wf in Hr. destruct Hr as [Hg Hgn _ _ _ _ _].
    pose proof Hg as [Hm Hs Hp].
    rewrite (add_edge_new _ _ Hsrc Htgt H). eexists. split; [reflexivity|].
    cbn [_nodes _edges _graph]. split; [reflexivity|].
    split; [now rewrite dict_get_set, String.eqb_refl|].
    unfold get_edges_from, get_edges_to. cbn [_edges].
    rewrite dict_set_new by exact H. unfold dict_values.
    rewrite map_app, !filter_app. cbn [map snd filter]. rewrite !String.eqb_refl.
    split; [reflexivity|]. split; [reflexivity|].
    assert (Hu : dict_mem (source_id edge) (_node (_graph g)) = true) by now rewrite Hgn.
    assert (Hv : dict_mem (target_id edge) (_node (_graph g)) = true) by now rewrite Hgn.
    rewrite (nx_add_edge_between_nodes _ _ _ _ Hg Hu Hv).
    unfold successors, predecessors, nx_successors, nx_predecessors. cbn [_graph _succ _pred].
    rewrite !dict_get_adjust, !String.eqb_refl.
    rewrite <- Hs in Hu. rewrite <- Hp in Hv.
    destruct (dict_mem_get _ _ Hu) as [su Hsu]. destruct (dict_mem_get _ _ Hv) as [pv Hpv].
    unfold attrs in *. rewrite Hsu, Hpv.
    cbn [option_map]. split; eexists; (split; [reflexivity | apply In_keys_set]).
Qed.

Lemma add_edge_contract_witness :
  exists g',
    add_edge (sample_edge "b" VALIDATES "a" []) two_kinds = (g', Ok tt)
    /\ get_edges_from g' "b" = [sample_edge "b" VALIDATES "a" []]
    /\ (exists l, successors g' "b" = Ok l /\ In "a" l).
Proof.
  destruct (proj2 (add_edge_contract two_kinds (sample_edge "b" VALIDATES "a" [])
                     eq_refl eq_refl) two_kinds_reachable eq_refl)
    as (g' & H1 & _ & _ & H4 & _ & H6 & _).
  exists g'. split; [exact H1|]. split; [exact H4 | exact H6].
Defined.

(** X5 (remove_edge): [remove_edge] deletes the entry of the edge
    collection before it asks networkx to remove the arc.  When the edge
    is recorded but the arc is not there, the call raises [NetworkXError]
    and the edge is gone from the collection all the same. *)
Theorem remove_edge_raises_after_deleting
    (g : GraphManager) (src tgt : string) (et : EdgeType) :
  dict_mem (make_edge_id src et tgt) (_edges g) = true ->
  arc (_succ (_graph g)) src tgt = false ->
  exists msg,
    remove_edge src tgt et g
    = (mk_gm (_graph g) (_nodes g) (dict_del (make_edge_id src et tgt) (_edges g)),
       Raise (NetworkXError msg)).
Proof.
  intros He Harc. unfold remove_edge, nx_remove_edge. rewrite He. cbn [negb].
  unfold arc in Harc. destruct (dict_get src (_succ (_graph g))) as [su|]; [|eauto].
  rewrite Harc. eauto.
Qed.

Lemma remove_edge_raises_after_deleting_witness :
  exists msg,
    remove_edge "a" "b" CONSTRAINS (fst (remove_edge "a" "b" GENERATES two_kinds))
    = (mk_gm (_graph (fst (remove_edge "a" "b" GENERATES two_kinds)))
             (_nodes two_kinds) [],
       Raise (NetworkXError msg)).
Proof.
  apply (remove_edge_raises_after_deleting
           (fst (remove_edge "a" "b" GENERATES two_kinds)) "a" "b" CONSTRAINS);
    reflexivity.
Defined.

Lemma nx_add_remove_edge u v a G :
  nx_wf G -> dict_mem u (_node G) = true -> dict_mem v (_node G) = true ->
  arc (_succ G) u v = false ->
  nx_remove_edge u v (nx_add_edge u v a G) = (G, Ok tt).
Proof.
  intros Hwf Hu Hv Harc. pose proof Hwf as [Hm Hs Hp].
  rewrite (nx_add_edge_between_nodes _ _ _ _ Hwf Hu Hv).
  set (dd := dict_update _ a).
  assert (Harc' : arc (_pred G) v u = false) by now rewrite <- Hm.
  rewrite <- Hs in Hu. rewrite <- Hp in Hv.
  destruct (dict_mem_get _ _ Hu) as [su Hsu]. destruct (dict_mem_get _ _ Hv) as [pv Hpv].
  unfold arc in Harc, Harc'. rewrite Hsu in Harc. rewrite Hpv in Harc'.
  unfold nx_remove_edge. cbn [_succ _pred _node]. unfold attrs in *.
  rewrite dict_get_adjust, String.eqb_refl, Hsu. cbn [option_map].
  rewrite dict_mem_set, String.eqb_refl. cbn [orb].
  rewrite dict_get_adjust, String.eqb_refl, Hpv. cbn [option_map].
  rewrite dict_mem_set, String.eqb_refl. cbn [orb].
  rewrite !dict_del_set_new by assumption.
  unfold dict_adjust. rewrite Hsu, Hpv, !dict_set_set.
  rewrite (dict_set_same _ _ _ Hsu), (dict_set_same _ _ _ Hpv).
  now destruct G.
Qed.

(** X6 (add_edge, remove_edge): in a store built by the mutators, adding
    an edge between two nodes that no arc joins yet and removing it again
    gives back the store as it was: nodes, edge collection and adjacency
    structure. *)
Theorem add_then_remove_edge (g : GraphManager) (edge : DependencyEdge) :
  reachable g ->
  dict_mem (source_id edge) (_nodes g) = true ->
  dict_mem (target_id edge) (_nodes g) = true ->
  dict_mem (edge_id edge) (_edges g) = false ->
  arc (_succ (_graph g)) (source_id edge) (target_id edge) = false ->
  remove_edge (source_id edge) (target_id edge) (edge_type edge) (fst (add_edge edge g))
  = (g, Ok tt).
Proof.
  intros Hr Hsrc Htgt He Harc. apply reachable_wf in Hr. destruct Hr as [Hg Hgn _ _ _ _ _].
  rewrite (add_edge_new _ _ Hsrc Htgt He). cbn [fst].
  unfold remove_edge. cbn [_edges _nodes _graph]. fold (edge_id edge).
  rewrite dict_mem_set, String.eqb_refl. cbn [orb negb].
  rewrite nx_add_remove_edge; auto; try (now rewrite Hgn).
  rewrite dict_del_set_new by exact He. now destruct g.
Qed.

Lemma add_then_remove_edge_witness :
  remove_edge "b" "a" VALIDATES (fst (add_edge (sample_edge "b" VALIDATES "a" []) two_kinds))
  = (two_kinds, Ok tt).
Proof.
  apply (add_then_remove_edge two_kinds (sample_edge "b" VALIDATES "a" [])
           two_kinds_reachable); reflexivity.
Defined.

(* ====================================================================== *)
(** * Graph store: what holds of every store                                *)
(* ====================================================================== *)

Lemma In_values {V : Type} (d : dict V) v :
  In v (dict_values d) <-> exists k, In (k, v) d.
Proof.
  unfold dict_values. rewrite in_map_iff. split.
  - intros ([k v'] & <- & H). eauto.
  - intros [k H]. exists (k, v). auto.
Qed.

(** X7 (referential integrity): in every store built by the mutators,
    whether their calls returned or raised, both endpoints of every edge
    are nodes of the store, every edge is stored under its own id and
    every node under its own id, and no two nodes and no two edges share
    an id. *)
Theorem no_dangling_edges (g : GraphManager) :
  reachable g ->
  (forall e, In e (dict_values (_edges g)) ->
     (exists s, get_node (source_id e) g = Ok s)
     /\ (exists t, get_node (target_id e) g = Ok t)
     /\ dict_get (edge_id e) (_edges g) = Some e)
  /\ (forall n, In n (dict_values (_nodes g)) -> get_node (node_id n) g = Ok n)
  /\ NoDup (map node_id (dict_values (_nodes g)))
  /\ NoDup (map edge_id (dict_values (_edges g))).
Proof.
  intros Hr. apply reachable_wf in Hr. destruct Hr as [_ _ Hn He Hnk Hek Hep].
  assert (Hkeys : forall (V : Type) (d : dict V) (id : V -> string),
            (forall k v, In (k, v) d -> id v = k) -> map id (dict_values d) = dict_keys d).
  { intros V d id H. unfold dict_values, dict_keys. rewrite map_map.
    apply map_ext_in. intros [k v] Hin. now apply H. }
  split; [|split; [|split]].
  - intros e Hin. apply In_values in Hin. destruct Hin as [k Hin].
    destruct (Hep k e Hin) as [Hs Ht]. rewrite !get_node_lookup.
    destruct (dict_mem_get _ _ Hs) as [s ->]. destruct (dict_mem_get _ _ Ht) as [t ->].
    split; [eauto|]. split; [eauto|].
    rewrite (Hek k e Hin). now apply dict_In_get.
  - intros n Hin. apply In_values in Hin. destruct Hin as [k Hin].
    rewrite get_node_lookup, (Hnk k n Hin), (dict_In_get _ _ _ _ Hn Hin). reflexivity.
  - rewrite (Hkeys _ _ _ Hnk). exact Hn.
  - rewrite (Hkeys _ _ _ Hek). exact He.
Qed.

Lemma no_dangling_edges_witness :
  (exists s, get_node "sdc_main" scanned = Ok s)
  /\ (exists t, get_node "script" scanned = Ok t)
  /\ dict_get "sdc_main--configures-->script" (_edges scanned)
     = Some (sample_edge "sdc_main" CONFIGURES "script" []).
Proof.
  refine (proj1 (no_dangling_edges scanned scanned_reachable)
                (sample_edge "sdc_main" CONFIGURES "script" []) _).
  left. reflexivity.
Defined.

(** X8 (successors, predecessors): in every store built by the mutators,
    [successors] and [predecessors] return for exactly the nodes of the
    store and raise [NetworkXError] for any other id; the lists hold nodes
    of the store only, and [v] is listed among the successors of [u]
    exactly when [u] is listed among the predecessors of [v]. *)
Theorem adjacency_of_store_nodes (g : GraphManager) :
  reachable g ->
  (forall nid, dict_mem nid (_nodes g) = true ->
     exists ls lp,
       successors g nid = Ok ls /\ predecessors g nid = Ok lp
       /\ (forall v, In v ls -> dict_mem v (_nodes g) = true)
       /\ (forall v, In v lp -> dict_mem v (_nodes g) = true))
  /\ (forall nid, dict_mem nid (_nodes g) = false ->
        exists m m',
          successors g nid = Raise (NetworkXError m)
          /\ predecessors g nid = Raise (NetworkXError m'))
  /\ (forall u v ls lp,
        successors g u = Ok ls -> predecessors g v = Ok lp ->
        (In v ls <-> In u lp)).
Proof.
  intros Hr. apply reachable_wf in Hr. destruct Hr as [Hg Hgn _ _ _ _ _].
  pose proof Hg as [Hm Hs Hp].
  unfold successors, predecessors, nx_successors, nx_predecessors.
  split; [|split].
  - intros nid Hin. rewrite <- Hgn in Hin.
    assert (Hsn := Hin). assert (Hpn := Hin). rewrite <- Hs in Hsn. rewrite <- Hp in Hpn.
    destruct (dict_mem_get _ _ Hsn) as [ms Hms]. destruct (dict_mem_get _ _ Hpn) as [mp Hmp].
    rewrite Hms, Hmp. do 2 eexists. split; [reflexivity|]. split; [reflexivity|].
    split; intros v Hv; rewrite <- Hgn.
    + destruct (nx_wf_closed _ Downstream Hg nid ms v Hms Hv) as [H _].
      simpl in H. now rewrite <- Hs.
    + destruct (nx_wf_closed _ Upstream Hg nid mp v Hmp Hv) as [H _].
      simpl in H. now rewrite <- Hp.
  - intros nid Hout. rewrite <- Hgn in Hout.
    assert (Hsn := Hout). assert (Hpn := Hout). rewrite <- Hs in Hsn. rewrite <- Hp in Hpn.
    unfold dict_mem in Hsn, Hpn.
    destruct (dict_get nid (_succ (_graph g))); [discriminate|].
    destruct (dict_get nid (_pred (_graph g))); [discriminate|]. eauto.
  - intros u v ls lp.
    destruct (dict_get u (_succ (_graph g))) as [ms|] eqn:Ems; [|discriminate].
    destruct (dict_get v (_pred (_graph g))) as [mp|] eqn:Emp; [|discriminate].
    intros [= <-] [= <-]. rewrite <- !dict_mem_In.
    specialize (Hm u v). unfold arc in Hm. rewrite Ems, Emp in Hm. now rewrite Hm.
Qed.

Lemma adjacency_of_store_nodes_witness :
  exists ls lp,
    successors scanned "script" = Ok ls /\ predecessors scanned "script" = Ok lp
    /\ (forall v, In v ls -> dict_mem v (_nodes scanned) = true)
    /\ (forall v, In v lp -> dict_mem v (_nodes scanned) = true).
Proof.
  apply (proj1 (adjacency_of_store_nodes scanned scanned_reachable)). reflexivity.
Defined.

(* ====================================================================== *)
(** * Snapshots: what load returns                                          *)
(* ====================================================================== *)

Lemma pfor_each_invariant {A S : Type} (P : S -> Prop) (body : S -> A -> partial S) :
  (forall s a s', P s -> body s a = Some (Ok s') -> P s') ->
  forall l s s', P s -> pfor_each body l s = Some (Ok s') -> P s'.
Proof.
  intros Hbody. induction l as [|a l IH]; intros s s' Hs; simpl.
  - intros [= <-]. exact Hs.
  - destruct (body s a) as [[s1|e]|] eqn:E; try discriminate. simpl.
    apply IH. now apply (Hbody s a).
Qed.

Lemma returned_Ok r g' : returned r = Ok g' -> g' = fst r.
Proof. destruct r as [g [[]|e]]; simpl; [now intros [= <-] | discriminate]. Qed.

(** X9 (load): a store that [load] returns, from a snapshot whose fields
    have the JSON types of their annotations, is one that the mutators
    build from [GraphManager()]: it has every property shown of such
    stores, among them no dangling edge and no duplicate id. *)
Theorem load_gives_built_store (path : string) (fs : jsonfs) (g : GraphManager) :
  load path fs = Some (Ok g) -> reachable g /\ gm_wf g.
Proof.
  intros H. assert (Hr : reachable g); [|split; [exact Hr | now apply reachable_wf]].
  unfold load in H. destruct (fs path) as [data|]; [|discriminate].
  destruct (subscript data "nodes") as [vn|]; [|discriminate]. cbn [known pbind] in H.
  destruct (iterate vn) as [nds|]; [|discriminate]. cbn [known pbind] in H.
  destruct (pfor_each _ nds gm_init) as [[gm|]|] eqn:Enodes; try discriminate.
  cbn [pbind] in H.
  destruct (subscript data "edges") as [ve|]; [|discriminate]. cbn [known pbind] in H.
  destruct (iterate ve) as [eds|]; [|discriminate]. cbn [known pbind] in H.
  assert (Hgm : reachable gm).
  { revert Enodes. apply pfor_each_invariant; [|apply reach_init].
    intros s a s' Hs Hbody. destruct (node_of_record a) as [[node|]|]; try discriminate.
    cbn [pbind known] in Hbody. injection Hbody as Hbody.
    apply returned_Ok in Hbody. subst s'.
    exact (@reach_step (AddNode node) s Hs). }
  revert H. apply pfor_each_invariant; [|exact Hgm].
  intros s a s' Hs Hbody. destruct (edge_of_record a) as [[edge|]|]; try discriminate.
  cbn [pbind known] in Hbody. injection Hbody as Hbody.
  apply returned_Ok in Hbody. subst s'.
  exact (@reach_step (AddEdge edge) s Hs).
Qed.

Lemma load_gives_built_store_witness :
  exists g,
    load "g.json" (save scanned "g.json" (fun _ => None)) = Some (Ok g) /\ reachable g.
Proof.
  eexists. split; [reflexivity|].
  apply (load_gives_built_store "g.json" (save scanned "g.json" (fun _ => None))).
  reflexivity.
Defined.





(* ====================================================================== *)
(** * Graph store: summary                                                  *)
(* ====================================================================== *)

Lemma NodeType_value_eqb a b : (NodeType_value a =? NodeType_value b) = NodeType_beq a b.
Proof.
  destruct (NodeType_beq a b) eqn:E.
  - apply NodeType_beq_true in E. subst. apply String.eqb_refl.
  - apply String.eqb_neq. intros H. apply (f_equal NodeType_of_value) in H.
    rewrite !NodeType_roundtrip in H. injection H as ->.
    assert (NodeType_beq b b = true) by now apply NodeType_beq_true. congruence.
Qed.

Lemma Domain_value_eqb a b : (Domain_value a =? Domain_value b) = Domain_beq a b.
Proof. destruct a, b; reflexivity. Qed.

Section Counting.
Variable key : ArtifactNode -> string.

Lemma count_fold_get (l : list ArtifactNode) :
  forall counts k,
    dict_get k (fold_left (count_step key) l counts)
    = let c := length (filter (fun n => key n =? k) l) in
      match dict_get k counts with
      | Some n => Some (n + c)
      | None => if (c =? 0)%nat then None else Some c
      end.
Proof.
  induction l as [|a l IH]; intros counts k; simpl.
  - destruct (dict_get k counts); [now rewrite Nat.add_0_r | reflexivity].
  - rewrite IH. unfold count_step. rewrite dict_get_set. unfold dict_get_or.
    rewrite (String.eqb_sym k). destruct (String.eqb_spec (key a) k) as [->|]; simpl.
    + destruct (dict_get k counts); f_equal; lia.
    + reflexivity.
Qed.

Lemma sum_values_set (d : dict nat) k v :
  list_sum (dict_values (dict_set k v d)) + dict_get_or k 0 d = list_sum (dict_values d) + v.
Proof.
  unfold dict_values, dict_get_or. induction d as [|[k0 v0] d IH]; simpl; [lia|].
  destruct (String.eqb_spec k k0); simpl; lia.
Qed.

Lemma count_fold_sum (l : list ArtifactNode) :
  forall counts,
    list_sum (dict_values (fold_left (count_step key) l counts))
    = list_sum (dict_values counts) + length l.
Proof.
  induction l as [|a l IH]; intros counts; simpl; [lia|].
  rewrite IH. unfold count_step.
  pose proof (sum_values_set counts (key a) (dict_get_or (key a) 0 counts + 1)). lia.
Qed.

Lemma count_fold_wf (l : list ArtifactNode) :
  forall counts, dict_wf counts -> dict_wf (fold_left (count_step key) l counts).
Proof.
  induction l as [|a l IH]; intros counts H; simpl; [exact H|].
  apply IH. now apply dict_wf_set.
Qed.
End Counting.

(** X11 (summary, get_nodes_by_type, get_nodes_by_domain): in the summary
    of a store, the count recorded for a node type is the number of nodes
    that [get_nodes_by_type] returns for it, a type without nodes has no
    entry, and the counts add up to the total number of nodes; likewise
    for domains. *)
Theorem graph_summary_counts (cyclic : bool) (g : GraphManager) :
  let s := graph_summary cyclic g in
  (forall t,
     dict_get (NodeType_value t) (node_types s)
     = if (length (get_nodes_by_type g t) =? 0)%nat then None
       else Some (length (get_nodes_by_type g t)))
  /\ (forall d,
        dict_get (Domain_value d) (domains s)
        = if (length (get_nodes_by_domain g d) =? 0)%nat then None
          else Some (length (get_nodes_by_domain g d)))
  /\ list_sum (dict_values (node_types s)) = total_nodes s
  /\ list_sum (dict_values (domains s)) = total_nodes s
  /\ dict_wf (node_types s) /\ dict_wf (domains s).
Proof.
  cbv zeta. unfold graph_summary, count_by. cbn [node_types domains total_nodes].
  repeat split.
  - intros t. rewrite (count_fold_get (fun n => NodeType_value (node_type n))).
    cbv zeta. cbn [dict_get dict_empty]. unfold get_nodes_by_type.
    now rewrite (filter_ext _ _ (fun n => NodeType_value_eqb (node_type n) t)).
  - intros d. rewrite (count_fold_get (fun n => Domain_value (domain n))).
    cbv zeta. cbn [dict_get dict_empty]. unfold get_nodes_by_domain.
    now rewrite (filter_ext _ _ (fun n => Domain_value_eqb (domain n) d)).
  - rewrite (count_fold_sum (fun n => NodeType_value (node_type n))).
    unfold dict_values. now rewrite length_map.
  - rewrite (count_fold_sum (fun n => Domain_value (domain n))).
    unfold dict_values. now rewrite length_map.
  - apply (count_fold_wf (fun n => NodeType_value (node_type n))). constructor.
  - apply (count_fold_wf (fun n => Domain_value (domain n))). constructor.
Qed.

(* ====================================================================== *)
(** * Validation reports: the figures of a summary                          *)
(* ====================================================================== *)

Lemma severity_partition (l : list ValidationItem) :
  length l
  = length (with_severity PASS l) + length (with_severity WARNING l)
    + length (with_severity FAIL l) + length (with_severity INFO l).
Proof.
  unfold with_severity. induction l as [|i l IH]; simpl; [reflexivity|].
  destruct (severity i); simpl; lia.
Qed.

(** X12 (summary): in the summary of a report, the number of checks is
    the sum of the passes, warnings and failures plus the number of INFO
    items, which the summary does not count apart; there is one failure
    detail per FAIL item, in order, and the report is flagged valid
    exactly when there is none. *)
Theorem summary_figures (r : ValidationReport) :
  let s := summary r in
  s_total_checks s
  = s_passes s + s_warnings s + s_failures s + length (with_severity INFO (items r))
  /\ length (s_failure_details s) = s_failures s
  /\ map fd_node (s_failure_details s) = map item_node (failures r)
  /\ map fd_message (s_failure_details s) = map message (failures r)
  /\ (s_overall_valid s = true <-> s_failure_details s = [])
  /\ s_overall_coverage_pct s = percent_of (s_passes s) (s_passes s + s_failures s).
Proof.
  cbv zeta. unfold summary. cbn [s_total_checks s_passes s_warnings s_failures
    s_failure_details s_overall_valid s_overall_coverage_pct].
  split; [apply severity_partition|]. split; [apply length_map|].
  split; [now rewrite map_map|]. split; [now rewrite map_map|]. split.
  - unfold is_valid. destruct (failures r); simpl; split; (reflexivity || discriminate).
  - reflexivity.
Qed.

Lemma cat_stats_is_fold l : cat_stats l = fold_left cat_step l [].
Proof. reflexivity. Qed.

Lemma cat_fold_get (l : list ValidationItem) :
  forall acc cat,
    dict_get cat (fold_left cat_step l acc)
    = let p := length (in_category PASS cat l) in
      let f := length (in_category FAIL cat l) in
      match dict_get cat acc with
      | Some (p0, f0) => Some (p0 + p, f0 + f)
      | None => if (p + f =? 0)%nat then None else Some (p, f)
      end.
Proof.
  unfold in_category. induction l as [|i l IH]; intros acc cat; cbn [fold_left].
  - simpl. destruct (dict_get cat acc) as [[p0 f0]|]; [|reflexivity].
    now rewrite !Nat.add_0_r.
  - rewrite IH. cbv zeta. unfold cat_step. cbn [filter].
    destruct (severity i); cbn [Severity_eqb andb];
      try (destruct (dict_get cat acc) as [[p0 f0]|]; reflexivity);
      rewrite dict_get_set, (String.eqb_sym cat); unfold dict_get_or;
      destruct (String.eqb_spec (reported_category i) cat) as [->|];
      try reflexivity;
      destruct (dict_get cat acc) as [[p0 f0]|]; cbn [fst snd length];
      rewrite ?Nat.add_succ_r, ?Nat.add_0_l; try reflexivity;
      f_equal; f_equal; lia.
Qed.

Lemma sum_pairs_set (d : dict (nat * nat)) k (v : nat * nat) :
  list_sum (map (fun kv => fst (snd kv)) (dict_set k v d)) + fst (dict_get_or k (0, 0) d)
  = list_sum (map (fun kv => fst (snd kv)) d) + fst v
  /\ list_sum (map (fun kv => snd (snd kv)) (dict_set k v d)) + snd (dict_get_or k (0, 0) d)
     = list_sum (map (fun kv => snd (snd kv)) d) + snd v.
Proof.
  unfold dict_get_or. induction d as [|[k0 v0] d [IH1 IH2]]; simpl; [lia|].
  destruct (String.eqb_spec k k0); simpl; lia.
Qed.

Lemma cat_fold_sums (l : list ValidationItem) :
  forall acc,
    list_sum (map (fun kv => fst (snd kv)) (fold_left cat_step l acc))
    = list_sum (map (fun kv => fst (snd kv)) acc) + length (with_severity PASS l)
    /\ list_sum (map (fun kv => snd (snd kv)) (fold_left cat_step l acc))
       = list_sum (map (fun kv => snd (snd kv)) acc) + length (with_severity FAIL l).
Proof.
  unfold with_severity. induction l as [|i l IH]; intros acc; cbn [fold_left filter].
  - simpl. lia.
  - destruct (IH (cat_step acc i)) as [IH1 IH2]. rewrite IH1, IH2. unfold cat_step.
    destruct (severity i); cbn [Severity_eqb length]; try lia;
      match goal with
      | |- context [dict_set ?k ?v acc] => destruct (sum_pairs_set acc k v) as [H1 H2]
      end; cbn [fst snd] in *; lia.
Qed.

Lemma cat_fold_wf (l : list ValidationItem) :
  forall acc, dict_wf acc -> dict_wf (fold_left cat_step l acc).
Proof.
  induction l as [|i l IH]; intros acc H; cbn [fold_left]; [exact H|].
  apply IH. unfold cat_step. destruct (severity i); auto; now apply dict_wf_set.
Qed.

(** X13 (summary, per-category table): the table has one row per
    category under which some PASS or FAIL item is filed (its mapping
    category, or its coarse category when that is empty).  A row counts
    the PASS and the FAIL items of its category; its count is never zero,
    so its coverage is always computed and never the default.  The rows
    add up to the passes and failures of the whole report. *)
Theorem category_table_partitions (r : ValidationReport) :
  let table := s_category_coverage (summary r) in
  dict_wf table
  /\ (forall cat,
        let p := length (in_category PASS cat (items r)) in
        let f := length (in_category FAIL cat (items r)) in
        dict_get cat table
        = if (p + f =? 0)%nat then None
          else Some (mk_category_stats p f (Rounded p (p + f))))
  /\ list_sum (map (fun kv => cs_pass (snd kv)) table) = s_passes (summary r)
  /\ list_sum (map (fun kv => cs_fail (snd kv)) table) = s_failures (summary r).
Proof.
  cbv zeta. unfold summary. cbn [s_category_coverage s_passes s_failures].
  rewrite cat_stats_is_fold.
  assert (Hget : forall (d : dict (nat * nat)) cat,
    dict_get cat
      (map (fun kv => let '(c, (p, f)) := kv in
                      (c, mk_category_stats p f (percent_of p (p + f)))) d)
    = option_map (fun pf => mk_category_stats (fst pf) (snd pf)
                              (percent_of (fst pf) (fst pf + snd pf)))
                 (dict_get cat d)).
  { induction d as [|[c [p f]] d IH]; intros cat; simpl; [reflexivity|].
    destruct (cat =? c); [reflexivity | apply IH]. }
  split; [|split; [|split]].
  - pose proof (cat_fold_wf (items r) [] (NoDup_nil _)) as Hwf.
    unfold dict_wf, dict_keys in *. rewrite map_map.
    erewrite map_ext; [exact Hwf|]. now intros [c [p f]].
  - intros cat. rewrite Hget, cat_fold_get. cbv zeta. cbn [dict_get].
    destruct (Nat.eqb_spec (length (in_category PASS cat (items r))
                            + length (in_category FAIL cat (items r))) 0) as [E|E];
      [reflexivity|].
    cbn [option_map fst snd]. unfold percent_of.
    apply Nat.eqb_neq in E. now rewrite E.
  - rewrite map_map. destruct (cat_fold_sums (items r) []) as [H _].
    simpl in H. unfold passes. rewrite <- H.
    f_equal. apply map_ext. now intros [c [p f]].
  - rewrite map_map. destruct (cat_fold_sums (items r) []) as [_ H].
    simpl in H. unfold failures. rewrite <- H.
    f_equal. apply map_ext. now intros [c [p f]].
Qed.

(* ====================================================================== *)
(** * The validator: what each level reports                                *)
(* ====================================================================== *)

Lemma level1_flat g report :
  _level1_structural g report = report ++ flat_map (l1_node g []) (all_nodes g).
Proof.
  unfold _level1_structural. apply fold_left_appending. apply l1_node_appends.
Qed.

Lemma l1_element_flat nid node tts l :
  fold_left (l1_element nid node tts) l []
  = flat_map (l1_element nid node tts []) l.
Proof.
  now rewrite (fold_left_appending _ _ (l1_element_appends nid node tts)).
Qed.

Lemma l1_expected_flat nid node tts key values l :
  fold_left (l1_expected nid node tts key values) l []
  = flat_map (l1_expected nid node tts key values []) l.
Proof.
  now rewrite (fold_left_appending _ _ (l1_expected_appends nid node tts key values)).
Qed.

(** The items of one node at Level 1, in terms of membership. *)
Lemma l1_node_In g nid node item :
  In item (l1_node g [] (nid, node))
  <-> (node_type node = IPXACT_COMPONENT \/ node_type node = IPXACT_DESIGN)
      /\ ((defined_elements node = [] /\ item = l1_warning nid node)
          \/ exists key values t,
               In (key, values) (defined_elements node)
               /\ values <> []
               /\ In t (dict_get_or key [] IPXACT_ELEMENT_EXPECTED_OUTPUTS)
               /\ cdc_not_required key values t = false
               /\ item = if existsb (NodeType_beq t)
                              (target_types_of (all_nodes g) (get_edges_from g nid))
                         then l1_pass nid node key t
                         else l1_fail nid node key values t).
Proof.
  assert (Hel : forall l,
    In item (fold_left (l1_element nid node
               (target_types_of (all_nodes g) (get_edges_from g nid))) l [])
    <-> exists key values t,
          In (key, values) l /\ values <> []
          /\ In t (dict_get_or key [] IPXACT_ELEMENT_EXPECTED_OUTPUTS)
          /\ cdc_not_required key values t = false
          /\ item = if existsb (NodeType_beq t)
                         (target_types_of (all_nodes g) (get_edges_from g nid))
                    then l1_pass nid node key t
                    else l1_fail nid node key values t).
  { intros l. rewrite l1_element_flat, in_flat_map. split.
    - intros ([key values] & Hkv & Hin). unfold l1_element in Hin.
      destruct values as [|v values]; [destruct Hin|].
      rewrite l1_expected_flat, in_flat_map in Hin. destruct Hin as (t & Ht & Hin).
      exists key, (v :: values), t. split; [exact Hkv|]. split; [discriminate|].
      split; [exact Ht|]. unfold l1_expected in Hin.
      destruct (cdc_not_required key (v :: values) t); [destruct Hin|].
      split; [reflexivity|].
      destruct (existsb _ _); destruct Hin as [<-|[]]; reflexivity.
    - intros (key & values & t & Hkv & Hne & Ht & Hcdc & ->).
      exists (key, values). split; [exact Hkv|]. unfold l1_element.
      destruct values as [|v values]; [contradiction|].
      rewrite l1_expected_flat, in_flat_map. exists t. split; [exact Ht|].
      unfold l1_expected. rewrite Hcdc. destruct (existsb _ _); now left. }
  unfold l1_node.
  destruct (defined_elements node) as [|kv l] eqn:E.
  - destruct (node_type node); simpl; split;
      try (intros [[H|H] _]; discriminate H); try contradiction;
      try (intros [<-|[]]; split; [auto | left; auto]);
      (intros [_ [[_ ->]|(key & values & t & [] & _)]]; now left).
  - rewrite <- E in *. 
    destruct (node_type node); rewrite ?E; rewrite <- ?E; try rewrite Hel; split;
      try (intros [[H|H] _]; discriminate H); try contradiction;
      try (intros H; split; [auto | right; exact H]);
      (intros [_ [[H _]|H]]; [rewrite E in H; discriminate H | exact H]).
Qed.

(** X14 (_level1_structural): every item of the Level-1 pass is accounted
    for by a node of the store of kind IP-XACT component or design.  A
    WARNING stands for a node with an empty inventory.  Any other item is
    a PASS or a FAIL for an element category that the node declares with
    at least one element and for a kind expected of that category: a PASS
    only if some outgoing edge of the node leads to a node of that kind,
    a FAIL only if none does.  Nodes of other kinds get no item. *)
Theorem level1_items_justified (g : GraphManager) (item : ValidationItem) :
  In item (_level1_structural g []) ->
  category item = "structural"
  /\ item_target item = ""
  /\ exists node,
       In (item_node item, node) (_nodes g)
       /\ (node_type node = IPXACT_COMPONENT \/ node_type node = IPXACT_DESIGN)
       /\ ((severity item = WARNING /\ defined_elements node = []
            /\ mapping_category item = "")
           \/ exists values t,
                In (mapping_category item, values) (defined_elements node)
                /\ values <> []
                /\ In t (dict_get_or (mapping_category item) []
                                     IPXACT_ELEMENT_EXPECTED_OUTPUTS)
                /\ ((severity item = PASS /\ has_edge_to_kind g (item_node item) t)
                    \/ (severity item = FAIL
                        /\ ~ has_edge_to_kind g (item_node item) t))).
Proof.
  rewrite level1_flat. cbn [app]. rewrite in_flat_map.
  intros ([nid node] & Hin & Hitem). apply l1_node_In in Hitem.
  destruct Hitem as [Hty [[Hempty ->]|(key & values & t & Hkv & Hne & Ht & _ & ->)]].
  - split; [reflexivity|]. split; [reflexivity|]. exists node.
    split; [exact Hin|]. split; [exact Hty|]. left. auto.
  - destruct (existsb _ _) eqn:Ex.
    + split; [reflexivity|]. split; [reflexivity|]. exists node.
      split; [exact Hin|]. split; [exact Hty|]. right. exists values, t.
      split; [exact Hkv|]. split; [exact Hne|]. split; [exact Ht|]. left.
      split; [reflexivity|]. now apply target_types_has_edge.
    + split; [reflexivity|]. split; [reflexivity|]. exists node.
      split; [exact Hin|]. split; [exact Hty|]. right. exists values, t.
      split; [exact Hkv|]. split; [exact Hne|]. split; [exact Ht|]. right.
      split; [reflexivity|]. intros H. apply target_types_has_edge in H.
      cbn [item_node l1_fail] in H. congruence.
Qed.

Lemma level1_items_justified_witness :
  In missing_cdc (_level1_structural scenario_a [])
  /\ exists node,
       In ("comp", node) (_nodes scenario_a)
       /\ (node_type node = IPXACT_COMPONENT \/ node_type node = IPXACT_DESIGN).
Proof.
  assert (H : In missing_cdc (_level1_structural scenario_a [])).
  { right. left. reflexivity. }
  split; [exact H|].
  destruct (level1_items_justified scenario_a missing_cdc H)
    as (_ & _ & node & Hin & Hty & _).
  exists node. split; [exact Hin | exact Hty].
Defined.

Lemma dict_get_or_In {V : Type} (d : dict (list V)) k :
  dict_get_or k [] d <> [] -> In (k, dict_get_or k [] d) d.
Proof.
  unfold dict_get_or. destruct (dict_get k d) as [v|] eqn:E; [|contradiction].
  intros _. now apply dict_get_In.
Qed.

(** Every Level-3 check looks for edges to a kind that Level 1 expects
    for the same element category. *)
Lemma checks_expected check :
  In check COVERAGE_CHECKS ->
  exists t,
    In t (target_types check)
    /\ In t (dict_get_or (element_key check) [] IPXACT_ELEMENT_EXPECTED_OUTPUTS)
    /\ NodeType_beq t CDC_CONSTRAINT = false.
Proof.
  intros H. cbn in H.
  destruct H as [<-|[<-|[<-|[<-|[<-|[<-|[]]]]]]].
  - exists RTL_WRAPPER. cbn. auto.
  - exists SDC_CONSTRAINT. cbn. auto.
  - exists RESET_SCHEME. cbn. auto.
  - exists BUS_VIP_CONFIG. cbn. auto.
  - exists REGISTER_MAP. cbn. auto.
  - exists UPF_POWER. cbn. auto.
Qed.

Lemma no_relevant_edge g nid types t :
  filter (is_relevant (all_nodes g) types) (get_edges_from g nid) = [] ->
  In t types ->
  existsb (NodeType_beq t) (target_types_of (all_nodes g) (get_edges_from g nid)) = false.
Proof.
  intros Hnone Ht. destruct (existsb _ _) eqn:Ex; [|reflexivity]. exfalso.
  apply existsb_exists in Ex. destruct Ex as (t' & Hin & Heq).
  apply NodeType_beq_true in Heq. subst t'.
  unfold target_types_of in Hin. apply in_flat_map in Hin.
  destruct Hin as (e & He & Hin).
  assert (Hrel : In e (filter (is_relevant (all_nodes g) types) (get_edges_from g nid))).
  { apply filter_In. split; [exact He|]. unfold is_relevant.
    destruct (dict_get (target_id e) (all_nodes g)) as [tn|]; [|destruct Hin].
    destruct Hin as [<-|[]]. apply existsb_exists. exists (node_type tn).
    split; [exact Ht | now apply NodeType_beq_true]. }
  rewrite Hnone in Hrel. destruct Hrel.
Qed.

(** X15 (_level3_element_coverage, _level1_structural): when a Level-3
    check is left out because the node has no outgoing edge to a node of
    the kinds of the check, nothing is appended.  For a node of kind
    IP-XACT component or design the omission is made up for by Level 1,
    which has a FAIL for the same node and element category and for one
    of those kinds.  For a node of any other kind of a store built by the
    mutators it is not: Level 1 has no item for that node. *)
Theorem level3_skip_caught_by_level1
    (g : GraphManager) (nid : string) (node : ArtifactNode) (check : coverage_check) :
  In (nid, node) (_nodes g) ->
  In check COVERAGE_CHECKS ->
  dict_get_or (element_key check) [] (defined_elements node) <> [] ->
  filter (is_relevant (all_nodes g) (target_types check)) (get_edges_from g nid) = [] ->
  (forall report, l3_check g nid node (get_edges_from g nid) report check = Ok report)
  /\ (node_type node = IPXACT_COMPONENT \/ node_type node = IPXACT_DESIGN ->
      exists t,
        In t (target_types check)
        /\ In (l1_fail nid node (element_key check)
                       (dict_get_or (element_key check) [] (defined_elements node)) t)
              (_level1_structural g []))
  /\ (reachable g ->
      node_type node <> IPXACT_COMPONENT -> node_type node <> IPXACT_DESIGN ->
      forall item, In item (_level1_structural g []) -> item_node item <> nid).
Proof.
  intros Hin Hcheck Hdecl Hnone. split; [|split].
  - intros report. unfold l3_check.
    destruct (dict_get_or (element_key check) [] (defined_elements node));
      [reflexivity|].
    now rewrite Hnone.
  - intros Hty. destruct (checks_expected check Hcheck) as (t & Ht & Hexp & Hcdc).
    exists t. split; [exact Ht|].
    rewrite level1_flat. cbn [app]. apply in_flat_map. exists (nid, node).
    split; [exact Hin|]. apply l1_node_In. split; [exact Hty|]. right.
    exists (element_key check),
           (dict_get_or (element_key check) [] (defined_elements node)), t.
    split; [now apply dict_get_or_In|]. split; [exact Hdecl|]. split; [exact Hexp|].
    split; [unfold cdc_not_required; now rewrite Hcdc|].
    now rewrite (no_relevant_edge g nid (target_types check) t Hnone Ht).
  - intros Hreach Hc Hd item Hitem Heq.
    rewrite level1_flat in Hitem. cbn [app] in Hitem. apply in_flat_map in Hitem.
    destruct Hitem as ([nid' node'] & Hin' & Hitem).
    apply l1_node_In in Hitem.
    assert (Hnid : item_node item = nid').
    { destruct Hitem as [_ [[_ ->]|(key & values & t & _ & _ & _ & _ & ->)]];
        [reflexivity|]. now destruct (existsb _ _). }
    assert (node' = node).
    { pose proof (wf_nodes (reachable_wf g Hreach)) as Hwf.
      unfold all_nodes in Hin'.
      apply dict_In_get in Hin; [|exact Hwf]. apply dict_In_get in Hin'; [|exact Hwf].
      congruence. }
    subst node'. destruct Hitem as [[H|H] _]; contradiction.
Qed.

Lemma level3_skip_caught_by_level1_witness :
  exists t,
    In t [SDC_CONSTRAINT]
    /\ In (l1_fail "comp" component_a "clocks" ["i_clk"; "i_clk_aux"] t)
          (_level1_structural lonely []).
Proof.
  refine (proj1 (proj2 (level3_skip_caught_by_level1 lonely "comp" component_a
                          clocks_check _ _ _ _)) _).
  - left. reflexivity.
  - right. left. reflexivity.
  - discriminate.
  - reflexivity.
  - left. reflexivity.
Defined.

(* ---------------------------------------------------------------------- *)
(** ** Level 2                                                              *)
(* ---------------------------------------------------------------------- *)

Lemma nth_error_enumerate {A : Type} (l : list A) :
  forall start i,
    nth_error (combine (seq start (length l)) l) i
    = option_map (fun a => (start + i, a)) (nth_error l i).
Proof.
  induction l as [|a l IH]; intros start i; simpl.
  - now destruct i.
  - destruct i as [|i]; simpl; [now rewrite Nat.add_0_r|].
    rewrite IH. now rewrite Nat.add_succ_r.
Qed.

Lemma l2_entry_appends edge src tgt sc r ie :
  l2_entry edge src tgt sc r ie = r ++ l2_entry edge src tgt sc [] ie.
Proof.
  unfold l2_entry. destruct ie as [idx entry].
  now destruct (filter (field_missing entry) (required_fields sc)).
Qed.

Lemma l2_schema_appends edge src tgt r sc :
  l2_schema edge src tgt r sc = r ++ l2_schema edge src tgt [] sc.
Proof.
  unfold l2_schema.
  destruct (filter (has_category (category_of sc)) (mapping_details edge)) as [|md l].
  - now destruct (conditional sc).
  - rewrite (fold_left_appending _ _ (l2_entry_appends edge src tgt sc)).
    now rewrite (fold_left_appending _ _ (l2_entry_appends edge src tgt sc) []).
Qed.

Lemma flat_map_singletons {A B : Type} (f : A -> list B) (h : A -> B) (l : list A) :
  (forall a, f a = [h a]) ->
  flat_map f l = map h l.
Proof.
  intros H. induction l as [|a l IH]; simpl; [reflexivity|]. now rewrite H, IH.
Qed.

Lemma l2_entry_single edge src tgt sc ie :
  l2_entry edge src tgt sc [] ie
  = [ match filter (field_missing (snd ie)) (required_fields sc) with
      | [] => l2_pass edge src tgt sc (fst ie)
      | missing => l2_fail_entry edge src tgt sc (fst ie) (snd ie) missing
      end ].
Proof.
  unfold l2_entry. destruct ie as [idx entry]. cbn [fst snd].
  now destruct (filter (field_missing entry) (required_fields sc)).
Qed.

(** X16 (_level2_field_completeness, one schema of one edge): the records
    of the edge that carry the category of the schema are judged one by
    one, in their order.  With no such record there is a single item, a
    WARNING if the schema is conditional and a FAIL otherwise.  With [k]
    such records there are [k] items: the [i]-th is a PASS when the
    [i]-th record lacks no required field (absent, [None] or the empty
    string), and otherwise a FAIL whose details give [i], counted among
    the records of that category only, the required fields that are
    lacking, in the order of the schema, and the keys of the record. *)
Theorem level2_one_item_per_record
    (edge : DependencyEdge) (src tgt : ArtifactNode) (sc : schema)
    (report : list ValidationItem) :
  let entries := filter (has_category (category_of sc)) (mapping_details edge) in
  exists items,
    l2_schema edge src tgt report sc = report ++ items
    /\ length items = Nat.max 1 (length entries)
    /\ (forall item, In item items ->
          category item = "field_level"
          /\ item_node item = source_id edge
          /\ item_target item = target_id edge
          /\ mapping_category item = category_of sc)
    /\ (entries = [] ->
          items = [if conditional sc then l2_warning edge src tgt sc
                   else l2_fail_category edge src tgt sc])
    /\ (forall i entry,
          nth_error entries i = Some entry ->
          complete_for sc entry ->
          nth_error items i = Some (l2_pass edge src tgt sc i))
    /\ (forall i entry,
          nth_error entries i = Some entry ->
          ~ complete_for sc entry ->
          exists item,
            nth_error items i = Some item
            /\ severity item = FAIL
            /\ dict_get "entry_index" (details item) = Some (DInt i)
            /\ dict_get "missing_fields" (details item)
               = Some (DStrs (filter (field_missing entry) (required_fields sc)))
            /\ dict_get "present_fields" (details item) = Some (DStrs (dict_keys entry))).
Proof.
  intros entries. rewrite l2_schema_appends. eexists. split; [reflexivity|].
  unfold l2_schema. fold entries.
  assert (Hcat : forall entry, In entry entries ->
            has_category (category_of sc) entry = true).
  { intros entry H. apply filter_In in H. tauto. }
  clearbody entries. destruct entries as [|md l].
  - split; [now destruct (conditional sc)|]. split.
    { intros item Hitem. destruct (conditional sc); destruct Hitem as [<-|[]]; auto. }
    split; [now destruct (conditional sc)|].
    split; intros [|i] entry H; discriminate H.
  - remember (md :: l) as entries eqn:E.
    rewrite (fold_left_appending _ _ (l2_entry_appends edge src tgt sc)). cbn [app].
    rewrite (flat_map_singletons _ _ _ (l2_entry_single edge src tgt sc)).
    unfold enumerate.
    assert (Hnth : forall i entry, nth_error entries i = Some entry ->
      nth_error
        (map (fun ie =>
                match filter (field_missing (snd ie)) (required_fields sc) with
                | [] => l2_pass edge src tgt sc (fst ie)
                | missing => l2_fail_entry edge src tgt sc (fst ie) (snd ie) missing
                end)
             (combine (seq 0 (length entries)) entries)) i
      = Some (match filter (field_missing entry) (required_fields sc) with
              | [] => l2_pass edge src tgt sc i
              | missing => l2_fail_entry edge src tgt sc i entry missing
              end)).
    { intros i entry H. rewrite nth_error_map, nth_error_enumerate, H. reflexivity. }
    split; [|split; [|split; [|split]]].
    + rewrite length_map, length_combine, length_seq, Nat.min_id.
      subst entries. simpl. lia.
    + intros item Hitem. apply in_map_iff in Hitem.
      destruct Hitem as ([idx entry] & <- & _). cbn [fst snd].
      now destruct (filter (field_missing entry) (required_fields sc)).
    + intros H. subst entries. discriminate H.
    + intros i entry Hi [_ Hall]. rewrite (Hnth i entry Hi).
      now rewrite (filter_false _ _ Hall).
    + intros i entry Hi Hnot. eexists. split; [apply (Hnth i entry Hi)|].
      destruct (filter (field_missing entry) (required_fields sc)) as [|f fs] eqn:Ef.
      * exfalso. apply Hnot. split; [apply Hcat; eapply nth_error_In; eauto|].
        intros f Hf. destruct (field_missing entry f) eqn:Em; [|reflexivity].
        assert (Hin : In f (filter (field_missing entry) (required_fields sc)))
          by (apply filter_In; auto).
        rewrite Ef in Hin. destruct Hin.
      * repeat split.
Qed.

Lemma level2_one_item_per_record_witness :
  exists item,
    nth_error (l2_schema edge_c component_b (sample_node "wrapper" RTL_WRAPPER [])
                         [] port_naming_schema) 1
    = Some item
    /\ severity item = FAIL
    /\ dict_get "entry_index" (details item) = Some (DInt 1)
    /\ dict_get "missing_fields" (details item) = Some (DStrs ["rtl_port"]).
Proof.
  destruct (level2_one_item_per_record edge_c component_b
              (sample_node "wrapper" RTL_WRAPPER []) port_naming_schema [])
    as (items & Heq & _ & _ & _ & _ & Hfail).
  destruct (Hfail 1 unnamed_port_record eq_refl) as (item & H1 & H2 & H3 & H4 & _).
  { intros [_ H]. specialize (H "rtl_port" (or_intror (or_introl eq_refl))).
    discriminate H. }
  exists item. rewrite Heq. split; [exact H1|]. split; [exact H2|].
  split; [exact H3 | exact H4].
Defined.

Lemma extend_nil r : extend [] r = r.
Proof. now destruct r. Qed.

Lemma extend_extend r items x :
  extend r (extend items x) = extend (r ++ items) x.
Proof. destruct x; simpl; [now rewrite app_assoc | reflexivity]. Qed.

(** A loop whose body only appends, or raises. *)
Lemma for_each_appending {A : Type}
    (f : list ValidationItem -> A -> result (list ValidationItem)) (l : list A) :
  (forall r a, f r a = extend r (f [] a)) ->
  forall r, for_each f l r = extend r (for_each f l []).
Proof.
  intros Hf. induction l as [|a l IH]; intros r; simpl.
  - now rewrite app_nil_r.
  - rewrite Hf. destruct (f [] a) as [items|e]; simpl; [|reflexivity].
    rewrite IH, (IH items). now rewrite extend_extend.
Qed.

Lemma present_categories_cases (mapping : list (dict pyval)) :
  if existsb unhashable_category mapping
  then exists md,
         In md mapping
         /\ unhashable_category md = true
         /\ present_categories mapping
            = Raise (unhashable (dict_get_or "category" (VStr "") md))
  else exists present, present_categories mapping = Ok present.
Proof.
  unfold present_categories. generalize (@nil pyval) as acc.
  induction mapping as [|md mapping IH]; intros acc; simpl; [eauto|].
  unfold unhashable_category at 1. cbv zeta.
  assert (Hrest :
    forall acc',
      if existsb unhashable_category mapping
      then exists md0,
             (md = md0 \/ In md0 mapping)
             /\ unhashable_category md0 = true
             /\ for_each
                  (fun present md1 =>
                     if truthy (dict_get_or "category" (VStr "") md1)
                     then if hashable (dict_get_or "category" (VStr "") md1)
                          then Ok (set_add (dict_get_or "category" (VStr "") md1) present)
                          else Raise (unhashable (dict_get_or "category" (VStr "") md1))
                     else Ok present)
                  mapping acc'
                = Raise (unhashable (dict_get_or "category" (VStr "") md0))
      else exists present,
             for_each
               (fun present md1 =>
                  if truthy (dict_get_or "category" (VStr "") md1)
                  then if hashable (dict_get_or "category" (VStr "") md1)
                       then Ok (set_add (dict_get_or "category" (VStr "") md1) present)
                       else Raise (unhashable (dict_get_or "category" (VStr "") md1))
                  else Ok present)
               mapping acc' = Ok present).
  { intros acc'. specialize (IH acc').
    destruct (existsb unhashable_category mapping); [|exact IH].
    destruct IH as (md0 & Hin & Hbad & Heq). exists md0. auto. }
  destruct (truthy (dict_get_or "category" (VStr "") md)) eqn:Ht; simpl;
    [|apply Hrest].
  destruct (hashable (dict_get_or "category" (VStr "") md)) eqn:Hh; simpl;
    [apply Hrest|].
  exists md. split; [now left|]. split; [|reflexivity].
  unfold unhashable_category. cbv zeta. now rewrite Ht, Hh.
Qed.

Lemma l2_edge_cases g report kv :
  l2_edge g report kv = extend report (l2_edge g [] kv)
  /\ if has_schema g (snd kv) && existsb unhashable_category (mapping_details (snd kv))
     then exists md,
            In md (mapping_details (snd kv))
            /\ unhashable_category md = true
            /\ l2_edge g [] kv
               = Raise (unhashable (dict_get_or "category" (VStr "") md))
     else exists items, l2_edge g [] kv = Ok items.
Proof.
  unfold l2_edge, has_schema. destruct kv as [k edge]. cbn [snd].
  destruct (dict_get (source_id edge) (all_nodes g)) as [src|];
    [|cbn [andb extend]; split; [now rewrite app_nil_r | eauto]].
  destruct (dict_get (target_id edge) (all_nodes g)) as [tgt|];
    [|cbn [andb extend]; split; [now rewrite app_nil_r | eauto]].
  destruct (EXPECTED_MAPPING_FIELDS (node_type src) (node_type tgt)) as [[|sc schemas]|];
    [cbn [andb extend]; split; [reflexivity | eauto] |
     | cbn [andb extend]; split; [reflexivity | eauto]].
  cbn [andb].
  pose proof (present_categories_cases (mapping_details edge)) as H.
  destruct (existsb unhashable_category (mapping_details edge)).
  - destruct H as (md & Hin & Hbad & ->). cbn [bind extend].
    split; [reflexivity|]. exists md. auto.
  - destruct H as [present ->]. cbn [bind extend]. split; [|eauto].
    rewrite (fold_left_appending _ _ (l2_schema_appends edge src tgt)).
    now rewrite (fold_left_appending _ _ (l2_schema_appends edge src tgt) []).
Qed.

Lemma l2_edge_appends g r kv : l2_edge g r kv = extend r (l2_edge g [] kv).
Proof. apply l2_edge_cases. Qed.

Lemma level2_appends g r :
  _level2_field_completeness g r = extend r (_level2_field_completeness g []).
Proof. apply for_each_appending. apply l2_edge_appends. Qed.

Lemma level2_cases g :
  if existsb (fun kv => has_schema g (snd kv)
                        && existsb unhashable_category (mapping_details (snd kv)))
             (all_edges g)
  then exists kv md,
         In kv (all_edges g)
         /\ has_schema g (snd kv) = true
         /\ In md (mapping_details (snd kv))
         /\ unhashable_category md = true
         /\ _level2_field_completeness g []
            = Raise (unhashable (dict_get_or "category" (VStr "") md))
  else exists items, _level2_field_completeness g [] = Ok items.
Proof.
  unfold _level2_field_completeness. generalize (@nil ValidationItem) as r.
  induction (all_edges g) as [|kv l IH]; intros r; cbn [existsb for_each]; [eauto|].
  destruct (l2_edge_cases g r kv) as [H1 H2]. rewrite H1.
  destruct (has_schema g (snd kv)) eqn:Hs; cbn [andb] in H2 |- *.
  - destruct (existsb unhashable_category (mapping_details (snd kv))); cbn [orb].
    + destruct H2 as (md & Hin & Hbad & ->). cbn [extend bind].
      exists kv, md. split; [now left|]. auto.
    + destruct H2 as [items ->]. cbn [extend bind]. specialize (IH (r ++ items)).
      destruct (existsb _ l); [|exact IH].
      destruct IH as (kv' & md & Hin & IH). exists kv', md. split; [now right | exact IH].
  - cbn [orb]. destruct H2 as [items ->]. cbn [extend bind]. specialize (IH (r ++ items)).
    destruct (existsb _ l); [|exact IH].
    destruct IH as (kv' & md & Hin & IH). exists kv', md. split; [now right | exact IH].
Qed.

(** X17 (_level2_field_completeness, validate): the Level-2 pass raises
    [TypeError] exactly on the stores where some edge that is checked
    against a schema has a mapping record whose [category] is a non-empty
    list or dictionary: the category is put in a set before any record is
    judged.  The message names the type of the category of one such
    record, and the validator raises the same exception and returns no
    report, whatever the other edges hold.  On every other store the
    Level-2 pass returns (Level 3 can raise there all the same). *)
Theorem level2_unhashable_category (g : GraphManager) :
  let malformed :=
    exists k edge md,
      In (k, edge) (_edges g)
      /\ has_schema g edge = true
      /\ In md (mapping_details edge)
      /\ unhashable_category md = true in
  (malformed ->
     exists k edge md,
       In (k, edge) (_edges g)
       /\ has_schema g edge = true
       /\ In md (mapping_details edge)
       /\ unhashable_category md = true
       /\ (forall report,
             _level2_field_completeness g report
             = Raise (unhashable (dict_get_or "category" (VStr "") md)))
       /\ forall now,
            validate g now = Raise (unhashable (dict_get_or "category" (VStr "") md)))
  /\ (~ malformed ->
      forall report, exists items,
        _level2_field_completeness g report = Ok (report ++ items)).
Proof.
  cbv zeta. pose proof (level2_cases g) as H.
  destruct (existsb _ (all_edges g)) eqn:Ex.
  - destruct H as ([k edge] & md & Hin & Hs & Hmd & Hbad & H). cbn [snd] in *. split.
    + intros _. exists k, edge, md.
      split; [exact Hin|]. split; [exact Hs|]. split; [exact Hmd|].
      split; [exact Hbad|]. split.
      * intros report. now rewrite level2_appends, H.
      * intros now. unfold validate. now rewrite level2_appends, H.
    + intros Hnot. exfalso. apply Hnot. exists k, edge, md. auto.
  - split.
    + intros (k & edge & md & Hin & Hs & Hmd & Hbad). exfalso.
      assert (Hex : existsb (fun kv => has_schema g (snd kv)
                        && existsb unhashable_category (mapping_details (snd kv)))
                      (all_edges g) = true).
      { apply existsb_exists. exists (k, edge). split; [exact Hin|]. cbn [snd].
        rewrite Hs. cbn [andb]. apply existsb_exists. eauto. }
      congruence.
    + intros _ report. destruct H as [items H]. exists items.
      now rewrite level2_appends, H.
Qed.

Lemma level2_unhashable_category_witness :
  exists md,
    unhashable_category md = true
    /\ validate malformed_store 0
       = Raise (unhashable (dict_get_or "category" (VStr "") md)).
Proof.
  destruct (proj1 (level2_unhashable_category malformed_store))
    as (k & edge & md & _ & _ & _ & Hbad & _ & Hval).
  - exists (edge_id (sample_edge "comp" GENERATES "sdc" [])),
           (sample_edge "comp" GENERATES "sdc"
              [ clock_domain_record "i_clk" "clk_main";
                [("category", VList [VStr "clock_domain"])] ]),
           [("category", VList [VStr "clock_domain"])].
    split; [left; reflexivity|]. split; [reflexivity|].
    split; [right; left; reflexivity | reflexivity].
  - exists md. split; [exact Hbad | exact (Hval 0%Z)].
Defined.

(* ---------------------------------------------------------------------- *)
(** ** Level 3 and the whole run                                            *)
(* ---------------------------------------------------------------------- *)

Lemma l3_check_appends g nid node outgoing r check :
  l3_check g nid node outgoing r check
  = extend r (l3_check g nid node outgoing [] check).
Proof.
  unfold l3_check.
  destruct (dict_get_or (element_key check) [] (defined_elements node)) as [|x xs];
    [cbn [extend]; now rewrite app_nil_r|].
  destruct (filter (is_relevant (all_nodes g) (target_types check)) outgoing) as [|e es];
    [cbn [extend]; now rewrite app_nil_r|].
  destruct (collect_mapped _ _ _) as [mapped|ex]; [|reflexivity]. cbn [bind]. cbv zeta.
  destruct (filter (fun s => negb (is_mapped mapped s)) (set_of (x :: xs)));
    (destruct (filter (fun v => negb (is_defined (set_of (x :: xs)) v)) mapped);
     [reflexivity|];
     destruct (sorted_values _) as [sorted_extra|ex]; [|reflexivity];
     cbn [bind extend app]; now rewrite <- app_assoc).
Qed.

Lemma l3_node_appends g r kv : l3_node g r kv = extend r (l3_node g [] kv).
Proof.
  unfold l3_node. destruct kv as [nid node].
  destruct (defined_elements node); [cbn [extend]; now rewrite app_nil_r|].
  apply for_each_appending. apply l3_check_appends.
Qed.

Lemma level3_appends g r :
  _level3_element_coverage g r = extend r (_level3_element_coverage g []).
Proof. apply for_each_appending. apply l3_node_appends. Qed.

(** X18 (validate): the three levels do not see each other's items.  A
    run returns the items of Level 1, then those of Level 2, then those
    of Level 3, each as the level gives them on an empty report; when
    Level 2 raises, or else Level 3, the run raises the same exception
    and no report is returned.  Level 1 never raises. *)
Theorem validate_levels_compose (g : GraphManager) (now : Z) :
  validate g now
  = match _level2_field_completeness g [] with
    | Raise e => Raise e
    | Ok items2 =>
        match _level3_element_coverage g [] with
        | Raise e => Raise e
        | Ok items3 =>
            Ok (mk_report now (_level1_structural g [] ++ items2 ++ items3))
        end
    end.
Proof.
  unfold validate. rewrite level2_appends.
  destruct (_level2_field_completeness g []) as [items2|e]; [|reflexivity].
  cbn [extend bind]. rewrite level3_appends.
  destruct (_level3_element_coverage g []) as [items3|e]; [|reflexivity].
  cbn [extend bind]. now rewrite <- app_assoc.
Qed.

Lemma filter_all {A : Type} (p : A -> bool) (l : list A) :
  (forall a, In a l -> p a = true) -> filter p l = l.
Proof.
  intros H. induction l as [|a l IH]; simpl; [reflexivity|].
  rewrite (H a) by now left. f_equal. apply IH. intros b Hb. apply H. now right.
Qed.

(** X19 (_level3_element_coverage, one check of one node): when the
    check reaches the comparison and every declared element is in the
    covered-set, it appends one PASS, whose message counts the distinct
    declared elements and whose details list them, sorted, as defined and
    as covered; a WARNING follows when the covered-set has members that
    are not declared.  Nothing is appended, and nothing raised, when the
    node declares no element of the category. *)
Theorem level3_full_coverage_passes
    (g : GraphManager) (nid : string) (node : ArtifactNode)
    (outgoing : list DependencyEdge) (report : list ValidationItem)
    (check : coverage_check) :
  let elements := dict_get_or (element_key check) [] (defined_elements node) in
  let relevant_edges := filter (is_relevant (all_nodes g) (target_types check)) outgoing in
  let defined_set := set_of elements in
  (elements = [] -> l3_check g nid node outgoing report check = Ok report)
  /\ (forall mapped sorted_extra,
        let extra := filter (fun v => negb (is_defined defined_set v)) mapped in
        elements <> [] ->
        relevant_edges <> [] ->
        collect_mapped (check_category check) (element_field_in_mapping check)
                       relevant_edges = Ok mapped ->
        (forall s, In s elements -> In (VStr s) mapped) ->
        sorted_values extra = Ok sorted_extra ->
        l3_check g nid node outgoing report check
        = Ok (report
              ++ l3_pass nid node check defined_set defined_set
                 :: (if is_empty extra then [] else [l3_warning nid check sorted_extra]))
        /\ In (FInt (length defined_set))
              (message (l3_pass nid node check defined_set defined_set))
        /\ dict_get "covered" (details (l3_pass nid node check defined_set defined_set))
           = Some (DStrs (sorted defined_set))
        /\ NoDup (sorted defined_set)
        /\ (forall s, In s (sorted defined_set) <-> In s elements)).
Proof.
  intros elements relevant_edges defined_set. split.
  - intros H. unfold l3_check. fold elements. now rewrite H.
  - intros mapped sorted_extra extra Hne Hrel Hmapped Hall Hsort.
    assert (Hcov : filter (is_mapped mapped) defined_set = defined_set).
    { apply filter_all. intros s Hs. apply is_mapped_In, Hall.
      unfold defined_set, set_of in Hs. now apply nodup_In in Hs. }
    assert (Hmiss : filter (fun s => negb (is_mapped mapped s)) defined_set = []).
    { apply filter_false. intros s Hs. rewrite negb_false_iff.
      apply is_mapped_In, Hall. unfold defined_set, set_of in Hs.
      now apply nodup_In in Hs. }
    split; [|split; [|split; [|split]]].
    + unfold l3_check. fold elements.
      destruct elements as [|x xs] eqn:Eel; [contradiction|].
      fold relevant_edges. destruct relevant_edges as [|e es]; [contradiction|].
      rewrite Hmapped. cbn [bind]. fold defined_set. cbv zeta.
      rewrite Hcov, Hmiss. fold extra.
      destruct extra as [|v vs]; [reflexivity|].
      rewrite Hsort. cbn [bind is_empty]. now rewrite <- app_assoc.
    + cbn. auto.
    + reflexivity.
    + apply sorted_NoDup. apply NoDup_nodup.
    + intros s. rewrite sorted_In. apply nodup_In.
Qed.

Lemma level3_full_coverage_passes_witness :
  l3_check scenario_a "comp" component_a (get_edges_from scenario_a "comp") []
           clocks_check
  = Ok [ l3_pass "comp" component_a clocks_check
                 ["i_clk"; "i_clk_aux"] ["i_clk"; "i_clk_aux"] ].
Proof.
  refine (proj1 (proj2 (level3_full_coverage_passes scenario_a "comp" component_a
                          (get_edges_from scenario_a "comp") [] clocks_check)
                   [VStr "i_clk"; VStr "i_clk_aux"] [] _ _ _ _ _)).
  - discriminate.
  - discriminate.
  - reflexivity.
  - intros s [<-|[<-|[]]]; [left | right; left]; reflexivity.
  - reflexivity.
Defined.

(* ====================================================================== *)
(** * Change detection                                                      *)
(* ====================================================================== *)

Lemma no_file_path_false node :
  no_file_path node = false <-> exists p, file_path node = Some p /\ p <> "".
Proof.
  unfold no_file_path. destruct (file_path node) as [p|].
  - destruct (String.eqb_spec p "") as [->|Hne]; split.
    + discriminate.
    + intros (q & [= <-] & H). contradiction.
    + eauto.
    + reflexivity.
  - split; [discriminate | intros (p & H & _); discriminate H].
Qed.

(** One iteration of the detection loop, when it returns. *)
Lemma detect_node_exact baseline fs changes nid node res :
  detect_node baseline fs changes (nid, node) = Ok res ->
  exists added,
    res = changes ++ added
    /\ length added <= 1
    /\ forall c,
         In c added
         <-> exists p new st,
               file_path node = Some p /\ p <> ""
               /\ compute_hash fs node = Ok new
               /\ status_of (dict_get nid baseline) new = Some st
               /\ c = mk_changed nid (name node) p (dict_get nid baseline) new st.
Proof.
  unfold detect_node. destruct (no_file_path node) eqn:Hnf.
  - intros [= <-]. exists []. split; [now rewrite app_nil_r|]. split; [simpl; lia|].
    intros c. split; [intros []|]. intros (p & new & st & Hp & Hne & _).
    assert (H : no_file_path node = false) by (apply no_file_path_false; eauto).
    congruence.
  - apply no_file_path_false in Hnf. destruct Hnf as (p & Hp & Hne). rewrite Hp.
    destruct (compute_hash fs node) as [new|e]; [|discriminate]. cbn [bind].
    destruct (dict_get nid baseline) as [h|], new as [d|]; cbn [option_string_eqb].
    + destruct (String.eqb_spec h d) as [->|Hd]; intros [= <-].
      * exists []. split; [now rewrite app_nil_r|]. split; [simpl; lia|].
        intros c. split; [intros []|].
        intros (q & new & st & _ & _ & [= <-] & Hst & _). simpl in Hst.
        rewrite String.eqb_refl in Hst. discriminate Hst.
      * eexists. split; [reflexivity|]. split; [simpl; lia|].
        intros c. split.
        -- intros [<-|[]]. exists p, (Some d), "modified". repeat split; auto.
           simpl. apply String.eqb_neq in Hd. now rewrite Hd.
        -- intros (q & new & st & [= <-] & _ & [= <-] & Hst & ->). simpl in Hst.
           apply String.eqb_neq in Hd. rewrite Hd in Hst. injection Hst as <-. now left.
    + intros [= <-]. eexists. split; [reflexivity|]. split; [simpl; lia|].
      intros c. split.
      * intros [<-|[]]. exists p, None, "missing". repeat split; auto.
      * intros (q & new & st & [= <-] & _ & [= <-] & [= <-] & ->). now left.
    + intros [= <-]. eexists. split; [reflexivity|]. split; [simpl; lia|].
      intros c. split.
      * intros [<-|[]]. exists p, (Some d), "added". repeat split; auto.
      * intros (q & new & st & [= <-] & _ & [= <-] & [= <-] & ->). now left.
    + intros [= <-]. exists []. split; [now rewrite app_nil_r|]. split; [simpl; lia|].
      intros c. split; [intros []|].
      intros (q & new & st & _ & _ & [= <-] & Hst & _). discriminate Hst.
Qed.

Lemma detect_loop_exact baseline fs (nodes : dict ArtifactNode) :
  forall changes res,
    for_each (detect_node baseline fs) nodes changes = Ok res ->
    exists found,
      res = changes ++ found
      /\ (forall c,
            In c found
            <-> exists nid node p new st,
                  In (nid, node) nodes
                  /\ file_path node = Some p /\ p <> ""
                  /\ compute_hash fs node = Ok new
                  /\ status_of (dict_get nid baseline) new = Some st
                  /\ c = mk_changed nid (name node) p (dict_get nid baseline) new st)
      /\ (forall nid, In nid (map cf_node_id found) -> In nid (dict_keys nodes))
      /\ (dict_wf nodes -> NoDup (map cf_node_id found)).
Proof.
  induction nodes as [|[k n] nodes IH]; intros changes res; cbn [for_each].
  - intros [= <-]. exists []. split; [now rewrite app_nil_r|]. split.
    + intros c. split; [intros []|]. intros (nid & node & p & new & st & [] & _).
    + split; [intros nid [] | intros _; constructor].
  - destruct (detect_node baseline fs changes (k, n)) as [res1|e] eqn:E; [|discriminate].
    cbn [bind]. intros Hrest.
    destruct (detect_node_exact _ _ _ _ _ _ E) as (added & -> & Hlen & Hadded).
    destruct (IH _ _ Hrest) as (found & -> & Hfound & Hkeys & Hnd).
    exists (added ++ found). split; [now rewrite app_assoc|].
    assert (Hid : forall c, In c added -> cf_node_id c = k).
    { intros c Hc. apply Hadded in Hc. destruct Hc as (p & new & st & _ & _ & _ & _ & ->).
      reflexivity. }
    split; [|split].
    + intros c. rewrite in_app_iff, Hadded, Hfound. split.
      * intros [(p & new & st & H)|(nid & node & p & new & st & Hin & H)].
        -- exists k, n, p, new, st. split; [now left | exact H].
        -- exists nid, node, p, new, st. split; [now right | exact H].
      * intros (nid & node & p & new & st & Hin & Hrec).
        destruct Hin as [Hin|Hin].
        -- injection Hin as <- <-. left. exists p, new, st. exact Hrec.
        -- right. exists nid, node, p, new, st. auto.
    + intros nid. rewrite map_app, in_app_iff. intros [H|H].
      * apply in_map_iff in H. destruct H as (c & <- & Hc). left. symmetry. now apply Hid.
      * right. now apply Hkeys.
    + intros Hwf. unfold dict_wf in Hwf. cbn [dict_keys map fst] in Hwf.
      inversion Hwf as [|? ? Hk Hwf']; subst. rewrite map_app.
      destruct added as [|c [|c' added]]; cbn [map app].
      * now apply Hnd.
      * constructor; [|now apply Hnd]. rewrite (Hid c (or_introl eq_refl)).
        intros H. apply Hk. now apply Hkeys.
      * simpl in Hlen. lia.
Qed.

(** X20 (detect_changes): when the comparison returns, it has recorded
    exactly the nodes of the store that have a file path and whose hash
    now differs from their entry in the baseline, under the status
    ["added"] (no entry), ["missing"] (no file now) or ["modified"]; the
    status ["deleted"] is never used.  Entries of the baseline whose id
    is no longer a node of the store are not looked at.  In a store built
    by the mutators no node is recorded twice. *)
Theorem detect_changes_exact
    (g : GraphManager) (baseline : dict string) (fs : hashfs)
    (changes : list ChangedFile) :
  detect_changes g baseline fs = Ok changes ->
  (forall c,
     In c changes
     <-> exists nid node p new st,
           In (nid, node) (_nodes g)
           /\ file_path node = Some p /\ p <> ""
           /\ compute_hash fs node = Ok new
           /\ status_of (dict_get nid baseline) new = Some st
           /\ c = mk_changed nid (name node) p (dict_get nid baseline) new st)
  /\ (forall c, In c changes ->
        dict_mem (cf_node_id c) (_nodes g) = true
        /\ old_hash c <> new_hash c
        /\ (status c = "added" \/ status c = "missing" \/ status c = "modified"))
  /\ (reachable g -> NoDup (map cf_node_id changes)).
Proof.
  unfold detect_changes, all_nodes. intros H.
  destruct (detect_loop_exact _ _ _ _ _ H) as (found & -> & Hfound & Hkeys & Hnd).
  cbn [app]. split; [exact Hfound|]. split.
  - intros c Hc. split; [|split].
    + apply dict_mem_In, Hkeys. now apply in_map.
    + apply Hfound in Hc.
      destruct Hc as (nid & node & p & new & st & _ & _ & _ & _ & Hst & ->).
      cbn [old_hash new_hash]. intros Heq. rewrite Heq in Hst.
      destruct new as [d|]; simpl in Hst; [|discriminate].
      rewrite String.eqb_refl in Hst. discriminate.
    + apply Hfound in Hc.
      destruct Hc as (nid & node & p & new & st & _ & _ & _ & _ & Hst & ->).
      cbn [status]. unfold status_of in Hst.
      destruct (dict_get nid baseline) as [a|], new as [b|]; try discriminate;
        try (injection Hst as <-; auto).
      destruct (a =? b); [discriminate | injection Hst as <-; auto].
  - intros Hr. apply Hnd. apply (wf_nodes (reachable_wf g Hr)).
Qed.

Lemma detect_changes_exact_witness :
  exists changes,
    detect_changes scanned scanned_baseline disk_absent = Ok changes
    /\ NoDup (map cf_node_id changes)
    /\ In (mk_changed "script" "script" "scripts/synth.tcl" (Some "77c0") (Some "9d41")
                      "modified") changes.
Proof.
  eexists. split; [reflexivity|].
  destruct (detect_changes_exact scanned scanned_baseline disk_absent _ eq_refl)
    as (_ & _ & Hnd).
  split; [exact (Hnd scanned_reachable)|]. right. left. reflexivity.
Defined.

Lemma compute_hash_readable fs node d :
  compute_hash fs node = Ok (Some d) -> exists p, fs p = Readable d.
Proof.
  destruct (compute_hash_cases fs node) as [[_ H]|(p & _ & _ & _ & H)].
  - rewrite H. discriminate.
  - destruct (fs p) eqn:E; rewrite H; try discriminate.
    intros [= <-]. eauto.
Qed.

Lemma build_loop fs (nodes : dict ArtifactNode) :
  dict_wf nodes ->
  forall acc baseline,
    for_each (fun baseline kv =>
                let '(nid, node) := kv in
                if no_file_path node then Ok baseline
                else
                  h <- compute_hash fs node ;;
                  match h with
                  | Some d => if d =? "" then Ok baseline else Ok (dict_set nid d baseline)
                  | None => Ok baseline
                  end)
             nodes acc = Ok baseline ->
    (forall nid node, In (nid, node) nodes -> exists h, compute_hash fs node = Ok h)
    /\ forall k,
         dict_get k baseline
         = match dict_get k nodes with
           | Some node =>
               match stored_hash fs node with
               | Some d => Some d
               | None => dict_get k acc
               end
           | None => dict_get k acc
           end.
Proof.
  induction nodes as [|[k0 n0] nodes IH]; intros Hwf acc baseline; cbn [for_each].
  - intros [= <-]. split; [intros ? ? [] | reflexivity].
  - unfold dict_wf in Hwf. cbn [dict_keys map fst] in Hwf.
    inversion Hwf as [|? ? Hk Hwf']; subst.
    assert (Hstep : forall acc1,
      (if no_file_path n0 then Ok acc
       else h <- compute_hash fs n0 ;;
            match h with
            | Some d => if d =? "" then Ok acc else Ok (dict_set k0 d acc)
            | None => Ok acc
            end) = Ok acc1 ->
      (exists h, compute_hash fs n0 = Ok h)
      /\ acc1 = match stored_hash fs n0 with
                | Some d => dict_set k0 d acc
                | None => acc
                end).
    { intros acc1. unfold stored_hash.
      destruct (compute_hash_cases fs n0) as [[Hnf Hh]|(p & _ & _ & Hnf & Hh)].
      - rewrite Hnf, Hh. intros [= <-]. eauto.
      - rewrite Hnf. destruct (compute_hash fs n0) as [[d|]|e]; cbn [bind];
          [| intros [= <-]; eauto | discriminate].
        destruct (d =? ""); intros [= <-]; eauto. }
    match goal with
    | |- bind ?b _ = _ -> _ => destruct b as [acc1|e] eqn:E; [|discriminate]
    end.
    cbn [bind]. intros Hrest. destruct (Hstep acc1 eq_refl) as [Hh ->].
    destruct (IH Hwf' _ _ Hrest) as [Hall Hget]. split.
    + intros nid node [[= <- <-]|Hin]; [exact Hh | eauto].
    + intros k. rewrite Hget. cbn [dict_get].
      destruct (String.eqb_spec k k0) as [->|Hne].
      * assert (Hnone : dict_get k0 nodes = None).
        { destruct (dict_get k0 nodes) eqn:Eg; [|reflexivity]. exfalso. apply Hk.
          apply dict_get_In in Eg. change k0 with (fst (k0, a)). now apply in_map. }
        rewrite Hnone. destruct (stored_hash fs n0); [|reflexivity].
        now rewrite dict_get_set, String.eqb_refl.
      * destruct (stored_hash fs n0) as [d|]; [|reflexivity].
        rewrite dict_get_set. apply String.eqb_neq in Hne. now rewrite Hne.
Qed.

Lemma detect_node_same baseline fs changes nid node new :
  compute_hash fs node = Ok new ->
  dict_get nid baseline = new ->
  detect_node baseline fs changes (nid, node) = Ok changes.
Proof.
  intros Hh Hb. unfold detect_node. destruct (no_file_path node); [reflexivity|].
  rewrite Hh, Hb. cbn [bind]. destruct new as [d|]; cbn [option_string_eqb];
    [now rewrite String.eqb_refl | reflexivity].
Qed.

(** X21 (build_baseline, detect_changes, full_scan): a baseline that has
    just been built holds, for each node of the store, the digest of its
    file if there is one, and nothing else.  Against it, and with the
    files as they were, the comparison finds no change and the full scan
    returns an empty report: no changed file, no impact chain, no
    affected node.  Digests are taken to be non-empty, as SHA-256
    digests are. *)
Theorem fresh_baseline_reports_nothing
    (g : GraphManager) (fs : hashfs) (baseline : dict string) :
  reachable g ->
  (forall p h, fs p = Readable h -> h <> "") ->
  build_baseline g fs = Ok baseline ->
  (forall nid node, In (nid, node) (_nodes g) ->
     compute_hash fs node = Ok (dict_get nid baseline))
  /\ (forall nid, dict_mem nid baseline = true -> dict_mem nid (_nodes g) = true)
  /\ detect_changes g baseline fs = Ok []
  /\ forall include_upstream now,
       full_scan g baseline fs include_upstream now
       = Some (Ok (mk_change_report now [] [] [])).
Proof.
  intros Hr Hdigest Hbuild. pose proof (wf_nodes (reachable_wf g Hr)) as Hwf.
  unfold build_baseline, all_nodes in Hbuild.
  destruct (build_loop fs (_nodes g) Hwf _ _ Hbuild) as [Hall Hget].
  assert (Hstored : forall node new, compute_hash fs node = Ok new ->
            stored_hash fs node = new).
  { intros node new Hh. unfold stored_hash. rewrite Hh. destruct new as [d|]; [|reflexivity].
    destruct (compute_hash_readable fs node d Hh) as [p Hp].
    apply Hdigest in Hp. apply String.eqb_neq in Hp. now rewrite Hp. }
  assert (Hsame : forall nid node, In (nid, node) (_nodes g) ->
            compute_hash fs node = Ok (dict_get nid baseline)).
  { intros nid node Hin. destruct (Hall nid node Hin) as [new Hnew].
    rewrite Hget, (dict_In_get _ _ _ _ Hwf Hin), (Hstored node new Hnew), Hnew.
    now destruct new. }
  assert (Hdetect : detect_changes g baseline fs = Ok []).
  { unfold detect_changes, all_nodes. generalize (@nil ChangedFile) as changes.
    revert Hsame. generalize (_nodes g) as nodes.
    induction nodes as [|[k n] nodes IH]; intros Hsame changes; cbn [for_each];
      [reflexivity|].
    rewrite (detect_node_same baseline fs changes k n (dict_get k baseline));
      [| apply Hsame; now left | reflexivity].
    cbn [bind]. apply IH. intros nid node Hin. apply Hsame. now right. }
  split; [exact Hsame|]. split; [|split; [exact Hdetect|]].
  - intros nid Hmem. unfold dict_mem in *. rewrite Hget in Hmem.
    destruct (dict_get nid (_nodes g)); [reflexivity | discriminate].
  - intros up now. unfold full_scan. rewrite Hdetect. reflexivity.
Qed.

Lemma fresh_baseline_reports_nothing_witness :
  build_baseline scanned disk_absent = Ok [("script", "9d41"); ("doc", "e2b9")]
  /\ full_scan scanned [("script", "9d41"); ("doc", "e2b9")] disk_absent true 7
     = Some (Ok (mk_change_report 7 [] [] [])).
Proof.
  split; [reflexivity|].
  refine (proj2 (proj2 (proj2 (fresh_baseline_reports_nothing scanned disk_absent
                                 [("script", "9d41"); ("doc", "e2b9")]
                                 scanned_reachable _ eq_refl))) true 7%Z).
  intros p h. unfold disk_absent.
  destruct (p =? "scripts/synth.tcl"); [intros [= <-]; discriminate|].
  destruct (p =? "doc/readme.md"); [intros [= <-]; discriminate | discriminate].
Defined.

(* ====================================================================== *)
(** * Impact propagation                                                    *)
(* ====================================================================== *)

Lemma existsb_eqb_In x (l : list string) :
  existsb (String.eqb x) l = true <-> In x l.
Proof.
  rewrite existsb_exists. split.
  - intros (y & Hy & E). apply String.eqb_eq in E. now subst.
  - intros H. exists x. split; [exact H | apply String.eqb_refl].
Qed.

Lemma existsb_eqb_not_In x (l : list string) :
  existsb (String.eqb x) l = false <-> ~ In x l.
Proof.
  rewrite <- existsb_eqb_In. destruct (existsb (String.eqb x) l); split; congruence.
Qed.

Lemma walk_cons adj a b rest :
  walk adj (a :: b :: rest) = arc adj a b && walk adj (b :: rest).
Proof. reflexivity. Qed.

Lemma walk_snoc adj l a b :
  walk adj (l ++ [a]) = true -> arc adj a b = true ->
  walk adj ((l ++ [a]) ++ [b]) = true.
Proof.
  intros Hw Harc. induction l as [|x l IH].
  - cbn [app]. rewrite walk_cons, Harc. reflexivity.
  - destruct l as [|y l]; cbn [app] in *; rewrite walk_cons in Hw |- *;
      apply andb_true_iff in Hw; destruct Hw as [H1 H2]; rewrite H1; cbn [andb].
    + rewrite walk_cons, Harc. reflexivity.
    + now apply IH.
Qed.

Lemma types_along_cons G dir a b rest :
  types_along G dir (a :: b :: rest)
  = hop_edge_type G dir a b :: types_along G dir (b :: rest).
Proof. reflexivity. Qed.

Lemma types_along_snoc G dir l a b :
  types_along G dir ((l ++ [a]) ++ [b])
  = types_along G dir (l ++ [a]) ++ [hop_edge_type G dir a b].
Proof.
  induction l as [|x l IH]; [reflexivity|].
  destruct l as [|y l]; cbn [app] in *; [reflexivity|].
  rewrite !types_along_cons, IH. reflexivity.
Qed.

Lemma types_along_length G dir path :
  length (types_along G dir path) = length path - 1.
Proof.
  induction path as [|a path IH]; [reflexivity|].
  destruct path as [|b path]; [reflexivity|].
  rewrite types_along_cons. cbn [length] in *. rewrite IH. lia.
Qed.

Lemma NoDup_snoc {A : Type} (l : list A) a :
  NoDup l -> ~ In a l -> NoDup (l ++ [a]).
Proof.
  intros Hnd Hnot. induction Hnd as [|x l Hx Hnd IH]; cbn [app].
  - constructor; [intros [] | constructor].
  - constructor.
    + rewrite in_app_iff. intros [H|[H|[]]]; [contradiction|]. apply Hnot. now left.
    + apply IH. intros H. apply Hnot. now right.
Qed.

Lemma reaches_cons adj u x v :
  arc adj u x = true -> reaches adj x v -> reaches adj u v.
Proof.
  intros Harc H. induction H as [v Hv|v w _ IH Hw].
  - eapply reaches_step; [apply reaches_arc; exact Harc | exact Hv].
  - eapply reaches_step; [exact IH | exact Hw].
Qed.

Lemma walk_reaches adj mid :
  forall u v, walk adj ((u :: mid) ++ [v]) = true -> reaches adj u v.
Proof.
  induction mid as [|x mid IH]; intros u v H; cbn [app] in H; rewrite walk_cons in H;
    apply andb_true_iff in H; destruct H as [Hux H].
  - now apply reaches_arc.
  - apply (reaches_cons adj u x v Hux). now apply IH.
Qed.

(** The loop that extends the queue, when it returns. *)
Lemma enqueue_spec G dir visited current path etypes nbrs :
  forall queue queue',
    enqueue G dir visited current path etypes nbrs queue = Ok queue' ->
    exists new,
      queue' = queue ++ new
      /\ (forall entry, In entry new ->
            exists next et,
              In next nbrs /\ ~ In next visited
              /\ hop_edge_type G dir current next = Ok et
              /\ entry = (next, path ++ [next], etypes ++ [et]))
      /\ (forall next, In next nbrs -> ~ In next visited ->
            exists entry, In entry new /\ fst (fst entry) = next).
Proof.
  unfold enqueue. induction nbrs as [|n nbrs IH]; intros queue queue'; cbn [for_each].
  - intros [= <-]. exists []. split; [now rewrite app_nil_r|].
    split; [intros ? [] | intros ? []].
  - destruct (existsb (String.eqb n) visited) eqn:Ev.
    + cbn [bind]. intros H. destruct (IH _ _ H) as (new & -> & Hnew & Hall).
      exists new. split; [reflexivity|]. split.
      * intros entry Hin. destruct (Hnew entry Hin) as (next & et & Hnext & H').
        exists next, et. split; [now right | exact H'].
      * intros next [<-|Hin] Hnot; [|now apply Hall].
        apply existsb_eqb_In in Ev. contradiction.
    + destruct (hop_edge_type G dir current n) as [et|e] eqn:Ehop; [|discriminate].
      cbn [bind]. intros H. destruct (IH _ _ H) as (new & -> & Hnew & Hall).
      exists ((n, path ++ [n], etypes ++ [et]) :: new).
      split; [now rewrite <- app_assoc|]. split.
      * intros entry [<-|Hin].
        -- exists n, et. split; [now left|]. split; [now apply existsb_eqb_not_In|].
           split; [exact Ehop | reflexivity].
        -- destruct (Hnew entry Hin) as (next & et' & Hnext & H').
           exists next, et'. split; [now right | exact H'].
      * intros next [<-|Hin] Hnot.
        -- eexists. split; [now left | reflexivity].
        -- destruct (Hall next Hin Hnot) as (entry & He & Hf).
           exists entry. split; [now right | exact Hf].
Qed.

Lemma entry_ok_mono G dir start visited visited' entry :
  incl visited visited' ->
  entry_ok G dir start visited entry -> entry_ok G dir start visited' entry.
Proof.
  intros Hincl (mid & Hp & Hnd & Hin & Hw & Ht). exists mid.
  split; [exact Hp|]. split; [exact Hnd|]. split; [|auto].
  intros x Hx. apply Hincl, Hin, Hx.
Qed.

(** An entry popped from the queue whose node is new gives a chain of the
    expected shape, and its successors give entries that are in order. *)
Lemma popped_entry G dir start visited current path etypes :
  In start visited ->
  entry_ok G dir start visited (current, path, etypes) ->
  ~ In current visited ->
  NoDup path
  /\ S (length path - 1) = length path
  /\ length path - 1 = length etypes
  /\ current <> start
  /\ forall m next et,
       dict_get current (adjacency G dir) = Some m ->
       In next (dict_keys m) ->
       ~ In next (current :: visited) ->
       hop_edge_type G dir current next = Ok et ->
       entry_ok G dir start (current :: visited)
                (next, path ++ [next], etypes ++ [et]).
Proof.
  intros Hstart (mid & Hp & Hnd & Hin & Hw & Ht) Hnew. cbn [fst snd] in *.
  assert (Hnotin : ~ In current (start :: mid)) by (intros H; apply Hnew, Hin, H).
  assert (Hndp : NoDup path) by (rewrite Hp; now apply NoDup_snoc).
  split; [exact Hndp|]. split; [rewrite Hp, length_app; simpl; lia|]. split.
  { rewrite <- (types_along_length G dir path), Ht. apply length_map. }
  split; [intros ->; contradiction|].
  intros m next et Hm Hnext Hfresh Hhop.
  exists (mid ++ [current]). cbn [fst snd].
  split; [now rewrite Hp|]. split; [change (NoDup ((start :: mid) ++ [current])); now rewrite <- Hp|].
  split.
  - intros x Hx. change (In x ((start :: mid) ++ [current])) in Hx.
    apply in_app_iff in Hx. destruct Hx as [Hx|[<-|[]]]; [right; now apply Hin | now left].
  - split.
    + rewrite Hp. apply walk_snoc; [now rewrite <- Hp|].
      unfold arc. rewrite Hm. now apply dict_mem_In.
    + rewrite Hp, types_along_snoc, <- Hp, Ht, Hhop, map_app. reflexivity.
Qed.

(** The [while] loop, when it returns: the chains it adds. *)
Lemma bfs_sound G dir start max_depth :
  forall fuel queue visited all_chains result,
    In start visited ->
    (forall entry, In entry queue -> entry_ok G dir start visited entry) ->
    bfs fuel G dir start max_depth queue visited all_chains = Some (Ok result) ->
    exists new,
      result = all_chains ++ new
      /\ (forall c, In c new ->
            chain_from G dir start max_depth c /\ ~ In (affected_node_id c) visited)
      /\ NoDup (map affected_node_id new).
Proof.
  induction fuel as [|fuel IH]; intros queue visited chains result Hstart Hq;
    [discriminate|].
  cbn [bfs]. destruct queue as [|[[current path] etypes] queue].
  - intros [= <-]. exists []. split; [now rewrite app_nil_r|].
    split; [intros ? [] | constructor].
  - assert (Hq' : forall entry, In entry queue -> entry_ok G dir start visited entry)
      by (intros entry H; apply Hq; now right).
    destruct (existsb (String.eqb current) visited) eqn:Ev; cbn [orb].
    { apply IH; assumption. }
    destruct (max_depth <? length path)%nat eqn:Ed.
    { apply IH; assumption. }
    apply existsb_eqb_not_In in Ev. apply Nat.ltb_ge in Ed.
    destruct (popped_entry G dir start visited current path etypes Hstart
                (Hq _ (or_introl eq_refl)) Ev)
      as (Hnd & Hlen & Hety & Hne & Hnext).
    rewrite neighbours_adjacency.
    destruct (dict_get current (adjacency G dir)) as [m|] eqn:Hm; [|discriminate].
    cbn [bind].
    destruct (enqueue G dir (current :: visited) current path etypes (dict_keys m) queue)
      as [queue''|e] eqn:Eq; [|discriminate].
    destruct (enqueue_spec _ _ _ _ _ _ _ _ _ Eq) as (added & -> & Hadded & _).
    intros Hrec. apply IH in Hrec.
    + destruct Hrec as (new & -> & Hnew & Hndnew).
      exists (mk_chain start current path etypes (length path - 1) :: new).
      split; [now rewrite <- app_assoc|]. split.
      * intros c [<-|Hc].
        -- split; [|exact Ev]. unfold chain_from. cbn.
           destruct (Hq _ (or_introl eq_refl)) as (mid & Hp & _ & _ & Hw & Ht).
           cbn [fst snd] in *.
           split; [reflexivity|]. split; [exact Hne|]. split; [eauto|].
           split; [exact Hnd|]. split; [exact Hw|]. split; [exact Ht|].
           split; [exact Hlen|]. split; [exact Hety | exact Ed].
        -- destruct (Hnew c Hc) as [Hshape Hfresh]. split; [exact Hshape|].
           intros H. apply Hfresh. now right.
      * cbn [map affected_node_id]. constructor; [|exact Hndnew].
        intros H. apply in_map_iff in H. destruct H as (c & Hc & Hin).
        destruct (Hnew c Hin) as [_ Hfresh]. apply Hfresh. left. now symmetry.
    + now right.
    + intros entry Hin. apply in_app_iff in Hin. destruct Hin as [Hin|Hin].
      * apply (entry_ok_mono G dir start visited); [|now apply Hq'].
        intros x Hx. now right.
      * destruct (Hadded entry Hin) as (next & et & Hn & Hfresh & Hhop & ->).
        now apply (Hnext m).
Qed.

(** The [while] loop, when no path can be longer than [max_depth]: the
    nodes visited in the end are closed under the arcs, and each has its
    chain. *)
Lemma bfs_complete G dir start max_depth keys :
  closed_adjacency G dir ->
  (forall n, dict_mem n (adjacency G dir) = true -> In n keys) ->
  length keys <= max_depth ->
  forall fuel queue visited all_chains result,
    In start visited ->
    incl visited keys ->
    (forall entry, In entry queue ->
       entry_ok G dir start visited entry
       /\ dict_mem (fst (fst entry)) (adjacency G dir) = true) ->
    frontier (adjacency G dir) queue visited ->
    bfs fuel G dir start max_depth queue visited all_chains = Some (Ok result) ->
    exists visited',
      incl visited visited'
      /\ (forall u v, In u visited' -> arc (adjacency G dir) u v = true -> In v visited')
      /\ (forall v, In v visited' ->
            In v visited
            \/ exists c, In c result /\ source_node_id c = start
                         /\ affected_node_id c = v).
Proof.
  intros Hclosed Hkeys Hsize.
  induction fuel as [|fuel IH];
    intros queue visited chains result Hstart Hvis Hq Hfront; [discriminate|].
  cbn [bfs]. destruct queue as [|[[current path] etypes] queue].
  - intros _. exists visited. split; [apply incl_refl|]. split; [|auto].
    intros u v Hu Huv. destruct (Hfront u v Hu Huv) as [H|(entry & [] & _)]. exact H.
  - assert (Hq' : forall entry, In entry queue ->
              entry_ok G dir start visited entry
              /\ dict_mem (fst (fst entry)) (adjacency G dir) = true)
      by (intros entry H; apply Hq; now right).
    destruct (Hq _ (or_introl eq_refl)) as [Hentry Hmem]. cbn [fst] in Hmem.
    destruct (existsb (String.eqb current) visited) eqn:Ev; cbn [orb].
    { apply existsb_eqb_In in Ev. apply IH; try assumption.
      intros u v Hu Huv. destruct (Hfront u v Hu Huv) as [H|(entry & [<-|Hin] & <-)].
      - now left.
      - now left.
      - right. eauto. }
    apply existsb_eqb_not_In in Ev.
    destruct (popped_entry G dir start visited current path etypes Hstart Hentry Ev)
      as (Hnd & _ & _ & _ & Hnext).
    assert (Hpath : incl path keys).
    { destruct Hentry as (mid & Hp & _ & Hin & _). cbn [fst snd] in Hp. rewrite Hp.
      intros x Hx. apply in_app_iff in Hx. destruct Hx as [Hx|[<-|[]]].
      - apply Hvis, Hin, Hx.
      - now apply Hkeys. }
    pose proof (NoDup_incl_length Hnd Hpath) as Hlen.
    destruct (max_depth <? length path)%nat eqn:Ed; [apply Nat.ltb_lt in Ed; lia|].
    rewrite neighbours_adjacency.
    destruct (dict_get current (adjacency G dir)) as [m|] eqn:Hm; [|discriminate].
    cbn [bind].
    destruct (enqueue G dir (current :: visited) current path etypes (dict_keys m) queue)
      as [queue''|e] eqn:Eq; [|discriminate].
    destruct (enqueue_spec _ _ _ _ _ _ _ _ _ Eq) as (added & -> & Hadded & Hall).
    intros Hrec.
    assert (Hentries : forall entry, In entry (queue ++ added) ->
              entry_ok G dir start (current :: visited) entry
              /\ dict_mem (fst (fst entry)) (adjacency G dir) = true).
    { intros entry Hin. apply in_app_iff in Hin. destruct Hin as [Hin|Hin].
      - destruct (Hq' entry Hin) as [H1 H2]. split; [|exact H2].
        apply (entry_ok_mono G dir start visited); [|exact H1].
        intros x Hx. now right.
      - destruct (Hadded entry Hin) as (next & et & Hn & Hfresh & Hhop & ->).
        split; [now apply (Hnext m)|]. cbn [fst].
        now destruct (Hclosed current m next Hm Hn). }
    destruct (bfs_sound G dir start max_depth _ _ _ _ _
                (or_intror Hstart : In start (current :: visited))
                (fun entry H => proj1 (Hentries entry H)) Hrec)
      as (new & Hres & _).
    apply IH in Hrec.
    + destruct Hrec as (visited' & Hincl & Hcl & Hcov). exists visited'.
      split; [intros x Hx; apply Hincl; now right|]. split; [exact Hcl|].
      intros v Hv. destruct (Hcov v Hv) as [[<-|H]|H]; [|now left | now right].
      right. exists (mk_chain start current path etypes (length path - 1)).
      split; [|split; reflexivity].
      rewrite Hres. apply in_app_iff. left. apply in_app_iff. right. now left.
    + now right.
    + intros x [<-|Hx]; [now apply Hkeys | now apply Hvis].
    + exact Hentries.
    + intros u v [<-|Hu] Huv.
      * destruct (in_dec string_dec v (current :: visited)) as [Hv|Hv]; [now left|].
        right. unfold arc in Huv. rewrite Hm in Huv. apply dict_mem_In in Huv.
        destruct (Hall v Huv Hv) as (entry & Hin & Hf).
        exists entry. split; [apply in_app_iff; now right | exact Hf].
      * destruct (Hfront u v Hu Huv) as [H|(entry & [<-|Hin] & <-)].
        -- left. now right.
        -- left. now left.
        -- right. exists entry. split; [apply in_app_iff; now left | reflexivity].
Qed.

Lemma reaches_closed adj (visited : list string) start :
  (forall u v, In u visited -> arc adj u v = true -> In v visited) ->
  In start visited ->
  forall v, reaches adj start v -> In v visited.
Proof.
  intros Hcl Hstart v H. induction H as [v Hv|v w _ IH Hw]; eauto.
Qed.

(** The seeds of a traversal are the entries that the extension loop
    makes of the neighbours of the start. *)
Lemma seeds_enqueue G dir start_id nbrs :
  for_each (fun q next =>
              et <- hop_edge_type G dir start_id next ;;
              Ok (q ++ [(next, [start_id; next], [et])]))
           nbrs []
  = enqueue G dir [] start_id [start_id] [] nbrs [].
Proof. reflexivity. Qed.

(** One traversal, when it returns. *)
Lemma traverse_sound G dir start max_depth all_chains result :
  traverse G dir start max_depth all_chains = Some (Ok result) ->
  exists new,
    result = all_chains ++ new
    /\ (forall c, In c new -> chain_from G dir start max_depth c)
    /\ NoDup (map affected_node_id new)
    /\ forall keys v,
         closed_adjacency G dir ->
         (forall n, dict_mem n (adjacency G dir) = true -> In n keys) ->
         length keys <= max_depth ->
         reaches (adjacency G dir) start v -> v <> start ->
         exists c, In c result /\ source_node_id c = start /\ affected_node_id c = v.
Proof.
  unfold traverse. rewrite neighbours_adjacency.
  destruct (dict_get start (adjacency G dir)) as [m|] eqn:Hm; [|discriminate].
  cbn [bind]. rewrite seeds_enqueue.
  destruct (enqueue G dir [] start [start] [] (dict_keys m) []) as [queue|e] eqn:Eq;
    [|discriminate].
  destruct (enqueue_spec _ _ _ _ _ _ _ _ _ Eq) as (seeds & -> & Hseeds & Hall).
  cbn [app]. intros Hbfs.
  assert (Hentries : forall entry, In entry seeds -> entry_ok G dir start [start] entry).
  { intros entry Hin. destruct (Hseeds entry Hin) as (next & et & Hn & _ & Hhop & ->).
    exists []. cbn [fst snd app]. split; [reflexivity|].
    split; [constructor; [intros [] | constructor]|]. split; [apply incl_refl|]. split.
    - rewrite walk_cons. unfold arc. rewrite Hm.
      apply dict_mem_In in Hn. now rewrite Hn.
    - rewrite types_along_cons, Hhop. reflexivity. }
  destruct (bfs_sound G dir start max_depth (bfs_fuel G dir seeds) seeds [start]
              all_chains result (or_introl eq_refl) Hentries Hbfs)
    as (new & Hres & Hnew & Hnd).
  exists new. split; [exact Hres|]. split; [intros c Hc; now apply Hnew|].
  split; [exact Hnd|].
  intros keys v Hclosed Hkeys Hsize Hreach Hne.
  destruct (bfs_complete G dir start max_depth keys Hclosed Hkeys Hsize
              (bfs_fuel G dir seeds) seeds [start] all_chains result (or_introl eq_refl))
    as (visited' & Hincl & Hcl & Hcov).
  - intros x [<-|[]]. apply Hkeys. unfold dict_mem. now rewrite Hm.
  - intros entry Hin. split; [now apply Hentries|].
    destruct (Hseeds entry Hin) as (next & et & Hn & _ & _ & ->). cbn [fst].
    now destruct (Hclosed start m next Hm Hn).
  - intros u v' [<-|[]] Huv. right. unfold arc in Huv. rewrite Hm in Huv.
    apply dict_mem_In in Huv. apply (Hall v' Huv). intros [].
  - exact Hbfs.
  - assert (Hv : In v visited').
    { apply (reaches_closed (adjacency G dir) visited' start Hcl); [|exact Hreach].
      apply Hincl. now left. }
    destruct (Hcov v Hv) as [[<-|[]]|H]; [contradiction | exact H].
Qed.

Lemma reaches_reverse (a b : dict (dict attrs)) :
  (forall u v, arc a u v = arc b v u) ->
  forall s v, reaches a s v -> reaches b v s.
Proof.
  intros Hmirror s v H. induction H as [v Hv|v w _ IH Hw].
  - apply reaches_arc. now rewrite <- Hmirror.
  - apply (reaches_cons b w v s); [now rewrite <- Hmirror | exact IH].
Qed.

Lemma reaches_upstream G s v :
  nx_wf G -> (reaches (_pred G) s v <-> reaches (_succ G) v s).
Proof.
  intros Hwf. split; apply reaches_reverse; intros u w;
    [symmetry|]; apply (nx_mirror Hwf).
Qed.

Lemma chain_from_reaches G dir start max_depth c :
  chain_from G dir start max_depth c ->
  reaches (adjacency G dir) start (affected_node_id c).
Proof.
  intros (_ & _ & (mid & Hp) & _ & Hw & _). rewrite Hp in Hw.
  now apply (walk_reaches _ mid).
Qed.

(** All the traversals, when they return: the chains they add. *)
Lemma propagate_sound G max_depth include_upstream :
  forall changed_node_ids all_chains result,
    propagate_from G max_depth include_upstream changed_node_ids all_chains
    = Some (Ok result) ->
    exists new,
      result = all_chains ++ new
      /\ forall c, In c new ->
           In (source_node_id c) changed_node_ids
           /\ nx_has_node G (source_node_id c) = true
           /\ exists dir,
                (dir = Upstream -> include_upstream = true)
                /\ chain_from G dir (source_node_id c) max_depth c.
Proof.
  induction changed_node_ids as [|start rest IH]; intros chains result;
    cbn [propagate_from].
  - intros [= <-]. exists []. split; [now rewrite app_nil_r | intros ? []].
  - destruct (nx_has_node G start) eqn:Hnode; cbn [negb].
    + destruct (traverse G Downstream start max_depth chains) as [[c1|e]|] eqn:Edown;
        try discriminate.
      cbn [pbind].
      destruct (traverse_sound _ _ _ _ _ _ Edown) as (new1 & -> & Hnew1 & _).
      assert (Hup : forall c2,
        (if include_upstream then traverse G Upstream start max_depth (chains ++ new1)
         else Some (Ok (chains ++ new1))) = Some (Ok c2) ->
        exists new2,
          c2 = (chains ++ new1) ++ new2
          /\ forall c, In c new2 ->
               include_upstream = true /\ chain_from G Upstream start max_depth c).
      { intros c2. destruct include_upstream.
        - intros H. destruct (traverse_sound _ _ _ _ _ _ H) as (new2 & -> & Hnew2 & _).
          exists new2. split; [reflexivity|]. intros c Hc. split; [reflexivity | auto].
        - intros [= <-]. exists []. split; [now rewrite app_nil_r | intros ? []]. }
      destruct (if include_upstream then _ else _) as [[c2|e]|]; try discriminate.
      cbn [pbind]. destruct (Hup c2 eq_refl) as (new2 & -> & Hnew2).
      intros H. destruct (IH _ _ H) as (new3 & -> & Hnew3).
      exists (new1 ++ new2 ++ new3). split; [now rewrite <- !app_assoc|].
      intros c Hc. apply in_app_iff in Hc. destruct Hc as [Hc|Hc];
        [|apply in_app_iff in Hc; destruct Hc as [Hc|Hc]].
      * pose proof (Hnew1 c Hc) as Hshape. destruct Hshape as (Hs & Hrest).
        rewrite Hs. split; [now left|]. split; [exact Hnode|].
        exists Downstream. split; [discriminate|]. split; [exact Hs | exact Hrest].
      * destruct (Hnew2 c Hc) as [Hyes Hshape]. destruct Hshape as (Hs & Hrest).
        rewrite Hs. split; [now left|]. split; [exact Hnode|].
        exists Upstream. split; [auto|]. split; [exact Hs | exact Hrest].
      * destruct (Hnew3 c Hc) as (Hin & Hrest). split; [now right | exact Hrest].
    + intros H. destruct (IH _ _ H) as (new & -> & Hnew).
      exists new. split; [reflexivity|]. intros c Hc.
      destruct (Hnew c Hc) as (Hin & Hrest). split; [now right | exact Hrest].
Qed.

(** All the traversals, when no path can be longer than [max_depth]:
    what can be reached from a changed node has its chain. *)
Lemma propagate_complete G max_depth include_upstream keys :
  nx_wf G ->
  (forall n, nx_has_node G n = true -> In n keys) ->
  length keys <= max_depth ->
  forall changed_node_ids all_chains result,
    propagate_from G max_depth include_upstream changed_node_ids all_chains
    = Some (Ok result) ->
    forall start v,
      In start changed_node_ids -> nx_has_node G start = true -> v <> start ->
      reaches (_succ G) start v
      \/ (include_upstream = true /\ reaches (_pred G) start v) ->
      exists c, In c result /\ source_node_id c = start /\ affected_node_id c = v.
Proof.
  intros Hwf Hkeys Hsize.
  assert (Hk : forall dir n, dict_mem n (adjacency G dir) = true -> In n keys).
  { intros dir n H. apply Hkeys. unfold nx_has_node.
    destruct dir; cbn [adjacency] in H;
      [now rewrite <- (nx_succ_keys Hwf) | now rewrite <- (nx_pred_keys Hwf)]. }
  induction changed_node_ids as [|s rest IH]; intros chains result;
    cbn [propagate_from]; [intros _ ? ? []|].
  destruct (nx_has_node G s) eqn:Hnode; cbn [negb].
  - destruct (traverse G Downstream s max_depth chains) as [[c1|e]|] eqn:Edown;
      try discriminate.
    cbn [pbind].
    destruct (traverse_sound _ _ _ _ _ _ Edown) as (new1 & Hc1 & _ & _ & Hdown).
    destruct (if include_upstream then traverse G Upstream s max_depth c1
              else Some (Ok c1)) as [[c2|e]|] eqn:Eup; try discriminate.
    cbn [pbind]. intros Hrest start v Hin Hs Hne Hreach.
    destruct (propagate_sound _ _ _ _ _ _ Hrest) as (new3 & -> & _).
    assert (Hc2 : exists new2, c2 = c1 ++ new2).
    { destruct include_upstream.
      - destruct (traverse_sound _ _ _ _ _ _ Eup) as (new2 & -> & _). eauto.
      - injection Eup as <-. exists []. now rewrite app_nil_r. }
    destruct Hc2 as (new2 & ->).
    destruct Hin as [<-|Hin]; [|now apply (IH _ _ Hrest)].
    destruct Hreach as [Hreach|[Hyes Hreach]].
    + destruct (Hdown keys v (nx_wf_closed G Downstream Hwf) (Hk Downstream) Hsize
                  Hreach Hne) as (c & Hc & H).
      exists c. split; [|exact H]. apply in_app_iff. left. apply in_app_iff. now left.
    + subst include_upstream.
      destruct (traverse_sound _ _ _ _ _ _ Eup) as (new2' & Heq & _ & _ & Hupw).
      destruct (Hupw keys v (nx_wf_closed G Upstream Hwf) (Hk Upstream) Hsize
                  Hreach Hne) as (c & Hc & H).
      exists c. split; [|exact H]. apply in_app_iff. now left.
  - intros Hrest start v [<-|Hin] Hs; [congruence|]. now apply (IH _ _ Hrest).
Qed.

(** X22 (propagate_impact): on a store built by the mutators the
    propagation returns.  Every chain starts at one of the given ids
    that is a node of the store (the others are passed over), and ends at
    another node; its path has no repetition, follows the arcs of the
    graph (backwards for the upstream traversal, which runs only when
    asked for), and has at most [max_depth] nodes; its depth is the
    number of hops, one less than the length of the path, and it has one
    edge type per hop, the one the graph holds for that pair. *)
Theorem impact_chains_sound
    (g : GraphManager) (changed_node_ids : list string) (max_depth : nat)
    (include_upstream : bool) :
  reachable g ->
  exists chains,
    propagate_impact g changed_node_ids max_depth include_upstream = Some (Ok chains)
    /\ (forall c, In c chains ->
          In (source_node_id c) changed_node_ids
          /\ dict_mem (source_node_id c) (_nodes g) = true
          /\ exists dir,
               (dir = Upstream -> include_upstream = true)
               /\ chain_from (_graph g) dir (source_node_id c) max_depth c
               /\ reaches (adjacency (_graph g) dir)
                          (source_node_id c) (affected_node_id c))
    /\ (max_depth < 2 -> chains = []).
Proof.
  intros Hr. pose proof (reachable_wf g Hr) as Hwf.
  destruct (propagate_from_returns (_graph g) max_depth include_upstream (wf_graph Hwf)
              changed_node_ids []) as [chains Hchains].
  exists chains. unfold propagate_impact. split; [exact Hchains|].
  destruct (propagate_sound _ _ _ _ _ _ Hchains) as (new & -> & Hnew). cbn [app].
  assert (Hall : forall c, In c new ->
            In (source_node_id c) changed_node_ids
            /\ dict_mem (source_node_id c) (_nodes g) = true
            /\ exists dir,
                 (dir = Upstream -> include_upstream = true)
                 /\ chain_from (_graph g) dir (source_node_id c) max_depth c
                 /\ reaches (adjacency (_graph g) dir)
                            (source_node_id c) (affected_node_id c)).
  { intros c Hc. destruct (Hnew c Hc) as (Hin & Hnode & dir & Hdir & Hshape).
    split; [exact Hin|]. split.
    - unfold nx_has_node in Hnode. now rewrite <- (wf_graph_nodes Hwf).
    - exists dir. split; [exact Hdir|]. split; [exact Hshape|].
      now apply (chain_from_reaches _ _ _ max_depth). }
  split; [exact Hall|].
  intros Hdepth. destruct new as [|c new]; [reflexivity|]. exfalso.
  destruct (Hall c (or_introl eq_refl)) as (_ & _ & dir & _ & Hshape & _).
  destruct Hshape as (_ & _ & (mid & Hp) & _ & _ & _ & _ & _ & Hlen).
  rewrite Hp, length_app in Hlen. cbn [length] in Hlen. lia.
Qed.

Lemma impact_chains_sound_witness :
  exists chains,
    propagate_impact scanned ["sdc_main"; "gone"] 50 false = Some (Ok chains)
    /\ map affected_node_id chains = ["script"; "doc"]
    /\ forall c, In c chains -> source_node_id c = "sdc_main".
Proof.
  destruct (impact_chains_sound scanned ["sdc_main"; "gone"] 50 false scanned_reachable)
    as (chains & Hrun & Hshape & _).
  exists chains. split; [exact Hrun|].
  assert (Heq : Some (Ok chains)
                = propagate_impact scanned ["sdc_main"; "gone"] 50 false)
    by (symmetry; exact Hrun).
  vm_compute in Heq. injection Heq as ->.
  split; [reflexivity|]. intros c [<-|[<-|[]]]; reflexivity.
Defined.

(** The chains of a changed node end at what can be reached from it. *)
Lemma propagate_exact
    (g : GraphManager) (changed_node_ids : list string) (max_depth : nat)
    (include_upstream : bool) (chains : list ImpactChain) :
  reachable g ->
  length (_nodes g) <= max_depth ->
  propagate_impact g changed_node_ids max_depth include_upstream = Some (Ok chains) ->
  forall start v,
    In start changed_node_ids ->
    dict_mem start (_nodes g) = true ->
    ((exists c, In c chains /\ source_node_id c = start /\ affected_node_id c = v)
     <-> v <> start
         /\ (reaches (_succ (_graph g)) start v
             \/ (include_upstream = true /\ reaches (_succ (_graph g)) v start))).
Proof.
  intros Hr Hsize Hrun start v Hin Hnode. pose proof (reachable_wf g Hr) as Hwf.
  unfold propagate_impact in Hrun. split.
  - intros (c & Hc & <- & <-).
    destruct (propagate_sound _ _ _ _ _ _ Hrun) as (new & -> & Hnew). cbn [app] in Hc.
    destruct (Hnew c Hc) as (_ & _ & dir & Hdir & Hshape).
    pose proof (chain_from_reaches _ _ _ _ _ Hshape) as Hreach.
    destruct Hshape as (_ & Hne & _). split; [exact Hne|].
    destruct dir; cbn [adjacency] in Hreach; [now left|].
    right. split; [now apply Hdir|]. now apply (reaches_upstream _ _ _ (wf_graph Hwf)).
  - intros [Hne Hreach].
    apply (propagate_complete (_graph g) max_depth include_upstream
             (dict_keys (_nodes g)) (wf_graph Hwf)) with (changed_node_ids := changed_node_ids)
             (all_chains := []); try assumption.
    + intros n Hn. apply dict_mem_In. unfold nx_has_node in Hn.
      now rewrite <- (wf_graph_nodes Hwf).
    + unfold dict_keys. now rewrite length_map.
    + unfold nx_has_node. now rewrite (wf_graph_nodes Hwf).
    + destruct Hreach as [H|[Hyes H]]; [now left|]. right. split; [exact Hyes|].
      now apply (reaches_upstream _ _ _ (wf_graph Hwf)).
Qed.

(** X23 (propagate_impact): in a store built by the mutators that has no
    more than [max_depth] nodes, the chains that start at a changed node
    of the store end at exactly the nodes, other than itself, that can be
    reached from it along the arcs, and, when the upstream traversal is
    asked for, at those from which it can be reached. *)
Theorem impact_chains_complete
    (g : GraphManager) (changed_node_ids : list string) (max_depth : nat)
    (include_upstream : bool) (chains : list ImpactChain) :
  reachable g ->
  length (_nodes g) <= max_depth ->
  propagate_impact g changed_node_ids max_depth include_upstream = Some (Ok chains) ->
  forall start v,
    In start changed_node_ids ->
    dict_mem start (_nodes g) = true ->
    ((exists c, In c chains /\ source_node_id c = start /\ affected_node_id c = v)
     <-> v <> start
         /\ (reaches (_succ (_graph g)) start v
             \/ (include_upstream = true /\ reaches (_succ (_graph g)) v start))).
Proof. exact (propagate_exact g changed_node_ids max_depth include_upstream chains). Qed.

Lemma impact_chains_complete_witness :
  exists chains,
    propagate_impact scanned ["sdc_main"] 50 false = Some (Ok chains)
    /\ exists c,
         In c chains /\ source_node_id c = "sdc_main" /\ affected_node_id c = "doc".
Proof.
  eexists. split; [reflexivity|].
  refine (proj2 (impact_chains_complete scanned ["sdc_main"] 50 false _
                   scanned_reachable _ eq_refl "sdc_main" "doc" _ eq_refl) _).
  - cbn. lia.
  - left. reflexivity.
  - split; [discriminate|]. left.
    apply (@reaches_step _ _ "script" "doc"); [apply reaches_arc|]; reflexivity.
Defined.

(** X24 (full_scan): in a store built by the mutators that has no more
    than 50 nodes, a full scan that returns reports the changes that
    [detect_changes] finds, and as affected exactly the nodes that can be
    reached from a changed node along the arcs, the changed node itself
    apart, and with the upstream traversal also those from which a
    changed node can be reached.  A changed node is itself listed as
    affected only when it is reached from another changed node. *)
Theorem full_scan_affected_exact
    (g : GraphManager) (baseline : dict string) (fs : hashfs)
    (include_upstream : bool) (now : Z) (report : ChangeReport) :
  reachable g ->
  length (_nodes g) <= 50 ->
  full_scan g baseline fs include_upstream now = Some (Ok report) ->
  detect_changes g baseline fs = Ok (changed_files report)
  /\ cr_timestamp report = now
  /\ NoDup (affected_node_ids report)
  /\ forall v,
       In v (affected_node_ids report)
       <-> exists cf,
             In cf (changed_files report)
             /\ v <> cf_node_id cf
             /\ (reaches (_succ (_graph g)) (cf_node_id cf) v
                 \/ (include_upstream = true
                     /\ reaches (_succ (_graph g)) v (cf_node_id cf))).
Proof.
  intros Hr Hsize. unfold full_scan.
  destruct (detect_changes g baseline fs) as [changes|e] eqn:Edet; [|discriminate].
  destruct (propagate_impact g (map cf_node_id changes) 50 include_upstream)
    as [[chains|e]|] eqn:Eprop; try discriminate.
  cbn [pbind]. intros [= <-].
  cbn [changed_files cr_timestamp affected_node_ids].
  split; [reflexivity|]. split; [reflexivity|]. split; [apply NoDup_nodup|].
  assert (Hstore : forall cf, In cf changes -> dict_mem (cf_node_id cf) (_nodes g) = true).
  { unfold detect_changes, all_nodes in Edet.
    destruct (detect_loop_exact _ _ _ _ _ Edet) as (found & -> & _ & Hkeys & _).
    cbn [app]. intros cf Hcf. apply dict_mem_In, Hkeys. now apply in_map. }
  intros v. rewrite nodup_In, in_map_iff. split.
  - intros (c & <- & Hc).
    pose proof Eprop as Hsound. unfold propagate_impact in Hsound.
    destruct (propagate_sound _ _ _ _ _ _ Hsound) as (new & -> & Hnew). cbn [app] in Hc.
    destruct (Hnew c Hc) as (Hsrc & _). apply in_map_iff in Hsrc.
    destruct Hsrc as (cf & Hid & Hcf). exists cf. split; [exact Hcf|]. rewrite Hid.
    apply (propagate_exact g _ _ _ _ Hr Hsize Eprop (source_node_id c)
             (affected_node_id c)).
    + rewrite <- Hid. now apply in_map.
    + rewrite <- Hid. now apply Hstore.
    + exists c. auto.
  - intros (cf & Hcf & Hne & Hreach).
    destruct (proj2 (propagate_exact g _ _ _ _ Hr Hsize Eprop (cf_node_id cf) v
                       (in_map cf_node_id _ _ Hcf) (Hstore cf Hcf))
                    (conj Hne Hreach)) as (c & Hc & _ & Ha).
    exists c. auto.
Qed.

Lemma full_scan_affected_exact_witness :
  exists report,
    full_scan scanned scanned_baseline disk_absent false 7 = Some (Ok report)
    /\ In "doc" (affected_node_ids report).
Proof.
  eexists. split; [reflexivity|].
  refine (proj2 (proj2 (proj2 (proj2 (full_scan_affected_exact scanned scanned_baseline
                                 disk_absent false 7 _ scanned_reachable _ eq_refl)))
                       "doc") _).
  - cbn. lia.
  - exists (mk_changed "script" "script" "scripts/synth.tcl" (Some "77c0") (Some "9d41")
                       "modified").
    split; [right; left; reflexivity|]. split; [discriminate|].
    left. apply reaches_arc. reflexivity.
Defined.

(* ====================================================================== *)
(** * Edge ids and labels                                                   *)
(* ====================================================================== *)

Lemma occurs_app c a b : occurs c (a ++ b)%string = occurs c a || occurs c b.
Proof.
  induction a as [|x a IH]; cbn [append occurs]; [reflexivity|].
  now rewrite IH, orb_assoc.
Qed.

(** Two strings that agree up to the first occurrence of a character. *)
Lemma split_at_first c s1 :
  forall s2 r1 r2,
    occurs c s1 = false -> occurs c s2 = false ->
    (s1 ++ String c r1)%string = (s2 ++ String c r2)%string ->
    s1 = s2 /\ r1 = r2.
Proof.
  induction s1 as [|a s1 IH]; intros [|b s2] r1 r2 H1 H2 Heq; cbn [append] in Heq.
  - injection Heq as <-. auto.
  - injection Heq as <- _. cbn [occurs] in H2. rewrite Ascii.eqb_refl in H2. discriminate.
  - injection Heq as -> _. cbn [occurs] in H1. rewrite Ascii.eqb_refl in H1. discriminate.
  - injection Heq as <- Heq. cbn [occurs] in H1, H2.
    apply orb_false_iff in H1, H2.
    destruct (IH s2 r1 r2 (proj2 H1) (proj2 H2) Heq) as [-> ->]. auto.
Qed.

Lemma EdgeType_value_inj t1 t2 : EdgeType_value t1 = EdgeType_value t2 -> t1 = t2.
Proof.
  intros H. apply (f_equal EdgeType_of_value) in H.
  rewrite !EdgeType_roundtrip in H. congruence.
Qed.

Lemma make_edge_id_inj s1 t1 d1 s2 t2 d2 :
  occurs hyphen s1 = false -> occurs hyphen s2 = false ->
  make_edge_id s1 t1 d1 = make_edge_id s2 t2 d2 ->
  s1 = s2 /\ t1 = t2 /\ d1 = d2.
Proof.
  intros H1 H2 Heq. unfold make_edge_id in Heq.
  change ((s1 ++ String hyphen (String hyphen
             (EdgeType_value t1 ++ String hyphen (String hyphen (String ">" d1)))))%string
          = (s2 ++ String hyphen (String hyphen
             (EdgeType_value t2 ++ String hyphen (String hyphen (String ">" d2)))))%string)
    in Heq.
  apply split_at_first in Heq; [|assumption|assumption].
  destruct Heq as [-> Heq]. injection Heq as Heq.
  apply split_at_first in Heq; [| now destruct t1 | now destruct t2].
  destruct Heq as [Ht Heq]. injection Heq as ->.
  apply EdgeType_value_inj in Ht. auto.
Qed.

(** X25 (edge_id, add_edge): the id of an edge determines its source, its
    kind and its target when the source ids hold no hyphen: the id is
    then read back up to its first hyphen.  In a store built by the
    mutators whose node ids hold no hyphen, the id of an edge whose
    source is a node is taken, so that [add_edge] raises [ValueError],
    exactly when an edge with the same source, kind and target is
    recorded. *)
Theorem edge_id_determines_edge :
  (forall e1 e2,
     occurs hyphen (source_id e1) = false ->
     occurs hyphen (source_id e2) = false ->
     edge_id e1 = edge_id e2 ->
     source_id e1 = source_id e2 /\ edge_type e1 = edge_type e2
     /\ target_id e1 = target_id e2)
  /\ (forall g e,
        reachable g ->
        (forall n, dict_mem n (_nodes g) = true -> occurs hyphen n = false) ->
        dict_mem (source_id e) (_nodes g) = true ->
        (dict_mem (edge_id e) (_edges g) = true
         <-> exists e',
               In e' (dict_values (_edges g))
               /\ source_id e' = source_id e /\ edge_type e' = edge_type e
               /\ target_id e' = target_id e)).
Proof.
  split.
  - intros e1 e2. unfold edge_id. apply make_edge_id_inj.
  - intros g e Hr Hids Hsrc. pose proof (reachable_wf g Hr) as Hwf. split.
    + intros Hmem. destruct (dict_mem_get _ _ Hmem) as [e' Hget].
      apply dict_get_In in Hget. exists e'.
      split; [apply In_values; eauto|].
      pose proof (wf_edge_keys Hwf _ _ Hget) as Hid.
      destruct (wf_endpoints Hwf _ _ Hget) as [Hs' _].
      unfold edge_id in Hid.
      apply make_edge_id_inj in Hid; [tauto | now apply Hids | now apply Hids].
    + intros (e' & Hin & Hs & Ht & Hd). apply In_values in Hin.
      destruct Hin as [k Hin]. pose proof (wf_edge_keys Hwf _ _ Hin) as Hid.
      apply dict_mem_In. unfold dict_keys.
      replace (edge_id e) with k.
      * change k with (fst (k, e')). now apply in_map.
      * rewrite <- Hid. unfold edge_id. now rewrite Hs, Ht, Hd.
Qed.

Lemma edge_id_determines_edge_witness :
  dict_mem (edge_id (sample_edge "a" GENERATES "b" [[("category", VStr "x")]]))
           (_edges two_kinds) = true.
Proof.
  refine (proj2 (proj2 edge_id_determines_edge two_kinds
                   (sample_edge "a" GENERATES "b" [[("category", VStr "x")]])
                   two_kinds_reachable _ eq_refl) _).
  - intros n Hn. apply dict_mem_In in Hn. cbn in Hn.
    destruct Hn as [<-|[<-|[]]]; reflexivity.
  - exists (sample_edge "a" GENERATES "b" []). split; [left; reflexivity|].
    split; [reflexivity|]. split; reflexivity.
Defined.

Lemma occurs_replace_char old new c text :
  occurs c (replace_char old new text)
  = if Ascii.eqb c old then Ascii.eqb new old && occurs old text
    else occurs c text || (Ascii.eqb c new && occurs old text).
Proof.
  induction text as [|a text IH]; cbn [replace_char occurs].
  - destruct (Ascii.eqb c old); rewrite andb_false_r; reflexivity.
  - rewrite IH.
    destruct (Ascii.eqb_spec a old) as [Ea|Ea];
      destruct (Ascii.eqb_spec c old) as [Ec|Ec];
      destruct (Ascii.eqb_spec c new) as [En|En];
      destruct (Ascii.eqb_spec new old) as [Eo|Eo];
      destruct (Ascii.eqb_spec a c) as [Eac|Eac];
      destruct (Ascii.eqb_spec new c) as [Enc|Enc];
      try congruence; subst;
      repeat match goal with
             | |- context [occurs ?x text] => destruct (occurs x text)
             end;
      reflexivity.
Qed.

Lemma replace_char_length old new text :
  String.length (replace_char old new text) = String.length text.
Proof. induction text as [|a text IH]; cbn; [reflexivity | now rewrite IH]. Qed.

Lemma replace_char_absent old new text :
  occurs old text = false -> replace_char old new text = text.
Proof.
  induction text as [|a text IH]; cbn [occurs replace_char]; [reflexivity|].
  intros H. apply orb_false_iff in H. destruct H as [Ha H].
  now rewrite Ha, IH.
Qed.

(** X26 (_sanitise, _node_def): a sanitised text holds no double quote
    and no line feed, is as long as the text, is the text itself when
    the text holds neither, and sanitising it again changes nothing.
    The label of a node is the sanitised name, followed by the tool name
    in brackets when there is one; the tool name is not sanitised, so
    the label, which [_node_def] puts between double quotes, holds a
    double quote or a line feed exactly when the tool name does. *)
Theorem mermaid_label_characters :
  (forall text,
     occurs double_quote (_sanitise text) = false
     /\ occurs newline (_sanitise text) = false
     /\ String.length (_sanitise text) = String.length text
     /\ _sanitise (_sanitise text) = _sanitise text
     /\ (occurs double_quote text = false -> occurs newline text = false ->
         _sanitise text = text))
  /\ (forall node,
        occurs double_quote (node_label node) = occurs double_quote (eda_tool node)
        /\ occurs newline (node_label node) = occurs newline (eda_tool node)
        /\ _node_def node
           = (node_id node ++ fst (MERMAID_SHAPES (node_type node))
              ++ String double_quote (node_label node)
              ++ String double_quote (snd (MERMAID_SHAPES (node_type node))))%string).
Proof.
  assert (Hq : forall text, occurs double_quote (_sanitise text) = false).
  { intros text. unfold _sanitise. rewrite !occurs_replace_char.
    reflexivity. }
  assert (Hn : forall text, occurs newline (_sanitise text) = false).
  { intros text. unfold _sanitise. rewrite occurs_replace_char. reflexivity. }
  assert (Hid : forall text, occurs double_quote text = false ->
                  occurs newline text = false -> _sanitise text = text).
  { intros text H1 H2. unfold _sanitise.
    rewrite (replace_char_absent double_quote _ text H1).
    now apply replace_char_absent. }
  split.
  - intros text. split; [apply Hq|]. split; [apply Hn|]. split; [|split].
    + unfold _sanitise. now rewrite !replace_char_length.
    + apply Hid; [apply Hq | apply Hn].
    + apply Hid.
  - intros node. split; [|split].
    + unfold node_label. destruct (String.eqb_spec (eda_tool node) "") as [->|_];
        [now rewrite Hq|].
      rewrite !occurs_app, Hq. cbn. now rewrite orb_false_r.
    + unfold node_label. destruct (String.eqb_spec (eda_tool node) "") as [->|_];
        [now rewrite Hn|].
      rewrite !occurs_app, Hn. cbn. now rewrite orb_false_r.
    + unfold _node_def. now destruct (MERMAID_SHAPES (node_type node)).
Qed.

Lemma mermaid_label_characters_witness : _sanitise "aes_core" = "aes_core".
Proof.
  apply (proj2 (proj2 (proj2 (proj2 (proj1 mermaid_label_characters "aes_core")))));
    reflexivity.
Defined.

(* ====================================================================== *)
(** * When the validator returns                                            *)
(* ====================================================================== *)

Lemma for_each_returns {A S : Type} (P : S -> Prop) (body : S -> A -> result S)
    (l : list A) :
  (forall s a, In a l -> P s -> exists s', body s a = Ok s' /\ P s') ->
  forall s, P s -> exists s', for_each body l s = Ok s' /\ P s'.
Proof.
  induction l as [|a l IH]; intros Hbody s Hs; cbn [for_each]; [eauto|].
  destruct (Hbody s a (or_introl eq_refl) Hs) as (s1 & -> & Hs1). cbn [bind].
  apply IH; [|exact Hs1]. intros s2 b Hb. apply Hbody. now right.
Qed.

Lemma names_strings_get md k :
  names_are_strings md = true ->
  k = "category" \/ In k (map element_field_in_mapping COVERAGE_CHECKS) ->
  dict_get k md = None \/ exists s, dict_get k md = Some (VStr s).
Proof.
  unfold names_are_strings. rewrite forallb_forall. intros H Hk.
  specialize (H k). cbn [In] in H.
  assert (Hin : "category" = k \/ In k (map element_field_in_mapping COVERAGE_CHECKS))
    by (destruct Hk; [left; now symmetry | now right]).
  specialize (H Hin). destruct (dict_get k md) as [[| | |s| |]|]; try discriminate; eauto.
Qed.

Lemma names_strings_category md :
  names_are_strings md = true -> unhashable_category md = false.
Proof.
  intros H. unfold unhashable_category, dict_get_or.
  destruct (names_strings_get md "category" H (or_introl eq_refl)) as [->|[s ->]];
    cbn; rewrite ?andb_false_r; reflexivity.
Qed.

Lemma forallb_set_add v mapped :
  is_str v = true -> forallb is_str mapped = true ->
  forallb is_str (set_add v mapped) = true.
Proof.
  intros Hv Hm. unfold set_add. destruct (existsb (scalar_eqb v) mapped); [exact Hm|].
  rewrite forallb_app, Hm. cbn. now rewrite Hv.
Qed.

Lemma collect_mapped_strings check (edges : list DependencyEdge) :
  In check COVERAGE_CHECKS ->
  (forall e, In e edges -> forallb names_are_strings (mapping_details e) = true) ->
  exists mapped,
    collect_mapped (check_category check) (element_field_in_mapping check) edges
    = Ok mapped
    /\ forallb is_str mapped = true.
Proof.
  intros Hcheck Hedges. unfold collect_mapped.
  apply (for_each_returns (fun mapped => forallb is_str mapped = true)); [|reflexivity].
  intros mapped e He Hm.
  apply (for_each_returns (fun mapped => forallb is_str mapped = true)); [|exact Hm].
  intros mapped' md Hmd Hm'.
  destruct (has_category (check_category check) md); [|eauto].
  assert (Hnames : names_are_strings md = true).
  { specialize (Hedges e He). rewrite forallb_forall in Hedges. now apply Hedges. }
  destruct (names_strings_get md (element_field_in_mapping check) Hnames) as [Hg|[s Hg]].
  { right. now apply in_map. }
  - unfold dict_get_or. rewrite Hg. cbn. eauto.
  - unfold dict_get_or. rewrite Hg. cbn [truthy hashable].
    destruct (negb (s =? "")); [|eauto].
    eexists. split; [reflexivity|]. now apply forallb_set_add.
Qed.

Lemma sorted_values_strings (l : list pyval) :
  forallb is_str l = true -> exists sorted_l, sorted_values l = Ok sorted_l.
Proof.
  intros H. unfold sorted_values. destruct l as [|a [|b l]]; [eauto | eauto|].
  rewrite H. eauto.
Qed.

Lemma forallb_filter {A : Type} (p q : A -> bool) (l : list A) :
  forallb p l = true -> forallb p (filter q l) = true.
Proof.
  rewrite !forallb_forall. intros H a Ha. apply filter_In in Ha. now apply H.
Qed.

Lemma l3_check_returns g nid node outgoing check :
  In check COVERAGE_CHECKS ->
  (forall e, In e outgoing -> forallb names_are_strings (mapping_details e) = true) ->
  exists items, l3_check g nid node outgoing [] check = Ok items.
Proof.
  intros Hcheck Hout. unfold l3_check.
  destruct (dict_get_or (element_key check) [] (defined_elements node)) as [|x xs];
    [eauto|].
  destruct (filter (is_relevant (all_nodes g) (target_types check)) outgoing)
    as [|e es] eqn:Erel; [eauto|].
  destruct (collect_mapped_strings check (e :: es) Hcheck) as (mapped & -> & Hstr).
  { intros e' He'. apply Hout. rewrite <- Erel in He'. apply filter_In in He'. tauto. }
  cbn [bind]. cbv zeta.
  destruct (sorted_values_strings
              (filter (fun v => negb (is_defined (set_of (x :: xs)) v)) mapped)
              (forallb_filter _ _ _ Hstr)) as [sorted_extra Hsort].
  destruct (filter (fun s => negb (is_mapped mapped s)) (set_of (x :: xs)));
    (destruct (filter (fun v => negb (is_defined (set_of (x :: xs)) v)) mapped);
     [eauto | rewrite Hsort; cbn [bind]; eauto]).
Qed.

(** X27 (validate): on a store whose mapping records have strings for
    their category and for the names of the elements they map, wherever
    they have them, the validator never raises: it returns a report,
    stamped with the reading of the clock, whose items are those of the
    three levels in turn. *)
Theorem validate_returns (g : GraphManager) (now : Z) :
  records_named_by_strings g = true ->
  exists items2 items3,
    _level2_field_completeness g [] = Ok items2
    /\ _level3_element_coverage g [] = Ok items3
    /\ validate g now
       = Ok (mk_report now (_level1_structural g [] ++ items2 ++ items3)).
Proof.
  intros Hnames. unfold records_named_by_strings in Hnames.
  rewrite forallb_forall in Hnames.
  assert (H2 : exists items2, _level2_field_completeness g [] = Ok items2).
  { pose proof (level2_cases g) as H. destruct (existsb _ (all_edges g)) eqn:Ex;
      [|exact H].
    exfalso. apply existsb_exists in Ex. destruct Ex as ([k e] & Hin & Hbad).
    cbn [snd] in Hbad. apply andb_true_iff in Hbad. destruct Hbad as [_ Hbad].
    apply existsb_exists in Hbad. destruct Hbad as (md & Hmd & Hbad).
    assert (He : In e (dict_values (_edges g))) by (apply In_values; eauto).
    specialize (Hnames e He). rewrite forallb_forall in Hnames.
    rewrite (names_strings_category md (Hnames md Hmd)) in Hbad. discriminate. }
  assert (H3 : exists items3, _level3_element_coverage g [] = Ok items3).
  { unfold _level3_element_coverage.
    destruct (for_each_returns (fun _ => True) (l3_node g) (all_nodes g)) with (s := @nil ValidationItem)
      as (items3 & H & _); [|exact I|eauto].
    intros report [nid node] _ _. rewrite l3_node_appends. unfold l3_node at 1.
    destruct (defined_elements node); [cbn [extend]; eauto|].
    destruct (for_each_returns (fun _ => True)
                (l3_check g nid node (get_edges_from g nid)) COVERAGE_CHECKS)
      with (s := @nil ValidationItem) as (items & -> & _); [|exact I|cbn [extend]; eauto].
    intros r check Hcheck _. rewrite l3_check_appends.
    destruct (l3_check_returns g nid node (get_edges_from g nid) check Hcheck)
      as [its ->]; [|cbn [extend]; eauto].
    intros e He. apply Hnames. unfold get_edges_from in He.
    apply filter_In in He. tauto. }
  destruct H2 as [items2 H2]. destruct H3 as [items3 H3]. exists items2, items3.
  split; [exact H2|]. split; [exact H3|].
  unfold validate. rewrite level2_appends, H2. cbn [extend bind app].
  rewrite level3_appends, H3. cbn [extend bind]. now rewrite <- app_assoc.
Qed.

Lemma validate_returns_witness :
  exists items2 items3,
    _level2_field_completeness scenario_a [] = Ok items2
    /\ _level3_element_coverage scenario_a [] = Ok items3
    /\ validate scenario_a 7
       = Ok (mk_report 7 (_level1_structural scenario_a [] ++ items2 ++ items3)).
Proof. apply (validate_returns scenario_a 7). reflexivity. Defined.

(* ---------------------------------------------------------------------- *)
(** ** Chains are shortest paths                                            *)
(* ---------------------------------------------------------------------- *)

Lemma ascending_weaken n n' queue :
  n' <= n -> ascending n queue -> ascending n' queue.
Proof.
  destruct queue as [|e queue]; [auto|]. cbn [ascending]. intros H [H1 H2].
  split; [lia | exact H2].
Qed.

Lemma ascending_head n queue entry :
  ascending n queue -> In entry queue -> n <= length (snd (fst entry)).
Proof.
  revert n. induction queue as [|e queue IH]; intros n H Hin; [destruct Hin|].
  cbn [ascending] in H. destruct H as [H1 H2]. destruct Hin as [<-|Hin]; [exact H1|].
  specialize (IH _ H2 Hin). lia.
Qed.

Lemma ascending_app n k queue new :
  ascending n queue ->
  (forall entry, In entry queue -> length (snd (fst entry)) <= k) ->
  n <= k ->
  (forall entry, In entry new -> length (snd (fst entry)) = k) ->
  ascending n (queue ++ new).
Proof.
  revert n. induction queue as [|e queue IH]; intros n Hasc Hle Hn Hnew; cbn [app].
  - clear Hasc Hle. revert n Hn. induction new as [|e new IHn]; intros n Hn; [exact I|].
    cbn [ascending]. rewrite (Hnew e (or_introl eq_refl)). split; [exact Hn|].
    apply IHn; [|lia]. intros e' He'. apply Hnew. now right.
  - cbn [ascending] in *. destruct Hasc as [H1 H2]. split; [exact H1|].
    apply IH; [exact H2 | | | exact Hnew].
    + intros e' He'. apply Hle. now right.
    + apply Hle. now left.
Qed.

(** A walk that leaves the visited nodes crosses an arc from a visited
    node to one that is not. *)
Lemma walk_crosses adj start (visited : list string) v n :
  In start visited ->
  walk_len adj start v n ->
  ~ In v visited ->
  exists x y k,
    walk_len adj start x k /\ In x visited /\ ~ In y visited
    /\ arc adj x y = true /\ S k <= n.
Proof.
  intros Hstart H. induction H as [|u v n Hu IH Harc]; intros Hv; [contradiction|].
  destruct (in_dec string_dec u visited) as [Hin|Hout].
  - exists u, v, n. auto.
  - destruct (IH Hout) as (x & y & k & H1 & H2 & H3 & H4 & H5).
    exists x, y, k. repeat split; auto.
Qed.

(** The [while] loop, when it returns: every chain it adds has a path
    with the fewest nodes. *)
Lemma bfs_shortest G dir start max_depth :
  forall fuel queue visited all_chains result lens band,
    visited = map fst lens ->
    In start visited ->
    ascending band queue ->
    (forall entry, In entry queue -> length (snd (fst entry)) <= S band) ->
    frontier_len (adjacency G dir) max_depth queue lens ->
    shortest_so_far (adjacency G dir) start lens ->
    bfs fuel G dir start max_depth queue visited all_chains = Some (Ok result) ->
    exists new,
      result = all_chains ++ new
      /\ forall c n,
           In c new ->
           walk_len (adjacency G dir) start (affected_node_id c) n ->
           length (path c) <= n.
Proof.
  induction fuel as [|fuel IH];
    intros queue visited chains result lens band Hvis Hstart Hasc Hband Hfront Hshort;
    [discriminate|].
  cbn [bfs]. destruct queue as [|[[current path] etypes] queue].
  - intros [= <-]. exists []. split; [now rewrite app_nil_r | intros ? ? []].
  - cbn [ascending fst snd] in Hasc. destruct Hasc as [Hlow Hasc].
    assert (Hband' : forall entry, In entry queue ->
              length (snd (fst entry)) <= S (length path)).
    { intros entry Hin. specialize (Hband entry (or_intror Hin)). lia. }
    destruct (existsb (String.eqb current) visited) eqn:Ev; cbn [orb].
    { apply existsb_eqb_In in Ev.
      apply (IH queue visited chains result lens (length path)); try assumption.
      intros u len v Hu Huv.
      destruct (Hfront u len v Hu Huv) as [H|[(entry & [<-|Hin] & <- & Hlen)|H]].
      - now left.
      - left. cbn [fst]. now rewrite <- Hvis.
      - right. left. exists entry. auto.
      - now right; right. }
    destruct (max_depth <? length path)%nat eqn:Ed.
    { apply Nat.ltb_lt in Ed.
      apply (IH queue visited chains result lens (length path)); try assumption.
      intros u len v Hu Huv.
      destruct (Hfront u len v Hu Huv) as [H|[(entry & [<-|Hin] & <- & Hlen)|H]].
      - now left.
      - right. right. cbn [fst snd] in Hlen. lia.
      - right. left. exists entry. auto.
      - now right; right. }
    apply existsb_eqb_not_In in Ev. apply Nat.ltb_ge in Ed.
    rewrite neighbours_adjacency.
    destruct (dict_get current (adjacency G dir)) as [m|] eqn:Hm; [|discriminate].
    cbn [bind].
    destruct (enqueue G dir (current :: visited) current path etypes (dict_keys m) queue)
      as [queue''|e] eqn:Eq; [|discriminate].
    destruct (enqueue_spec _ _ _ _ _ _ _ _ _ Eq) as (added & -> & Hadded & Hall).
    assert (Hmin : forall n, walk_len (adjacency G dir) start current n ->
              length path <= n).
    { intros n Hwalk.
      destruct (walk_crosses _ _ visited _ _ Hstart Hwalk Ev)
        as (x & y & k & Hx & Hxin & Hyout & Hxy & Hk).
      rewrite Hvis in Hxin. apply in_map_iff in Hxin.
      destruct Hxin as ([x' len] & Hfst & Hxin). cbn [fst] in Hfst. subst x'.
      pose proof (Hshort x len k Hxin Hx) as Hlen.
      destruct (Hfront x len y Hxin Hxy) as [H|[(entry & Hin & Hy & Hle)|H]].
      - rewrite <- Hvis in H. contradiction.
      - destruct Hin as [<-|Hin]; cbn [fst snd] in *; [lia|].
        pose proof (ascending_head _ _ _ Hasc Hin). lia.
      - lia. }
    intros Hrec.
    apply (IH _ _ _ _ ((current, length path) :: lens) (length path)) in Hrec.
    + destruct Hrec as (new & -> & Hnew).
      exists (mk_chain start current path etypes (length path - 1) :: new).
      split; [now rewrite <- app_assoc|].
      intros c n [<-|Hc]; [apply Hmin | now apply Hnew].
    + cbn [map fst]. now rewrite Hvis.
    + now right.
    + apply (ascending_app _ (S (length path))); [exact Hasc | exact Hband' | lia |].
      intros entry Hin. destruct (Hadded entry Hin) as (next & et & _ & _ & _ & ->).
      cbn [fst snd]. rewrite length_app. cbn [length]. lia.
    + intros entry Hin. apply in_app_iff in Hin. destruct Hin as [Hin|Hin].
      * now apply Hband'.
      * destruct (Hadded entry Hin) as (next & et & _ & _ & _ & ->).
        cbn [fst snd]. rewrite length_app. cbn [length]. lia.
    + intros u len v [[= <- <-]|Hu] Huv.
      * destruct (in_dec string_dec v (current :: visited)) as [Hv|Hv].
        -- left. cbn [map fst]. now rewrite <- Hvis.
        -- right. left. unfold arc in Huv. rewrite Hm in Huv. apply dict_mem_In in Huv.
           destruct (Hall v Huv Hv) as (entry & Hin & Hf).
           exists entry. split; [apply in_app_iff; now right|]. split; [exact Hf|].
           destruct (Hadded entry Hin) as (next & et & _ & _ & _ & ->).
           cbn [fst snd]. rewrite length_app. cbn [length]. lia.
      * destruct (Hfront u len v Hu Huv) as [H|[(entry & [<-|Hin] & <- & Hlen)|H]].
        -- left. now right.
        -- left. now left.
        -- right. left. exists entry. split; [apply in_app_iff; now left | auto].
        -- now right; right.
    + intros u len n [[= <- <-]|Hu] Hwalk; [now apply Hmin | now apply (Hshort u len n)].
Qed.

Lemma walk_len_of_walk adj start mid :
  forall v, walk adj ((start :: mid) ++ [v]) = true ->
            walk_len adj start v (length ((start :: mid) ++ [v])).
Proof.
  induction mid as [|x mid IH] using rev_ind; intros v H.
  - cbn [app] in H |- *. rewrite walk_cons in H. apply andb_true_iff in H.
    eapply walk_more; [apply walk_one | tauto].
  - assert (Hpre : walk adj ((start :: mid) ++ [x]) = true
                   /\ arc adj x v = true).
    { clear IH. change ((start :: mid ++ [x]) ++ [v])
        with (((start :: mid) ++ [x]) ++ [v]) in H.
      revert H. generalize (start :: mid) as l. intros l.
      induction l as [|a l IHl]; cbn [app]; rewrite ?walk_cons; intros H.
      - apply andb_true_iff in H. cbn in H. split; [reflexivity | tauto].
      - destruct l as [|b l]; cbn [app] in *; rewrite !walk_cons in H |- *;
          apply andb_true_iff in H; destruct H as [H1 H2].
        + rewrite walk_cons in H2. apply andb_true_iff in H2.
          rewrite H1. split; [reflexivity | tauto].
        + rewrite H1. cbn [andb]. apply IHl. exact H2. }
    destruct Hpre as [Hpre Harc].
    change ((start :: mid ++ [x]) ++ [v]) with (((start :: mid) ++ [x]) ++ [v]).
    rewrite length_app. cbn [length]. rewrite Nat.add_1_r.
    eapply walk_more; [exact (IH x Hpre) | exact Harc].
Qed.

(** One traversal, when it returns: its chains are shortest paths. *)
Lemma traverse_shortest G dir start max_depth all_chains result :
  traverse G dir start max_depth all_chains = Some (Ok result) ->
  exists new,
    result = all_chains ++ new
    /\ forall c n,
         In c new ->
         walk_len (adjacency G dir) start (affected_node_id c) n ->
         length (path c) <= n.
Proof.
  unfold traverse. rewrite neighbours_adjacency.
  destruct (dict_get start (adjacency G dir)) as [m|] eqn:Hm; [|discriminate].
  cbn [bind]. rewrite seeds_enqueue.
  destruct (enqueue G dir [] start [start] [] (dict_keys m) []) as [queue|e] eqn:Eq;
    [|discriminate].
  destruct (enqueue_spec _ _ _ _ _ _ _ _ _ Eq) as (seeds & -> & Hseeds & Hall).
  cbn [app].
  assert (Hlen : forall entry, In entry seeds -> length (snd (fst entry)) = 2).
  { intros entry Hin. destruct (Hseeds entry Hin) as (next & et & _ & _ & _ & ->).
    reflexivity. }
  apply (bfs_shortest G dir start max_depth _ seeds [start] all_chains result
           [(start, 1)] 1).
  - reflexivity.
  - now left.
  - apply (ascending_app 1 2 [] seeds); [exact I | intros ? [] | lia | exact Hlen].
  - intros entry Hin. rewrite (Hlen entry Hin). lia.
  - intros u len v [[= <- <-]|[]] Huv. right. left.
    unfold arc in Huv. rewrite Hm in Huv. apply dict_mem_In in Huv.
    destruct (Hall v Huv) as (entry & Hin & Hf); [intros []|].
    exists entry. split; [exact Hin|]. split; [exact Hf|]. rewrite (Hlen entry Hin). lia.
  - intros u len n [[= <- <-]|[]] Hwalk. destruct Hwalk; lia.
Qed.

(** All the traversals, when they return: shape and length of the chains. *)
Lemma propagate_shortest G max_depth include_upstream :
  forall changed_node_ids all_chains result,
    propagate_from G max_depth include_upstream changed_node_ids all_chains
    = Some (Ok result) ->
    exists new,
      result = all_chains ++ new
      /\ forall c, In c new ->
           exists dir,
             (dir = Upstream -> include_upstream = true)
             /\ chain_from G dir (source_node_id c) max_depth c
             /\ forall n,
                  walk_len (adjacency G dir) (source_node_id c) (affected_node_id c) n ->
                  length (path c) <= n.
Proof.
  assert (Hone : forall dir start chains result,
    traverse G dir start max_depth chains = Some (Ok result) ->
    exists new,
      result = chains ++ new
      /\ forall c, In c new ->
           chain_from G dir (source_node_id c) max_depth c
           /\ forall n,
                walk_len (adjacency G dir) (source_node_id c) (affected_node_id c) n ->
                length (path c) <= n).
  { intros dir start chains result H.
    destruct (traverse_sound _ _ _ _ _ _ H) as (new & Hres & Hshape & _).
    destruct (traverse_shortest _ _ _ _ _ _ H) as (new' & Hres' & Hmin).
    assert (new' = new) by (apply (app_inv_head chains); congruence). subst new'.
    exists new. split; [exact Hres|]. intros c Hc.
    pose proof (Hshape c Hc) as Hs.
    assert (Hsrc : source_node_id c = start) by (destruct Hs as (Hsrc & _); exact Hsrc).
    rewrite Hsrc. split; [exact Hs|].
    intros n Hn. now apply Hmin. }
  induction changed_node_ids as [|start rest IH]; intros chains result;
    cbn [propagate_from].
  - intros [= <-]. exists []. split; [now rewrite app_nil_r | intros ? []].
  - destruct (nx_has_node G start); cbn [negb]; [|apply IH].
    destruct (traverse G Downstream start max_depth chains) as [[c1|e]|] eqn:Edown;
      try discriminate.
    cbn [pbind]. destruct (Hone _ _ _ _ Edown) as (new1 & -> & Hnew1).
    destruct (if include_upstream
              then traverse G Upstream start max_depth (chains ++ new1)
              else Some (Ok (chains ++ new1))) as [[c2|e]|] eqn:Eup; try discriminate.
    cbn [pbind].
    assert (Hup : exists new2,
      c2 = (chains ++ new1) ++ new2
      /\ forall c, In c new2 ->
           include_upstream = true
           /\ chain_from G Upstream (source_node_id c) max_depth c
           /\ forall n,
                walk_len (adjacency G Upstream) (source_node_id c)
                         (affected_node_id c) n ->
                length (path c) <= n).
    { destruct include_upstream.
      - destruct (Hone _ _ _ _ Eup) as (new2 & -> & Hnew2). exists new2.
        split; [reflexivity|]. intros c Hc. split; [reflexivity | now apply Hnew2].
      - injection Eup as <-. exists []. split; [now rewrite app_nil_r | intros ? []]. }
    destruct Hup as (new2 & -> & Hnew2).
    intros H. destruct (IH _ _ H) as (new3 & -> & Hnew3).
    exists (new1 ++ new2 ++ new3). split; [now rewrite <- !app_assoc|].
    intros c Hc. apply in_app_iff in Hc. destruct Hc as [Hc|Hc];
      [|apply in_app_iff in Hc; destruct Hc as [Hc|Hc]].
    + exists Downstream. split; [discriminate | now apply Hnew1].
    + destruct (Hnew2 c Hc) as (Hyes & Hrest). exists Upstream. auto.
    + now apply Hnew3.
Qed.

(** X28 (propagate_impact): on a store built by the mutators, the path of
    every chain is a shortest one: it is a walk from the changed node to
    the affected node along the arcs (against them for the upstream
    traversal), of [depth] hops, and no walk between the two has fewer
    hops. *)
Theorem impact_chains_shortest
    (g : GraphManager) (changed_node_ids : list string) (max_depth : nat)
    (include_upstream : bool) :
  reachable g ->
  exists chains,
    propagate_impact g changed_node_ids max_depth include_upstream = Some (Ok chains)
    /\ forall c, In c chains ->
         exists dir,
           (dir = Upstream -> include_upstream = true)
           /\ walk_len (adjacency (_graph g) dir)
                       (source_node_id c) (affected_node_id c) (S (depth c))
           /\ forall n,
                walk_len (adjacency (_graph g) dir)
                         (source_node_id c) (affected_node_id c) n ->
                S (depth c) <= n.
Proof.
  intros Hr. pose proof (reachable_wf g Hr) as Hwf.
  destruct (propagate_from_returns (_graph g) max_depth include_upstream (wf_graph Hwf)
              changed_node_ids []) as [chains Hchains].
  exists chains. unfold propagate_impact. split; [exact Hchains|].
  destruct (propagate_shortest _ _ _ _ _ _ Hchains) as (new & -> & Hnew). cbn [app].
  intros c Hc. destruct (Hnew c Hc) as (dir & Hdir & Hshape & Hmin).
  exists dir. split; [exact Hdir|].
  destruct Hshape as (_ & _ & (mid & Hp) & _ & Hw & _ & Hdepth & _).
  rewrite Hdepth. split; [|exact Hmin].
  rewrite Hp in Hw |- *. now apply walk_len_of_walk.
Qed.

Lemma impact_chains_shortest_witness :
  exists chains,
    propagate_impact scanned ["sdc_main"] 50 true = Some (Ok chains)
    /\ map depth chains = [1; 2].
Proof.
  destruct (impact_chains_shortest scanned ["sdc_main"] 50 true scanned_reachable)
    as (chains & Hrun & _).
  exists chains. split; [exact Hrun|].
  assert (Heq : Some (Ok chains) = propagate_impact scanned ["sdc_main"] 50 true)
    by (symmetry; exact Hrun).
  vm_compute in Heq. injection Heq as ->. reflexivity.
Defined.

(* ====================================================================== *)
(** * Loading keeps every record                                            *)
(* ====================================================================== *)

Lemma dict_values_app {V : Type} (d d' : dict V) :
  dict_values (d ++ d') = dict_values d ++ dict_values d'.
Proof. unfold dict_values. apply map_app. Qed.

(** The first loop of [load], when it returns. *)
Lemma load_loop_nodes (nds : list pyval) :
  forall g0 g1,
    pfor_each (fun gm nd => node <~ node_of_record nd ;;
                            known (returned (add_node node gm)))
              nds g0 = Some (Ok g1) ->
    exists nodes,
      map_partial node_of_record nds = Some (Ok nodes)
      /\ _nodes g1 = _nodes g0 ++ map (fun n => (node_id n, n)) nodes
      /\ _edges g1 = _edges g0
      /\ (forall n, In n nodes -> dict_mem (node_id n) (_nodes g0) = false)
      /\ NoDup (map node_id nodes).
Proof.
  induction nds as [|nd nds IH]; intros g0 g1; cbn [pfor_each map_partial].
  - intros [= <-]. exists []. cbn [map]. rewrite app_nil_r.
    split; [reflexivity|]. split; [reflexivity|]. split; [reflexivity|].
    split; [intros ? [] | constructor].
  - destruct (node_of_record nd) as [[node|e]|]; try discriminate. cbn [pbind].
    destruct (dict_mem (node_id node) (_nodes g0)) eqn:Hmem.
    { unfold add_node. rewrite Hmem. discriminate. }
    rewrite (add_node_new _ _ Hmem). cbn [returned known pbind]. intros H.
    destruct (IH _ _ H) as (nodes & -> & Hn & He & Hfresh & Hnd). cbn [_nodes _edges] in *.
    exists (node :: nodes). cbn [pbind map]. split; [reflexivity|].
    rewrite dict_set_new in Hn, Hfresh by exact Hmem.
    split; [now rewrite Hn, <- app_assoc|]. split; [exact He|].
    assert (Hother : forall n, In n nodes -> node_id n <> node_id node
                                /\ dict_mem (node_id n) (_nodes g0) = false).
    { intros n Hin. specialize (Hfresh n Hin).
      apply dict_mem_false in Hfresh. unfold dict_keys in Hfresh.
      rewrite map_app, in_app_iff in Hfresh. cbn in Hfresh. split.
      - intros Heq. apply Hfresh. right. left. now symmetry.
      - apply dict_mem_false. intros Hk. apply Hfresh. now left. }
    split.
    + intros n [<-|Hin]; [exact Hmem | now apply Hother].
    + constructor; [|exact Hnd]. intros Hin. apply in_map_iff in Hin.
      destruct Hin as (n & Heq & Hin). now destruct (Hother n Hin).
Qed.

(** The second loop of [load], when it returns. *)
Lemma load_loop_edges (eds : list pyval) :
  forall g0 g1,
    pfor_each (fun gm ed => edge <~ edge_of_record ed ;;
                            known (returned (add_edge edge gm)))
              eds g0 = Some (Ok g1) ->
    exists edges,
      map_partial edge_of_record eds = Some (Ok edges)
      /\ _nodes g1 = _nodes g0
      /\ _edges g1 = _edges g0 ++ map (fun e => (edge_id e, e)) edges
      /\ (forall e, In e edges ->
            dict_mem (source_id e) (_nodes g0) = true
            /\ dict_mem (target_id e) (_nodes g0) = true
            /\ dict_mem (edge_id e) (_edges g0) = false)
      /\ NoDup (map edge_id edges).
Proof.
  induction eds as [|ed eds IH]; intros g0 g1; cbn [pfor_each map_partial].
  - intros [= <-]. exists []. cbn [map]. rewrite app_nil_r.
    split; [reflexivity|]. split; [reflexivity|]. split; [reflexivity|].
    split; [intros ? [] | constructor].
  - destruct (edge_of_record ed) as [[edge|e]|]; try discriminate. cbn [pbind].
    destruct (dict_mem (source_id edge) (_nodes g0)) eqn:Hs;
      [|unfold add_edge; rewrite Hs; discriminate].
    destruct (dict_mem (target_id edge) (_nodes g0)) eqn:Ht;
      [|unfold add_edge; rewrite Hs, Ht; discriminate].
    destruct (dict_mem (edge_id edge) (_edges g0)) eqn:Hmem;
      [unfold add_edge; rewrite Hs, Ht, Hmem; discriminate|].
    rewrite (add_edge_new _ _ Hs Ht Hmem). cbn [returned known pbind]. intros H.
    destruct (IH _ _ H) as (edges & -> & Hn & He & Hends & Hnd). cbn [_nodes _edges] in *.
    exists (edge :: edges). cbn [pbind map]. split; [reflexivity|]. split; [exact Hn|].
    rewrite dict_set_new in He, Hends by exact Hmem.
    split; [now rewrite He, <- app_assoc|].
    assert (Hother : forall e, In e edges ->
              edge_id e <> edge_id edge /\ dict_mem (edge_id e) (_edges g0) = false).
    { intros e Hin. destruct (Hends e Hin) as (_ & _ & Hfresh).
      apply dict_mem_false in Hfresh. unfold dict_keys in Hfresh.
      rewrite map_app, in_app_iff in Hfresh. cbn in Hfresh. split.
      - intros Heq. apply Hfresh. right. left. now symmetry.
      - apply dict_mem_false. intros Hk. apply Hfresh. now left. }
    split.
    + intros e [<-|Hin]; [auto|]. destruct (Hends e Hin) as (H1 & H2 & _).
      split; [exact H1|]. split; [exact H2 | now apply Hother].
    + constructor; [|exact Hnd]. intros Hin. apply in_map_iff in Hin.
      destruct Hin as (e & Heq & Hin). now destruct (Hother e Hin).
Qed.

Lemma subscript_Ok data k v :
  subscript data k = Ok v -> exists d, data = VDict d /\ dict_get k d = Some v.
Proof.
  unfold subscript, getitem.
  destruct data as [| | | | |d]; cbn [subscriptable bind]; try discriminate.
  destruct (dict_get k d) as [v'|] eqn:E; [|discriminate].
  intros [= ->]. exists d. split; [reflexivity | exact E].
Qed.

(** X29 (load): [load] raises [FileNotFoundError] when there is no file
    at the path.  When it returns a store, from a snapshot whose fields
    have the JSON types of their annotations, nothing of the file has
    been dropped or merged: the nodes of the store are the node records
    that the loop over [data["nodes"]] meets, read one by one and in
    their order, and likewise the edges; the node ids of the file are
    distinct, its edge ids are distinct, and both endpoints of every edge
    are nodes of the file. *)
Theorem load_keeps_every_record (path : string) (fs : jsonfs) :
  (fs path = None -> exists msg, load path fs = Some (Raise (FileNotFoundError msg)))
  /\ forall g,
       load path fs = Some (Ok g) ->
       exists data v_nodes v_edges nds eds,
         fs path = Some (VDict data)
         /\ dict_get "nodes" data = Some v_nodes
         /\ iterate v_nodes = Ok nds
         /\ dict_get "edges" data = Some v_edges
         /\ iterate v_edges = Ok eds
         /\ map_partial node_of_record nds = Some (Ok (dict_values (_nodes g)))
         /\ map_partial edge_of_record eds = Some (Ok (dict_values (_edges g)))
         /\ NoDup (map node_id (dict_values (_nodes g)))
         /\ NoDup (map edge_id (dict_values (_edges g)))
         /\ forall e, In e (dict_values (_edges g)) ->
              In (source_id e) (map node_id (dict_values (_nodes g)))
              /\ In (target_id e) (map node_id (dict_values (_nodes g))).
Proof.
  split.
  - intros H. unfold load. rewrite H. eauto.
  - intros g. unfold load. destruct (fs path) as [data0|]; [|discriminate].
    destruct (subscript data0 "nodes") as [v_nodes|] eqn:Hgn; [|discriminate].
    cbn [known pbind].
    destruct (iterate v_nodes) as [nds|] eqn:Hin; [|discriminate]. cbn [pbind].
    destruct (pfor_each _ nds gm_init) as [[gm|e]|] eqn:Enodes; try discriminate.
    cbn [pbind].
    destruct (subscript data0 "edges") as [v_edges|] eqn:Hge; [|discriminate].
    cbn [pbind].
    destruct (iterate v_edges) as [eds|] eqn:Hie; [|discriminate]. cbn [pbind].
    intros Hedges.
    apply subscript_Ok in Hgn. destruct Hgn as (data & -> & Hgn).
    apply subscript_Ok in Hge. destruct Hge as (data' & [= <-] & Hge).
    destruct (load_loop_nodes _ _ _ Enodes) as (nodes & Hnodes & Hn & _ & _ & Hndn).
    destruct (load_loop_edges _ _ _ Hedges) as (edges & Hedg & Hn' & He & Hends & Hnde).
    cbn [_nodes _edges gm_init app] in Hn. unfold dict_empty in Hn. cbn [app] in Hn.
    assert (He0 : _edges gm = []).
    { destruct (load_loop_nodes _ _ _ Enodes) as (_ & _ & _ & H & _). exact H. }
    rewrite He0 in He. unfold dict_empty in He. cbn [app] in He.
    assert (Hvn : dict_values (_nodes g) = nodes).
    { rewrite Hn', Hn. unfold dict_values. rewrite map_map. cbn [snd]. apply map_id. }
    assert (Hve : dict_values (_edges g) = edges).
    { rewrite He. unfold dict_values. rewrite map_map. cbn [snd]. apply map_id. }
    exists data, v_nodes, v_edges, nds, eds. rewrite Hvn, Hve.
    split; [reflexivity|]. split; [exact Hgn|]. split; [exact Hin|].
    split; [exact Hge|]. split; [exact Hie|].
    split; [exact Hnodes|]. split; [exact Hedg|]. split; [exact Hndn|].
    split; [exact Hnde|].
    intros e0 Hin0. destruct (Hends e0 Hin0) as (Hs & Ht & _).
    rewrite Hn in Hs, Ht. apply dict_mem_In in Hs, Ht.
    unfold dict_keys in Hs, Ht. rewrite map_map in Hs, Ht. cbn [fst] in Hs, Ht. auto.
Qed.

Lemma load_keeps_every_record_witness :
  (exists msg,
     load "missing.json" (fun _ => None) = Some (Raise (FileNotFoundError msg)))
  /\ exists g,
       load "g.json" one_node_file = Some (Ok g)
       /\ NoDup (map node_id (dict_values (_nodes g))).
Proof.
  split.
  - apply (proj1 (load_keeps_every_record "missing.json" (fun _ => None))). reflexivity.
  - eexists. split; [reflexivity|].
    destruct (proj2 (load_keeps_every_record "g.json" one_node_file) _ eq_refl)
      as (data & v_nodes & v_edges & nds & eds & _ & _ & _ & _ & _ & _ & _ & Hnd & _).
    exact Hnd.
Defined.

(** [load] on snapshots of other shapes.  An entry [nodes] that is an
    empty dictionary gives the empty store; the loop over a dictionary
    that is not empty meets its keys, and a subscript on a string raises;
    so does a subscript on a document that is a list.  A record without
    [name] raises [KeyError] even when its [node_id] is a number; an
    unknown node type raises [ValueError] with the text of the string.
    A record whose [name] is a number is one that the code accepts: the
    model, whose nodes have strings for names, does not follow it. *)
Lemma load_on_other_snapshots :
  load "g.json" (snapshot (nodes_only (VDict []))) = Some (Ok gm_init)
  /\ load "g.json" (snapshot (nodes_only (VDict [("a", VInt 1)])))
     = Some (Raise (TypeError "string indices must be integers, not 'str'"))
  /\ load "g.json" (snapshot (VList []))
     = Some (Raise (TypeError "list indices must be integers or slices, not str"))
  /\ load "g.json" (snapshot (nodes_only VNone))
     = Some (Raise (TypeError "'NoneType' object is not iterable"))
  /\ load "g.json" (snapshot (VDict [("nodes", VList [])]))
     = Some (Raise (KeyError "edges"))
  /\ load "g.json" (snapshot (nodes_only (VList [VDict [("node_id", VInt 5)]])))
     = Some (Raise (KeyError "name"))
  /\ load "g.json"
       (snapshot (nodes_only (VList [VDict (dict_set "node_type" (VStr "foo") record_a)])))
     = Some (Raise (ValueError "'foo' is not a valid NodeType"))
  /\ load "g.json"
       (snapshot (nodes_only (VList [VDict (dict_set "name" (VInt 5) record_a)])))
     = None.
Proof. repeat split. Qed.

(* ====================================================================== *)
(** * The items of a report                                                 *)
(* ====================================================================== *)

(** Membership in the result of a loop whose body only appends, or
    raises. *)
Lemma for_each_items {A : Type}
    (f : list ValidationItem -> A -> result (list ValidationItem)) (l : list A) :
  (forall r a, f r a = extend r (f [] a)) ->
  forall items,
    for_each f l [] = Ok items ->
    forall i, In i items -> exists a its, In a l /\ f [] a = Ok its /\ In i its.
Proof.
  intros Hf. induction l as [|a l IH]; intros items; cbn [for_each].
  - intros [= <-] i [].
  - destruct (f [] a) as [its|e] eqn:E; [|discriminate]. cbn [bind].
    rewrite (for_each_appending f l Hf).
    destruct (for_each f l []) as [rest|e] eqn:Erest; [|discriminate].
    cbn [extend]. intros [= <-] i Hi. apply in_app_iff in Hi. destruct Hi as [Hi|Hi].
    + exists a, its. split; [now left | auto].
    + destruct (IH rest eq_refl i Hi) as (b & its' & Hb & Hfb & Hin).
      exists b, its'. split; [now right | auto].
Qed.

Lemma schema_categories src tgt schemas sc :
  EXPECTED_MAPPING_FIELDS src tgt = Some schemas ->
  In sc schemas ->
  proper_category (category_of sc) = true.
Proof.
  destruct src, tgt; try discriminate; intros [= <-] H; cbn [In] in H;
    repeat (destruct H as [<-|H]; [reflexivity|]); destruct H.
Qed.

Lemma expected_output_keys key t :
  In t (dict_get_or key [] IPXACT_ELEMENT_EXPECTED_OUTPUTS) ->
  proper_category key = true.
Proof.
  unfold dict_get_or, IPXACT_ELEMENT_EXPECTED_OUTPUTS. cbn [dict_get].
  repeat match goal with
         | |- context [if key =? ?k then _ else _] =>
             destruct (String.eqb_spec key k) as [->|_]; [reflexivity|]
         end.
  intros [].
Qed.

Lemma coverage_check_categories check :
  In check COVERAGE_CHECKS -> proper_category (check_category check) = true.
Proof.
  intros H. cbn in H. repeat (destruct H as [<-|H]; [reflexivity|]). destruct H.
Qed.

(** What an item has to be for the summary to file it under a mapping
    category, and never under the name of a level. *)
Lemma l2_schema_items edge src tgt sc item :
  In item (l2_schema edge src tgt [] sc) ->
  category item = "field_level"
  /\ item_node item = source_id edge
  /\ item_target item = target_id edge
  /\ mapping_category item = category_of sc
  /\ severity item <> INFO.
Proof.
  unfold l2_schema.
  destruct (filter (has_category (category_of sc)) (mapping_details edge)) as [|md l].
  - destruct (conditional sc); intros [<-|[]]; repeat split; discriminate.
  - rewrite (fold_left_appending _ _ (l2_entry_appends edge src tgt sc)). cbn [app].
    rewrite (flat_map_singletons _ _ _ (l2_entry_single edge src tgt sc)).
    intros H. apply in_map_iff in H. destruct H as ([idx entry] & <- & _). cbn [fst snd].
    destruct (filter (field_missing entry) (required_fields sc));
      repeat split; discriminate.
Qed.

Lemma l2_edge_items g k edge items item :
  l2_edge g [] (k, edge) = Ok items ->
  In item items ->
  category item = "field_level"
  /\ item_node item = source_id edge
  /\ item_target item = target_id edge
  /\ dict_mem (source_id edge) (_nodes g) = true
  /\ dict_mem (target_id edge) (_nodes g) = true
  /\ ((severity item = INFO /\ mapping_category item = "")
      \/ (severity item <> INFO /\ proper_category (mapping_category item) = true)).
Proof.
  unfold l2_edge, all_nodes, dict_mem. cbn [snd].
  destruct (dict_get (source_id edge) (_nodes g)) as [src|]; [|intros [= <-] []].
  destruct (dict_get (target_id edge) (_nodes g)) as [tgt|]; [|intros [= <-] []].
  destruct (EXPECTED_MAPPING_FIELDS (node_type src) (node_type tgt))
    as [[|sc schemas]|] eqn:Etable.
  - intros [= <-] [<-|[]]. repeat split. now left.
  - destruct (present_categories (mapping_details edge)); [|discriminate].
    cbn [bind]. intros [= <-].
    rewrite (fold_left_appending _ _ (l2_schema_appends edge src tgt)).
    change (l2_schema edge src tgt [] sc ++ flat_map (l2_schema edge src tgt []) schemas)
      with (flat_map (l2_schema edge src tgt []) (sc :: schemas)).
    intros H. apply in_flat_map in H. destruct H as (sc' & Hsc & Hitem).
    apply l2_schema_items in Hitem. destruct Hitem as (H1 & H2 & H3 & H4 & H5).
    repeat split; auto. right. split; [exact H5|]. rewrite H4.
    now apply (schema_categories _ _ _ sc' Etable).
  - intros [= <-] [<-|[]]. repeat split. now left.
Qed.

Lemma l3_check_items g nid node outgoing check items item :
  l3_check g nid node outgoing [] check = Ok items ->
  In item items ->
  category item = "element_coverage"
  /\ item_node item = nid
  /\ item_target item = ""
  /\ mapping_category item = check_category check
  /\ severity item <> INFO.
Proof.
  unfold l3_check.
  destruct (dict_get_or (element_key check) [] (defined_elements node)) as [|x xs];
    [intros [= <-] []|].
  destruct (filter (is_relevant (all_nodes g) (target_types check)) outgoing);
    [intros [= <-] []|].
  destruct (collect_mapped _ _ _) as [mapped|e]; [|discriminate]. cbn [bind]. cbv zeta.
  destruct (filter (fun s => negb (is_mapped mapped s)) (set_of (x :: xs)));
    (destruct (filter (fun v => negb (is_defined (set_of (x :: xs)) v)) mapped);
     [intros [= <-] [<-|[]]; repeat split; discriminate|];
     destruct (sorted_values _) as [sorted_extra|e]; [|discriminate];
     cbn [bind app]; intros [= <-] [<-|[<-|[]]]; repeat split; discriminate).
Qed.

Lemma dict_get_rows (d : dict (nat * nat)) cat :
  dict_get cat
    (map (fun kv => let '(c, (p, f)) := kv in
                    (c, mk_category_stats p f (percent_of p (p + f)))) d)
  = option_map (fun pf => mk_category_stats (fst pf) (snd pf)
                            (percent_of (fst pf) (fst pf + snd pf)))
               (dict_get cat d).
Proof.
  induction d as [|[c [p f]] d IH]; simpl; [reflexivity|].
  destruct (cat =? c); [reflexivity | apply IH].
Qed.

Lemma in_category_none s cat l :
  (forall i, In i l -> severity i = s -> reported_category i <> cat) ->
  in_category s cat l = [].
Proof.
  intros H. unfold in_category. apply filter_false. intros i Hi.
  destruct (Severity_eqb (severity i) s) eqn:Es; [|reflexivity]. cbn [andb].
  apply String.eqb_neq. apply H; [exact Hi|].
  destruct (severity i), s; (reflexivity || discriminate).
Qed.

(** X30 (validate, summary): in a report that the validator returns,
    every item belongs to one of the three levels and names a node of the
    store, and its target, if it has one, is a node of the store as well.
    An INFO item comes from Level 2 and has no mapping category; every
    other item of Levels 2 and 3, and every PASS or FAIL of Level 1, has
    a mapping category that is not empty and is no name of a level.  The
    per-category table of the summary therefore has no row under the
    name of a level: Level-1 results are filed under element categories,
    those of Levels 2 and 3 under mapping categories. *)
Theorem validate_items_well_formed
    (g : GraphManager) (now : Z) (r : ValidationReport) :
  validate g now = Ok r ->
  (forall item, In item (items r) ->
     In (category item) LEVEL_NAMES
     /\ dict_mem (item_node item) (_nodes g) = true
     /\ (item_target item = "" \/ dict_mem (item_target item) (_nodes g) = true)
     /\ (severity item = INFO -> category item = "field_level"
                                 /\ mapping_category item = "")
     /\ (severity item = PASS \/ severity item = FAIL ->
         proper_category (mapping_category item) = true
         /\ reported_category item = mapping_category item))
  /\ forall level, In level LEVEL_NAMES ->
       dict_get level (s_category_coverage (summary r)) = None.
Proof.
  intros Hrun.
  assert (Hitems : forall item, In item (items r) ->
     In (category item) LEVEL_NAMES
     /\ dict_mem (item_node item) (_nodes g) = true
     /\ (item_target item = "" \/ dict_mem (item_target item) (_nodes g) = true)
     /\ (severity item = INFO -> category item = "field_level"
                                 /\ mapping_category item = "")
     /\ (severity item = PASS \/ severity item = FAIL ->
         proper_category (mapping_category item) = true)).
  { unfold validate in Hrun. rewrite level2_appends in Hrun.
    destruct (_level2_field_completeness g []) as [items2|e] eqn:E2; [|discriminate].
    cbn [extend bind] in Hrun. rewrite level3_appends in Hrun.
    destruct (_level3_element_coverage g []) as [items3|e] eqn:E3; [|discriminate].
    cbn [extend bind] in Hrun. injection Hrun as <-. cbn [items].
    intros item Hin. rewrite <- app_assoc in Hin. apply in_app_iff in Hin.
    destruct Hin as [Hin|Hin]; [|apply in_app_iff in Hin; destruct Hin as [Hin|Hin]].
    - rewrite level1_flat in Hin. cbn [app] in Hin. apply in_flat_map in Hin.
      destruct Hin as ([nid node] & Hnode & Hitem). apply l1_node_In in Hitem.
      assert (Hmem : dict_mem nid (_nodes g) = true).
      { apply dict_mem_In. change nid with (fst (nid, node)). now apply in_map. }
      destruct Hitem as [_ [[_ ->]|(key & values & t & _ & _ & Ht & _ & ->)]].
      + cbn. split; [auto|]. split; [exact Hmem|]. split; [auto|].
        split; [discriminate | intros [H|H]; discriminate H].
      + pose proof (expected_output_keys key t Ht) as Hkey.
        destruct (existsb _ _); cbn; (split; [auto|]); (split; [exact Hmem|]);
          (split; [auto|]); (split; [discriminate | intros _; exact Hkey]).
    - unfold _level2_field_completeness in E2.
      destruct (for_each_items (l2_edge g) (all_edges g) (l2_edge_appends g) items2 E2
                  item Hin) as ([k edge] & its & _ & Hedge & Hits).
      destruct (l2_edge_items g k edge its item Hedge Hits)
        as (Hc & Hn & Ht & Hs & Hd & Hsev).
      rewrite Hc, Hn, Ht. split; [cbn; auto|]. split; [exact Hs|]. split; [auto|].
      destruct Hsev as [[Hinfo Hcat]|[Hnot Hcat]].
      + split; [auto|]. rewrite Hinfo. intros [H|H]; discriminate H.
      + split; [intros H; contradiction | intros _; exact Hcat].
    - unfold _level3_element_coverage in E3.
      destruct (for_each_items (l3_node g) (all_nodes g) (l3_node_appends g) items3 E3
                  item Hin) as ([nid node] & its & Hnode & Hnd & Hits).
      assert (Hmem : dict_mem nid (_nodes g) = true).
      { apply dict_mem_In. change nid with (fst (nid, node)). now apply in_map. }
      unfold l3_node in Hnd. destruct (defined_elements node) eqn:Edef;
        [injection Hnd as <-; destruct Hits|].
      destruct (for_each_items (l3_check g nid node (get_edges_from g nid))
                  COVERAGE_CHECKS (l3_check_appends g nid node _) its Hnd item Hits)
        as (check & its' & Hcheck & Hck & Hits').
      destruct (l3_check_items g nid node _ check its' item Hck Hits')
        as (Hc & Hn & Ht & Hm & Hsev).
      rewrite Hc, Hn, Ht, Hm. split; [cbn; auto|]. split; [exact Hmem|].
      split; [auto|]. split; [intros H; contradiction|].
      intros _. now apply coverage_check_categories. }
  assert (Hrep : forall item, In item (items r) ->
            severity item = PASS \/ severity item = FAIL ->
            proper_category (mapping_category item) = true
            /\ reported_category item = mapping_category item).
  { intros item Hin Hsev. destruct (Hitems item Hin) as (_ & _ & _ & _ & H).
    specialize (H Hsev). split; [exact H|]. unfold reported_category.
    destruct (String.eqb_spec (mapping_category item) "") as [E|_]; [|reflexivity].
    rewrite E in H. discriminate H. }
  split.
  - intros item Hin. destruct (Hitems item Hin) as (H1 & H2 & H3 & H4 & _).
    repeat split; try assumption; try (now apply H4); now apply Hrep.
  - intros level Hlevel. unfold summary. cbn [s_category_coverage].
    rewrite cat_stats_is_fold, dict_get_rows, cat_fold_get. cbv zeta. cbn [dict_get].
    assert (Hnone : forall s, s = PASS \/ s = FAIL ->
              in_category s level (items r) = []).
    { intros s Hs. apply in_category_none. intros item Hin Hsev Heq.
      destruct (Hrep item Hin) as [Hproper Hrc]; [rewrite Hsev; exact Hs|].
      rewrite Hrc in Heq. rewrite Heq in Hproper.
      cbn in Hlevel. destruct Hlevel as [<-|[<-|[<-|[]]]]; discriminate Hproper. }
    rewrite (Hnone PASS), (Hnone FAIL) by auto. reflexivity.
Qed.

Lemma validate_items_well_formed_witness :
  exists r,
    validate scenario_a 7 = Ok r
    /\ dict_get "structural" (s_category_coverage (summary r)) = None
    /\ dict_get "field_level" (s_category_coverage (summary r)) = None.
Proof.
  eexists. split; [reflexivity|].
  pose proof (proj2 (validate_items_well_formed scenario_a 7 _ eq_refl)) as H.
  split; apply H; [left | right; left]; reflexivity.
Defined.

(* ====================================================================== *)
(** * The validator does not depend on the iteration order of its sets     *)
(* ====================================================================== *)

Lemma string_leb_trans a : forall b c,
  String.leb a b = true -> String.leb b c = true -> String.leb a c = true.
Proof.
  unfold String.leb.
  induction a as [|x a IH]; intros [|y b] [|z c]; cbn [String.compare]; try easy.
  unfold Ascii.compare.
  destruct (N.compare_spec (N_of_ascii x) (N_of_ascii y)) as [Hxy|Hxy|Hxy];
    destruct (N.compare_spec (N_of_ascii y) (N_of_ascii z)) as [Hyz|Hyz|Hyz];
    destruct (N.compare_spec (N_of_ascii x) (N_of_ascii z)) as [Hxz|Hxz|Hxz];
    try easy; try lia.
  apply IH.
Qed.

Section SortFacts.
Variable A : Type.
Variable leb : A -> A -> bool.
Hypothesis leb_total : forall a b, leb a b = true \/ leb b a = true.
Hypothesis leb_trans : forall a b c, leb a b = true -> leb b c = true -> leb a c = true.

Lemma insert_by_sorted x l :
  StronglySorted (fun a b => leb a b = true) l ->
  StronglySorted (fun a b => leb a b = true) (insert_by leb x l).
Proof.
  induction 1 as [|y l Hl IH Hy]; cbn [insert_by].
  - constructor; constructor.
  - destruct (leb x y) eqn:E.
    + constructor; [now constructor|]. constructor; [exact E|].
      revert Hy. apply Forall_impl. intros z. now apply leb_trans.
    + constructor; [exact IH|].
      eapply Permutation_Forall; [symmetry; apply insert_by_perm|].
      constructor; [|exact Hy]. destruct (leb_total x y); congruence.
Qed.

Lemma sort_by_sorted l : StronglySorted (fun a b => leb a b = true) (sort_by leb l).
Proof.
  induction l as [|x l IH]; cbn [sort_by fold_right]; [constructor|].
  now apply insert_by_sorted.
Qed.

Lemma sorted_unique l1 :
  forall l2,
    (forall a b, In a l1 -> In b l1 -> leb a b = true -> leb b a = true -> a = b) ->
    StronglySorted (fun a b => leb a b = true) l1 ->
    StronglySorted (fun a b => leb a b = true) l2 ->
    Permutation l1 l2 ->
    l1 = l2.
Proof.
  induction l1 as [|a l1 IH]; intros l2 Hanti H1 H2 Hp.
  - apply Permutation_nil in Hp. now subst.
  - destruct l2 as [|b l2]; [apply Permutation_sym, Permutation_nil in Hp; discriminate|].
    inversion H1 as [|? ? H1' Ha]; subst. inversion H2 as [|? ? H2' Hb]; subst.
    assert (Hab : a = b).
    { assert (Hina : In a (b :: l2)) by (apply (Permutation_in _ Hp); now left).
      assert (Hinb : In b (a :: l1))
        by (apply (Permutation_in _ (Permutation_sym Hp)); now left).
      destruct Hina as [->|Hina]; [reflexivity|].
      destruct Hinb as [->|Hinb]; [reflexivity|].
      rewrite Forall_forall in Ha, Hb.
      apply Hanti; [now left | now right | now apply Ha | now apply Hb]. }
    subst b. f_equal. apply IH; [| exact H1' | exact H2' | now apply Permutation_cons_inv in Hp].
    intros x y Hx Hy. apply Hanti; now right.
Qed.

Lemma sort_by_of_permutation l l' :
  (forall a b, In a l -> In b l -> leb a b = true -> leb b a = true -> a = b) ->
  Permutation l' l ->
  sort_by leb l' = sort_by leb l.
Proof.
  intros Hanti Hp. symmetry. apply sorted_unique; try apply sort_by_sorted.
  - intros a b Ha Hb. apply Hanti; apply (Permutation_in _ (sort_by_perm leb l));
      assumption.
  - rewrite sort_by_perm. symmetry. now rewrite sort_by_perm.
Qed.
End SortFacts.

Lemma sorted_of_permutation l l' : Permutation l' l -> sorted l' = sorted l.
Proof.
  intros Hp. unfold sorted. apply sort_by_of_permutation.
  - apply String.leb_total.
  - apply string_leb_trans.
  - intros a b _ _. apply String.leb_antisym.
  - exact Hp.
Qed.

Lemma existsb_of_permutation {A : Type} (p : A -> bool) l l' :
  Permutation l' l -> existsb p l' = existsb p l.
Proof.
  intros Hp. destruct (existsb p l) eqn:E.
  - apply existsb_exists in E. destruct E as (x & Hx & Hpx).
    apply existsb_exists. exists x. split; [|exact Hpx].
    apply (Permutation_in _ (Permutation_sym Hp)). exact Hx.
  - destruct (existsb p l') eqn:E'; [|reflexivity].
    apply existsb_exists in E'. destruct E' as (x & Hx & Hpx).
    assert (existsb p l = true); [|congruence].
    apply existsb_exists. exists x. split; [|exact Hpx].
    apply (Permutation_in _ Hp). exact Hx.
Qed.

Lemma forallb_of_permutation {A : Type} (p : A -> bool) l l' :
  Permutation l' l -> forallb p l' = forallb p l.
Proof.
  induction 1 as [|x l1 l2 _ IH|x y l0|l1 l2 l3 _ IH1 _ IH2]; cbn [forallb].
  - reflexivity.
  - now rewrite IH.
  - now rewrite !andb_assoc, (andb_comm (p y)).
  - congruence.
Qed.

Lemma filter_of_permutation {A : Type} (p q : A -> bool) l l' :
  (forall a, p a = q a) -> Permutation l' l -> Permutation (filter p l') (filter q l).
Proof.
  intros Hpq. induction 1 as [|x l1 l2 _ IH|x y l0|l1 l2 l3 _ IH1 _ IH2]; cbn [filter].
  - constructor.
  - rewrite Hpq. destruct (q x); [now constructor | exact IH].
  - rewrite !Hpq. rewrite (filter_ext p q Hpq).
    destruct (q x), (q y); try reflexivity. apply perm_swap.
  - etransitivity; [exact IH1|]. rewrite <- (filter_ext p q Hpq). 
    etransitivity; [exact IH2|]. reflexivity.
Qed.

Lemma scalar_eqb_sym a b : scalar_eqb a b = scalar_eqb b a.
Proof.
  destruct a as [|x|x|x|x|x], b as [|y|y|y|y|y]; cbn [scalar_eqb]; try reflexivity.
  - now destruct x, y.
  - apply Z.eqb_sym.
  - apply String.eqb_sym.
Qed.

Lemma distinct_nil : distinct [].
Proof. intros a b []. Qed.

Lemma distinct_set_add v s : distinct s -> distinct (set_add v s).
Proof.
  intros Hs. unfold set_add. destruct (existsb (scalar_eqb v) s) eqn:E; [exact Hs|].
  assert (Hnot : forall a, In a s -> scalar_eqb v a = false).
  { intros a Ha. destruct (scalar_eqb v a) eqn:Ea; [|reflexivity].
    assert (existsb (scalar_eqb v) s = true); [|congruence].
    apply existsb_exists. eauto. }
  intros a b Ha Hb Hab. apply in_app_iff in Ha, Hb.
  destruct Ha as [Ha|[<-|[]]], Hb as [Hb|[<-|[]]].
  - now apply Hs.
  - rewrite scalar_eqb_sym, (Hnot a Ha) in Hab. discriminate.
  - rewrite (Hnot b Hb) in Hab. discriminate.
  - reflexivity.
Qed.

Lemma distinct_filter p l : distinct l -> distinct (filter p l).
Proof.
  intros Hl a b Ha Hb. apply filter_In in Ha, Hb. apply Hl; tauto.
Qed.

Lemma distinct_of_permutation l l' : Permutation l' l -> distinct l -> distinct l'.
Proof.
  intros Hp Hl a b Ha Hb. apply Hl; apply (Permutation_in _ Hp); assumption.
Qed.

(** What the loops of [collect_mapped] raise, and what they return. *)
Lemma collect_mapped_outcome cat id_field edges :
  match collect_mapped cat id_field edges with
  | Ok mapped => distinct mapped
  | Raise e => exists v, e = unhashable v
  end.
Proof.
  unfold collect_mapped.
  assert (Hgen : forall mapped, distinct mapped ->
    match
      for_each
        (fun mapped edge =>
           for_each
             (fun mapped md =>
                if has_category cat md then
                  let val := dict_get_or id_field VNone md in
                  if truthy val then
                    if hashable val then Ok (set_add val mapped)
                    else Raise (unhashable val)
                  else Ok mapped
                else Ok mapped)
             (mapping_details edge) mapped)
        edges mapped
    with
    | Ok mapped' => distinct mapped'
    | Raise e => exists v, e = unhashable v
    end); [|apply Hgen, distinct_nil].
  induction edges as [|edge edges IH]; intros mapped Hd; cbn [for_each]; [exact Hd|].
  assert (Hinner : forall records mapped0, distinct mapped0 ->
    match
      for_each
        (fun mapped md =>
           if has_category cat md then
             let val := dict_get_or id_field VNone md in
             if truthy val then
               if hashable val then Ok (set_add val mapped)
               else Raise (unhashable val)
             else Ok mapped
           else Ok mapped)
        records mapped0
    with
    | Ok mapped' => distinct mapped'
    | Raise e => exists v, e = unhashable v
    end).
  { induction records as [|md records IHr]; intros mapped0 Hd0; cbn [for_each];
      [exact Hd0|].
    destruct (has_category cat md); cbn [bind]; [|now apply IHr].
    cbv zeta. destruct (truthy _); cbn [bind]; [|now apply IHr].
    destruct (hashable _); cbn [bind]; [|eauto].
    apply IHr. now apply distinct_set_add. }
  specialize (Hinner (mapping_details edge) mapped Hd).
  destruct (for_each _ (mapping_details edge) mapped) as [mapped1|e]; cbn [bind];
    [now apply IH | exact Hinner].
Qed.

Lemma sorted_values_raises l e :
  sorted_values l = Raise e -> exists msg, e = TypeError msg.
Proof.
  unfold sorted_values. destruct l as [|a [|b l]]; try discriminate.
  destruct (forallb is_str _); [discriminate|].
  destruct (forallb is_int _); [discriminate|]. intros [= <-]. eauto.
Qed.

Lemma sorted_values_of_permutation l l' :
  Permutation l' l -> distinct l -> sorted_values l' = sorted_values l.
Proof.
  intros Hp Hd. pose proof (Permutation_length Hp) as Hlen.
  destruct l as [|a [|b l]].
  - apply Permutation_sym, Permutation_nil in Hp. now subst.
  - apply Permutation_sym, Permutation_length_1_inv in Hp. now subst.
  - destruct l' as [|a' [|b' l']]; try discriminate Hlen.
    unfold sorted_values.
    rewrite (forallb_of_permutation is_str _ _ Hp), (forallb_of_permutation is_int _ _ Hp).
    destruct (forallb is_str (a :: b :: l)) eqn:Es.
    + f_equal. apply sort_by_of_permutation; [| | |exact Hp].
      * intros x y. apply String.leb_total.
      * intros x y z. apply string_leb_trans.
      * intros x y Hx Hy H1 H2. rewrite forallb_forall in Es.
        pose proof (Es x Hx) as Sx. pose proof (Es y Hy) as Sy.
        destruct x; try discriminate. destruct y; try discriminate.
        cbn [str_value] in H1, H2. f_equal. now apply String.leb_antisym.
    + destruct (forallb is_int (a :: b :: l)) eqn:Ei; [|reflexivity].
      f_equal. apply sort_by_of_permutation; [| | |exact Hp].
      * intros x y. rewrite !Z.leb_le. lia.
      * intros x y z. rewrite !Z.leb_le. lia.
      * intros x y Hx Hy H1 H2. rewrite forallb_forall in Ei.
        pose proof (Ei x Hx) as Ix. pose proof (Ei y Hy) as Iy.
        apply Z.leb_le in H1, H2. apply (Hd x y Hx Hy).
        destruct x as [|p|p|p|p|p]; try discriminate;
          destruct y as [|q|q|q|q|q]; try discriminate;
          cbn [int_value scalar_eqb] in *.
        -- assert (int_of_bool p = int_of_bool q) by lia. now destruct p, q.
        -- apply Z.eqb_eq. lia.
        -- apply Z.eqb_eq. lia.
        -- apply Z.eqb_eq. lia.
Qed.

Lemma same_outcome_for_each {A S : Type} (f f' : S -> A -> result S) (l : list A) :
  (forall s a, same_outcome (f s a) (f' s a)) ->
  forall s, same_outcome (for_each f l s) (for_each f' l s).
Proof.
  intros Hf. induction l as [|a l IH]; intros s; cbn [for_each]; [reflexivity|].
  specialize (Hf s a).
  destruct (f s a) as [s1|[]], (f' s a) as [s2|[]]; cbn [same_outcome bind] in *;
    try contradiction; try exact I.
  subst s2. apply IH.
Qed.

Lemma is_mapped_of_permutation mapped mapped' s :
  Permutation mapped' mapped -> is_mapped mapped' s = is_mapped mapped s.
Proof. apply existsb_of_permutation. Qed.

Lemma is_defined_of_permutation defined defined' v :
  Permutation defined' defined -> is_defined defined' v = is_defined defined v.
Proof. apply existsb_of_permutation. Qed.

Lemma l3_pass_of_permutation nid node check d d' c c' :
  Permutation d' d -> Permutation c' c ->
  l3_pass nid node check d' c' = l3_pass nid node check d c.
Proof.
  intros Hd Hc. unfold l3_pass.
  now rewrite (sorted_of_permutation d d' Hd), (sorted_of_permutation c c' Hc),
    (Permutation_length Hd).
Qed.

Lemma l3_fail_of_permutation nid node check d d' c c' m m' :
  Permutation d' d -> Permutation c' c -> Permutation m' m ->
  l3_fail nid node check d' c' m' = l3_fail nid node check d c m.
Proof.
  intros Hd Hc Hm. unfold l3_fail.
  now rewrite (sorted_of_permutation d d' Hd), (sorted_of_permutation c c' Hc),
    (sorted_of_permutation m m' Hm),
    (Permutation_length Hd), (Permutation_length Hc), (Permutation_length Hm).
Qed.

Lemma same_outcome_refl {A : Type} (a : A) : same_outcome (Ok a) (Ok a).
Proof. reflexivity. Qed.

(** One coverage check gives the same items in any iteration order. *)
Lemma l3_check_ord_agrees order complaint g nid node outgoing report check :
  iteration_order order ->
  same_outcome (l3_check_ord order complaint g nid node outgoing report check)
               (l3_check g nid node outgoing report check).
Proof.
  intros Hord. unfold l3_check_ord, l3_check.
  destruct (dict_get_or (element_key check) [] (defined_elements node)) as [|el els];
    [reflexivity|].
  destruct (filter (is_relevant (all_nodes g) (target_types check)) outgoing)
    as [|re res]; [reflexivity|].
  pose proof (collect_mapped_outcome (check_category check)
                (element_field_in_mapping check) (re :: res)) as Hc.
  destruct (collect_mapped (check_category check) (element_field_in_mapping check)
              (re :: res)) as [mapped|e]; cbn [bind];
    [|destruct Hc as [v ->]; exact I].
  cbv zeta. set (defined := set_of (el :: els)).
  assert (Hm : Permutation (order _ mapped) mapped) by apply Hord.
  assert (Hdf : Permutation (order _ defined) defined) by apply Hord.
  assert (Hcov : Permutation
                   (order _ (filter (is_mapped (order _ mapped)) (order _ defined)))
                   (filter (is_mapped mapped) defined)).
  { etransitivity; [apply Hord|]. apply filter_of_permutation; [|exact Hdf].
    intros s. now apply is_mapped_of_permutation. }
  assert (Hmis : Permutation
                   (order _ (filter (fun s => negb (is_mapped (order _ mapped) s))
                                    (order _ defined)))
                   (filter (fun s => negb (is_mapped mapped s)) defined)).
  { etransitivity; [apply Hord|]. apply filter_of_permutation; [|exact Hdf].
    intros s. f_equal. now apply is_mapped_of_permutation. }
  assert (Hext : Permutation
                   (order _ (filter (fun v => negb (is_defined (order _ defined) v))
                                    (order _ mapped)))
                   (filter (fun v => negb (is_defined defined v)) mapped)).
  { etransitivity; [apply Hord|]. apply filter_of_permutation; [|exact Hm].
    intros v. f_equal. now apply is_defined_of_permutation. }
  assert (Hdist : distinct (filter (fun v => negb (is_defined defined v)) mapped))
    by now apply distinct_filter.
  revert Hcov Hmis Hext Hdist.
  generalize (order _ (filter (is_mapped (order _ mapped)) (order _ defined))) as cov'.
  generalize (order _ (filter (fun s => negb (is_mapped (order _ mapped) s))
                              (order _ defined))) as mis'.
  generalize (order _ (filter (fun v => negb (is_defined (order _ defined) v))
                              (order _ mapped))) as ext'.
  generalize (filter (is_mapped mapped) defined) as cov.
  generalize (filter (fun s => negb (is_mapped mapped s)) defined) as mis.
  generalize (filter (fun v => negb (is_defined defined v)) mapped) as ext.
  intros ext mis cov ext' mis' cov' Hcov Hmis Hext Hdist.
  assert (Hreport :
    match mis' with
    | [] => report ++ [l3_pass nid node check (order _ defined) cov']
    | _ :: _ => report ++ [l3_fail nid node check (order _ defined) cov' mis']
    end
    = match mis with
      | [] => report ++ [l3_pass nid node check defined cov]
      | _ :: _ => report ++ [l3_fail nid node check defined cov mis]
      end).
  { pose proof (Permutation_length Hmis) as Hlen.
    destruct mis as [|m mis], mis' as [|m' mis']; try discriminate Hlen.
    - now rewrite (l3_pass_of_permutation nid node check _ _ _ _ Hdf Hcov).
    - now rewrite (l3_fail_of_permutation nid node check _ _ _ _ _ _ Hdf Hcov Hmis). }
  rewrite Hreport. clear Hreport.
  pose proof (Permutation_length Hext) as Hlen.
  destruct ext as [|x ext], ext' as [|x' ext']; try discriminate Hlen; [reflexivity|].
  unfold sorted_values_ord. rewrite (sorted_values_of_permutation _ _ Hext Hdist).
  destruct (sorted_values (x :: ext)) as [sorted_extra|e] eqn:Es; cbn [bind].
  - reflexivity.
  - apply sorted_values_raises in Es. destruct Es as [msg ->]. exact I.
Qed.

Lemma l3_node_ord_agrees order complaint g report kv :
  iteration_order order ->
  same_outcome (l3_node_ord order complaint g report kv) (l3_node g report kv).
Proof.
  intros Hord. unfold l3_node_ord, l3_node. destruct kv as [nid node].
  destruct (defined_elements node); [reflexivity|].
  apply same_outcome_for_each. intros s a. now apply l3_check_ord_agrees.
Qed.

Lemma level3_ord_agrees order complaint g report :
  iteration_order order ->
  same_outcome (_level3_element_coverage_ord order complaint g report)
               (_level3_element_coverage g report).
Proof.
  intros Hord. apply same_outcome_for_each. intros s a. now apply l3_node_ord_agrees.
Qed.

Lemma l1_expected_of_permutation nid node tts tts' key values report t :
  Permutation tts' tts ->
  l1_expected nid node tts' key values report t
  = l1_expected nid node tts key values report t.
Proof.
  intros Hp. unfold l1_expected. now rewrite (existsb_of_permutation _ _ _ Hp).
Qed.

Lemma fold_left_ext {A B : Type} (f f' : A -> B -> A) (l : list B) :
  (forall a b, f a b = f' a b) -> forall a, fold_left f l a = fold_left f' l a.
Proof.
  intros H. induction l as [|b l IH]; intros a; cbn [fold_left]; [reflexivity|].
  now rewrite H, IH.
Qed.

Lemma level1_ord_agrees order g report :
  iteration_order order ->
  _level1_structural_ord order g report = _level1_structural g report.
Proof.
  intros Hord. unfold _level1_structural_ord, _level1_structural.
  apply fold_left_ext. intros r [nid node]. unfold l1_node_ord, l1_node.
  destruct (node_type node); try reflexivity;
    (destruct (defined_elements node) as [|kv0 elements]; [reflexivity|];
     apply fold_left_ext; intros r0 [key values]; unfold l1_element;
     destruct values; [reflexivity|]; apply fold_left_ext; intros r1 t;
     apply l1_expected_of_permutation, Hord).
Qed.

Lemma level2_raises g report e :
  _level2_field_completeness g report = Raise e -> exists msg, e = TypeError msg.
Proof.
  rewrite level2_appends. pose proof (level2_cases g) as H.
  destruct (existsb _ (all_edges g)).
  - destruct H as (kv & md & _ & _ & _ & _ & ->). cbn [extend]. intros [= <-].
    unfold unhashable. eauto.
  - destruct H as [items ->]. discriminate.
Qed.

(** The validator gives the same outcome in any iteration order as in
    insertion order. *)
Lemma validate_ord_agrees order complaint g now :
  iteration_order order ->
  same_outcome (validate_ord order complaint g now) (validate g now).
Proof.
  intros Hord. unfold validate_ord, validate. cbv zeta.
  rewrite (level1_ord_agrees order g [] Hord).
  destruct (_level2_field_completeness g (_level1_structural g [])) as [report2|e] eqn:E2;
    cbn [bind].
  - pose proof (level3_ord_agrees order complaint g report2 Hord) as H3.
    destruct (_level3_element_coverage_ord order complaint g report2) as [r|[]],
             (_level3_element_coverage g report2) as [r'|[]];
      cbn [same_outcome bind] in *; try contradiction; try exact I.
    now subst.
  - apply level2_raises in E2. destruct E2 as [msg ->]. exact I.
Qed.

Lemma validate_insertion_order g now :
  validate_ord insertion_order unlike_types g now = validate g now.
Proof.
  unfold validate_ord, validate. cbv zeta.
  assert (H1 : forall r, _level1_structural_ord insertion_order g r = _level1_structural g r)
    by reflexivity.
  rewrite H1.
  destruct (_level2_field_completeness g (_level1_structural g [])) as [report2|e];
    cbn [bind]; [|reflexivity].
  assert (H3 : _level3_element_coverage_ord insertion_order unlike_types g report2
               = _level3_element_coverage g report2); [|now rewrite H3].
  unfold _level3_element_coverage_ord, _level3_element_coverage. revert report2.
  induction (all_nodes g) as [|[nid node] l IH]; intros r; cbn [for_each]; [reflexivity|].
  assert (Hn : l3_node_ord insertion_order unlike_types g r (nid, node)
               = l3_node g r (nid, node)).
  { unfold l3_node_ord, l3_node. destruct (defined_elements node); [reflexivity|].
    generalize COVERAGE_CHECKS as checks. intros checks. revert r.
    induction checks as [|check checks IHc]; intros r; cbn [for_each]; [reflexivity|].
    assert (Hc : l3_check_ord insertion_order unlike_types g nid node
                   (get_edges_from g nid) r check
                 = l3_check g nid node (get_edges_from g nid) r check).
    { unfold l3_check_ord, l3_check, insertion_order.
      destruct (dict_get_or _ _ _); [reflexivity|].
      destruct (filter _ (get_edges_from g nid)); [reflexivity|].
      destruct (collect_mapped _ _ _) as [mapped|e]; cbn [bind]; [|reflexivity].
      cbv zeta.
      destruct (filter (fun v => negb (is_defined _ v)) mapped) as [|x ext] eqn:Ex;
        [reflexivity|].
      unfold sorted_values_ord.
      destruct (sorted_values (x :: ext)) as [sx|ex] eqn:Es; [reflexivity|].
      cbn [bind]. f_equal. unfold sorted_values in Es.
      destruct ext; [discriminate|].
      destruct (forallb is_str _); [discriminate|].
      destruct (forallb is_int _); [discriminate|]. now injection Es as <-. }
    rewrite Hc. destruct (l3_check _ _ _ _ _ _); cbn [bind]; [apply IHc | reflexivity]. }
  rewrite Hn. destruct (l3_node g r (nid, node)); cbn [bind]; [apply IH | reflexivity].
Qed.

(** C2, amended: two runs of the validator on the same store, at any two
    readings of the clock and in any two iteration orders of the sets
    they build, return reports that differ in the timestamp only: the
    same items in the same order, and summaries that are equal once the
    timestamp entry is set aside.  If one run raises, the other raises as
    well, and both raise [TypeError]. *)
Theorem validate_deterministic_up_to_timestamp
    (order1 order2 : forall A : Type, list A -> list A)
    (complaint1 complaint2 : list pyval -> string)
    (g : GraphManager) (t1 t2 : Z) :
  iteration_order order1 ->
  iteration_order order2 ->
  match validate_ord order1 complaint1 g t1, validate_ord order2 complaint2 g t2 with
  | Ok r1, Ok r2 =>
      timestamp r1 = t1
      /\ r2 = mk_report t2 (items r1)
      /\ summary r2 = summary_at t2 (summary r1)
  | Raise (TypeError _), Raise (TypeError _) => True
  | _, _ => False
  end.
Proof.
  intros H1 H2.
  pose proof (validate_ord_agrees order1 complaint1 g t1 H1) as A1.
  pose proof (validate_ord_agrees order2 complaint2 g t2 H2) as A2.
  assert (Hv : validate g t2
               = match validate g t1 with
                 | Ok r => Ok (mk_report t2 (items r))
                 | Raise e => Raise e
                 end).
  { unfold validate. cbv zeta.
    destruct (_level2_field_completeness g (_level1_structural g [])) as [r2|e];
      [|reflexivity].
    cbn [bind]. destruct (_level3_element_coverage g r2); reflexivity. }
  assert (Ht : forall r, validate g t1 = Ok r -> timestamp r = t1).
  { unfold validate. cbv zeta.
    destruct (_level2_field_completeness g (_level1_structural g [])) as [r2|e];
      [|discriminate].
    cbn [bind]. destruct (_level3_element_coverage g r2); [|discriminate].
    now intros r [= <-]. }
  rewrite Hv in A2.
  destruct (validate_ord order1 complaint1 g t1) as [r1|[]],
           (validate g t1) as [r|[]];
    cbn [same_outcome] in A1; try contradiction;
    destruct (validate_ord order2 complaint2 g t2) as [r2|[]];
    cbn [same_outcome] in A2; try contradiction; try exact I.
  subst r1 r2. split; [now apply Ht|]. split; [reflexivity|].
  unfold summary, summary_at, is_valid, coverage_pct, passes, warnings, failures.
  reflexivity.
Qed.

Lemma validate_deterministic_up_to_timestamp_witness :
  exists r1 r2,
    validate_ord insertion_order unlike_types stray_ports 1000 = Ok r1
    /\ validate_ord reverse_order unlike_types stray_ports 1001 = Ok r2
    /\ r2 = mk_report 1001 (items r1).
Proof.
  pose proof (validate_deterministic_up_to_timestamp
                insertion_order reverse_order unlike_types unlike_types
                stray_ports 1000 1001) as H.
  destruct (validate_ord insertion_order unlike_types stray_ports 1000)
    as [r1|e1] eqn:E1; [|vm_compute in E1; discriminate E1].
  destruct (validate_ord reverse_order unlike_types stray_ports 1001)
    as [r2|e2] eqn:E2; [|vm_compute in E2; discriminate E2].
  exists r1, r2. split; [reflexivity|]. split; [reflexivity|].
  apply H.
  - intros A l. reflexivity.
  - intros A l. symmetry. apply Permutation_rev.
Defined.
